(** * Audio labeller: FFT engine, mel spectrogram and masked reconstruction

    A shallow embedding of [services/audioUtils]: the radix-2 [FFT] class,
    [hanningWindow], [hzToMel] / [melToHz], [computeSpectrogram] and
    [applyMaskAndReconstruct].

    JavaScript numbers are kept behind the interface [JSNumber]; every
    arithmetic operation of the source appears as one operation of the
    interface, in the source's order of evaluation, and every store into a
    [Float32Array] goes through [fround].  Loop counters, array indices and
    array lengths hold integers and are modelled in [Z]. *)

From Stdlib Require Import Floats ZArith List Bool Lia Reals Lra.
Import ListNotations.
Open Scope Z_scope.

(** ** Integers as loop bounds

    A JavaScript number used as a loop bound or as an array length is an
    integer, [NaN] or an infinity. *)
Inductive jsint : Type :=
| JInt (z : Z)
| JNaN
| JPosInf
| JNegInf.

(** ** The number interface *)
Class JSNumber : Type := {
  num : Type;
  (** integer to number conversion (loop counters used in arithmetic) *)
  ofZ : Z -> num;
  (** the value an [undefined] read turns into under arithmetic *)
  nan : num;
  (** the literals [0.5] and [1e-10], and [Math.PI] *)
  half : num;
  eps : num;
  Math_PI : num;
  add : num -> num -> num;
  sub : num -> num -> num;
  mul : num -> num -> num;
  div : num -> num -> num;
  neg : num -> num;
  Math_sqrt : num -> num;
  Math_cos : num -> num;
  Math_sin : num -> num;
  Math_log10 : num -> num;
  Math_pow : num -> num -> num;
  Math_max : num -> num -> num;
  (** [Math.floor] of a number, stored in a [Float32Array] and read back as a
      loop bound *)
  floorJ : num -> jsint;
  gtb : num -> num -> bool;
  geb : num -> num -> bool;
  leb : num -> num -> bool;
  (** rounding of a store into a [Float32Array] ([Math.fround]) *)
  fround : num -> num
}.

(** ** Outcomes of a call: a value, an exception, or no return at all *)
Inductive jsError : Type :=
| RangeError
| NotSupportedError.

Inductive outcome (A : Type) : Type :=
| Ok (a : A)
| Throw (e : jsError)
| Diverge.
Arguments Ok {A} a.
Arguments Throw {A} e.
Arguments Diverge {A}.

(** The call does not return. *)
Definition never_returns {A : Type} (o : outcome A) : bool :=
  match o with
  | Diverge => true
  | _ => false
  end.

Definition bind {A B : Type} (c : outcome A) (k : A -> outcome B) : outcome B :=
  match c with
  | Ok a => k a
  | Throw e => Throw e
  | Diverge => Diverge
  end.

Notation "x <- c ;; k" := (bind c (fun x => k))
  (at level 61, c at next level, right associativity).
Notation "' p <- c ;; k" := (bind c (fun x => let 'p := x in k))
  (at level 61, p pattern, c at next level, right associativity).

(** ** Loops *)

(** The values taken by the counter of [for (i = lo; ...; i += step)] over
    [cnt] iterations. *)
Fixpoint zsteps (lo step : Z) (cnt : nat) : list Z :=
  match cnt with
  | O => []
  | S c => lo :: zsteps (lo + step) step c
  end.

(** [for (let i = lo; i < hi; i++) body] *)
Definition for_upto {S : Type} (lo hi : Z) (body : Z -> S -> S) (s : S) : S :=
  fold_left (fun s i => body i s) (zsteps lo 1 (Z.to_nat (hi - lo))) s.

(** [for (let k = lo; k < hi; k += step) body], for a positive [step] *)
Definition for_step {S : Type} (lo hi step : Z) (body : Z -> S -> S) (s : S) : S :=
  fold_left (fun s i => body i s)
            (zsteps lo step (Z.to_nat ((hi - lo + step - 1) / step))) s.

(** A loop whose body may throw or fail to return. *)
Fixpoint foldM {S : Type} (body : Z -> S -> outcome S) (l : list Z) (s : S)
  : outcome S :=
  match l with
  | [] => Ok s
  | i :: l' => s' <- body i s ;; foldM body l' s'
  end.

Definition for_uptoM {S : Type} (lo hi : Z) (body : Z -> S -> outcome S) (s : S)
  : outcome S :=
  foldM body (zsteps lo 1 (Z.to_nat (hi - lo))) s.

(** ** 32-bit integer operators *)
Definition toInt32 (z : Z) : Z := (z + 2 ^ 31) mod 2 ^ 32 - 2 ^ 31.
(** [a << s] *)
Definition js_shl (a s : Z) : Z := toInt32 (Z.shiftl (toInt32 a) (s mod 32)).
(** [a >> s] *)
Definition js_sar (a s : Z) : Z := Z.shiftr (toInt32 a) (s mod 32).

(** [Math.log2(n)] for an integer [n], as the bound of the integer counter in
    [s <= this.m]: the comparison holds exactly when [s] is at most the
    integer part of the logarithm. *)
Definition Math_log2_bound (n : Z) : jsint :=
  if n <? 0 then JNaN else if n =? 0 then JNegInf else JInt (Z.log2 n).

(** [Math.floor((a) / h)] for integers [a] and [h]. *)
Definition floor_div (a h : Z) : jsint :=
  if h =? 0 then
    (if 0 <? a then JPosInf else if a <? 0 then JNegInf else JNaN)
  else JInt (a / h).

Section Audio.
Context {N : JSNumber}.

(** ** Typed arrays *)
Definition Float32Array : Type := list num.

(** [new Float32Array(len)], [len] already truncated to an integer. *)
Definition new_Float32Array (len : Z) : outcome Float32Array :=
  if len <? 0 then Throw RangeError else Ok (repeat (ofZ 0) (Z.to_nat len)).

(** [a[i]] read as a number: a read outside the array gives [undefined]. *)
Definition aget (a : Float32Array) (i : Z) : num :=
  if i <? 0 then nan else nth (Z.to_nat i) a nan.

Fixpoint upd (a : list num) (i : nat) (v : num) : list num :=
  match a, i with
  | [], _ => []
  | _ :: t, O => v :: t
  | x :: t, S i' => x :: upd t i' v
  end.

(** [a[i] = v]: a store outside the array is ignored. *)
Definition aset (a : Float32Array) (i : Z) (v : num) : Float32Array :=
  if i <? 0 then a else upd a (Z.to_nat i) (fround v).

(** ** The FFT class *)
Record FFT : Type := mkFFT {
  fft_n : Z;
  fft_m : jsint;
  fft_cos : Float32Array;
  fft_sin : Float32Array
}.

(** [(2 * Math.PI * i) / n] *)
Definition angle (i n : Z) : num :=
  div (mul (mul (ofZ 2) Math_PI) (ofZ i)) (ofZ n).

(** The constructor. [i < n / 2] holds exactly when [i < (n + 1) / 2] in
    integer division; [new Float32Array(n / 2)] truncates [n / 2]. *)
Definition FFT_new (n : Z) : outcome FFT :=
  cos0 <- new_Float32Array (Z.quot n 2) ;;
  sin0 <- new_Float32Array (Z.quot n 2) ;;
  let '(c, s) :=
    for_upto 0 ((n + 1) / 2)
      (fun i '(c, s) =>
         (aset c i (Math_cos (angle i n)), aset s i (Math_sin (angle i n))))
      (cos0, sin0) in
  Ok (mkFFT n (Math_log2_bound n) c s).

(** [while (k <= j) { j -= k; k >>= 1; }]: [k] is a 32-bit integer, so after
    32 halvings it is constant (0 or -1) and a loop still running then never
    stops. *)
Fixpoint bitrev_while (fuel : nat) (k j : Z) : outcome (Z * Z) :=
  match fuel with
  | O => Diverge
  | S fuel' =>
      if k <=? j then bitrev_while fuel' (js_sar k 1) (j - k) else Ok (k, j)
  end.

Definition bitrev_fuel : nat := 40.

(** The exchange [if (i < j) { ... }] at the head of the bit-reversal loop. *)
Definition swap_when_less (i j : Z) (st : Float32Array * Float32Array)
  : Float32Array * Float32Array :=
  let '(real, imag) := st in
  if i <? j then
    let tr := aget real i in
    let ti := aget imag i in
    let real := aset real i (aget real j) in
    let imag := aset imag i (aget imag j) in
    let real := aset real j tr in
    let imag := aset imag j ti in
    (real, imag)
  else (real, imag).

(** One iteration of the bit-reversal loop of [forward]. *)
Definition bitrev_step (n : Z) (i : Z)
  (st : Float32Array * Float32Array * Z) : outcome (Float32Array * Float32Array * Z) :=
  let '(real, imag, j) := st in
  let '(real, imag) := swap_when_less i j (real, imag) in
  ' (k, j) <- bitrev_while bitrev_fuel (js_sar n 1) j ;;
  Ok (real, imag, j + k).

(** [this.cos[j * (this.n / m)]]: [m] is a power of two, so the quotient and
    the product are exact; a fractional index reads [undefined]. *)
Definition table_get (tbl : Float32Array) (j n m : Z) : num :=
  if (j * n) mod m =? 0 then aget tbl (j * n / m) else nan.

(** The body of the innermost loop of [forward]. *)
Definition butterfly (m2 : Z) (wr wi : num) (k : Z)
  (st : Float32Array * Float32Array) : Float32Array * Float32Array :=
  let '(real, imag) := st in
  let tr := sub (mul wr (aget real (k + m2))) (mul wi (aget imag (k + m2))) in
  let ti := add (mul wr (aget imag (k + m2))) (mul wi (aget real (k + m2))) in
  let real := aset real (k + m2) (sub (aget real k) tr) in
  let imag := aset imag (k + m2) (sub (aget imag k) ti) in
  let real := aset real k (add (aget real k) tr) in
  let imag := aset imag k (add (aget imag k) ti) in
  (real, imag).

(** One pass [s] of the outer butterfly loop. The loop over [k] is entered
    only for [j < m2], hence with [m >= 2]. *)
Definition FFT_stage (fft : FFT) (s : Z)
  (st : Float32Array * Float32Array) : Float32Array * Float32Array :=
  let m := js_shl 1 s in
  let m2 := js_sar m 1 in
  for_upto 0 m2
    (fun j st =>
       let wr := table_get (fft_cos fft) j (fft_n fft) m in
       let wi := neg (table_get (fft_sin fft) j (fft_n fft) m) in
       for_step j (fft_n fft) m (butterfly m2 wr wi) st)
    st.

(** The integer held by a bound; used where the bound is known to be one
    ([s <= this.m] runs no pass for the other bounds). *)
Definition int_bound (b : jsint) : Z :=
  match b with
  | JInt z => z
  | _ => 0
  end.

Definition FFT_forward (fft : FFT) (real imag : Float32Array)
  : outcome (Float32Array * Float32Array) :=
  ' (real, imag, _) <-
    for_uptoM 0 (fft_n fft - 1) (bitrev_step (fft_n fft)) (real, imag, 0) ;;
  Ok (for_upto 1 (int_bound (fft_m fft) + 1) (FFT_stage fft) (real, imag)).

Definition FFT_inverse (fft : FFT) (real imag : Float32Array)
  : outcome (Float32Array * Float32Array) :=
  let imag := for_upto 0 (fft_n fft) (fun i im => aset im i (neg (aget im i))) imag in
  ' (real, imag) <- FFT_forward fft real imag ;;
  Ok (for_upto 0 (fft_n fft)
        (fun i '(re, im) =>
           let re := aset re i (div (aget re i) (ofZ (fft_n fft))) in
           let im := aset im i (div (aget im i) (neg (ofZ (fft_n fft)))) in
           (re, im))
        (real, imag)).


(** ** Window and mel utilities *)
Definition hanningWindow (n : Z) : outcome Float32Array :=
  window <- new_Float32Array n ;;
  Ok (for_upto 0 n
        (fun i w =>
           aset w i
             (mul half
                (sub (ofZ 1)
                   (Math_cos
                      (div (mul (mul (ofZ 2) Math_PI) (ofZ i)) (ofZ (n - 1)))))))
        window).

Definition hzToMel (hz : num) : num :=
  mul (ofZ 2595) (Math_log10 (add (ofZ 1) (div hz (ofZ 700)))).

Definition melToHz (mel : num) : num :=
  mul (ofZ 700) (sub (Math_pow (ofZ 10) (div mel (ofZ 2595))) (ofZ 1)).

(** ** Audio buffers (channel 0 only) and results *)
Record AudioBuffer : Type := mkAudioBuffer {
  channelData : Float32Array;
  sampleRate : num
}.

Definition buffer_length (b : AudioBuffer) : Z := Z.of_nat (length (channelData b)).

Record SpectrogramData : Type := mkSpectrogramData {
  spectrogram : list (list num);
  frequencies : list num;
  times : list num
}.

Record Annotation : Type := mkAnnotation {
  ann_x : num;
  ann_width : num
}.

(** ** The mel filterbank *)

(** [melPoints]: [melBinsCount + 2] boundary frequencies. *)
Definition melPoints (sampleRate : num) (melBinsCount : Z) : outcome Float32Array :=
  let minHz := ofZ 0 in
  let maxHz := div sampleRate (ofZ 2) in
  let minMel := hzToMel minHz in
  let maxMel := hzToMel maxHz in
  mp <- new_Float32Array (melBinsCount + 2) ;;
  Ok (for_upto 0 (melBinsCount + 2)
        (fun i mp =>
           aset mp i
             (melToHz
                (add minMel
                   (div (mul (ofZ i) (sub maxMel minMel)) (ofZ (melBinsCount + 1))))))
        mp).

(** [binPoints = melPoints.map(hz => Math.floor(((windowSize + 1) * hz) / sampleRate))] *)
Definition binPoints (windowSize : Z) (sampleRate : num) (mp : Float32Array)
  : list jsint :=
  map (fun hz => floorJ (div (mul (ofZ (windowSize + 1)) hz) sampleRate)) mp.

Definition bget (bp : list jsint) (i : Z) : jsint :=
  if i <? 0 then JNaN else nth (Z.to_nat i) bp JNaN.

(** What [for (let j = a; j < b; j++)] does for number bounds [a] and [b]:
    every comparison with [NaN] is false, and stepping from [-Infinity], or
    towards [+Infinity], never ends. *)
Inductive loop_shape : Type :=
| Iterate (lo hi : Z)
| NoIteration
| Forever.

Definition num_loop (a b : jsint) : loop_shape :=
  match a, b with
  | JInt x, JInt y => Iterate x y
  | JInt _, JPosInf => Forever
  | JNegInf, JInt _ => Forever
  | JNegInf, JPosInf => Forever
  | _, _ => NoIteration
  end.

(** The rising loop of one filter. *)
Definition filter_rise (bp : list jsint) (i : Z) (filter : Float32Array)
  : outcome Float32Array :=
  match num_loop (bget bp i) (bget bp (i + 1)) with
  | Iterate b0 b1 =>
      Ok (for_upto b0 b1
            (fun j f => aset f j (div (ofZ (j - b0)) (ofZ (b1 - b0)))) filter)
  | NoIteration => Ok filter
  | Forever => Diverge
  end.

(** The falling loop of one filter. *)
Definition filter_fall (bp : list jsint) (i : Z) (filter : Float32Array)
  : outcome Float32Array :=
  match num_loop (bget bp (i + 1)) (bget bp (i + 2)) with
  | Iterate b1 b2 =>
      Ok (for_upto b1 b2
            (fun j f => aset f j (div (ofZ (b2 - j)) (ofZ (b2 - b1)))) filter)
  | NoIteration => Ok filter
  | Forever => Diverge
  end.

(** The callback of [Array.from({ length: melBinsCount }, (_, i) => ...)];
    [new Float32Array(windowSize / 2 + 1)] truncates [(windowSize + 2) / 2]. *)
Definition build_filter (windowSize : Z) (bp : list jsint) (i : Z)
  : outcome Float32Array :=
  filter <- new_Float32Array (Z.quot (windowSize + 2) 2) ;;
  filter <- filter_rise bp i filter ;;
  filter_fall bp i filter.

Fixpoint mapM {A B : Type} (f : A -> outcome B) (l : list A) : outcome (list B) :=
  match l with
  | [] => Ok []
  | x :: l' => y <- f x ;; ys <- mapM f l' ;; Ok (y :: ys)
  end.

Definition build_filterbank (windowSize : Z) (bp : list jsint) (melBinsCount : Z)
  : outcome (list Float32Array) :=
  mapM (build_filter windowSize bp) (zsteps 0 1 (Z.to_nat melBinsCount)).

(** ** Framing *)

(** [real[i] = data[start + i] * window[i]] for [i < windowSize]. *)
Definition window_frame (data window : Float32Array) (windowSize start : Z)
  (real : Float32Array) : Float32Array :=
  for_upto 0 windowSize
    (fun i re => aset re i (mul (aget data (start + i)) (aget window i))) real.

(** The frame loop [for (let f = 0; f < numFrames; f++)]. *)
Definition frame_loop {S : Type} (numFrames : jsint)
  (body : Z -> S -> outcome S) (s : S) : outcome S :=
  match numFrames with
  | JInt nf => for_uptoM 0 nf body s
  | JPosInf => Diverge
  | _ => Ok s
  end.

(** The length [Array.from({ length: numFrames }, ...)] gives its result. *)
Definition array_from_length (numFrames : jsint) : nat :=
  match numFrames with
  | JInt nf => Z.to_nat nf
  | _ => O
  end.

(** ** computeSpectrogram *)

(** [magnitudes[i] = sqrt(re^2 + im^2)] for [i <= windowSize / 2]. *)
Definition magnitudes_of (windowSize : Z) (real imag : Float32Array)
  : outcome Float32Array :=
  mg <- new_Float32Array (Z.quot (windowSize + 2) 2) ;;
  Ok (for_upto 0 (windowSize / 2 + 1)
        (fun i mg =>
           aset mg i
             (Math_sqrt (add (mul (aget real i) (aget real i))
                             (mul (aget imag i) (aget imag i)))))
        mg).

(** The callback of [filterbank.map]. *)
Definition mel_value (magnitudes filter : Float32Array) : num :=
  let sum :=
    for_upto 0 (Z.of_nat (length magnitudes))
      (fun i sum => add sum (mul (aget magnitudes i) (aget filter i))) (ofZ 0) in
  mul (ofZ 20) (Math_log10 (Math_max eps sum)).

(** The state the frame loop of [computeSpectrogram] works on: the channel
    data it reads, and the rows pushed so far. *)
Record SpecState : Type := mkSpecState {
  sp_data : Float32Array;
  sp_rows : list (list num)
}.

Definition spectrogram_frame (fft : FFT) (window : Float32Array)
  (filterbank : list Float32Array) (windowSize hopSize : Z) (f : Z)
  (st : SpecState) : outcome SpecState :=
  let start := f * hopSize in
  real <- new_Float32Array windowSize ;;
  imag <- new_Float32Array windowSize ;;
  let real := window_frame (sp_data st) window windowSize start real in
  ' (real, imag) <- FFT_forward fft real imag ;;
  magnitudes <- magnitudes_of windowSize real imag ;;
  let melFrame := map (mel_value magnitudes) filterbank in
  Ok (mkSpecState (sp_data st) (sp_rows st ++ [melFrame])).

(** Returns the result together with the channel data as the call leaves it. *)
Definition computeSpectrogram (audioBuffer : AudioBuffer)
  (windowSize hopSize melBinsCount : Z)
  : outcome (SpectrogramData * Float32Array) :=
  let data := channelData audioBuffer in
  let sampleRate := sampleRate audioBuffer in
  fft <- FFT_new windowSize ;;
  window <- hanningWindow windowSize ;;
  let numFrames := floor_div (Z.of_nat (length data) - windowSize) hopSize in
  mp <- melPoints sampleRate melBinsCount ;;
  let bp := binPoints windowSize sampleRate mp in
  filterbank <- build_filterbank windowSize bp melBinsCount ;;
  st <- frame_loop numFrames
          (spectrogram_frame fft window filterbank windowSize hopSize)
          (mkSpecState data []) ;;
  Ok (mkSpectrogramData
        (sp_rows st)
        (firstn (Z.to_nat melBinsCount) (skipn 1 mp))
        (map (fun i => div (ofZ (i * hopSize)) sampleRate)
             (zsteps 0 1 (array_from_length numFrames))),
      sp_data st).

(** ** applyMaskAndReconstruct *)

(** The loop over the annotations, left at the first interval that holds
    [timePos]. *)
Fixpoint isTimeMasked (timePos : num) (annotations : list Annotation) : bool :=
  match annotations with
  | [] => false
  | ann :: rest =>
      if geb timePos (ann_x ann) && leb timePos (add (ann_x ann) (ann_width ann))
      then true
      else isTimeMasked timePos rest
  end.

(** [a.fill(v)] *)
Definition afill (a : Float32Array) (v : num) : Float32Array :=
  map (fun _ => fround v) a.

(** The state the reconstruction works on: the channel data it reads and the
    two accumulation buffers. *)
Record ReconState : Type := mkReconState {
  rc_data : Float32Array;
  rc_reconstructed : Float32Array;
  rc_norm : Float32Array
}.

(** Forward transform, masking and inverse transform of one frame. *)
Definition process_frame (fft : FFT) (window : Float32Array)
  (annotations : list Annotation) (windowSize hopSize numFrames : Z) (f : Z)
  (data : Float32Array) : outcome (Float32Array * Float32Array) :=
  let start := f * hopSize in
  frameReal <- new_Float32Array windowSize ;;
  frameImag <- new_Float32Array windowSize ;;
  let frameReal := window_frame data window windowSize start frameReal in
  ' (frameReal, frameImag) <- FFT_forward fft frameReal frameImag ;;
  let timePos := div (ofZ f) (ofZ numFrames) in
  let '(frameReal, frameImag) :=
    if isTimeMasked timePos annotations
    then (afill frameReal (ofZ 0), afill frameImag (ofZ 0))
    else (frameReal, frameImag) in
  FFT_inverse fft frameReal frameImag.

(** Overlap-add of one synthesised frame. *)
Definition overlap_add (window frameReal : Float32Array) (windowSize start : Z)
  (st : ReconState) : ReconState :=
  for_upto 0 windowSize
    (fun i st =>
       mkReconState
         (rc_data st)
         (aset (rc_reconstructed st) (start + i)
            (add (aget (rc_reconstructed st) (start + i))
                 (mul (aget frameReal i) (aget window i))))
         (aset (rc_norm st) (start + i)
            (add (aget (rc_norm st) (start + i))
                 (mul (aget window i) (aget window i)))))
    st.

Definition recon_frame (fft : FFT) (window : Float32Array)
  (annotations : list Annotation) (windowSize hopSize numFrames : Z) (f : Z)
  (st : ReconState) : outcome ReconState :=
  ' (frameReal, _) <-
    process_frame fft window annotations windowSize hopSize numFrames f (rc_data st) ;;
  Ok (overlap_add window frameReal windowSize (f * hopSize) st).

(** [if (norm[i] > 1e-10) reconstructed[i] /= norm[i]] for every [i]. *)
Definition normalize (st : ReconState) : ReconState :=
  for_upto 0 (Z.of_nat (length (rc_reconstructed st)))
    (fun i st =>
       if gtb (aget (rc_norm st) i) eps
       then mkReconState
              (rc_data st)
              (aset (rc_reconstructed st) i
                 (div (aget (rc_reconstructed st) i) (aget (rc_norm st) i)))
              (rc_norm st)
       else st)
    st.

(** [ctx.createBuffer(1, length, sampleRate)] refuses a length of zero; the
    sample rate handed over is that of an existing buffer. *)
Definition createBuffer (len : Z) (rate : num) : outcome AudioBuffer :=
  if len <=? 0 then Throw NotSupportedError
  else Ok (mkAudioBuffer (repeat (ofZ 0) (Z.to_nat len)) rate).

(** [buffer.copyToChannel(source, 0)] for a source as long as the buffer. *)
Definition copyToChannel (b : AudioBuffer) (source : Float32Array) : AudioBuffer :=
  mkAudioBuffer
    (for_upto 0 (Z.of_nat (length source))
       (fun i d => aset d i (aget source i)) (channelData b))
    (sampleRate b).

(** The state after the frame loop and the normalisation. *)
Definition reconstruct_state (originalBuffer : AudioBuffer)
  (annotations : list Annotation) (windowSize hopSize : Z) : outcome ReconState :=
  let data := channelData originalBuffer in
  fft <- FFT_new windowSize ;;
  window <- hanningWindow windowSize ;;
  let numFrames := floor_div (Z.of_nat (length data) - windowSize) hopSize in
  reconstructed <- new_Float32Array (buffer_length originalBuffer) ;;
  norm <- new_Float32Array (buffer_length originalBuffer) ;;
  st <- frame_loop numFrames
          (recon_frame fft window annotations windowSize hopSize
             (int_bound numFrames))
          (mkReconState data reconstructed norm) ;;
  Ok (normalize st).

(** Returns the new buffer together with the channel data of the original
    buffer as the call leaves it. *)
Definition applyMaskAndReconstruct (originalBuffer : AudioBuffer)
  (annotations : list Annotation) (windowSize hopSize : Z)
  : outcome (AudioBuffer * Float32Array) :=
  st <- reconstruct_state originalBuffer annotations windowSize hopSize ;;
  newBuffer <- createBuffer (Z.of_nat (length (rc_reconstructed st)))
                 (sampleRate originalBuffer) ;;
  Ok (copyToChannel newBuffer (rc_reconstructed st), rc_data st).

End Audio.

From Stdlib Require String.

(** ** The annotation layer and the annotation list of the application

    [components/AnnotationLayer]: the pointer handlers of the layer, and the
    two callbacks and the two calls of [App] that concern the annotations.
    A handler works on the state the previous event left: the component is
    rendered again between two events. *)
Section AnnotationLayer.
Context {N : JSNumber}.

(** [Math.min] and [Math.abs], which the number interface does not list. *)
Variable Math_min : num -> num -> num.
Variable Math_abs : num -> num.

(** The part of [getBoundingClientRect()] the layer reads. *)
Record DOMRect : Type := mkDOMRect {
  rect_left : num;
  rect_width : num
}.

(** [getPos]: the pointer position as a fraction of the width of the
    container; 0 while there is no container. *)
Definition getPos (container : option DOMRect) (clientX : num) : num :=
  match container with
  | None => ofZ 0
  | Some rect => div (sub clientX (rect_left rect)) (rect_width rect)
  end.

(** The state [currentDrag]. *)
Record Drag : Type := mkDrag {
  drag_x : num;
  drag_w : num
}.

(** An annotation of the application ([types.ts]); the label is absent or a
    string. *)
Record AppAnnotation : Type := mkAppAnnotation {
  app_id : String.string;
  app_x : num;
  app_width : num;
  app_label : option String.string
}.

(** The state the handlers of the layer work on: the drag in progress, and
    the annotation list of the application they update through [onAdd] and
    [onRemove]. *)
Record LayerState : Type := mkLayerState {
  currentDrag : option Drag;
  annotations : list AppAnnotation
}.

(** [onAdd = (ann) => setAnnotations([...annotations, ann])] *)
Definition onAdd (ann : AppAnnotation) (l : list AppAnnotation) : list AppAnnotation :=
  l ++ [ann].

(** [onRemove = (id) => setAnnotations(annotations.filter(a => a.id !== id))] *)
Definition onRemove (id : String.string) (l : list AppAnnotation) : list AppAnnotation :=
  filter (fun a => negb (String.eqb (app_id a) id)) l.

Definition handleMouseDown (isDrawing : bool) (container : option DOMRect)
  (clientX : num) (st : LayerState) : LayerState :=
  if negb isDrawing then st
  else
    let x := getPos container clientX in
    mkLayerState (Some (mkDrag x (ofZ 0))) (annotations st).

Definition handleMouseMove (isDrawing : bool) (container : option DOMRect)
  (clientX : num) (st : LayerState) : LayerState :=
  match currentDrag st with
  | None => st
  | Some prev =>
      if negb isDrawing then st
      else
        let x := getPos container clientX in
        mkLayerState (Some (mkDrag (drag_x prev) (sub x (drag_x prev))))
                     (annotations st)
  end.

(** The literal [0.001]. *)
Definition min_width : num := div (ofZ 1) (ofZ 1000).

(** [handleMouseUp]; [id] is the string drawn from [Math.random()]. *)
Definition handleMouseUp (isDrawing : bool) (id : String.string)
  (st : LayerState) : LayerState :=
  match currentDrag st with
  | None => st
  | Some drag =>
      if negb isDrawing then st
      else
        let finalAnn :=
          mkAppAnnotation id
            (Math_min (drag_x drag) (add (drag_x drag) (drag_w drag)))
            (Math_abs (drag_w drag))
            (Some String.EmptyString) in
        mkLayerState None
          (if gtb (app_width finalAnn) min_width
           then onAdd finalAnn (annotations st)
           else annotations st)
  end.

(** The events the layer listens to; [onMouseLeave] runs [handleMouseUp]. *)
Inductive LayerEvent : Type :=
| MouseDown (clientX : num)
| MouseMove (clientX : num)
| MouseUp (id : String.string)
| MouseLeave (id : String.string)
| RemoveClick (id : String.string).

Definition layer_step (isDrawing : bool) (container : option DOMRect)
  (st : LayerState) (ev : LayerEvent) : LayerState :=
  match ev with
  | MouseDown clientX => handleMouseDown isDrawing container clientX st
  | MouseMove clientX => handleMouseMove isDrawing container clientX st
  | MouseUp id => handleMouseUp isDrawing id st
  | MouseLeave id => handleMouseUp isDrawing id st
  | RemoveClick id => mkLayerState (currentDrag st) (onRemove id (annotations st))
  end.

(** A sequence of events, each with the drawing mode and the container in
    force when it is handled. *)
Definition layer_run (evs : list (bool * option DOMRect * LayerEvent))
  (st : LayerState) : LayerState :=
  fold_left (fun st e => layer_step (fst (fst e)) (snd (fst e)) st (snd e)) evs st.

(** What [applyMaskAndReconstruct] reads of the annotations it is handed. *)
Definition mask_intervals (l : list AppAnnotation) : list Annotation :=
  map (fun a => mkAnnotation (app_x a) (app_width a)) l.

(** The calls of the application, with the default window, hop and bins. *)
Definition App_computeSpectrogram (audioBuffer : AudioBuffer)
  : outcome (SpectrogramData * Float32Array) :=
  computeSpectrogram audioBuffer 2048 512 128.

Definition App_applyMaskAndReconstruct (buffer : AudioBuffer)
  (anns : list AppAnnotation) : outcome (AudioBuffer * Float32Array) :=
  applyMaskAndReconstruct buffer (mask_intervals anns) 2048 512.

End AnnotationLayer.

(** * Properties *)

(** ** Loops *)

Lemma zsteps_length lo step cnt : length (zsteps lo step cnt) = cnt.
Proof. revert lo; induction cnt; simpl; intros; [reflexivity | now rewrite IHcnt]. Qed.

Lemma zsteps_snoc lo step cnt :
  zsteps lo step (S cnt) = zsteps lo step cnt ++ [lo + Z.of_nat cnt * step].
Proof.
  revert lo; induction cnt; intros lo.
  - simpl. f_equal. lia.
  - change (zsteps lo step (S (S cnt))) with (lo :: zsteps (lo + step) step (S cnt)).
    rewrite IHcnt.
    change (zsteps lo step (S cnt)) with (lo :: zsteps (lo + step) step cnt).
    rewrite <- app_comm_cons. do 3 f_equal. lia.
Qed.

Lemma zsteps_In lo step cnt x :
  In x (zsteps lo step cnt) <->
  exists t, (t < cnt)%nat /\ x = lo + Z.of_nat t * step.
Proof.
  revert lo; induction cnt; intros lo; simpl.
  - split; [tauto | intros (t & Ht & _); lia].
  - rewrite IHcnt. split.
    + intros [<- | (t & Ht & ->)].
      * exists O. split; [lia | simpl; lia].
      * exists (S t). split; [lia | lia].
    + intros (t & Ht & ->). destruct t as [|t].
      * left. simpl. lia.
      * right. exists t. split; [lia | lia].
Qed.

Lemma for_upto_nil {S : Type} lo hi (body : Z -> S -> S) s :
  hi <= lo -> for_upto lo hi body s = s.
Proof.
  intros H. unfold for_upto. replace (Z.to_nat (hi - lo)) with O by lia. reflexivity.
Qed.

Lemma for_upto_first {S : Type} lo hi (body : Z -> S -> S) s :
  lo < hi -> for_upto lo hi body s = for_upto (lo + 1) hi body (body lo s).
Proof.
  intros H. unfold for_upto.
  replace (Z.to_nat (hi - lo)) with (Datatypes.S (Z.to_nat (hi - (lo + 1)))) by lia.
  reflexivity.
Qed.

Lemma for_upto_last {S : Type} lo hi (body : Z -> S -> S) s :
  lo < hi -> for_upto lo hi body s = body (hi - 1) (for_upto lo (hi - 1) body s).
Proof.
  intros H. unfold for_upto.
  replace (Z.to_nat (hi - lo)) with (Datatypes.S (Z.to_nat (hi - 1 - lo))) by lia.
  rewrite zsteps_snoc, fold_left_app. simpl.
  f_equal. lia.
Qed.

(** Invariant rule for [for_upto]. *)
Lemma for_upto_inv {S : Type} (P : Z -> S -> Prop) lo hi (body : Z -> S -> S) s :
  lo <= hi ->
  P lo s ->
  (forall i s, lo <= i < hi -> P i s -> P (i + 1) (body i s)) ->
  P hi (for_upto lo hi body s).
Proof.
  intros Hle H0 Hstep.
  remember (Z.to_nat (hi - lo)) as cnt eqn:Hc.
  revert hi Hle Hc Hstep. induction cnt; intros hi Hle Hc Hstep.
  - assert (hi = lo) by lia. subst hi. now rewrite for_upto_nil by lia.
  - rewrite for_upto_last by lia.
    replace hi with (hi - 1 + 1) at 1 by lia.
    apply Hstep; [lia|].
    apply IHcnt; [lia | lia |].
    intros i s' Hi. apply Hstep. lia.
Qed.

(** An invariant that does not mention the counter. *)
Lemma for_upto_preserves {S : Type} (P : S -> Prop) lo hi (body : Z -> S -> S) s :
  P s -> (forall i s, lo <= i < hi -> P s -> P (body i s)) ->
  P (for_upto lo hi body s).
Proof.
  intros H0 Hstep.
  destruct (Z_le_gt_dec lo hi) as [Hle | Hgt].
  - apply (for_upto_inv (fun _ => P)); auto.
  - now rewrite for_upto_nil by lia.
Qed.

Lemma for_upto_ext {S : Type} lo hi (f g : Z -> S -> S) s :
  (forall i s, lo <= i < hi -> f i s = g i s) ->
  for_upto lo hi f s = for_upto lo hi g s.
Proof.
  intros H.
  destruct (Z_le_gt_dec lo hi) as [Hle | Hgt].
  - apply (for_upto_inv (fun i s' => for_upto lo i f s = s')
                        lo hi g s Hle).
    + now rewrite for_upto_nil by lia.
    + intros i s' Hi <-. rewrite (for_upto_last lo (i + 1)) by lia.
      replace (i + 1 - 1) with i by lia. apply H. lia.
  - now rewrite !for_upto_nil by lia.
Qed.

Lemma fold_left_preserves {S : Type} (P : S -> Prop) (body : Z -> S -> S) l s :
  P s -> (forall i s, In i l -> P s -> P (body i s)) ->
  P (fold_left (fun s i => body i s) l s).
Proof.
  revert s; induction l; simpl; intros s H0 Hstep; auto.
Qed.

Lemma for_step_preserves {S : Type} (P : S -> Prop) lo hi step (body : Z -> S -> S) s :
  P s -> (forall i s, P s -> P (body i s)) -> P (for_step lo hi step body s).
Proof. intros H0 Hstep. unfold for_step. apply fold_left_preserves; auto. Qed.

Lemma for_uptoM_nil {S : Type} lo hi (body : Z -> S -> outcome S) s :
  hi <= lo -> for_uptoM lo hi body s = Ok s.
Proof.
  intros H. unfold for_uptoM. replace (Z.to_nat (hi - lo)) with O by lia. reflexivity.
Qed.

Lemma for_uptoM_first {S : Type} lo hi (body : Z -> S -> outcome S) s :
  lo < hi ->
  for_uptoM lo hi body s = (s' <- body lo s ;; for_uptoM (lo + 1) hi body s').
Proof.
  intros H. unfold for_uptoM.
  replace (Z.to_nat (hi - lo)) with (Datatypes.S (Z.to_nat (hi - (lo + 1)))) by lia.
  reflexivity.
Qed.

Lemma foldM_app {S : Type} (body : Z -> S -> outcome S) l1 l2 s :
  foldM body (l1 ++ l2) s = (s' <- foldM body l1 s ;; foldM body l2 s').
Proof.
  revert s; induction l1; simpl; intros s; [reflexivity|].
  destruct (body a s); simpl; auto.
Qed.

Lemma for_uptoM_last {S : Type} lo hi (body : Z -> S -> outcome S) s :
  lo < hi ->
  for_uptoM lo hi body s = (s' <- for_uptoM lo (hi - 1) body s ;; body (hi - 1) s').
Proof.
  intros H. unfold for_uptoM.
  replace (Z.to_nat (hi - lo)) with (Datatypes.S (Z.to_nat (hi - 1 - lo))) by lia.
  rewrite zsteps_snoc, foldM_app.
  destruct (foldM body _ s); simpl; auto.
  replace (lo + Z.of_nat (Z.to_nat (hi - 1 - lo)) * 1) with (hi - 1) by lia.
  destruct (body (hi - 1) a); reflexivity.
Qed.

(** A monadic loop whose body always returns is a pure loop. *)
Lemma for_uptoM_pure {S : Type} (P : Z -> S -> Prop) lo hi
  (body : Z -> S -> outcome S) (pure : Z -> S -> S) s :
  lo <= hi ->
  P lo s ->
  (forall i s, lo <= i < hi -> P i s ->
               body i s = Ok (pure i s) /\ P (i + 1) (pure i s)) ->
  for_uptoM lo hi body s = Ok (for_upto lo hi pure s) /\
  P hi (for_upto lo hi pure s).
Proof.
  intros Hle H0 Hstep.
  remember (Z.to_nat (hi - lo)) as cnt eqn:Hc.
  revert hi Hle Hc Hstep. induction cnt; intros hi Hle Hc Hstep.
  - assert (hi = lo) by lia. subst hi.
    rewrite for_uptoM_nil, for_upto_nil by lia. auto.
  - rewrite for_uptoM_last, for_upto_last by lia.
    destruct (IHcnt (hi - 1)) as [E HP]; [lia | lia | |].
    { intros i s' Hi. apply Hstep. lia. }
    rewrite E. simpl.
    destruct (Hstep (hi - 1) (for_upto lo (hi - 1) pure s)) as [E' HP']; [lia | exact HP |].
    rewrite E'. split; [reflexivity|].
    now replace (hi - 1 + 1) with hi in HP' by lia.
Qed.

(** ** Typed arrays *)
Section Arrays.
Context {N : JSNumber}.

Lemma upd_length a i v : length (upd a i v) = length a.
Proof. revert i; induction a; destruct i; simpl; auto. Qed.

Lemma nth_upd_same a i v d : (i < length a)%nat -> nth i (upd a i v) d = v.
Proof. revert i; induction a; destruct i; simpl; intros; try lia; auto. apply IHa. lia. Qed.

Lemma nth_upd_other a i j v d : i <> j -> nth j (upd a i v) d = nth j a d.
Proof.
  revert i j; induction a; intros i j Hij; destruct i, j; simpl; auto; try congruence.
Qed.

Lemma upd_out a i v : (length a <= i)%nat -> upd a i v = a.
Proof.
  revert i; induction a; destruct i; simpl; intros; auto; try lia.
  f_equal. apply IHa. lia.
Qed.

Lemma aset_length a i v : length (aset a i v) = length a.
Proof. unfold aset. destruct (i <? 0); [reflexivity | apply upd_length]. Qed.

Lemma aget_aset_same a i v :
  0 <= i < Z.of_nat (length a) -> aget (aset a i v) i = fround v.
Proof.
  intros H. unfold aget, aset.
  destruct (Z.ltb_spec i 0); [lia|]. apply nth_upd_same. lia.
Qed.

Lemma aget_aset_other a i j v : i <> j -> aget (aset a i v) j = aget a j.
Proof.
  intros H. unfold aget, aset.
  destruct (Z.ltb_spec j 0); [reflexivity|].
  destruct (Z.ltb_spec i 0); [reflexivity|].
  apply nth_upd_other. lia.
Qed.

Lemma aset_out a i v : i < 0 \/ Z.of_nat (length a) <= i -> aset a i v = a.
Proof.
  intros H. unfold aset. destruct (Z.ltb_spec i 0); [reflexivity|].
  apply upd_out. lia.
Qed.

Lemma aget_aset a i j v :
  aget (aset a i v) j =
  if (i =? j) && (0 <=? i) && (i <? Z.of_nat (length a)) then fround v else aget a j.
Proof.
  destruct (Z.eqb_spec i j) as [->|Hne]; simpl.
  - destruct (Z.leb_spec 0 j); simpl.
    + destruct (Z.ltb_spec j (Z.of_nat (length a))).
      * apply aget_aset_same. lia.
      * rewrite aset_out by lia. reflexivity.
    + rewrite aset_out by lia. reflexivity.
  - now apply aget_aset_other.
Qed.

Lemma aget_repeat v len i :
  0 <= i < Z.of_nat len -> aget (repeat v len) i = v.
Proof.
  intros H. unfold aget. destruct (Z.ltb_spec i 0); [lia|].
  apply nth_repeat_lt. lia.
Qed.

Lemma aget_out a i : i < 0 \/ Z.of_nat (length a) <= i -> aget a i = nan.
Proof.
  intros H. unfold aget. destruct (Z.ltb_spec i 0); [reflexivity|].
  apply nth_overflow. lia.
Qed.

(** Two arrays of one length that agree at every index are equal. *)
Lemma array_ext (a b : Float32Array) :
  length a = length b ->
  (forall i, 0 <= i < Z.of_nat (length a) -> aget a i = aget b i) ->
  a = b.
Proof.
  intros Hlen H. apply (nth_ext a b nan nan Hlen).
  intros k Hk. specialize (H (Z.of_nat k)). unfold aget in H.
  destruct (Z.ltb_spec (Z.of_nat k) 0); [lia|].
  rewrite Nat2Z.id in H. apply H. lia.
Qed.

Lemma new_Float32Array_ok len :
  0 <= len -> new_Float32Array len = Ok (repeat (ofZ 0) (Z.to_nat len)).
Proof. intros H. unfold new_Float32Array. destruct (Z.ltb_spec len 0); [lia | reflexivity]. Qed.

End Arrays.

(** ** 32-bit operators on small values *)

Lemma toInt32_small z : - 2 ^ 31 <= z < 2 ^ 31 -> toInt32 z = z.
Proof. intros H. unfold toInt32. rewrite Z.mod_small; lia. Qed.

Lemma js_sar_1_small k : 0 <= k < 2 ^ 31 -> js_sar k 1 = k / 2.
Proof.
  intros H. unfold js_sar. rewrite toInt32_small by lia.
  change (1 mod 32) with 1. now rewrite Z.shiftr_div_pow2 by lia.
Qed.

Lemma js_shl_1_small s : 0 <= s <= 30 -> js_shl 1 s = 2 ^ s.
Proof.
  intros H. unfold js_shl. rewrite (toInt32_small 1) by lia.
  rewrite Z.mod_small by lia. rewrite Z.shiftl_1_l.
  apply toInt32_small. split.
  - pose proof (Z.pow_nonneg 2 s). lia.
  - apply Z.pow_lt_mono_r; lia.
Qed.

Lemma pow2_half p : 1 <= p -> 2 ^ p / 2 = 2 ^ (p - 1).
Proof.
  intros H. replace p with (p - 1 + 1) at 1 by lia.
  rewrite Z.pow_add_r by lia. change (2 ^ 1) with 2. apply Z.div_mul. lia.
Qed.

Lemma pow2_pos p : 0 <= p -> 0 < 2 ^ p.
Proof. intros. apply Z.pow_pos_nonneg; lia. Qed.

(** ** Bit reversal *)

(** [bit_reverse p i]: the [p] low bits of [i] in reverse order. *)
Fixpoint bit_reverse (p : nat) (i : Z) : Z :=
  match p with
  | O => 0
  | S p' => (i mod 2) * 2 ^ Z.of_nat p' + bit_reverse p' (i / 2)
  end.

Lemma bit_reverse_range p i : 0 <= bit_reverse p i < 2 ^ Z.of_nat p.
Proof.
  revert i; induction p; intros i.
  - simpl. lia.
  - cbn [bit_reverse]. specialize (IHp (i / 2)).
    rewrite Nat2Z.inj_succ, Z.pow_succ_r by lia.
    pose proof (Z.mod_pos_bound i 2 ltac:(lia)). nia.
Qed.

Section BitReversal.
Context {N : JSNumber}.

(** From the reversal of [i] the inner loop stops, and leaves the reversal of
    [i + 1]. *)
Lemma bitrev_while_spec p : forall fuel i,
  (p < fuel)%nat -> (1 <= p <= 31)%nat -> 0 <= i -> i + 1 < 2 ^ Z.of_nat p ->
  exists k j,
    bitrev_while fuel (2 ^ (Z.of_nat p - 1)) (bit_reverse p i) = Ok (k, j) /\
    j + k = bit_reverse p (i + 1).
Proof.
  induction p as [|p IH]; intros fuel i Hf Hp Hi Hlt; [lia|].
  destruct fuel as [|fuel]; [lia|].
  replace (Z.of_nat (S p) - 1) with (Z.of_nat p) by lia.
  cbn [bit_reverse bitrev_while].
  rewrite Nat2Z.inj_succ, Z.pow_succ_r in Hlt by lia.
  pose proof (bit_reverse_range p (i / 2)) as Hr.
  pose proof (pow2_pos (Z.of_nat p) ltac:(lia)) as Hpos.
  pose proof (Z.div_mod i 2 ltac:(lia)) as Hdm.
  pose proof (Z.mod_pos_bound i 2 ltac:(lia)) as Hm.
  assert (Hcase : i mod 2 = 0 \/ i mod 2 = 1) by lia.
  destruct Hcase as [E | E]; rewrite E.
  - (* even: the loop is not entered *)
    destruct (Z.leb_spec (2 ^ Z.of_nat p) (0 * 2 ^ Z.of_nat p + bit_reverse p (i / 2))); [lia|].
    do 2 eexists. split; [reflexivity|].
    assert ((i + 1) mod 2 = 1) as ->.
    { replace (i + 1) with (1 + (i / 2) * 2) by lia. now rewrite Z.mod_add by lia. }
    assert ((i + 1) / 2 = i / 2) as ->.
    { replace (i + 1) with (1 + (i / 2) * 2) at 1 by lia. now rewrite Z.div_add by lia. }
    lia.
  - (* odd: strip the leading one and go on with the rest *)
    destruct (Z.leb_spec (2 ^ Z.of_nat p) (1 * 2 ^ Z.of_nat p + bit_reverse p (i / 2))); [|lia].
    assert (Hp1 : (1 <= p)%nat).
    { destruct p; [simpl in Hlt; lia | lia]. }
    rewrite js_sar_1_small.
    2:{ split; [lia|]. apply Z.pow_lt_mono_r; lia. }
    rewrite pow2_half by lia.
    replace (1 * 2 ^ Z.of_nat p + bit_reverse p (i / 2) - 2 ^ Z.of_nat p)
      with (bit_reverse p (i / 2)) by lia.
    destruct (IH fuel (i / 2)) as (k & j & Hw & Hjk); try lia.
    exists k, j. split; [exact Hw|].
    assert ((i + 1) mod 2 = 0) as ->.
    { replace (i + 1) with (0 + (i / 2 + 1) * 2) by lia. now rewrite Z.mod_add by lia. }
    assert ((i + 1) / 2 = i / 2 + 1) as ->.
    { replace (i + 1) with (0 + (i / 2 + 1) * 2) at 1 by lia. now rewrite Z.div_add by lia. }
    lia.
Qed.

(** The bit-reversal loop with the reversed index computed directly. *)
Definition bitrev_permute (p : nat) (st : Float32Array * Float32Array)
  : Float32Array * Float32Array :=
  for_upto 0 (2 ^ Z.of_nat p - 1)
    (fun i st => swap_when_less i (bit_reverse p i) st) st.

Lemma bitrev_step_spec p i real imag :
  (p <= 30)%nat -> 0 <= i < 2 ^ Z.of_nat p - 1 ->
  exists st', swap_when_less i (bit_reverse p i) (real, imag) = st' /\
    bitrev_step (2 ^ Z.of_nat p) i (real, imag, bit_reverse p i) =
    Ok (st', bit_reverse p (i + 1)).
Proof.
  intros Hp Hi. eexists. split; [reflexivity|].
  unfold bitrev_step.
  destruct (swap_when_less i (bit_reverse p i) (real, imag)) as [re' im'].
  assert (Hp1 : (1 <= p)%nat).
  { destruct p; [simpl in Hi; lia | lia]. }
  rewrite js_sar_1_small.
  2:{ split; [apply Z.lt_le_incl, pow2_pos; lia|]. apply Z.pow_lt_mono_r; lia. }
  rewrite pow2_half by lia.
  destruct (bitrev_while_spec p bitrev_fuel i) as (k & j & Hw & Hjk);
    try (unfold bitrev_fuel; lia).
  rewrite Hw. simpl. now rewrite Hjk.
Qed.

Lemma bitrev_loop_spec p real imag :
  (p <= 30)%nat ->
  for_uptoM 0 (2 ^ Z.of_nat p - 1) (bitrev_step (2 ^ Z.of_nat p)) (real, imag, 0) =
  Ok (bitrev_permute p (real, imag), bit_reverse p (2 ^ Z.of_nat p - 1)).
Proof.
  intros Hp.
  pose proof (pow2_pos (Z.of_nat p) ltac:(lia)) as Hpos.
  set (pure := fun (i : Z) (st : Float32Array * Float32Array * Z) =>
                 (swap_when_less i (bit_reverse p i) (fst st), bit_reverse p (i + 1))).
  destruct (for_uptoM_pure
              (fun i st => snd st = bit_reverse p i /\
                           fst st = for_upto 0 i
                             (fun i st => swap_when_less i (bit_reverse p i) st)
                             (real, imag))
              0 (2 ^ Z.of_nat p - 1) (bitrev_step (2 ^ Z.of_nat p)) pure
              (real, imag, 0)) as [E [H1 H2]].
  - lia.
  - simpl. split.
    + clear. induction p; [reflexivity|]. cbn [bit_reverse].
      rewrite Z.mod_0_l, Z.div_0_l by lia. simpl. exact IHp.
    + now rewrite for_upto_nil by lia.
  - intros i [[re im] j] Hi [Hj Hst]. simpl in Hj, Hst. subst j.
    destruct (bitrev_step_spec p i re im Hp Hi) as (st' & Hs & Hb).
    rewrite Hb. unfold pure. cbn [fst snd]. rewrite Hs. split; [reflexivity|].
    split; [reflexivity|].
    rewrite (for_upto_last 0 (i + 1)) by lia.
    replace (i + 1 - 1) with i by lia. rewrite <- Hst. exact (eq_sym Hs).
  - rewrite E. f_equal.
    destruct (for_upto 0 (2 ^ Z.of_nat p - 1) pure (real, imag, 0)) as [st j].
    simpl in H1, H2. now subst.
Qed.

End BitReversal.

Arguments bitrev_while : simpl never.
Arguments bitrev_step : simpl never.

(** A monadic loop with an invariant under which the body returns. *)
Lemma for_uptoM_inv {S : Type} (P : Z -> S -> Prop) lo hi
  (body : Z -> S -> outcome S) s :
  lo <= hi ->
  P lo s ->
  (forall i s, lo <= i < hi -> P i s -> exists s', body i s = Ok s' /\ P (i + 1) s') ->
  exists s', for_uptoM lo hi body s = Ok s' /\ P hi s'.
Proof.
  intros Hle H0 Hstep.
  remember (Z.to_nat (hi - lo)) as cnt eqn:Hc.
  revert hi Hle Hc Hstep. induction cnt; intros hi Hle Hc Hstep.
  - assert (hi = lo) by lia. subst hi. exists s. now rewrite for_uptoM_nil by lia.
  - destruct (IHcnt (hi - 1)) as (s1 & E & HP); [lia | lia | |].
    { intros i s' Hi. apply Hstep. lia. }
    destruct (Hstep (hi - 1) s1) as (s2 & E' & HP'); [lia | exact HP |].
    exists s2. rewrite for_uptoM_last by lia. rewrite E. simpl.
    split; [exact E'|]. now replace (hi - 1 + 1) with hi in HP' by lia.
Qed.

(** ** The transform on a power-of-two size *)
Section Transform.
Context {N : JSNumber}.

Definition same_lengths (st st' : Float32Array * Float32Array) : Prop :=
  length (fst st') = length (fst st) /\ length (snd st') = length (snd st).

Lemma same_lengths_refl st : same_lengths st st.
Proof. split; reflexivity. Qed.

Lemma same_lengths_trans st1 st2 st3 :
  same_lengths st1 st2 -> same_lengths st2 st3 -> same_lengths st1 st3.
Proof. unfold same_lengths. intros [] []. split; congruence. Qed.

Lemma swap_when_less_lengths i j st : same_lengths st (swap_when_less i j st).
Proof.
  destruct st as [re im]. unfold swap_when_less, same_lengths.
  destruct (i <? j); simpl; rewrite ?aset_length; auto.
Qed.

Lemma butterfly_lengths m2 wr wi k st : same_lengths st (butterfly m2 wr wi k st).
Proof.
  destruct st as [re im]. unfold butterfly, same_lengths. simpl.
  rewrite !aset_length. auto.
Qed.

Lemma FFT_stage_lengths fft s st : same_lengths st (FFT_stage fft s st).
Proof.
  unfold FFT_stage.
  apply (for_upto_preserves (same_lengths st)); [apply same_lengths_refl|].
  intros j st1 _ H1.
  apply (for_step_preserves (same_lengths st)); [exact H1|].
  intros k st2 H2. eapply same_lengths_trans; [exact H2 | apply butterfly_lengths].
Qed.

Lemma bitrev_permute_lengths p st : same_lengths st (bitrev_permute p st).
Proof.
  unfold bitrev_permute.
  apply (for_upto_preserves (same_lengths st)); [apply same_lengths_refl|].
  intros i st1 _ H1. eapply same_lengths_trans; [exact H1 | apply swap_when_less_lengths].
Qed.

(** The butterfly passes of [forward]. *)
Definition FFT_stages (fft : FFT) (st : Float32Array * Float32Array)
  : Float32Array * Float32Array :=
  for_upto 1 (int_bound (fft_m fft) + 1) (FFT_stage fft) st.

Lemma FFT_stages_lengths fft st : same_lengths st (FFT_stages fft st).
Proof.
  unfold FFT_stages.
  apply (for_upto_preserves (same_lengths st)); [apply same_lengths_refl|].
  intros i st1 _ H1. eapply same_lengths_trans; [exact H1 | apply FFT_stage_lengths].
Qed.

(** On a power-of-two size the forward transform returns: the bit-reversal
    loop stops at every index. *)
Lemma FFT_forward_pow2 fft p real imag :
  (p <= 30)%nat -> fft_n fft = 2 ^ Z.of_nat p ->
  FFT_forward fft real imag = Ok (FFT_stages fft (bitrev_permute p (real, imag))).
Proof.
  intros Hp Hn. unfold FFT_forward. rewrite Hn.
  rewrite bitrev_loop_spec by exact Hp. simpl.
  destruct (bitrev_permute p (real, imag)) as [re im]. reflexivity.
Qed.

Lemma FFT_forward_pow2_lengths fft p real imag :
  (p <= 30)%nat -> fft_n fft = 2 ^ Z.of_nat p ->
  exists re' im', FFT_forward fft real imag = Ok (re', im') /\
                  length re' = length real /\ length im' = length imag.
Proof.
  intros Hp Hn. rewrite (FFT_forward_pow2 fft p) by assumption.
  pose proof (bitrev_permute_lengths p (real, imag)) as H1.
  pose proof (FFT_stages_lengths fft (bitrev_permute p (real, imag))) as H2.
  destruct (FFT_stages fft (bitrev_permute p (real, imag))) as [re' im'].
  exists re', im'. split; [reflexivity|].
  destruct H1 as [A B], H2 as [C D]. simpl in *. split; congruence.
Qed.

(** Whenever the forward transform returns, it returns arrays of the lengths
    it was given. *)
Lemma bitrev_step_lengths n i re im j re' im' j' :
  bitrev_step n i (re, im, j) = Ok (re', im', j') ->
  length re' = length re /\ length im' = length im.
Proof.
  unfold bitrev_step. intros H.
  pose proof (swap_when_less_lengths i j (re, im)) as [A B].
  destruct (swap_when_less i j (re, im)) as [re1 im1].
  destruct (bitrev_while bitrev_fuel (js_sar n 1) j) as [[k j1]| |]; simpl in H; try discriminate.
  injection H as <- <- <-. simpl in *. auto.
Qed.

Lemma foldM_bitrev_lengths n l re im j re' im' j' :
  foldM (bitrev_step n) l (re, im, j) = Ok (re', im', j') ->
  length re' = length re /\ length im' = length im.
Proof.
  revert re im j. induction l as [|i l IH]; intros re im j H; simpl in H.
  - injection H as <- <- <-. auto.
  - destruct (bitrev_step n i (re, im, j)) as [[[re1 im1] j1]| |] eqn:E;
      simpl in H; try discriminate.
    apply bitrev_step_lengths in E. apply IH in H. destruct E, H. split; congruence.
Qed.

Lemma FFT_forward_lengths fft real imag re' im' :
  FFT_forward fft real imag = Ok (re', im') ->
  length re' = length real /\ length im' = length imag.
Proof.
  unfold FFT_forward, for_uptoM. intros H.
  destruct (foldM (bitrev_step (fft_n fft)) _ (real, imag, 0)) as [[[re1 im1] j1]| |] eqn:E;
    simpl in H; try discriminate.
  apply foldM_bitrev_lengths in E.
  pose proof (FFT_stages_lengths fft (re1, im1)) as [A B].
  unfold FFT_stages in A, B. injection H as H. rewrite H in A, B. simpl in A, B.
  destruct E. split; congruence.
Qed.

Lemma negate_loop_length n (im : Float32Array) :
  length (for_upto 0 n (fun i im => aset im i (neg (aget im i))) im) = length im.
Proof.
  apply (for_upto_preserves (fun a => length a = length im)); [reflexivity|].
  intros i a _ H. now rewrite aset_length.
Qed.

Lemma scale_loop_lengths n (st : Float32Array * Float32Array) :
  same_lengths st
    (for_upto 0 n
       (fun i '(re, im) =>
          let re := aset re i (div (aget re i) (ofZ n)) in
          let im := aset im i (div (aget im i) (neg (ofZ n))) in
          (re, im)) st).
Proof.
  apply (for_upto_preserves (same_lengths st)); [apply same_lengths_refl|].
  intros i [re im] _ [A B]. split; simpl in *; rewrite aset_length; auto.
Qed.

Lemma FFT_inverse_lengths fft real imag re' im' :
  FFT_inverse fft real imag = Ok (re', im') ->
  length re' = length real /\ length im' = length imag.
Proof.
  unfold FFT_inverse. intros H.
  destruct (FFT_forward fft real _) as [[re1 im1]| |] eqn:E; simpl in H; try discriminate.
  apply FFT_forward_lengths in E. rewrite negate_loop_length in E.
  pose proof (scale_loop_lengths (fft_n fft) (re1, im1)) as HS.
  injection H as H.
  match type of H with ?t = _ => change (same_lengths (re1, im1) t) in HS end.
  rewrite H in HS. destruct HS as [A B]. simpl in A, B. destruct E. split; congruence.
Qed.

Lemma FFT_inverse_pow2_lengths fft p real imag :
  (p <= 30)%nat -> fft_n fft = 2 ^ Z.of_nat p ->
  exists re' im', FFT_inverse fft real imag = Ok (re', im') /\
                  length re' = length real /\ length im' = length imag.
Proof.
  intros Hp Hn.
  destruct (FFT_inverse fft real imag) as [[re' im']| |] eqn:E.
  - exists re', im'. split; [reflexivity|]. now apply FFT_inverse_lengths in E.
  - exfalso. unfold FFT_inverse in E.
    destruct (FFT_forward_pow2_lengths fft p real
                (for_upto 0 (fft_n fft) (fun i im => aset im i (neg (aget im i))) imag)
                Hp Hn) as (r & i & E1 & _).
    rewrite E1 in E. discriminate.
  - exfalso. unfold FFT_inverse in E.
    destruct (FFT_forward_pow2_lengths fft p real
                (for_upto 0 (fft_n fft) (fun i im => aset im i (neg (aget im i))) imag)
                Hp Hn) as (r & i & E1 & _).
    rewrite E1 in E. discriminate.
Qed.

Lemma Math_log2_bound_pow2 p : Math_log2_bound (2 ^ Z.of_nat p) = JInt (Z.of_nat p).
Proof.
  unfold Math_log2_bound.
  pose proof (pow2_pos (Z.of_nat p) ltac:(lia)).
  destruct (Z.ltb_spec (2 ^ Z.of_nat p) 0); [lia|].
  destruct (Z.eqb_spec (2 ^ Z.of_nat p) 0); [lia|].
  now rewrite Z.log2_pow2 by lia.
Qed.

(** The constructor returns for every size that is not negative. *)
Lemma FFT_new_ok n :
  0 <= n -> exists fft, FFT_new n = Ok fft /\ fft_n fft = n /\
                        fft_m fft = Math_log2_bound n.
Proof.
  intros Hn. unfold FFT_new.
  assert (0 <= Z.quot n 2) by (apply Z.quot_pos; lia).
  rewrite new_Float32Array_ok by assumption. simpl.
  destruct (for_upto 0 ((n + 1) / 2) _ _) as [c s].
  eexists. split; [reflexivity|]. simpl. auto.
Qed.

Lemma FFT_new_negative n : n <= -2 -> FFT_new n = Throw RangeError.
Proof.
  intros Hn. unfold FFT_new, new_Float32Array.
  assert (Z.quot n 2 < 0).
  { pose proof (Z.quot_opp_l n 2 ltac:(lia)).
    assert (0 < Z.quot (- n) 2) by (apply Z.quot_str_pos; lia). lia. }
  destruct (Z.ltb_spec (Z.quot n 2) 0); [reflexivity | lia].
Qed.

Lemma hanningWindow_ok n :
  0 <= n -> exists w, hanningWindow n = Ok w /\ Z.of_nat (length w) = n.
Proof.
  intros Hn. unfold hanningWindow. rewrite new_Float32Array_ok by assumption. simpl.
  eexists. split; [reflexivity|].
  match goal with |- Z.of_nat (length ?a) = _ =>
    assert (length a = Z.to_nat n) as -> end; [|lia].
  apply (for_upto_preserves (fun a => length a = Z.to_nat n)).
  - apply repeat_length.
  - intros i a _ H. now rewrite aset_length.
Qed.

Lemma hanningWindow_negative n : n < 0 -> hanningWindow n = Throw RangeError.
Proof.
  intros Hn. unfold hanningWindow, new_Float32Array.
  destruct (Z.ltb_spec n 0); [reflexivity | lia].
Qed.

End Transform.

(** A monadic loop keeps what every returning iteration keeps. *)
Lemma foldM_preserves {S : Type} (P : S -> Prop) (body : Z -> S -> outcome S) l s s' :
  (forall i s s', body i s = Ok s' -> P s -> P s') ->
  foldM body l s = Ok s' -> P s -> P s'.
Proof.
  intros Hstep. revert s. induction l as [|i l IH]; intros s H H0; simpl in H.
  - now injection H as <-.
  - destruct (body i s) as [s1| |] eqn:E; simpl in H; try discriminate.
    eapply IH; [exact H|]. eapply Hstep; eauto.
Qed.

Lemma mapM_ok {A B : Type} (Q : B -> Prop) (f : A -> outcome B) (l : list A) :
  (forall x, In x l -> exists y, f x = Ok y /\ Q y) ->
  exists ys, mapM f l = Ok ys /\ length ys = length l /\ Forall Q ys.
Proof.
  induction l as [|x l IH]; intros H.
  - exists []. simpl. auto.
  - destruct (H x (or_introl eq_refl)) as (y & E & HQ).
    destruct IH as (ys & E' & Hlen & HF).
    { intros x' Hx'. apply H. now right. }
    exists (y :: ys). simpl. rewrite E. simpl. rewrite E'. simpl.
    repeat split; auto.
Qed.

Lemma mapM_nth {A B : Type} (f : A -> outcome B) (l : list A) ys :
  mapM f l = Ok ys ->
  forall k x, nth_error l k = Some x ->
              exists y, nth_error ys k = Some y /\ f x = Ok y.
Proof.
  revert ys. induction l as [|a l IH]; intros ys H k x Hk.
  - destruct k; discriminate.
  - simpl in H. destruct (f a) as [y| |] eqn:E; simpl in H; try discriminate.
    destruct (mapM f l) as [ys'| |]; simpl in H; try discriminate.
    injection H as <-. destruct k as [|k]; simpl in *.
    + injection Hk as <-. eauto.
    + eapply IH; eauto.
Qed.

(** ** The filterbank and the frame loops return *)
Section Pipelines.
Context {N : JSNumber}.

(** A bound that is an integer or [NaN]. *)
Definition finite_bound (b : jsint) : Prop :=
  match b with
  | JPosInf | JNegInf => False
  | _ => True
  end.

Lemma bget_finite bp i : Forall finite_bound bp -> finite_bound (bget bp i).
Proof.
  intros H. unfold bget. destruct (i <? 0); [exact I|].
  destruct (Nat.lt_ge_cases (Z.to_nat i) (length bp)) as [Hlt | Hge].
  - rewrite Forall_forall in H. apply H. now apply nth_In.
  - rewrite nth_overflow by lia. exact I.
Qed.

Lemma filter_rise_ok bp i filter :
  Forall finite_bound bp ->
  exists f', filter_rise bp i filter = Ok f' /\ length f' = length filter.
Proof.
  intros H. unfold filter_rise.
  pose proof (bget_finite bp i H) as H0. pose proof (bget_finite bp (i + 1) H) as H1.
  destruct (bget bp i), (bget bp (i + 1)); simpl in *; try tauto;
    try (eexists; split; [reflexivity|]; reflexivity).
  eexists. split; [reflexivity|].
  apply (for_upto_preserves (fun a => length a = length filter)); [reflexivity|].
  intros j a _ Ha. now rewrite aset_length.
Qed.

Lemma filter_fall_ok bp i filter :
  Forall finite_bound bp ->
  exists f', filter_fall bp i filter = Ok f' /\ length f' = length filter.
Proof.
  intros H. unfold filter_fall.
  pose proof (bget_finite bp (i + 1) H) as H0. pose proof (bget_finite bp (i + 2) H) as H1.
  destruct (bget bp (i + 1)), (bget bp (i + 2)); simpl in *; try tauto;
    try (eexists; split; [reflexivity|]; reflexivity).
  eexists. split; [reflexivity|].
  apply (for_upto_preserves (fun a => length a = length filter)); [reflexivity|].
  intros j a _ Ha. now rewrite aset_length.
Qed.

Lemma build_filter_ok windowSize bp i :
  0 <= windowSize -> Forall finite_bound bp ->
  exists filter, build_filter windowSize bp i = Ok filter /\
                 Z.of_nat (length filter) = windowSize / 2 + 1.
Proof.
  intros Hn H. unfold build_filter.
  assert (Hq : Z.quot (windowSize + 2) 2 = windowSize / 2 + 1).
  { rewrite Z.quot_div_nonneg by lia.
    replace (windowSize + 2) with (windowSize + 1 * 2) by lia.
    now rewrite Z.div_add by lia. }
  rewrite Hq.
  assert (0 <= windowSize / 2) by (apply Z.div_pos; lia).
  rewrite new_Float32Array_ok by lia. simpl.
  destruct (filter_rise_ok bp i (repeat (ofZ 0) (Z.to_nat (windowSize / 2 + 1))) H)
    as (f1 & E1 & L1).
  rewrite E1. simpl.
  destruct (filter_fall_ok bp i f1 H) as (f2 & E2 & L2).
  exists f2. split; [exact E2|]. rewrite L2, L1, repeat_length. lia.
Qed.

Lemma build_filterbank_ok windowSize bp melBinsCount :
  0 <= windowSize -> Forall finite_bound bp ->
  exists fb, build_filterbank windowSize bp melBinsCount = Ok fb /\
             length fb = Z.to_nat melBinsCount.
Proof.
  intros Hn H. unfold build_filterbank.
  destruct (mapM_ok (fun _ => True) (build_filter windowSize bp)
                    (zsteps 0 1 (Z.to_nat melBinsCount))) as (fb & E & L & _).
  - intros x _. destruct (build_filter_ok windowSize bp x Hn H) as (f & E & _). eauto.
  - exists fb. split; [exact E|]. now rewrite L, zsteps_length.
Qed.

Lemma melPoints_ok sr melBinsCount :
  -2 <= melBinsCount ->
  exists mp, melPoints sr melBinsCount = Ok mp /\
             Z.of_nat (length mp) = melBinsCount + 2.
Proof.
  intros Hm. unfold melPoints. rewrite new_Float32Array_ok by lia. simpl.
  eexists. split; [reflexivity|].
  match goal with |- Z.of_nat (length ?a) = _ =>
    assert (length a = Z.to_nat (melBinsCount + 2)) as -> end; [|lia].
  apply (for_upto_preserves (fun a => length a = Z.to_nat (melBinsCount + 2))).
  - apply repeat_length.
  - intros i a _ H. now rewrite aset_length.
Qed.

Lemma magnitudes_of_ok windowSize real imag :
  0 <= windowSize -> exists mg, magnitudes_of windowSize real imag = Ok mg.
Proof.
  intros Hn. unfold magnitudes_of.
  assert (0 <= Z.quot (windowSize + 2) 2) by (apply Z.quot_pos; lia).
  rewrite new_Float32Array_ok by lia. simpl. eauto.
Qed.

(** One frame of the spectrogram: a row of one value per filter is pushed
    and the channel data is left as it was. *)
Lemma spectrogram_frame_ok fft window filterbank p hopSize f st :
  (p <= 30)%nat -> fft_n fft = 2 ^ Z.of_nat p ->
  exists row,
    spectrogram_frame fft window filterbank (2 ^ Z.of_nat p) hopSize f st =
    Ok (mkSpecState (sp_data st) (sp_rows st ++ [row])) /\
    length row = length filterbank.
Proof.
  intros Hp Hn. unfold spectrogram_frame.
  pose proof (pow2_pos (Z.of_nat p) ltac:(lia)) as Hpos.
  rewrite new_Float32Array_ok by lia. simpl.
  destruct (FFT_forward_pow2_lengths fft p
              (window_frame (sp_data st) window (2 ^ Z.of_nat p) (f * hopSize)
                 (repeat (ofZ 0) (Z.to_nat (2 ^ Z.of_nat p))))
              (repeat (ofZ 0) (Z.to_nat (2 ^ Z.of_nat p))) Hp Hn)
    as (re & im & E & _).
  rewrite E. simpl.
  destruct (magnitudes_of_ok (2 ^ Z.of_nat p) re im ltac:(lia)) as (mg & Em).
  rewrite Em. simpl. eexists. split; [reflexivity|]. apply length_map.
Qed.

(** Any returning frame leaves the channel data as it was. *)
Lemma spectrogram_frame_data fft window filterbank windowSize hopSize f st st' :
  spectrogram_frame fft window filterbank windowSize hopSize f st = Ok st' ->
  sp_data st' = sp_data st.
Proof.
  unfold spectrogram_frame. intros H.
  destruct (new_Float32Array windowSize); simpl in H; try discriminate.
  destruct (FFT_forward fft _ _) as [[re im]| |]; simpl in H; try discriminate.
  destruct (magnitudes_of windowSize re im); simpl in H; try discriminate.
  now injection H as <-.
Qed.

Lemma overlap_add_lengths window frameReal windowSize start st :
  rc_data (overlap_add window frameReal windowSize start st) = rc_data st /\
  length (rc_reconstructed (overlap_add window frameReal windowSize start st)) =
    length (rc_reconstructed st) /\
  length (rc_norm (overlap_add window frameReal windowSize start st)) =
    length (rc_norm st).
Proof.
  unfold overlap_add.
  apply (for_upto_preserves
           (fun s => rc_data s = rc_data st /\
                     length (rc_reconstructed s) = length (rc_reconstructed st) /\
                     length (rc_norm s) = length (rc_norm st))); [auto|].
  intros i s _ (A & B & C). simpl. rewrite !aset_length. auto.
Qed.

Lemma normalize_lengths st :
  rc_data (normalize st) = rc_data st /\
  length (rc_reconstructed (normalize st)) = length (rc_reconstructed st) /\
  rc_norm (normalize st) = rc_norm st.
Proof.
  unfold normalize.
  apply (for_upto_preserves
           (fun s => rc_data s = rc_data st /\
                     length (rc_reconstructed s) = length (rc_reconstructed st) /\
                     rc_norm s = rc_norm st)); [auto|].
  intros i s _ (A & B & C).
  destruct (gtb (aget (rc_norm s) i) eps); simpl; rewrite ?aset_length; auto.
Qed.

(** Any returning frame of the reconstruction leaves the channel data and
    the lengths of the two accumulation buffers as they were. *)
Lemma recon_frame_keeps fft window annotations windowSize hopSize nf f st st' :
  recon_frame fft window annotations windowSize hopSize nf f st = Ok st' ->
  rc_data st' = rc_data st /\
  length (rc_reconstructed st') = length (rc_reconstructed st) /\
  length (rc_norm st') = length (rc_norm st).
Proof.
  unfold recon_frame. intros H.
  destruct (process_frame _ _ _ _ _ _ _ _) as [[fr fi]| |]; simpl in H; try discriminate.
  injection H as <-. apply overlap_add_lengths.
Qed.

(** On a power-of-two window every frame of the reconstruction returns. *)
Lemma process_frame_ok fft window annotations p hopSize nf f data :
  (p <= 30)%nat -> fft_n fft = 2 ^ Z.of_nat p ->
  exists fr fi,
    process_frame fft window annotations (2 ^ Z.of_nat p) hopSize nf f data = Ok (fr, fi).
Proof.
  intros Hp Hn. unfold process_frame.
  pose proof (pow2_pos (Z.of_nat p) ltac:(lia)) as Hpos.
  rewrite new_Float32Array_ok by lia. simpl.
  destruct (FFT_forward_pow2_lengths fft p
              (window_frame data window (2 ^ Z.of_nat p) (f * hopSize)
                 (repeat (ofZ 0) (Z.to_nat (2 ^ Z.of_nat p))))
              (repeat (ofZ 0) (Z.to_nat (2 ^ Z.of_nat p))) Hp Hn)
    as (re & im & E & _).
  rewrite E. simpl.
  destruct (isTimeMasked _ annotations).
  - destruct (FFT_inverse_pow2_lengths fft p (afill re (ofZ 0)) (afill im (ofZ 0)) Hp Hn)
      as (r & i & E' & _). eauto.
  - destruct (FFT_inverse_pow2_lengths fft p re im Hp Hn) as (r & i & E' & _). eauto.
Qed.

Lemma recon_frame_ok fft window annotations p hopSize nf f st :
  (p <= 30)%nat -> fft_n fft = 2 ^ Z.of_nat p ->
  exists st', recon_frame fft window annotations (2 ^ Z.of_nat p) hopSize nf f st = Ok st'.
Proof.
  intros Hp Hn. unfold recon_frame.
  destruct (process_frame_ok fft window annotations p hopSize nf f (rc_data st) Hp Hn)
    as (fr & fi & E).
  rewrite E. simpl. eauto.
Qed.

End Pipelines.

(** ** Runs with no frame, and rejected window sizes *)
Section Boundary.
Context {N : JSNumber}.

(** A frame count under which the frame loop is not entered. *)
Definition no_frames (numFrames : jsint) : Prop :=
  match numFrames with
  | JInt z => z <= 0
  | JPosInf => False
  | _ => True
  end.

(** The mel bin boundaries of a call. *)
Definition bins_finite (sr : num) (windowSize melBinsCount : Z) : Prop :=
  forall mp, melPoints sr melBinsCount = Ok mp ->
             Forall finite_bound (binPoints windowSize sr mp).

Lemma frame_loop_none {S : Type} nf (body : Z -> S -> outcome S) s :
  no_frames nf -> frame_loop nf body s = Ok s.
Proof.
  destruct nf; simpl; try tauto; try reflexivity.
  intros H. now rewrite for_uptoM_nil by lia.
Qed.

Lemma array_from_length_none nf : no_frames nf -> array_from_length nf = O.
Proof. destruct nf; simpl; try tauto; try reflexivity. lia. Qed.

Lemma constructors_negative {A : Type} n (k : FFT -> Float32Array -> outcome A) :
  n < 0 -> (fft <- FFT_new n ;; window <- hanningWindow n ;; k fft window) = Throw RangeError.
Proof.
  intros Hn. destruct (Z_le_gt_dec n (-2)) as [H2 | H2].
  - now rewrite FFT_new_negative.
  - assert (n = -1) as -> by lia. reflexivity.
Qed.

Lemma computeSpectrogram_negative buf n h m :
  n < 0 -> computeSpectrogram buf n h m = Throw RangeError.
Proof. intros Hn. unfold computeSpectrogram. now apply constructors_negative. Qed.

Lemma applyMaskAndReconstruct_negative buf anns n h :
  n < 0 -> applyMaskAndReconstruct buf anns n h = Throw RangeError.
Proof.
  intros Hn. unfold applyMaskAndReconstruct, reconstruct_state.
  rewrite (constructors_negative n _ Hn). reflexivity.
Qed.

Lemma computeSpectrogram_no_frames buf n h m :
  0 <= n -> 0 <= m ->
  no_frames (floor_div (buffer_length buf - n) h) ->
  bins_finite (sampleRate buf) n m ->
  exists freqs,
    computeSpectrogram buf n h m =
    Ok (mkSpectrogramData [] freqs [], channelData buf).
Proof.
  intros Hn Hm Hnf Hb. unfold computeSpectrogram.
  destruct (FFT_new_ok n Hn) as (fft & -> & _). simpl.
  destruct (hanningWindow_ok n Hn) as (w & -> & _). simpl.
  destruct (melPoints_ok (sampleRate buf) m ltac:(lia)) as (mp & Emp & _).
  rewrite Emp. simpl.
  destruct (build_filterbank_ok n (binPoints n (sampleRate buf) mp) m Hn (Hb mp Emp))
    as (fb & -> & _). simpl.
  unfold buffer_length in Hnf.
  rewrite frame_loop_none by exact Hnf. simpl.
  rewrite array_from_length_none by exact Hnf. simpl. eauto.
Qed.

Lemma reconstruct_state_no_frames buf anns n h :
  0 <= n ->
  no_frames (floor_div (buffer_length buf - n) h) ->
  reconstruct_state buf anns n h =
  Ok (normalize (mkReconState (channelData buf)
                   (repeat (ofZ 0) (length (channelData buf)))
                   (repeat (ofZ 0) (length (channelData buf))))).
Proof.
  intros Hn Hnf. unfold reconstruct_state.
  destruct (FFT_new_ok n Hn) as (fft & -> & _). simpl.
  destruct (hanningWindow_ok n Hn) as (w & -> & _). simpl.
  unfold buffer_length in *.
  rewrite new_Float32Array_ok by lia. simpl.
  rewrite frame_loop_none by exact Hnf. simpl.
  now rewrite Nat2Z.id.
Qed.

Lemma copyToChannel_length b source :
  length (channelData (copyToChannel b source)) = length (channelData b).
Proof.
  unfold copyToChannel. simpl.
  apply (for_upto_preserves (fun a => length a = length (channelData b))); [reflexivity|].
  intros i a _ H. now rewrite aset_length.
Qed.

(** The last two steps: a state whose buffer is not empty gives a new buffer
    of that length and of the sample rate of the original. *)
Lemma finish_ok (st : ReconState) (rate : num) :
  (0 < length (rc_reconstructed st))%nat ->
  exists out,
    (newBuffer <- createBuffer (Z.of_nat (length (rc_reconstructed st))) rate ;;
     Ok (copyToChannel newBuffer (rc_reconstructed st), rc_data st)) =
    Ok (out, rc_data st) /\
    length (channelData out) = length (rc_reconstructed st) /\
    sampleRate out = rate.
Proof.
  intros Hl. unfold createBuffer.
  destruct (Z.leb_spec (Z.of_nat (length (rc_reconstructed st))) 0); [lia|].
  simpl. eexists. split; [reflexivity|]. split.
  - rewrite copyToChannel_length. simpl. rewrite repeat_length. lia.
  - reflexivity.
Qed.

Lemma applyMaskAndReconstruct_no_frames buf anns n h :
  0 <= n -> 0 < buffer_length buf ->
  no_frames (floor_div (buffer_length buf - n) h) ->
  exists out,
    applyMaskAndReconstruct buf anns n h = Ok (out, channelData buf) /\
    length (channelData out) = length (channelData buf) /\
    sampleRate out = sampleRate buf.
Proof.
  intros Hn HL Hnf. unfold applyMaskAndReconstruct.
  rewrite (reconstruct_state_no_frames buf anns n h Hn Hnf). simpl.
  set (st0 := mkReconState (channelData buf) _ _).
  destruct (normalize_lengths st0) as (A & B & C).
  destruct (finish_ok (normalize st0) (sampleRate buf)) as (out & E & L & R).
  { rewrite B. unfold st0. simpl. rewrite repeat_length. unfold buffer_length in HL. lia. }
  exists out. split; [rewrite E; now rewrite A|]. split; [|exact R].
  rewrite L, B. unfold st0. simpl. apply repeat_length.
Qed.

End Boundary.

(** ** Runs on a valid configuration *)
Section ValidRuns.
Context {N : JSNumber}.

Lemma spectrogram_loop_ok fft window filterbank p hopSize nf data :
  (p <= 30)%nat -> fft_n fft = 2 ^ Z.of_nat p -> 0 <= nf ->
  exists rows,
    for_uptoM 0 nf
      (spectrogram_frame fft window filterbank (2 ^ Z.of_nat p) hopSize)
      (mkSpecState data []) = Ok (mkSpecState data rows) /\
    Z.of_nat (length rows) = nf /\
    Forall (fun row => length row = length filterbank) rows.
Proof.
  intros Hp Hn Hnf.
  destruct (for_uptoM_inv
              (fun i st => sp_data st = data /\ Z.of_nat (length (sp_rows st)) = i /\
                           Forall (fun row => length row = length filterbank) (sp_rows st))
              0 nf
              (spectrogram_frame fft window filterbank (2 ^ Z.of_nat p) hopSize)
              (mkSpecState data [])) as (st & E & A & B & C).
  - exact Hnf.
  - simpl. auto.
  - intros i st Hi (A & B & C).
    destruct (spectrogram_frame_ok fft window filterbank p hopSize i st Hp Hn)
      as (row & E & Hrow).
    eexists. split; [exact E|]. simpl. split; [exact A|]. split.
    + rewrite length_app. simpl. lia.
    + apply Forall_app. split; [exact C|]. constructor; [exact Hrow | constructor].
  - destruct st as [d rows]. simpl in *. subst d. exists rows. auto.
Qed.

Lemma floor_div_positive_hop a h : 0 < h -> floor_div a h = JInt (a / h).
Proof. intros H. unfold floor_div. destruct (Z.eqb_spec h 0); [lia | reflexivity]. Qed.

Lemma frame_loop_int {S : Type} nf (body : Z -> S -> outcome S) s :
  frame_loop (JInt nf) body s = for_uptoM 0 (Z.max 0 nf) body s.
Proof.
  simpl. destruct (Z.max_spec 0 nf) as [[H ->] | [H ->]]; [reflexivity|].
  now rewrite !for_uptoM_nil by lia.
Qed.

(** On a power-of-two window with a positive hop, [computeSpectrogram]
    returns; its matrix has one row per frame and one column per mel bin. *)
Lemma computeSpectrogram_returns buf p h m :
  (p <= 30)%nat -> 0 < h -> 0 <= m ->
  bins_finite (sampleRate buf) (2 ^ Z.of_nat p) m ->
  exists r,
    computeSpectrogram buf (2 ^ Z.of_nat p) h m = Ok (r, channelData buf) /\
    Z.of_nat (length (spectrogram r)) =
      Z.max 0 ((buffer_length buf - 2 ^ Z.of_nat p) / h) /\
    Forall (fun row => Z.of_nat (length row) = m) (spectrogram r) /\
    Z.of_nat (length (times r)) =
      Z.max 0 ((buffer_length buf - 2 ^ Z.of_nat p) / h).
Proof.
  intros Hp Hh Hm Hb. unfold computeSpectrogram.
  pose proof (pow2_pos (Z.of_nat p) ltac:(lia)) as Hpos.
  destruct (FFT_new_ok (2 ^ Z.of_nat p) ltac:(lia)) as (fft & -> & Hn & _). simpl.
  destruct (hanningWindow_ok (2 ^ Z.of_nat p) ltac:(lia)) as (w & -> & _). simpl.
  destruct (melPoints_ok (sampleRate buf) m ltac:(lia)) as (mp & Emp & _).
  rewrite Emp. simpl.
  destruct (build_filterbank_ok (2 ^ Z.of_nat p)
              (binPoints (2 ^ Z.of_nat p) (sampleRate buf) mp) m ltac:(lia) (Hb mp Emp))
    as (fb & -> & Hfb). simpl.
  rewrite floor_div_positive_hop by exact Hh.
  unfold buffer_length.
  set (nf := (Z.of_nat (length (channelData buf)) - 2 ^ Z.of_nat p) / h).
  rewrite frame_loop_int.
  destruct (spectrogram_loop_ok fft w fb p h (Z.max 0 nf) (channelData buf) Hp Hn
              ltac:(lia)) as (rows & -> & Hrows & Hcols).
  simpl. eexists. split; [reflexivity|]. simpl.
  split; [exact Hrows|]. split.
  - eapply Forall_impl; [|exact Hcols]. simpl. intros row ->. lia.
  - rewrite length_map, zsteps_length. lia.
Qed.

Lemma recon_loop_ok fft window annotations p hopSize nfv nf st :
  (p <= 30)%nat -> fft_n fft = 2 ^ Z.of_nat p -> 0 <= nf ->
  exists st',
    for_uptoM 0 nf
      (recon_frame fft window annotations (2 ^ Z.of_nat p) hopSize nfv) st = Ok st' /\
    rc_data st' = rc_data st /\
    length (rc_reconstructed st') = length (rc_reconstructed st) /\
    length (rc_norm st') = length (rc_norm st).
Proof.
  intros Hp Hn Hnf.
  apply (for_uptoM_inv
           (fun _ s => rc_data s = rc_data st /\
                       length (rc_reconstructed s) = length (rc_reconstructed st) /\
                       length (rc_norm s) = length (rc_norm st))); auto.
  intros i s Hi (A & B & C).
  destruct (recon_frame_ok fft window annotations p hopSize nfv i s Hp Hn) as (s' & E).
  exists s'. split; [exact E|].
  apply recon_frame_keeps in E. destruct E as (A' & B' & C').
  repeat split; congruence.
Qed.

(** On a power-of-two window with a positive hop, [applyMaskAndReconstruct]
    returns a buffer of the length and sample rate of the original. *)
Lemma applyMaskAndReconstruct_returns buf anns p h :
  (p <= 30)%nat -> 0 < h -> 0 < buffer_length buf ->
  exists out,
    applyMaskAndReconstruct buf anns (2 ^ Z.of_nat p) h = Ok (out, channelData buf) /\
    length (channelData out) = length (channelData buf) /\
    sampleRate out = sampleRate buf.
Proof.
  intros Hp Hh HL. unfold applyMaskAndReconstruct, reconstruct_state.
  pose proof (pow2_pos (Z.of_nat p) ltac:(lia)) as Hpos.
  destruct (FFT_new_ok (2 ^ Z.of_nat p) ltac:(lia)) as (fft & -> & Hn & _). simpl.
  destruct (hanningWindow_ok (2 ^ Z.of_nat p) ltac:(lia)) as (w & -> & _). simpl.
  unfold buffer_length in *.
  rewrite new_Float32Array_ok by lia. simpl.
  rewrite floor_div_positive_hop by exact Hh.
  set (nf := (Z.of_nat (length (channelData buf)) - 2 ^ Z.of_nat p) / h).
  rewrite frame_loop_int.
  set (st0 := mkReconState (channelData buf) _ _).
  destruct (recon_loop_ok fft w anns p h (int_bound (JInt nf)) (Z.max 0 nf) st0 Hp Hn
              ltac:(lia)) as (st1 & -> & A & B & C).
  simpl.
  destruct (normalize_lengths st1) as (A' & B' & C').
  assert (HB : length (rc_reconstructed (normalize st1)) = length (channelData buf)).
  { rewrite B', B. unfold st0. simpl. rewrite repeat_length. lia. }
  destruct (finish_ok (normalize st1) (sampleRate buf)) as (out & E & L & R).
  { rewrite HB. lia. }
  exists out. split; [rewrite E; now rewrite A', A|]. split; [|exact R].
  now rewrite L.
Qed.

(** Whatever the configuration, a call that returns hands back the channel
    data it was given. *)
Lemma computeSpectrogram_data buf n h m r data' :
  computeSpectrogram buf n h m = Ok (r, data') -> data' = channelData buf.
Proof.
  unfold computeSpectrogram. intros H.
  destruct (FFT_new n) as [fft| |]; simpl in H; try discriminate.
  destruct (hanningWindow n) as [w| |]; simpl in H; try discriminate.
  destruct (melPoints _ m) as [mp| |]; simpl in H; try discriminate.
  destruct (build_filterbank n _ m) as [fb| |]; simpl in H; try discriminate.
  destruct (frame_loop _ _ _) as [st| |] eqn:E; simpl in H; try discriminate.
  injection H as _ <-.
  assert (G : forall l st0 st1,
             foldM (spectrogram_frame fft w fb n h) l st0 = Ok st1 ->
             sp_data st1 = sp_data st0).
  { intros l st0 st1 HF.
    apply (foldM_preserves (fun s => sp_data s = sp_data st0)
             (spectrogram_frame fft w fb n h) l st0 st1); auto.
    intros i s s' Hs Hd. apply spectrogram_frame_data in Hs. congruence. }
  unfold frame_loop in E.
  destruct (floor_div _ h); try discriminate.
  - apply G in E. exact E.
  - now injection E as <-.
  - now injection E as <-.
Qed.

Lemma applyMaskAndReconstruct_data buf anns n h out data' :
  applyMaskAndReconstruct buf anns n h = Ok (out, data') ->
  data' = channelData buf /\
  length (channelData out) = length (channelData buf) /\
  sampleRate out = sampleRate buf.
Proof.
  unfold applyMaskAndReconstruct, reconstruct_state. intros H.
  destruct (FFT_new n) as [fft| |]; simpl in H; try discriminate.
  destruct (hanningWindow n) as [w| |]; simpl in H; try discriminate.
  destruct (new_Float32Array (buffer_length buf)) as [z| |] eqn:Ez; simpl in H;
    try discriminate.
  assert (Hz : length z = length (channelData buf)).
  { unfold new_Float32Array, buffer_length in Ez.
    destruct (Z.of_nat (length (channelData buf)) <? 0); [discriminate|].
    injection Ez as <-. rewrite repeat_length. lia. }
  destruct (frame_loop _ _ _) as [st| |] eqn:E; simpl in H; try discriminate.
  assert (G : rc_data st = channelData buf /\
              length (rc_reconstructed st) = length (channelData buf)).
  { assert (G : forall l st0 st1,
               foldM (recon_frame fft w anns n h
                        (int_bound (floor_div (Z.of_nat (length (channelData buf)) - n) h)))
                     l st0 = Ok st1 ->
               rc_data st1 = rc_data st0 /\
               length (rc_reconstructed st1) = length (rc_reconstructed st0)).
    { intros l st0 st1 HF.
      apply (foldM_preserves
               (fun s => rc_data s = rc_data st0 /\
                         length (rc_reconstructed s) = length (rc_reconstructed st0))
               (recon_frame fft w anns n h
                  (int_bound (floor_div (Z.of_nat (length (channelData buf)) - n) h)))
               l st0 st1); auto.
      intros i s s' Hs [Hd Hl]. apply recon_frame_keeps in Hs.
      destruct Hs as (A & B & _). split; congruence. }
    unfold frame_loop in E.
    destruct (floor_div _ h); try discriminate.
    - apply G in E. simpl in E. destruct E. split; congruence.
    - injection E as <-. simpl. auto.
    - injection E as <-. simpl. auto. }
  destruct G as [Gd Gl].
  destruct (normalize_lengths st) as (A & B & C).
  unfold createBuffer in H.
  destruct (Z.of_nat (length (rc_reconstructed (normalize st))) <=? 0) eqn:Ec;
    simpl in H; try discriminate.
  injection H as <- <-. split; [congruence|]. split; [|reflexivity].
  rewrite copyToChannel_length. simpl. rewrite repeat_length. lia.
Qed.

End ValidRuns.

(** ** Loops that store once at every index *)
Section Pointwise.
Context {N : JSNumber}.

(** The test [lo <= k < hi] within an array of length [len]. *)
Definition stored (lo hi : Z) (len : nat) (k : Z) : bool :=
  (lo <=? k) && (k <? hi) && (0 <=? k) && (k <? Z.of_nat len).

(** A loop whose iteration [j] stores at index [j] a value computed from [j]
    and from the value held there. *)
Lemma for_upto_pointwise lo hi (g : Z -> num -> num) (a : Float32Array) :
  let r := for_upto lo hi (fun j f => aset f j (g j (aget f j))) a in
  length r = length a /\
  forall k, aget r k =
            if stored lo hi (length a) k then fround (g k (aget a k)) else aget a k.
Proof.
  intros r. subst r.
  destruct (Z_le_gt_dec lo hi) as [Hle | Hgt].
  - apply (for_upto_inv
             (fun i f => length f = length a /\
                forall k, aget f k =
                          if stored lo i (length a) k
                          then fround (g k (aget a k)) else aget a k)); auto.
    + split; [reflexivity|]. intros k. unfold stored.
      destruct (Z.leb_spec lo k), (Z.ltb_spec k lo); simpl; auto; lia.
    + intros i f Hi [Hl Hk]. split; [now rewrite aset_length|].
      intros k. rewrite aget_aset, Hl. unfold stored in *.
      destruct (Z.eqb_spec i k) as [->|Hne]; simpl.
      * specialize (Hk k). rewrite Hk.
        destruct (Z.leb_spec lo k), (Z.ltb_spec k (k + 1)), (Z.ltb_spec k k),
          (Z.leb_spec 0 k), (Z.ltb_spec k (Z.of_nat (length a))); simpl; auto; try lia.
      * rewrite Hk.
        destruct (Z.leb_spec lo k), (Z.ltb_spec k (i + 1)), (Z.ltb_spec k i);
          simpl; auto; lia.
  - rewrite for_upto_nil by lia. split; [reflexivity|]. intros k. unfold stored.
    destruct (Z.leb_spec lo k), (Z.ltb_spec k hi); simpl; auto; lia.
Qed.

Lemma for_upto_tabulate lo hi (g : Z -> num) (a : Float32Array) :
  let r := for_upto lo hi (fun j f => aset f j (g j)) a in
  length r = length a /\
  forall k, aget r k = if stored lo hi (length a) k then fround (g k) else aget a k.
Proof. exact (for_upto_pointwise lo hi (fun j _ => g j) a). Qed.

End Pointwise.

(** ** The triangular filters *)
Section Filterbank.
Context {N : JSNumber}.

(** The weight the source assigns to bin [j] of the filter with boundary
    bins [b0], [b1], [b2]. *)
Definition triangle_weight (b0 b1 b2 j : Z) : num :=
  if (b0 <=? j) && (j <? b1) then fround (div (ofZ (j - b0)) (ofZ (b1 - b0)))
  else if (b1 <=? j) && (j <? b2) then fround (div (ofZ (b2 - j)) (ofZ (b2 - b1)))
  else ofZ 0.

Lemma build_filter_weights windowSize bp i b0 b1 b2 :
  0 <= windowSize ->
  bget bp i = JInt b0 -> bget bp (i + 1) = JInt b1 -> bget bp (i + 2) = JInt b2 ->
  exists filter,
    build_filter windowSize bp i = Ok filter /\
    Z.of_nat (length filter) = windowSize / 2 + 1 /\
    forall j, 0 <= j <= windowSize / 2 -> aget filter j = triangle_weight b0 b1 b2 j.
Proof.
  intros Hn E0 E1 E2. unfold build_filter.
  assert (Hq : Z.quot (windowSize + 2) 2 = windowSize / 2 + 1).
  { rewrite Z.quot_div_nonneg by lia.
    replace (windowSize + 2) with (windowSize + 1 * 2) by lia.
    now rewrite Z.div_add by lia. }
  rewrite Hq.
  assert (0 <= windowSize / 2) by (apply Z.div_pos; lia).
  rewrite new_Float32Array_ok by lia. simpl.
  unfold filter_rise, filter_fall. rewrite E0, E1, E2. simpl.
  set (z := repeat (ofZ 0) (Z.to_nat (windowSize / 2 + 1))).
  destruct (for_upto_tabulate b0 b1
              (fun j => div (ofZ (j - b0)) (ofZ (b1 - b0))) z) as [L1 G1].
  match type of L1 with length ?t = _ => set (f1 := t) in * end.
  destruct (for_upto_tabulate b1 b2
              (fun j => div (ofZ (b2 - j)) (ofZ (b2 - b1))) f1) as [L2 G2].
  eexists. split; [reflexivity|].
  assert (Lz : length z = Z.to_nat (windowSize / 2 + 1)) by apply repeat_length.
  split; [rewrite L2, L1, Lz; lia|].
  intros j Hj. rewrite G2, G1, L1, Lz. unfold stored, triangle_weight.
  assert (Hz : aget z j = ofZ 0) by (apply aget_repeat; lia).
  rewrite Hz.
  destruct (Z.leb_spec b0 j), (Z.ltb_spec j b1), (Z.leb_spec b1 j), (Z.ltb_spec j b2),
    (Z.leb_spec 0 j), (Z.ltb_spec j (Z.of_nat (Z.to_nat (windowSize / 2 + 1))));
    simpl; auto; lia.
Qed.

End Filterbank.

(** ** Exact real arithmetic as an instance of the number interface

    The real numbers have no [NaN]: a read outside an array is given the
    value 0, and a store does not round. *)
Definition Rgtb (x y : R) : bool := if Rlt_dec y x then true else false.
Definition Rgeb (x y : R) : bool := if Rle_dec y x then true else false.
Definition Rleb (x y : R) : bool := if Rle_dec x y then true else false.

Definition ExactReal : JSNumber := {|
  num := R;
  ofZ := IZR;
  nan := 0%R;
  half := (/ 2)%R;
  eps := (/ 10 ^ 10)%R;
  Math_PI := PI;
  add := Rplus;
  sub := Rminus;
  mul := Rmult;
  div := Rdiv;
  neg := Ropp;
  Math_sqrt := sqrt;
  Math_cos := cos;
  Math_sin := sin;
  Math_log10 := fun x => (ln x / ln 10)%R;
  Math_pow := Rpower;
  Math_max := Rmax;
  floorJ := fun x => JInt (Int_part x);
  gtb := Rgtb;
  geb := Rgeb;
  leb := Rleb;
  fround := fun x => x
|}.

(** A list of reals as an array of the exact instance. *)
Definition real_array (l : list R) : @Float32Array ExactReal := l.

Lemma Rgtb_true x y : Rgtb x y = true <-> (y < x)%R.
Proof. unfold Rgtb. destruct (Rlt_dec y x); split; auto; discriminate. Qed.

Lemma Rgeb_true x y : Rgeb x y = true <-> (y <= x)%R.
Proof. unfold Rgeb. destruct (Rle_dec y x); split; auto; discriminate. Qed.

Lemma Rleb_true x y : Rleb x y = true <-> (x <= y)%R.
Proof. unfold Rleb. destruct (Rle_dec x y); split; auto; discriminate. Qed.

Lemma eps_real_pos : (0 < / 10 ^ 10)%R.
Proof. apply Rinv_0_lt_compat. apply pow_lt. lra. Qed.


Lemma ExactReal_bins_finite sr windowSize melBinsCount :
  bins_finite (N := ExactReal) sr windowSize melBinsCount.
Proof.
  intros mp _. unfold binPoints. apply Forall_forall. intros b Hb.
  apply in_map_iff in Hb. destruct Hb as (hz & <- & _). exact I.
Qed.

(** ** IEEE binary64 numbers as an instance of the number interface

    The arithmetic is that of the primitive floats; a store into a
    [Float32Array] rounds to binary32.  [Math.cos], [Math.sin], [Math.log10]
    and [Math.pow] are implementation-approximated in ECMAScript: the
    functions below are one such approximation (argument reduction and a
    polynomial), used to run the pipelines on concrete inputs. *)
Module F64.

Definition ofZ (z : Z) : float := SF2Prim (binary_normalize prec emax z 0 false).

Definition fround (x : float) : float :=
  match Prim2SF x with
  | S754_finite s m e => SF2Prim (binary_round 24 128 s m e)
  | _ => x
  end.

(** [Math.floor] of a finite number. *)
Definition floorZ (x : float) : Z :=
  match Prim2SF x with
  | S754_finite s m e =>
      if 0 <=? e then (if s then - (Zpos m * 2 ^ e) else Zpos m * 2 ^ e)
      else if s then - ((Zpos m + 2 ^ (- e) - 1) / 2 ^ (- e))
           else Zpos m / 2 ^ (- e)
  | _ => 0
  end.

Definition toJ (x : float) : jsint :=
  match Prim2SF x with
  | S754_nan => JNaN
  | S754_infinity s => if s then JNegInf else JPosInf
  | _ => JInt (floorZ x)
  end.

Definition floorJ (x : float) : jsint :=
  match toJ x with
  | JInt z => toJ (fround (ofZ z))
  | b => b
  end.

Definition max (x y : float) : float :=
  if PrimFloat.is_nan x || PrimFloat.is_nan y then PrimFloat.nan
  else if PrimFloat.ltb x y then y
  else if PrimFloat.ltb y x then x
  else if PrimFloat.get_sign x then y else x.

Fixpoint horner (cs : list float) (x : float) : float :=
  match cs with
  | [] => 0
  | c :: cs' => c + x * horner cs' x
  end%float.

Fixpoint fact (k : nat) : Z :=
  match k with O => 1 | S k' => Z.of_nat k * fact k' end.

(** Coefficients [(-1)^i / (2 i + d)!] for [i < cnt]. *)
Definition trig_coeffs (d : nat) (cnt : nat) : list float :=
  map (fun i => (ofZ (if Nat.even i then 1 else -1) / ofZ (fact (2 * i + d)))%float)
      (seq 0 cnt).

Definition sin_coeffs : list float := Eval vm_compute in trig_coeffs 1 12.
Definition cos_coeffs : list float := Eval vm_compute in trig_coeffs 0 12.
Definition exp_coeffs : list float :=
  Eval vm_compute in map (fun i => (1 / ofZ (fact i))%float) (seq 0 22).
Definition atanh_coeffs : list float :=
  Eval vm_compute in map (fun i => (1 / ofZ (Z.of_nat (2 * i + 1)))%float) (seq 0 18).

Definition PI : float := 0x1.921fb54442d18p+1%float.
Definition PIO2_hi : float := 0x1.921fb54442d18p+0%float.
Definition PIO2_lo : float := 0x1.1a62633145c07p-54%float.
Definition LN2_hi : float := 0x1.62e42fefa39efp-1%float.
Definition LN2_lo : float := 0x1.abc9e3b39803fp-56%float.
Definition LN10 : float := 0x1.26bb1bbb55516p+1%float.
Definition SQRT_HALF : float := 0x1.6a09e667f3bcdp-1%float.

Definition sin_poly (r : float) : float := (r * horner sin_coeffs (r * r))%float.
Definition cos_poly (r : float) : float := horner cos_coeffs (r * r)%float.

(** Quadrant and reduced argument of [x]. *)
Definition reduce (x : float) : Z * float :=
  let k := floorZ (x / PIO2_hi + 0.5)%float in
  (k mod 4, ((x - ofZ k * PIO2_hi) - ofZ k * PIO2_lo)%float).

Definition cos (x : float) : float :=
  if PrimFloat.is_finite x then
    let '(q, r) := reduce x in
    if q =? 0 then cos_poly r
    else if q =? 1 then (- sin_poly r)%float
    else if q =? 2 then (- cos_poly r)%float
    else sin_poly r
  else PrimFloat.nan.

Definition sin (x : float) : float :=
  if PrimFloat.is_finite x then
    let '(q, r) := reduce x in
    if q =? 0 then sin_poly r
    else if q =? 1 then cos_poly r
    else if q =? 2 then (- sin_poly r)%float
    else (- cos_poly r)%float
  else PrimFloat.nan.

Definition ln (x : float) : float :=
  if PrimFloat.is_nan x then PrimFloat.nan
  else if PrimFloat.ltb x 0 then PrimFloat.nan
  else if PrimFloat.is_zero x then PrimFloat.neg_infinity
  else if PrimFloat.is_infinity x then PrimFloat.infinity
  else
    let '(m, e) := FloatOps.Z.frexp x in
    let '(m, e) := if PrimFloat.ltb m SQRT_HALF then ((2 * m)%float, e - 1) else (m, e) in
    let t := ((m - 1) / (m + 1))%float in
    (ofZ e * LN2_hi + (2 * t * horner atanh_coeffs (t * t) + ofZ e * LN2_lo))%float.

Definition log10 (x : float) : float := (ln x / LN10)%float.

Definition exp (y : float) : float :=
  if PrimFloat.is_nan y then PrimFloat.nan
  else if PrimFloat.ltb 710 y then PrimFloat.infinity
  else if PrimFloat.ltb y (-746) then 0%float
  else
    let k := floorZ (y / LN2_hi + 0.5)%float in
    let r := ((y - ofZ k * LN2_hi) - ofZ k * LN2_lo)%float in
    FloatOps.Z.ldexp (horner exp_coeffs r) k.

(** [Math.pow] for a positive finite base (the source raises 10). *)
Definition pow (x y : float) : float :=
  if PrimFloat.is_zero y then 1%float
  else if PrimFloat.is_nan x || PrimFloat.is_nan y then PrimFloat.nan
  else exp (y * ln x)%float.

End F64.

Definition Float64 : JSNumber := {|
  num := float;
  ofZ := F64.ofZ;
  nan := PrimFloat.nan;
  half := 0.5%float;
  eps := 0x1.b7cdfd9d7bdbbp-34%float;
  Math_PI := F64.PI;
  add := PrimFloat.add;
  sub := PrimFloat.sub;
  mul := PrimFloat.mul;
  div := PrimFloat.div;
  neg := PrimFloat.opp;
  Math_sqrt := PrimFloat.sqrt;
  Math_cos := F64.cos;
  Math_sin := F64.sin;
  Math_log10 := F64.log10;
  Math_pow := F64.pow;
  Math_max := F64.max;
  floorJ := F64.floorJ;
  gtb := fun x y => PrimFloat.ltb y x;
  geb := fun x y => PrimFloat.leb y x;
  leb := PrimFloat.leb;
  fround := F64.fround
|}.

(** A list of floats as an array of the binary64 instance. *)
Definition float_array (l : list float) : @Float32Array Float64 := l.

(** ** Masking and normalisation *)
Section Masking.
Context {N : JSNumber}.

(** The position [f / numFrames] a frame is given. *)
Definition timePos (f numFrames : Z) : num := div (ofZ f) (ofZ numFrames).

Lemma isTimeMasked_exists t anns :
  isTimeMasked t anns = true <->
  exists ann, In ann anns /\
              geb t (ann_x ann) = true /\
              leb t (add (ann_x ann) (ann_width ann)) = true.
Proof.
  induction anns as [|a anns IH]; simpl.
  - split; [discriminate | intros (ann & [] & _)].
  - destruct (geb t (ann_x a) && leb t (add (ann_x a) (ann_width a))) eqn:E.
    + split; [|reflexivity]. intros _. exists a.
      apply andb_true_iff in E. tauto.
    + rewrite IH. split.
      * intros (ann & Hin & H1 & H2). exists ann. tauto.
      * intros (ann & [<- | Hin] & H1 & H2).
        -- rewrite H1, H2 in E. discriminate.
        -- exists ann. tauto.
Qed.

(** The normalisation loop, index by index. *)
Lemma normalize_pointwise (st : ReconState) :
  rc_norm (normalize st) = rc_norm st /\
  forall i,
    aget (rc_reconstructed (normalize st)) i =
    if (0 <=? i) && (i <? Z.of_nat (length (rc_reconstructed st))) &&
       gtb (aget (rc_norm st) i) eps
    then fround (div (aget (rc_reconstructed st) i) (aget (rc_norm st) i))
    else aget (rc_reconstructed st) i.
Proof.
  unfold normalize.
  set (len := Z.of_nat (length (rc_reconstructed st))).
  assert (Hlen : 0 <= len) by (unfold len; lia).
  pose proof
    (for_upto_inv
       (fun k s =>
          rc_norm s = rc_norm st /\
          length (rc_reconstructed s) = length (rc_reconstructed st) /\
          forall i,
            aget (rc_reconstructed s) i =
            if (0 <=? i) && (i <? k) && gtb (aget (rc_norm st) i) eps
            then fround (div (aget (rc_reconstructed st) i) (aget (rc_norm st) i))
            else aget (rc_reconstructed st) i)
       0 len
       (fun i st =>
          if gtb (aget (rc_norm st) i) eps
          then mkReconState (rc_data st)
                 (aset (rc_reconstructed st) i
                    (div (aget (rc_reconstructed st) i) (aget (rc_norm st) i)))
                 (rc_norm st)
          else st)
       st Hlen) as H.
  destruct H as (A & B & C).
  - split; [reflexivity|]. split; [reflexivity|]. intros i.
    destruct (Z.leb_spec 0 i), (Z.ltb_spec i 0); simpl; auto; lia.
  - intros k s Hk (A & B & C). rewrite A.
    destruct (gtb (aget (rc_norm st) k) eps) eqn:G.
    + simpl. split; [reflexivity|]. split; [now rewrite aset_length|].
      intros i. rewrite aget_aset, B. fold len.
      destruct (Z.eqb_spec k i) as [->|Hne]; simpl.
      * rewrite (C i).
        destruct (Z.leb_spec 0 i), (Z.ltb_spec i len), (Z.ltb_spec i i),
          (Z.ltb_spec i (i + 1)); simpl; try lia.
        now rewrite G.
      * rewrite (C i).
        destruct (Z.leb_spec 0 i), (Z.ltb_spec i k), (Z.ltb_spec i (k + 1));
          simpl; auto; lia.
    + split; [exact A|]. split; [exact B|].
      intros i. rewrite (C i).
      destruct (Z.eqb_spec k i) as [->|Hne].
      * destruct (Z.leb_spec 0 i), (Z.ltb_spec i i), (Z.ltb_spec i (i + 1));
          simpl; try lia. now rewrite G.
      * destruct (Z.leb_spec 0 i), (Z.ltb_spec i k), (Z.ltb_spec i (k + 1));
          simpl; auto; lia.
  - split; [exact A|]. exact C.
Qed.

End Masking.

(** ** The two time scales *)
Section TimeAxis.
Context {N : JSNumber}.

(** The entry of [times] for frame [f]: [(f * hopSize) / sampleRate]. *)
Definition time_axis (f hopSize : Z) (sampleRate : num) : num :=
  div (ofZ (f * hopSize)) sampleRate.

(** The test of one interval of [isTimeMasked] on a position. *)
Definition covers (ann : Annotation) (t : num) : bool :=
  geb t (ann_x ann) && leb t (add (ann_x ann) (ann_width ann)).

Lemma isTimeMasked_single t ann : isTimeMasked t [ann] = covers ann t.
Proof. simpl. unfold covers. now destruct (_ && _). Qed.

(** The time axis [computeSpectrogram] returns. *)
Lemma computeSpectrogram_times buf n h m r d :
  computeSpectrogram buf n h m = Ok (r, d) ->
  times r =
  map (fun f => time_axis f h (sampleRate buf))
      (zsteps 0 1 (array_from_length
                     (floor_div (Z.of_nat (length (channelData buf)) - n) h))).
Proof.
  unfold computeSpectrogram. intros H.
  destruct (FFT_new n) as [fft| |]; simpl in H; try discriminate.
  destruct (hanningWindow n) as [w| |]; simpl in H; try discriminate.
  destruct (melPoints _ m) as [mp| |]; simpl in H; try discriminate.
  destruct (build_filterbank n _ m) as [fb| |]; simpl in H; try discriminate.
  destruct (frame_loop _ _ _) as [st| |]; simpl in H; try discriminate.
  injection H as <- _. reflexivity.
Qed.

End TimeAxis.

(** ** Closeness of a reconstruction *)
Section Closeness.
Context {N : JSNumber}.

Definition sum_squares (l : list num) : num :=
  fold_left (fun acc v => add acc (mul v v)) l (ofZ 0).

(** The root mean square of a signal. *)
Definition rms (l : list num) : num :=
  Math_sqrt (div (sum_squares l) (ofZ (Z.of_nat (length l)))).

(** The relative RMS difference of an output from an input: the RMS of the
    sample-wise difference over the RMS of the input. *)
Definition relative_rms_difference (input output : list num) : num :=
  div (rms (map (fun xy => sub (snd xy) (fst xy)) (combine input output)))
      (rms input).

(** The bound [1e-3] of the no-op reconstruction property. *)
Definition rms_bound : num := div (ofZ 1) (ofZ 1000).

Definition reconstruction_close (input output : list num) : bool :=
  gtb rms_bound (relative_rms_difference input output).

(** The first index that no frame reaches. *)
Definition covered_end (numFrames windowSize hopSize : Z) : Z :=
  if numFrames <=? 0 then 0 else (numFrames - 1) * hopSize + windowSize.

Lemma copyToChannel_pointwise b source i :
  length (channelData b) = length source ->
  0 <= i < Z.of_nat (length source) ->
  aget (channelData (copyToChannel b source)) i = fround (aget source i).
Proof.
  intros Hl Hi. unfold copyToChannel. simpl.
  destruct (for_upto_tabulate 0 (Z.of_nat (length source)) (fun j => aget source j)
              (channelData b)) as [_ H].
  rewrite H. unfold stored. rewrite Hl.
  destruct (Z.leb_spec 0 i), (Z.ltb_spec i (Z.of_nat (length source))); simpl; auto; lia.
Qed.

End Closeness.

(** ** Concrete runs on binary64 numbers *)

(** The sample rate of the runs. *)
Definition demo_rate : @num Float64 := 16000%float.

(** Four samples. *)
Definition short4 : @Float32Array Float64 :=
  float_array [0.5; 0.25; -0.5; 1]%float.

(** Sixteen samples of value 1. *)
Definition ones16 : @Float32Array Float64 :=
  float_array (repeat 1%float 16).

(** * The claims *)

(** C2: on a power-of-two window [n = 2^p] with a positive hop [h],
    [computeSpectrogram] returns a matrix of exactly
    [floor((L - n) / h)] rows (none when that is zero or negative, and no
    error), each row of exactly [melBinsCount] columns. *)
Theorem computeSpectrogram_shape {N : JSNumber} (buf : AudioBuffer) (p : nat) (h m : Z) :
  (p <= 30)%nat -> 0 < h -> 0 <= m ->
  bins_finite (sampleRate buf) (2 ^ Z.of_nat p) m ->
  exists r,
    computeSpectrogram buf (2 ^ Z.of_nat p) h m = Ok (r, channelData buf) /\
    Z.of_nat (length (spectrogram r)) =
      Z.max 0 ((buffer_length buf - 2 ^ Z.of_nat p) / h) /\
    Forall (fun row => Z.of_nat (length row) = m) (spectrogram r).
Proof.
  intros Hp Hh Hm Hb.
  destruct (computeSpectrogram_returns buf p h m Hp Hh Hm Hb) as (r & E & R & C & _).
  exists r. split; [exact E|]. split; [exact R | exact C].
Qed.

(** The scenario of the specification: 16384 samples at 16 kHz, window 1024,
    hop 256 and 40 mel bins give a 60 x 40 matrix. *)
Lemma computeSpectrogram_shape_witness :
  exists r,
    computeSpectrogram (N := ExactReal)
      (mkAudioBuffer (real_array (repeat 0%R (Z.to_nat 16384))) 16000%R)
      (2 ^ Z.of_nat 10) 256 40 =
      Ok (r, real_array (repeat 0%R (Z.to_nat 16384))) /\
    Z.of_nat (length (spectrogram r)) = 60 /\
    Forall (fun row => Z.of_nat (length row) = 40) (spectrogram r).
Proof.
  destruct (computeSpectrogram_shape (N := ExactReal)
              (mkAudioBuffer (real_array (repeat 0%R (Z.to_nat 16384))) 16000%R)
              10 256 40)
    as (r & E & R & C).
  - lia.
  - lia.
  - lia.
  - apply ExactReal_bins_finite.
  - exists r. split; [exact E|]. split; [|exact C].
    rewrite R. unfold buffer_length, real_array. cbn [channelData].
    rewrite repeat_length. rewrite Z2Nat.id by lia. reflexivity.
Defined.

(** C3 (as amended): neither function checks [windowSize] or [hopSize].  A
    negative window size is refused, by the array allocation; every other
    window size, a power of two or not, and every hop size, positive or not,
    under which [floor((L - windowSize) / hopSize)] is not positive is
    accepted, and the call returns with no frame. *)
Theorem no_configuration_check {N : JSNumber} (buf : AudioBuffer)
  (anns : list Annotation) (n h m : Z) :
  (n < 0 ->
   computeSpectrogram buf n h m = Throw RangeError /\
   applyMaskAndReconstruct buf anns n h = Throw RangeError) /\
  (0 <= n -> 0 <= m -> 0 < buffer_length buf ->
   no_frames (floor_div (buffer_length buf - n) h) ->
   bins_finite (sampleRate buf) n m ->
   (exists freqs,
      computeSpectrogram buf n h m =
      Ok (mkSpectrogramData [] freqs [], channelData buf)) /\
   (exists out,
      applyMaskAndReconstruct buf anns n h = Ok (out, channelData buf))).
Proof.
  split.
  - intros Hn. split.
    + now apply computeSpectrogram_negative.
    + now apply applyMaskAndReconstruct_negative.
  - intros Hn Hm HL Hnf Hb. split.
    + now apply computeSpectrogram_no_frames.
    + destruct (applyMaskAndReconstruct_no_frames buf anns n h Hn HL Hnf) as (out & E & _).
      exists out. exact E.
Qed.

(** A window of 6 samples with a hop of 0 on a 4-sample signal, and a window
    of -4 samples. *)
Lemma no_configuration_check_witness :
  (computeSpectrogram (N := ExactReal)
     (mkAudioBuffer (real_array [0; 0; 0; 0]%R) 16000%R) (-4) 2 1 = Throw RangeError /\
   applyMaskAndReconstruct (N := ExactReal)
     (mkAudioBuffer (real_array [0; 0; 0; 0]%R) 16000%R) [] (-4) 2 = Throw RangeError) /\
  (exists freqs,
     computeSpectrogram (N := ExactReal)
       (mkAudioBuffer (real_array [0; 0; 0; 0]%R) 16000%R) 6 0 1 =
     Ok (mkSpectrogramData [] freqs [], real_array [0; 0; 0; 0]%R)) /\
  (exists out,
     applyMaskAndReconstruct (N := ExactReal)
       (mkAudioBuffer (real_array [0; 0; 0; 0]%R) 16000%R) [] 6 0 =
     Ok (out, real_array [0; 0; 0; 0]%R)).
Proof.
  split.
  - apply (proj1 (no_configuration_check (N := ExactReal)
                    (mkAudioBuffer (real_array [0; 0; 0; 0]%R) 16000%R) [] (-4) 2 1)).
    lia.
  - apply (proj2 (no_configuration_check (N := ExactReal)
                    (mkAudioBuffer (real_array [0; 0; 0; 0]%R) 16000%R) [] 6 0 1)).
    + lia.
    + lia.
    + reflexivity.
    + exact I.
    + apply ExactReal_bins_finite.
Defined.

(** C3 as stated fails, on binary64 numbers: a window of 6 samples (not a
    power of two) and a hop of -1 are accepted and the calls return a
    result; with a hop of 0 on a signal longer than the window the frame
    count is infinite and the call never returns, and raises nothing. *)
Lemma unchecked_configuration_accepted :
  match computeSpectrogram (N := Float64) (mkAudioBuffer short4 demo_rate) 6 2 1 with
  | Ok (r, d) => spectrogram r = [] /\ d = short4
  | _ => False
  end /\
  match applyMaskAndReconstruct (N := Float64) (mkAudioBuffer short4 demo_rate) [] 6 2 with
  | Ok (out, d) => length (channelData out) = 4%nat /\ d = short4
  | _ => False
  end /\
  match computeSpectrogram (N := Float64) (mkAudioBuffer ones16 demo_rate) 4 (-1) 1 with
  | Ok (r, d) => spectrogram r = [] /\ d = ones16
  | _ => False
  end /\
  match applyMaskAndReconstruct (N := Float64) (mkAudioBuffer ones16 demo_rate) [] 4 (-1) with
  | Ok (out, d) => length (channelData out) = 16%nat /\ d = ones16
  | _ => False
  end /\
  never_returns
    (computeSpectrogram (N := Float64) (mkAudioBuffer ones16 demo_rate) 4 0 1) = true /\
  never_returns
    (applyMaskAndReconstruct (N := Float64) (mkAudioBuffer ones16 demo_rate) [] 4 0) = true.
Proof. vm_compute. repeat split; reflexivity. Qed.

(** A window of 6 samples on a signal long enough for one frame: the inner
    loop of the bit reversal reaches [k = 0] with [k <= j] and never ends. *)
Lemma window_of_six_never_returns :
  never_returns
    (computeSpectrogram (N := Float64) (mkAudioBuffer ones16 demo_rate) 6 2 1) = true /\
  never_returns
    (applyMaskAndReconstruct (N := Float64) (mkAudioBuffer ones16 demo_rate) [] 6 2) = true.
Proof. vm_compute. split; reflexivity. Qed.

(** C6: on a signal shorter than the window, with a positive hop, neither
    pipeline raises an error: [computeSpectrogram] returns an empty matrix
    and an empty time axis; [applyMaskAndReconstruct] enters no frame (the
    accumulation buffers reach the normalisation as allocated) and returns a
    buffer of the sample count of the input. *)
Theorem short_signal_no_frames {N : JSNumber} (buf : AudioBuffer)
  (anns : list Annotation) (n h m : Z) :
  0 < buffer_length buf < n -> 0 < h -> 0 <= m ->
  bins_finite (sampleRate buf) n m ->
  (exists freqs,
     computeSpectrogram buf n h m =
     Ok (mkSpectrogramData [] freqs [], channelData buf)) /\
  reconstruct_state buf anns n h =
    Ok (normalize (mkReconState (channelData buf)
                     (repeat (ofZ 0) (length (channelData buf)))
                     (repeat (ofZ 0) (length (channelData buf))))) /\
  (exists out,
     applyMaskAndReconstruct buf anns n h = Ok (out, channelData buf) /\
     length (channelData out) = length (channelData buf) /\
     sampleRate out = sampleRate buf).
Proof.
  intros HL Hh Hm Hb.
  assert (Hnf : no_frames (floor_div (buffer_length buf - n) h)).
  { rewrite floor_div_positive_hop by exact Hh. simpl.
    assert ((buffer_length buf - n) / h < 0) by (apply Z.div_lt_upper_bound; lia).
    lia. }
  split; [|split].
  - apply computeSpectrogram_no_frames; auto; lia.
  - apply reconstruct_state_no_frames; auto; lia.
  - apply applyMaskAndReconstruct_no_frames; auto; lia.
Qed.

Lemma short_signal_no_frames_witness :
  (exists freqs,
     computeSpectrogram (N := ExactReal)
       (mkAudioBuffer (real_array [1; 2; 3]%R) 16000%R) 2048 512 128 =
     Ok (mkSpectrogramData [] freqs [], real_array [1; 2; 3]%R)) /\
  reconstruct_state (N := ExactReal)
    (mkAudioBuffer (real_array [1; 2; 3]%R) 16000%R) [] 2048 512 =
    Ok (normalize (mkReconState (real_array [1; 2; 3]%R)
                     (real_array [0; 0; 0]%R) (real_array [0; 0; 0]%R))) /\
  (exists out,
     applyMaskAndReconstruct (N := ExactReal)
       (mkAudioBuffer (real_array [1; 2; 3]%R) 16000%R) [] 2048 512 =
     Ok (out, real_array [1; 2; 3]%R) /\
     length (channelData out) = 3%nat /\
     sampleRate out = 16000%R).
Proof.
  apply (short_signal_no_frames (N := ExactReal)
           (mkAudioBuffer (real_array [1; 2; 3]%R) 16000%R) [] 2048 512 128).
  - unfold buffer_length. simpl. lia.
  - lia.
  - lia.
  - apply ExactReal_bins_finite.
Defined.

(** * The transform, the pipelines and the annotation layer, step by step *)

(** ** Complex numbers as pairs, and the discrete Fourier transform *)
Module DFT.

Definition C : Type := (R * R)%type.

Definition Cadd (x y : C) : C := (fst x + fst y, snd x + snd y)%R.
Definition Csub (x y : C) : C := (fst x - fst y, snd x - snd y)%R.
Definition Cmul (x y : C) : C :=
  (fst x * fst y - snd x * snd y, fst x * snd y + snd x * fst y)%R.
Definition Cconj (x : C) : C := (fst x, - snd x)%R.
Definition Cscale (c : R) (x : C) : C := (c * fst x, c * snd x)%R.
Definition C0 : C := (0, 0)%R.
Definition C1 : C := (1, 0)%R.

(** [sum f cnt]: the sum of [f 0 .. f (cnt - 1)]. *)
Fixpoint sum (f : Z -> C) (cnt : nat) : C :=
  match cnt with
  | O => C0
  | S c => Cadd (sum f c) (f (Z.of_nat c))
  end.

(** The point of the unit circle at [a / d] of a turn, clockwise. *)
Definition w (a d : Z) : C :=
  (cos (2 * PI * IZR a / IZR d), - sin (2 * PI * IZR a / IZR d))%R.

(** The transform of the [cnt] values [x 0 .. x (cnt - 1)] at [k]. *)
Definition dft (x : Z -> C) (cnt : nat) (k : Z) : C :=
  sum (fun t => Cmul (x t) (w (t * k) (Z.of_nat cnt))) cnt.

Lemma C_eq (x y : C) : fst x = fst y -> snd x = snd y -> x = y.
Proof. destruct x, y. simpl. now intros -> ->. Qed.

Ltac csimp := unfold Cadd, Csub, Cmul, Cconj, Cscale, C0, C1 in *; simpl fst in *; simpl snd in *.
Ltac cring := apply C_eq; csimp; simpl; try ring.

Lemma Cadd_0_l x : Cadd C0 x = x.
Proof. cring. Qed.
Lemma Cadd_0_r x : Cadd x C0 = x.
Proof. cring. Qed.
Lemma Cadd_comm x y : Cadd x y = Cadd y x.
Proof. cring. Qed.
Lemma Cadd_assoc x y z : Cadd x (Cadd y z) = Cadd (Cadd x y) z.
Proof. cring. Qed.
Lemma Cmul_1_r x : Cmul x C1 = x.
Proof. cring. Qed.
Lemma Cmul_0_r x : Cmul x C0 = C0.
Proof. cring. Qed.
Lemma Cmul_comm x y : Cmul x y = Cmul y x.
Proof. cring. Qed.
Lemma Cmul_assoc x y z : Cmul x (Cmul y z) = Cmul (Cmul x y) z.
Proof. cring. Qed.
Lemma Cmul_add_r x y z : Cmul x (Cadd y z) = Cadd (Cmul x y) (Cmul x z).
Proof. cring. Qed.
Lemma Cmul_add_l x y z : Cmul (Cadd x y) z = Cadd (Cmul x z) (Cmul y z).
Proof. cring. Qed.

Lemma sum_ext f g cnt :
  (forall t, 0 <= t < Z.of_nat cnt -> f t = g t) -> sum f cnt = sum g cnt.
Proof.
  induction cnt; intros H; simpl; [reflexivity|].
  rewrite IHcnt by (intros; apply H; lia). rewrite H by lia. reflexivity.
Qed.

Lemma sum_add f g cnt :
  sum (fun t => Cadd (f t) (g t)) cnt = Cadd (sum f cnt) (sum g cnt).
Proof. induction cnt; simpl; [cring | rewrite IHcnt; cring]. Qed.

Lemma sum_mul_l c f cnt :
  sum (fun t => Cmul c (f t)) cnt = Cmul c (sum f cnt).
Proof. induction cnt; simpl; [cring | rewrite IHcnt; cring]. Qed.

Lemma sum_mul_r c f cnt :
  sum (fun t => Cmul (f t) c) cnt = Cmul (sum f cnt) c.
Proof. induction cnt; simpl; [cring | rewrite IHcnt; cring]. Qed.

Lemma sum_zero cnt : sum (fun _ => C0) cnt = C0.
Proof. induction cnt; simpl; [reflexivity | rewrite IHcnt; cring]. Qed.

Lemma sum_swap (f : Z -> Z -> C) a b :
  sum (fun t => sum (fun k => f t k) b) a = sum (fun k => sum (fun t => f t k) a) b.
Proof.
  induction a; simpl.
  - now rewrite sum_zero.
  - rewrite IHa. now rewrite sum_add.
Qed.

(** Even and odd indices. *)
Lemma sum_even_odd f c :
  sum f (2 * c) =
  Cadd (sum (fun t => f (2 * t)) c) (sum (fun t => f (2 * t + 1)) c).
Proof.
  induction c.
  - simpl. cring.
  - replace (2 * S c)%nat with (S (S (2 * c))) by lia.
    cbn [sum]. rewrite IHc.
    replace (Z.of_nat (2 * c)) with (2 * Z.of_nat c) by lia.
    replace (Z.of_nat (S (2 * c))) with (2 * Z.of_nat c + 1) by lia.
    cring.
Qed.

(** A single term. *)
Lemma sum_single (f : Z -> C) cnt l :
  0 <= l < Z.of_nat cnt ->
  (forall t, 0 <= t < Z.of_nat cnt -> t <> l -> f t = C0) ->
  sum f cnt = f l.
Proof.
  induction cnt; intros Hl H; [lia|]. simpl.
  destruct (Z.eq_dec l (Z.of_nat cnt)) as [->|Hne].
  - rewrite (sum_ext f (fun _ => C0)) by (intros; apply H; lia).
    rewrite sum_zero. cring.
  - rewrite IHcnt by (try lia; intros; apply H; lia).
    rewrite (H (Z.of_nat cnt)) by lia. cring.
Qed.

(** *** Points of the unit circle *)

Lemma w_0 d : w 0 d = C1.
Proof.
  unfold w, C1. replace (2 * PI * 0 / IZR d)%R with 0%R by (unfold Rdiv; ring).
  rewrite cos_0, sin_0. f_equal. ring.
Qed.

Lemma w_add a b d : w (a + b) d = Cmul (w a d) (w b d).
Proof.
  unfold w. apply C_eq; csimp; rewrite plus_IZR;
    replace (2 * PI * (IZR a + IZR b) / IZR d)%R
      with (2 * PI * IZR a / IZR d + 2 * PI * IZR b / IZR d)%R
      by (unfold Rdiv; ring).
  - rewrite cos_plus. ring.
  - rewrite sin_plus. ring.
Qed.

(** A whole number of turns. *)
Lemma w_turns c d : 0 <= c -> 0 < d -> w (c * d) d = C1.
Proof.
  intros Hc Hd. unfold w, C1.
  assert (Hdr : (IZR d <> 0)%R) by (apply not_0_IZR; lia).
  replace (2 * PI * IZR (c * d) / IZR d)%R with (0 + 2 * INR (Z.to_nat c) * PI)%R.
  - rewrite cos_period, sin_period, cos_0, sin_0. f_equal. ring.
  - rewrite mult_IZR, INR_IZR_INZ, Z2Nat.id by lia. field. exact Hdr.
Qed.

(** Half a turn. *)
Lemma w_half d : 0 < d -> w d (2 * d) = (-1, 0)%R.
Proof.
  intros Hd. unfold w.
  assert (Hdr : (IZR d <> 0)%R) by (apply not_0_IZR; lia).
  replace (2 * PI * IZR d / IZR (2 * d))%R with PI.
  - rewrite cos_PI, sin_PI. f_equal. ring.
  - rewrite mult_IZR. field. exact Hdr.
Qed.

(** The same fraction of a turn. *)
Lemma w_scale a d : 0 < d -> w (2 * a) (2 * d) = w a d.
Proof.
  intros Hd. unfold w.
  assert (Hdr : (IZR d <> 0)%R) by (apply not_0_IZR; lia).
  replace (2 * PI * IZR (2 * a) / IZR (2 * d))%R with (2 * PI * IZR a / IZR d)%R.
  - reflexivity.
  - rewrite !mult_IZR. field. exact Hdr.
Qed.

Lemma w_conj_mul a d : Cmul (w a d) (Cconj (w a d)) = C1.
Proof.
  unfold w. apply C_eq; csimp.
  - pose proof (sin2_cos2 (2 * PI * IZR a / IZR d)) as H. unfold Rsqr in H.
    replace 1%R with (sin (2 * PI * IZR a / IZR d) * sin (2 * PI * IZR a / IZR d) +
                      cos (2 * PI * IZR a / IZR d) * cos (2 * PI * IZR a / IZR d))%R
      by exact H.
    ring.
  - ring.
Qed.

(** *** Orthogonality on a power-of-two size *)

Lemma pow2_nat p : Z.of_nat (2 ^ p) = 2 ^ Z.of_nat p.
Proof.
  now rewrite Nat2Z.inj_pow.
Qed.

(** The sum of the powers of a point that is not a whole number of turns. *)
Lemma sum_w_zero p : forall d,
  0 <= d -> d mod 2 ^ Z.of_nat p <> 0 ->
  sum (fun k => w (k * d) (2 ^ Z.of_nat p)) (2 ^ p) = C0.
Proof.
  induction p; intros d Hd Hmod.
  - simpl in Hmod. rewrite Z.mod_1_r in Hmod. congruence.
  - rewrite Nat.pow_succ_r'. rewrite sum_even_odd.
    assert (Hpos : 0 < 2 ^ Z.of_nat p) by (apply Z.pow_pos_nonneg; lia).
    assert (E2 : 2 ^ Z.of_nat (S p) = 2 * 2 ^ Z.of_nat p).
    { rewrite Nat2Z.inj_succ, Z.pow_succ_r by lia. reflexivity. }
    rewrite E2 in *.
    rewrite (sum_ext (fun t => w (2 * t * d) (2 * 2 ^ Z.of_nat p))
                     (fun t => w (t * d) (2 ^ Z.of_nat p))).
    2:{ intros t _. rewrite <- Z.mul_assoc. now apply w_scale. }
    rewrite (sum_ext (fun t => w ((2 * t + 1) * d) (2 * 2 ^ Z.of_nat p))
                     (fun t => Cmul (w d (2 * 2 ^ Z.of_nat p))
                                    (w (t * d) (2 ^ Z.of_nat p)))).
    2:{ intros t _. replace ((2 * t + 1) * d) with (d + 2 * (t * d)) by ring.
        rewrite w_add. now rewrite w_scale. }
    rewrite sum_mul_l.
    destruct (Z.eq_dec (d mod 2 ^ Z.of_nat p) 0) as [Hz | Hnz].
    + (* d is an odd multiple of 2^p: the factor is 1 + (-1) *)
      apply Z.mod_divide in Hz; [|lia]. destruct Hz as [c Hc].
      assert (Hodd : c mod 2 = 1).
      { destruct (Z.eq_dec (c mod 2) 0) as [H0|H0].
        - exfalso. apply Hmod. apply Z.mod_divide; [lia|].
          apply Z.mod_divide in H0; [|lia]. destruct H0 as [c' ->].
          exists c'. lia.
        - pose proof (Z.mod_pos_bound c 2 ltac:(lia)). lia. }
      assert (Hc0 : 0 <= c) by nia.
      assert (Hw : w d (2 * 2 ^ Z.of_nat p) = (-1, 0)%R).
      { pose proof (Z.div_mod c 2 ltac:(lia)) as Hdm. rewrite Hodd in Hdm.
        replace d with (2 ^ Z.of_nat p + (c / 2) * (2 * 2 ^ Z.of_nat p)) by nia.
        rewrite w_add, w_half by lia.
        rewrite w_turns; [cring | | lia].
        apply Z.div_pos; lia. }
      rewrite Hw. cring.
    + rewrite (IHp d Hd Hnz). cring.
Qed.

Lemma sum_w_full p d :
  0 <= d -> d mod 2 ^ Z.of_nat p = 0 ->
  sum (fun k => w (k * d) (2 ^ Z.of_nat p)) (2 ^ p) = (IZR (2 ^ Z.of_nat p), 0%R).
Proof.
  intros Hd Hmod.
  assert (Hpos : 0 < 2 ^ Z.of_nat p) by (apply Z.pow_pos_nonneg; lia).
  apply Z.mod_divide in Hmod; [|lia]. destruct Hmod as [c ->].
  rewrite (sum_ext _ (fun _ => C1)).
  2:{ intros k Hk. replace (k * (c * 2 ^ Z.of_nat p)) with ((k * c) * 2 ^ Z.of_nat p) by ring.
      apply w_turns; nia. }
  rewrite <- pow2_nat. generalize (2 ^ p)%nat. intros cnt.
  induction cnt; [reflexivity|].
  cbn [sum]. rewrite IHcnt. rewrite Nat2Z.inj_succ, succ_IZR. cring.
Qed.

(** *** The transform of a sequence from those of its even and odd parts *)

Lemma Csub_as_add x y : Csub x y = Cadd x (Cmul (-1, 0)%R y).
Proof. cring. Qed.

Lemma dft_even_odd (y : Z -> C) (c : nat) (k : Z) :
  (0 < c)%nat ->
  dft y (2 * c) k =
  Cadd (dft (fun u => y (2 * u)) c k)
       (Cmul (w k (2 * Z.of_nat c)) (dft (fun u => y (2 * u + 1)) c k)).
Proof.
  intros Hc. unfold dft. rewrite sum_even_odd.
  replace (Z.of_nat (2 * c)) with (2 * Z.of_nat c) by lia.
  f_equal.
  - apply sum_ext. intros u _. f_equal.
    replace (2 * u * k) with (2 * (u * k)) by ring. apply w_scale. lia.
  - rewrite <- sum_mul_l. apply sum_ext. intros u _.
    replace ((2 * u + 1) * k) with (k + 2 * (u * k)) by ring.
    rewrite w_add, w_scale by lia. cring.
Qed.

Lemma dft_even_odd_upper (y : Z -> C) (c : nat) (k : Z) :
  (0 < c)%nat -> 0 <= k ->
  dft y (2 * c) (k + Z.of_nat c) =
  Csub (dft (fun u => y (2 * u)) c k)
       (Cmul (w k (2 * Z.of_nat c)) (dft (fun u => y (2 * u + 1)) c k)).
Proof.
  intros Hc Hk. unfold dft. rewrite sum_even_odd.
  replace (Z.of_nat (2 * c)) with (2 * Z.of_nat c) by lia.
  rewrite Csub_as_add. f_equal.
  - apply sum_ext. intros u Hu. f_equal.
    replace (2 * u * (k + Z.of_nat c)) with (2 * (u * k + u * Z.of_nat c)) by ring.
    rewrite w_scale, w_add, w_turns by lia. cring.
  - rewrite <- !sum_mul_l. apply sum_ext. intros u Hu.
    replace ((2 * u + 1) * (k + Z.of_nat c))
      with (k + (Z.of_nat c + 2 * (u * k + u * Z.of_nat c))) by ring.
    rewrite !w_add, w_half, w_scale, w_add, w_turns by lia. cring.
Qed.

End DFT.

Import DFT.

(** ** Bit reversal as a permutation *)

Lemma mod_half_double u q :
  0 < q -> u mod (2 * q) = u mod 2 + 2 * ((u / 2) mod q).
Proof. intros Hq. rewrite Z.rem_mul_r by lia. reflexivity. Qed.

(** Peeling the top bit instead of the bottom one. *)
Lemma bit_reverse_top q : forall u,
  0 <= u < 2 ^ Z.of_nat (S q) ->
  bit_reverse (S q) u = 2 * bit_reverse q (u mod 2 ^ Z.of_nat q) + u / 2 ^ Z.of_nat q.
Proof.
  induction q as [|q IH]; intros u Hu.
  - change (2 ^ Z.of_nat 1) with 2 in Hu. cbn [bit_reverse].
    change (2 ^ Z.of_nat 0) with 1. rewrite Z.div_1_r, Z.mod_small by lia. lia.
  - assert (Hpos : 0 < 2 ^ Z.of_nat q) by (apply pow2_pos; lia).
    assert (E1 : 2 ^ Z.of_nat (S q) = 2 * 2 ^ Z.of_nat q).
    { rewrite Nat2Z.inj_succ, Z.pow_succ_r by lia. reflexivity. }
    assert (E2 : 2 ^ Z.of_nat (S (S q)) = 2 * 2 ^ Z.of_nat (S q)).
    { rewrite (Nat2Z.inj_succ (S q)), Z.pow_succ_r by lia. reflexivity. }
    rewrite E2 in Hu.
    change (bit_reverse (S (S q)) u)
      with ((u mod 2) * 2 ^ Z.of_nat (S q) + bit_reverse (S q) (u / 2)).
    rewrite (IH (u / 2)).
    2:{ split; [apply Z.div_pos; lia|]. apply Z.div_lt_upper_bound; lia. }
    change (bit_reverse (S q) (u mod 2 ^ Z.of_nat (S q)))
      with (((u mod 2 ^ Z.of_nat (S q)) mod 2) * 2 ^ Z.of_nat q +
            bit_reverse q ((u mod 2 ^ Z.of_nat (S q)) / 2)).
    rewrite E1.
    rewrite (mod_half_double u (2 ^ Z.of_nat q)) by lia.
    pose proof (Z.mod_pos_bound u 2 ltac:(lia)) as Hb.
    pose proof (Z.mod_pos_bound (u / 2) (2 ^ Z.of_nat q) ltac:(lia)) as Hr.
    assert (H1 : (u mod 2 + 2 * ((u / 2) mod 2 ^ Z.of_nat q)) mod 2 = u mod 2).
    { rewrite Z.mul_comm, Z.mod_add by lia. apply Z.mod_small. lia. }
    assert (H2 : (u mod 2 + 2 * ((u / 2) mod 2 ^ Z.of_nat q)) / 2 =
                 (u / 2) mod 2 ^ Z.of_nat q).
    { rewrite Z.mul_comm, Z.div_add by lia. rewrite Z.div_small by lia. lia. }
    rewrite H1, H2.
    assert (H3 : u / (2 * 2 ^ Z.of_nat q) = u / 2 / 2 ^ Z.of_nat q).
    { rewrite Z.div_div by lia. reflexivity. }
    rewrite H3. ring.
Qed.

Lemma bit_reverse_involutive q : forall i,
  0 <= i < 2 ^ Z.of_nat q -> bit_reverse q (bit_reverse q i) = i.
Proof.
  induction q as [|q IH]; intros i Hi.
  - simpl in *. lia.
  - assert (Hpos : 0 < 2 ^ Z.of_nat q) by (apply pow2_pos; lia).
    assert (E1 : 2 ^ Z.of_nat (S q) = 2 * 2 ^ Z.of_nat q).
    { rewrite Nat2Z.inj_succ, Z.pow_succ_r by lia. reflexivity. }
    rewrite bit_reverse_top by apply bit_reverse_range.
    cbn [bit_reverse].
    pose proof (Z.mod_pos_bound i 2 ltac:(lia)) as Hb.
    pose proof (bit_reverse_range q (i / 2)) as Hr.
    assert (Hi2 : 0 <= i / 2 < 2 ^ Z.of_nat q).
    { split; [apply Z.div_pos; lia|]. apply Z.div_lt_upper_bound; lia. }
    assert (H1 : (i mod 2 * 2 ^ Z.of_nat q + bit_reverse q (i / 2)) mod 2 ^ Z.of_nat q =
                 bit_reverse q (i / 2)).
    { rewrite Z.add_comm, Z.mod_add by lia. apply Z.mod_small. lia. }
    assert (H2 : (i mod 2 * 2 ^ Z.of_nat q + bit_reverse q (i / 2)) / 2 ^ Z.of_nat q =
                 i mod 2).
    { rewrite Z.add_comm, Z.div_add by lia. rewrite Z.div_small by lia. lia. }
    rewrite H1, H2, IH by exact Hi2.
    pose proof (Z.div_mod i 2 ltac:(lia)). lia.
Qed.

Lemma bit_reverse_ones q : bit_reverse q (2 ^ Z.of_nat q - 1) = 2 ^ Z.of_nat q - 1.
Proof.
  induction q as [|q IH]; [reflexivity|].
  assert (Hpos : 0 < 2 ^ Z.of_nat q) by (apply pow2_pos; lia).
  assert (E1 : 2 ^ Z.of_nat (S q) = 2 * 2 ^ Z.of_nat q).
  { rewrite Nat2Z.inj_succ, Z.pow_succ_r by lia. reflexivity. }
  cbn [bit_reverse]. rewrite E1.
  assert (H1 : (2 * 2 ^ Z.of_nat q - 1) mod 2 = 1).
  { replace (2 * 2 ^ Z.of_nat q - 1) with (1 + (2 ^ Z.of_nat q - 1) * 2) by ring.
    now rewrite Z.mod_add by lia. }
  assert (H2 : (2 * 2 ^ Z.of_nat q - 1) / 2 = 2 ^ Z.of_nat q - 1).
  { replace (2 * 2 ^ Z.of_nat q - 1) with (1 + (2 ^ Z.of_nat q - 1) * 2) by ring.
    now rewrite Z.div_add by lia. }
  rewrite H1, H2, IH. ring.
Qed.

Section Permutation.
Context {N : JSNumber}.

(** The value index [t] holds after the bit-reversal loop: elements that
    change place are stored once. *)
Definition permuted (p : nat) (a : Float32Array) (t : Z) : num :=
  if bit_reverse p t =? t then aget a t else fround (aget a (bit_reverse p t)).

Lemma swap_when_less_spec i j (re im : Float32Array) :
  0 <= i < Z.of_nat (length re) -> 0 <= j < Z.of_nat (length re) ->
  length im = length re ->
  let st := swap_when_less i j (re, im) in
  forall t,
    aget (fst st) t =
      (if i <? j then
         if t =? j then fround (aget re i)
         else if t =? i then fround (aget re j) else aget re t
       else aget re t) /\
    aget (snd st) t =
      (if i <? j then
         if t =? j then fround (aget im i)
         else if t =? i then fround (aget im j) else aget im t
       else aget im t).
Proof.
  intros Hi Hj Hl st t. subst st. unfold swap_when_less.
  destruct (Z.ltb_spec i j); [|split; reflexivity].
  cbn [fst snd].
  rewrite !aget_aset, !aset_length, Hl.
  destruct (Z.eqb_spec j t), (Z.eqb_spec t j), (Z.eqb_spec i t), (Z.eqb_spec t i),
    (Z.leb_spec 0 j), (Z.ltb_spec j (Z.of_nat (length re))),
    (Z.leb_spec 0 i), (Z.ltb_spec i (Z.of_nat (length re)));
    simpl; try lia; auto.
Qed.

Lemma bitrev_permute_spec p (re im : Float32Array) :
  Z.of_nat (length re) = 2 ^ Z.of_nat p -> length im = length re ->
  let st := bitrev_permute p (re, im) in
  length (fst st) = length re /\ length (snd st) = length re /\
  forall t, 0 <= t < 2 ^ Z.of_nat p ->
            aget (fst st) t = permuted p re t /\ aget (snd st) t = permuted p im t.
Proof.
  intros Hn Hl st. subst st.
  pose proof (pow2_pos (Z.of_nat p) ltac:(lia)) as Hpos.
  unfold bitrev_permute.
  set (n := 2 ^ Z.of_nat p) in *.
  pose proof
    (for_upto_inv
       (fun i (st : Float32Array * Float32Array) =>
          length (fst st) = length re /\ length (snd st) = length re /\
          forall t, 0 <= t < n ->
            aget (fst st) t =
              (if (t <? i) || (bit_reverse p t <? i) then permuted p re t else aget re t) /\
            aget (snd st) t =
              (if (t <? i) || (bit_reverse p t <? i) then permuted p im t else aget im t))
       0 (n - 1) (fun i st => swap_when_less i (bit_reverse p i) st) (re, im)
       ltac:(lia)) as H.
  destruct H as (L1 & L2 & H).
  - cbn [fst snd]. split; [reflexivity|]. split; [exact Hl|].
    intros t Ht. pose proof (bit_reverse_range p t).
    destruct (Z.ltb_spec t 0), (Z.ltb_spec (bit_reverse p t) 0); simpl; try lia. auto.
  - intros i [cr ci] Hi (L1 & L2 & Inv). cbn [fst snd] in *.
    pose proof (bit_reverse_range p i) as Hj. fold n in Hj.
    pose proof (swap_when_less_lengths i (bit_reverse p i) (cr, ci)) as [A B].
    cbn [fst snd] in A, B.
    split; [exact (eq_trans A L1)|]. split; [exact (eq_trans B L2)|].
    intros t Ht.
    pose proof (swap_when_less_spec i (bit_reverse p i) cr ci
                  ltac:(lia) ltac:(lia) ltac:(now rewrite L2) t) as [S1 S2].
    cbn zeta in S1, S2. rewrite S1, S2.
    pose proof (bit_reverse_range p t) as Hrt. fold n in Hrt.
    pose proof (bit_reverse_involutive p t Ht) as Ht2.
    pose proof (bit_reverse_involutive p i ltac:(lia)) as Hi2.
    destruct (Inv t Ht) as [It1 It2].
    destruct (Inv i ltac:(lia)) as [Ii1 Ii2].
    destruct (Inv (bit_reverse p i) Hj) as [Ij1 Ij2].
    rewrite Hi2 in Ij1, Ij2.
    unfold permuted in *.
    destruct (Z.ltb_spec i (bit_reverse p i)) as [Hlt | Hge].
    + (* the two cells are exchanged *)
      destruct (Z.eqb_spec t (bit_reverse p i)) as [-> | Hne1].
      * rewrite Hi2.
        destruct (Z.ltb_spec (bit_reverse p i) (i + 1)),
          (Z.ltb_spec i (i + 1)), (Z.eqb_spec i (bit_reverse p i)); simpl; try lia.
        destruct (Z.ltb_spec i i), (Z.ltb_spec (bit_reverse p i) i); simpl in *; try lia.
        rewrite Ii1, Ii2. auto.
      * destruct (Z.eqb_spec t i) as [-> | Hne2].
        -- destruct (Z.ltb_spec i (i + 1)), (Z.eqb_spec (bit_reverse p i) i);
             simpl; try lia.
           destruct (Z.ltb_spec (bit_reverse p i) i), (Z.ltb_spec i i);
             simpl in *; try lia.
           rewrite Ij1, Ij2. auto.
        -- rewrite It1, It2.
           assert (bit_reverse p t <> i) by (intros E; rewrite E in Ht2; lia).
           destruct (Z.ltb_spec t i), (Z.ltb_spec t (i + 1)),
             (Z.ltb_spec (bit_reverse p t) i), (Z.ltb_spec (bit_reverse p t) (i + 1));
             simpl; try lia; auto.
    + rewrite It1, It2.
      destruct (Z.eq_dec t i) as [-> | Hne2].
      * destruct (Z.ltb_spec i (i + 1)), (Z.ltb_spec i i); simpl; try lia.
        destruct (Z.ltb_spec (bit_reverse p i) i); simpl; auto.
        assert (bit_reverse p i = i) as -> by lia.
        rewrite Z.eqb_refl. auto.
      * destruct (Z.eq_dec (bit_reverse p t) i) as [E | Hne3].
        -- assert (t = bit_reverse p i) by (rewrite <- E; auto).
           destruct (Z.ltb_spec t i), (Z.ltb_spec t (i + 1)),
             (Z.ltb_spec (bit_reverse p t) i), (Z.ltb_spec (bit_reverse p t) (i + 1));
             simpl; try lia; auto.
        -- destruct (Z.ltb_spec t i), (Z.ltb_spec t (i + 1)),
             (Z.ltb_spec (bit_reverse p t) i), (Z.ltb_spec (bit_reverse p t) (i + 1));
             simpl; try lia; auto.
  - split; [exact L1|]. split; [exact L2|].
    intros t Ht. destruct (H t Ht) as [H1 H2]. rewrite H1, H2.
    pose proof (bit_reverse_range p t) as Hrt. fold n in Hrt.
    destruct (Z.ltb_spec t (n - 1)), (Z.ltb_spec (bit_reverse p t) (n - 1));
      simpl; auto.
    assert (t = n - 1) by lia. subst t.
    unfold permuted. unfold n. rewrite bit_reverse_ones, Z.eqb_refl. auto.
Qed.

End Permutation.

(** ** The butterfly passes in exact arithmetic *)

Lemma zsteps_map lo step cnt :
  zsteps lo step cnt = map (fun t => lo + t * step) (zsteps 0 1 cnt).
Proof.
  assert (G : forall cnt lo t0,
             zsteps (lo + t0 * step) step cnt =
             map (fun t => lo + t * step) (zsteps t0 1 cnt)).
  { clear. induction cnt; intros lo t0; simpl; [reflexivity|].
    f_equal. replace (lo + t0 * step + step) with (lo + (t0 + 1) * step) by ring.
    apply IHcnt. }
  specialize (G cnt lo 0). now rewrite Z.mul_0_l, Z.add_0_r in G.
Qed.

Lemma for_step_upto {S : Type} lo hi step (body : Z -> S -> S) s :
  for_step lo hi step body s =
  for_upto 0 ((hi - lo + step - 1) / step) (fun t s => body (lo + t * step) s) s.
Proof.
  unfold for_step, for_upto. rewrite Z.sub_0_r, zsteps_map.
  generalize (zsteps 0 1 (Z.to_nat ((hi - lo + step - 1) / step))). intros l.
  revert s. induction l; simpl; intros s; auto.
Qed.

(** The pair of cells at [idx] as a complex number. *)
Definition cval (st : @Float32Array ExactReal * @Float32Array ExactReal) (idx : Z) : C :=
  (aget (fst st) idx, aget (snd st) idx).

Definition both_length (len : nat)
  (st : @Float32Array ExactReal * @Float32Array ExactReal) : Prop :=
  length (fst st) = len /\ length (snd st) = len.

Lemma fround_exact (x : R) : @fround ExactReal x = x.
Proof. reflexivity. Qed.

Lemma butterfly_exact m2 (wr wi : R) k st len idx :
  both_length len st -> 0 <= k -> 0 < m2 -> k + m2 < Z.of_nat len ->
  both_length len (butterfly (N := ExactReal) m2 wr wi k st) /\
  cval (butterfly (N := ExactReal) m2 wr wi k st) idx =
    if idx =? k then Cadd (cval st k) (Cmul (wr, wi) (cval st (k + m2)))
    else if idx =? k + m2 then Csub (cval st k) (Cmul (wr, wi) (cval st (k + m2)))
    else cval st idx.
Proof.
  intros [L1 L2] Hk Hm Hlt. destruct st as [re im]. cbn [fst snd] in *.
  unfold butterfly, both_length, cval. cbn [fst snd].
  split; [rewrite !aset_length; auto|].
  rewrite !aget_aset, ?aset_length, ?fround_exact, ?L1, ?L2.
  rewrite ?aget_aset, ?aset_length, ?fround_exact, ?L1, ?L2.
  destruct (Z.eqb_spec k idx), (Z.eqb_spec idx k), (Z.eqb_spec (k + m2) idx),
    (Z.eqb_spec idx (k + m2)), (Z.eqb_spec (k + m2) k),
    (Z.leb_spec 0 k), (Z.ltb_spec k (Z.of_nat len)),
    (Z.leb_spec 0 (k + m2)), (Z.ltb_spec (k + m2) (Z.of_nat len));
    simpl; try lia; subst; unfold Cadd, Csub, Cmul; simpl; try reflexivity.
Qed.

(** The value of cell [idx] after one pass with half-block [m2]. *)
Definition stage_val (m2 : Z) (tw : Z -> C) (a : Z -> C) (idx : Z) : C :=
  let r := idx mod (2 * m2) in
  if r <? m2 then Cadd (a idx) (Cmul (tw r) (a (idx + m2)))
  else Csub (a (idx - m2)) (Cmul (tw (r - m2)) (a idx)).

Lemma index_of_block m j t :
  0 < m -> 0 <= j < m -> (j + t * m) / m = t /\ (j + t * m) mod m = j.
Proof.
  intros Hm Hj. rewrite Z.div_add, Z.mod_add by lia.
  rewrite Z.div_small, Z.mod_small by lia. lia.
Qed.

Lemma residue_half m2 idx :
  0 < m2 ->
  (idx mod (2 * m2) < m2 /\ idx mod m2 = idx mod (2 * m2)) \/
  (m2 <= idx mod (2 * m2) /\ idx mod m2 = idx mod (2 * m2) - m2).
Proof.
  intros Hm.
  pose proof (Z.mod_pos_bound idx (2 * m2) ltac:(lia)) as Hr.
  pose proof (Z.div_mod idx (2 * m2) ltac:(lia)) as Hd.
  destruct (Z_lt_ge_dec (idx mod (2 * m2)) m2) as [Hlt | Hge].
  - left. split; [exact Hlt|].
    symmetry. apply (Z.mod_unique idx m2 (2 * (idx / (2 * m2)))); [lia | nia].
  - right. split; [lia|].
    symmetry. apply (Z.mod_unique idx m2 (2 * (idx / (2 * m2)) + 1)); [lia | nia].
Qed.

(** The loop over [k] for one [j]: the cells of residue [j] are combined. *)
Lemma inner_loop_exact m2 j (wr wi : R) blocks st0 len :
  0 < m2 -> 0 <= j < m2 -> 0 <= blocks ->
  Z.of_nat len = blocks * (2 * m2) ->
  both_length len st0 ->
  let st1 := for_step j (Z.of_nat len) (2 * m2) (butterfly (N := ExactReal) m2 wr wi) st0 in
  both_length len st1 /\
  forall idx, 0 <= idx < Z.of_nat len ->
    cval st1 idx =
      if idx mod m2 =? j then stage_val m2 (fun _ => (wr, wi)) (cval st0) idx
      else cval st0 idx.
Proof.
  intros Hm Hj Hb Hlen HL st1. subst st1.
  rewrite for_step_upto.
  assert (Hcnt : (Z.of_nat len - j + 2 * m2 - 1) / (2 * m2) = blocks).
  { symmetry. apply (Z.div_unique _ _ blocks (2 * m2 - 1 - j)); lia. }
  rewrite Hcnt.
  pose proof
    (for_upto_inv
       (fun t (st : @Float32Array ExactReal * @Float32Array ExactReal) =>
          both_length len st /\
          forall idx, 0 <= idx < Z.of_nat len ->
            cval st idx =
              if (idx mod m2 =? j) && (idx / (2 * m2) <? t)
              then stage_val m2 (fun _ => (wr, wi)) (cval st0) idx
              else cval st0 idx)
       0 blocks
       (fun t st => butterfly (N := ExactReal) m2 wr wi (j + t * (2 * m2)) st)
       st0 Hb) as H.
  destruct H as (HL' & H).
  - split; [exact HL|]. intros idx Hidx.
    assert (0 <= idx / (2 * m2)) by (apply Z.div_pos; lia).
    destruct (Z.ltb_spec (idx / (2 * m2)) 0); [lia|].
    now rewrite andb_false_r.
  - intros t st Ht (HLs & Inv).
    set (k := j + t * (2 * m2)).
    assert (Hk0 : 0 <= k) by (unfold k; nia).
    assert (Hk1 : k + m2 < Z.of_nat len) by (unfold k; nia).
    split; [apply (butterfly_exact m2 wr wi k st len 0 HLs Hk0 Hm Hk1)|].
    intros idx Hidx.
    destruct (butterfly_exact m2 wr wi k st len idx HLs Hk0 Hm Hk1) as [_ E].
    rewrite E. clear E.
    destruct (index_of_block (2 * m2) j t ltac:(lia) ltac:(lia)) as [Dk Mk].
    fold k in Dk, Mk.
    destruct (index_of_block (2 * m2) (j + m2) t ltac:(lia) ltac:(lia)) as [Dk2 Mk2].
    replace (j + m2 + t * (2 * m2)) with (k + m2) in Dk2, Mk2 by (unfold k; ring).
    assert (Ck : cval st k = cval st0 k).
    { rewrite Inv by lia. rewrite Dk.
      destruct (Z.ltb_spec t t); [lia|]. now rewrite andb_false_r. }
    assert (Ck2 : cval st (k + m2) = cval st0 (k + m2)).
    { rewrite Inv by lia. rewrite Dk2.
      destruct (Z.ltb_spec t t); [lia|]. now rewrite andb_false_r. }
    rewrite Ck, Ck2.
    destruct (Z.eqb_spec idx k) as [-> | Hne1].
    + (* the upper cell *)
      destruct (residue_half m2 k Hm) as [[R1 R2] | [R1 R2]]; [|lia].
      rewrite R2, Mk, Z.eqb_refl, Dk.
      destruct (Z.ltb_spec t (t + 1)); [|lia]. cbn [andb].
      unfold stage_val. cbn zeta. rewrite Mk.
      destruct (Z.ltb_spec j m2); [|lia]. reflexivity.
    + destruct (Z.eqb_spec idx (k + m2)) as [-> | Hne2].
      * (* the lower cell *)
        destruct (residue_half m2 (k + m2) Hm) as [[R1 R2] | [R1 R2]]; [lia|].
        rewrite R2, Mk2. replace (j + m2 - m2) with j by ring.
        rewrite Z.eqb_refl, Dk2.
        destruct (Z.ltb_spec t (t + 1)); [|lia]. cbn [andb].
        unfold stage_val. cbn zeta. rewrite Mk2.
        destruct (Z.ltb_spec (j + m2) m2); [lia|].
        replace (k + m2 - m2) with k by ring. reflexivity.
      * (* untouched *)
        rewrite Inv by exact Hidx.
        destruct (Z.eqb_spec (idx mod m2) j) as [Er | Er]; cbn [andb]; [|reflexivity].
        destruct (Z.ltb_spec (idx / (2 * m2)) t) as [Hq | Hq].
        -- destruct (Z.ltb_spec (idx / (2 * m2)) (t + 1)); [reflexivity | lia].
        -- destruct (Z.ltb_spec (idx / (2 * m2)) (t + 1)) as [Hq' | Hq']; [|reflexivity].
           exfalso. assert (Eq : idx / (2 * m2) = t) by lia.
           pose proof (Z.div_mod idx (2 * m2) ltac:(lia)) as Hd.
           destruct (residue_half m2 idx Hm) as [[R1 R2] | [R1 R2]].
           ++ apply Hne1. unfold k. rewrite Eq in Hd. lia.
           ++ apply Hne2. unfold k. rewrite Eq in Hd. lia.
  - split; [exact HL'|]. intros idx Hidx. rewrite H by exact Hidx.
    assert (Hq : idx / (2 * m2) < blocks).
    { apply Z.div_lt_upper_bound; lia. }
    destruct (Z.ltb_spec (idx / (2 * m2)) blocks); [|lia].
    now rewrite andb_true_r.
Qed.

Lemma for_upto_pair {A B : Type} lo hi (body : Z -> A * B -> A * B)
  (f : Z -> A -> A) (g : Z -> B -> B) a b :
  (forall i a b, body i (a, b) = (f i a, g i b)) ->
  for_upto lo hi body (a, b) = (for_upto lo hi f a, for_upto lo hi g b).
Proof.
  intros Hb. destruct (Z_le_gt_dec lo hi) as [Hle | Hgt].
  - apply (for_upto_inv
             (fun i st => st = (for_upto lo i f a, for_upto lo i g b))
             lo hi body (a, b) Hle).
    + now rewrite !for_upto_nil by lia.
    + intros i st Hi ->. rewrite Hb.
      rewrite (for_upto_last lo (i + 1) f), (for_upto_last lo (i + 1) g) by lia.
      now replace (i + 1 - 1) with i by lia.
  - now rewrite !for_upto_nil by lia.
Qed.

(** *** The tables of the constructor *)

(** The tables hold the cosines and sines of the multiples of [1 / n] of a
    turn. *)
Definition exact_tables (fft : @FFT ExactReal) : Prop :=
  Z.of_nat (length (fft_cos fft)) = fft_n fft / 2 /\
  Z.of_nat (length (fft_sin fft)) = fft_n fft / 2 /\
  forall i, 0 <= i < fft_n fft / 2 ->
    aget (fft_cos fft) i = cos (2 * PI * IZR i / IZR (fft_n fft)) /\
    aget (fft_sin fft) i = sin (2 * PI * IZR i / IZR (fft_n fft)).

Lemma FFT_new_exact p :
  exists fft, FFT_new (N := ExactReal) (2 ^ Z.of_nat p) = Ok fft /\
              fft_n fft = 2 ^ Z.of_nat p /\ fft_m fft = JInt (Z.of_nat p) /\
              exact_tables fft.
Proof.
  pose proof (pow2_pos (Z.of_nat p) ltac:(lia)) as Hpos.
  set (n := 2 ^ Z.of_nat p) in *.
  unfold FFT_new.
  assert (Hq : Z.quot n 2 = n / 2) by (apply Z.quot_div_nonneg; lia).
  assert (Hh : 0 <= n / 2) by (apply Z.div_pos; lia).
  rewrite Hq, new_Float32Array_ok by lia. cbn [bind].
  rewrite (for_upto_pair 0 ((n + 1) / 2) _
             (fun i c => aset c i (Math_cos (angle i n)))
             (fun i s => aset s i (Math_sin (angle i n)))) by reflexivity.
  eexists. split; [reflexivity|]. cbn [fft_n fft_m].
  split; [reflexivity|]. split; [apply Math_log2_bound_pow2|].
  unfold exact_tables. cbn [fft_n fft_cos fft_sin].
  destruct (for_upto_tabulate (N := ExactReal) 0 ((n + 1) / 2)
              (fun i => Math_cos (angle i n)) (repeat (ofZ 0) (Z.to_nat (n / 2))))
    as [Lc Gc].
  destruct (for_upto_tabulate (N := ExactReal) 0 ((n + 1) / 2)
              (fun i => Math_sin (angle i n)) (repeat (ofZ 0) (Z.to_nat (n / 2))))
    as [Ls Gs].
  cbn zeta in *.
  split; [rewrite Lc, repeat_length; lia|].
  split; [rewrite Ls, repeat_length; lia|].
  intros i Hi. rewrite Gc, Gs. unfold stored. rewrite repeat_length.
  assert (n / 2 <= (n + 1) / 2) by (apply Z.div_le_mono; lia).
  destruct (Z.leb_spec 0 i), (Z.ltb_spec i ((n + 1) / 2)),
    (Z.ltb_spec i (Z.of_nat (Z.to_nat (n / 2)))); simpl; try lia.
  split; reflexivity.
Qed.

(** *** One pass *)

Lemma mod_shift_add m2 idx : 0 < m2 -> (idx + m2) mod m2 = idx mod m2.
Proof. intros. replace (idx + m2) with (idx + 1 * m2) by ring. now rewrite Z.mod_add by lia. Qed.

Lemma mod_shift_sub m2 idx : 0 < m2 -> (idx - m2) mod m2 = idx mod m2.
Proof. intros. replace (idx - m2) with (idx + (-1) * m2) by ring. now rewrite Z.mod_add by lia. Qed.

Lemma twiddle_exact (fft : @FFT ExactReal) j m2 blocks :
  exact_tables fft -> 0 < m2 -> 0 <= j < m2 -> 0 < blocks ->
  fft_n fft = blocks * (2 * m2) ->
  @pair R R (table_get (fft_cos fft) j (fft_n fft) (2 * m2))
            (neg (table_get (fft_sin fft) j (fft_n fft) (2 * m2))) = w j (2 * m2).
Proof.
  intros (Lc & Ls & Tab) Hm Hj Hb Hn.
  unfold table_get.
  assert (Hmod : (j * fft_n fft) mod (2 * m2) = 0).
  { rewrite Hn. replace (j * (blocks * (2 * m2))) with ((j * blocks) * (2 * m2)) by ring.
    apply Z.mod_mul. lia. }
  rewrite Hmod. cbn [Z.eqb].
  assert (Hdiv : j * fft_n fft / (2 * m2) = j * blocks).
  { rewrite Hn. replace (j * (blocks * (2 * m2))) with ((j * blocks) * (2 * m2)) by ring.
    apply Z.div_mul. lia. }
  rewrite Hdiv.
  assert (Hhalf : fft_n fft / 2 = blocks * m2).
  { rewrite Hn. replace (blocks * (2 * m2)) with ((blocks * m2) * 2) by ring.
    apply Z.div_mul. lia. }
  destruct (Tab (j * blocks)) as [Tc Ts]; [rewrite Hhalf; nia|].
  rewrite Tc, Ts. unfold w. cbn [neg ExactReal].
  assert (Ha : (2 * PI * IZR (j * blocks) / IZR (fft_n fft) =
                2 * PI * IZR j / IZR (2 * m2))%R).
  { rewrite Hn, !mult_IZR. field.
    split; [apply not_0_IZR; lia|]. apply not_0_IZR; lia. }
  now rewrite Ha.
Qed.

(** One pass over arrays of the transform size combines the two halves of
    every block of [2^s] cells. *)
Lemma FFT_stage_exact (fft : @FFT ExactReal) (p s : nat) st :
  exact_tables fft -> fft_n fft = 2 ^ Z.of_nat p ->
  (1 <= s <= p)%nat -> (p <= 30)%nat ->
  both_length (2 ^ p) st ->
  let st' := FFT_stage fft (Z.of_nat s) st in
  both_length (2 ^ p) st' /\
  forall idx, 0 <= idx < 2 ^ Z.of_nat p ->
    cval st' idx =
    stage_val (2 ^ Z.of_nat (s - 1)) (fun r => w r (2 ^ Z.of_nat s)) (cval st) idx.
Proof.
  intros Htab Hn Hs Hp HL st'. subst st'.
  unfold FFT_stage.
  rewrite js_shl_1_small by lia.
  assert (E2 : 2 ^ Z.of_nat s = 2 * 2 ^ Z.of_nat (s - 1)).
  { replace (Z.of_nat s) with (Z.succ (Z.of_nat (s - 1))) by lia.
    now rewrite Z.pow_succ_r by lia. }
  pose proof (pow2_pos (Z.of_nat (s - 1)) ltac:(lia)) as Hm2.
  rewrite js_sar_1_small.
  2:{ split; [lia|]. apply Z.pow_lt_mono_r; lia. }
  rewrite (pow2_half (Z.of_nat s)) by lia.
  replace (Z.of_nat s - 1) with (Z.of_nat (s - 1)) by lia.
  set (m2 := 2 ^ Z.of_nat (s - 1)) in *.
  rewrite E2.
  set (blocks := 2 ^ Z.of_nat (p - s)).
  pose proof (pow2_pos (Z.of_nat (p - s)) ltac:(lia)) as Hb. fold blocks in Hb.
  assert (Hnb : 2 ^ Z.of_nat p = blocks * (2 * m2)).
  { unfold blocks. rewrite <- E2, <- Z.pow_add_r by lia. f_equal. lia. }
  assert (Hlen : Z.of_nat (2 ^ p) = blocks * (2 * m2)).
  { rewrite pow2_nat. exact Hnb. }
  rewrite Hn.
  pose proof
    (for_upto_inv
       (fun j0 (cur : @Float32Array ExactReal * @Float32Array ExactReal) =>
          both_length (2 ^ p) cur /\
          forall idx, 0 <= idx < 2 ^ Z.of_nat p ->
            cval cur idx =
              if idx mod m2 <? j0
              then stage_val m2 (fun r => w r (2 * m2)) (cval st) idx
              else cval st idx)
       0 m2
       (fun j cur =>
          for_step j (2 ^ Z.of_nat p) (2 * m2)
            (butterfly (N := ExactReal) m2
               (table_get (fft_cos fft) j (2 ^ Z.of_nat p) (2 * m2))
               (neg (table_get (fft_sin fft) j (2 ^ Z.of_nat p) (2 * m2))))
            cur)
       st ltac:(lia)) as H.
  destruct H as (HL' & H).
  - split; [exact HL|]. intros idx Hidx.
    pose proof (Z.mod_pos_bound idx m2 Hm2).
    destruct (Z.ltb_spec (idx mod m2) 0); [lia | reflexivity].
  - intros j cur Hj (HLc & Inv).
    pose proof (twiddle_exact fft j m2 blocks Htab Hm2 Hj Hb ltac:(lia)) as Htw.
    rewrite Hn in Htw.
    destruct (inner_loop_exact m2 j
                (table_get (fft_cos fft) j (2 ^ Z.of_nat p) (2 * m2))
                (neg (table_get (fft_sin fft) j (2 ^ Z.of_nat p) (2 * m2)))
                blocks cur (2 ^ p) Hm2 Hj ltac:(lia) Hlen HLc) as [HL1 G].
    rewrite pow2_nat in HL1, G.
    split; [exact HL1|].
    intros idx Hidx. rewrite G by exact Hidx.
    rewrite Htw.
    pose proof (Z.mod_pos_bound idx (2 * m2) ltac:(lia)) as Hr.
    pose proof (Z.div_mod idx (2 * m2) ltac:(lia)) as Hd.
    assert (Hq : idx / (2 * m2) < blocks) by (apply Z.div_lt_upper_bound; lia).
    assert (Hq0 : 0 <= idx / (2 * m2)) by (apply Z.div_pos; lia).
    destruct (Z.eqb_spec (idx mod m2) j) as [Er | Er].
    + destruct (Z.ltb_spec (idx mod m2) (j + 1)); [|lia].
      unfold stage_val. cbn zeta.
      destruct (residue_half m2 idx Hm2) as [[R1 R2] | [R1 R2]].
      * destruct (Z.ltb_spec (idx mod (2 * m2)) m2); [|lia].
        rewrite (Inv idx Hidx), (Inv (idx + m2)) by nia.
        rewrite mod_shift_add by lia.
        destruct (Z.ltb_spec (idx mod m2) j); [lia|].
        rewrite <- R2, Er. reflexivity.
      * destruct (Z.ltb_spec (idx mod (2 * m2)) m2); [lia|].
        rewrite (Inv idx Hidx), (Inv (idx - m2)) by nia.
        rewrite mod_shift_sub by lia.
        destruct (Z.ltb_spec (idx mod m2) j); [lia|].
        replace (idx mod (2 * m2) - m2) with j by lia. reflexivity.
    + rewrite (Inv idx Hidx).
      destruct (Z.ltb_spec (idx mod m2) j), (Z.ltb_spec (idx mod m2) (j + 1));
        try lia; reflexivity.
  - split; [exact HL'|]. intros idx Hidx. rewrite (H idx Hidx).
    pose proof (Z.mod_pos_bound idx m2 Hm2).
    destruct (Z.ltb_spec (idx mod m2) m2); [reflexivity | lia].
Qed.

(** *** All passes: the transform of growing blocks *)

Lemma dft_ext (y y' : Z -> C) cnt k :
  (forall t, 0 <= t < Z.of_nat cnt -> y t = y' t) -> dft y cnt k = dft y' cnt k.
Proof. intros H. unfold dft. apply sum_ext. intros t Ht. now rewrite H. Qed.

(** The cell of the input that block [b] of size [2^s] reads at position [t]. *)
Definition sub_index (p s : nat) (b t : Z) : Z :=
  bit_reverse (p - s) b + t * 2 ^ Z.of_nat (p - s).

(** After [s] passes every block of [2^s] cells holds the transform of the
    [2^s] input cells it reads. *)
Definition blocks_transformed (p s : nat) (x : Z -> C)
  (st : @Float32Array ExactReal * @Float32Array ExactReal) : Prop :=
  forall b k, 0 <= b < 2 ^ Z.of_nat (p - s) -> 0 <= k < 2 ^ Z.of_nat s ->
    cval st (b * 2 ^ Z.of_nat s + k) = dft (fun t => x (sub_index p s b t)) (2 ^ s) k.

Lemma sub_index_even p s b u :
  (s < p)%nat -> sub_index p (S s) b (2 * u) = sub_index p s (2 * b) u.
Proof.
  intros Hs. unfold sub_index.
  replace (p - s)%nat with (S (p - S s)) by lia.
  cbn [bit_reverse].
  replace (2 * b) with (b * 2) by ring. rewrite Z.mod_mul, Z.div_mul by lia.
  rewrite Nat2Z.inj_succ, Z.pow_succ_r by lia. ring.
Qed.

Lemma sub_index_odd p s b u :
  (s < p)%nat -> sub_index p (S s) b (2 * u + 1) = sub_index p s (2 * b + 1) u.
Proof.
  intros Hs. unfold sub_index.
  replace (p - s)%nat with (S (p - S s)) by lia.
  cbn [bit_reverse].
  replace (2 * b + 1) with (1 + b * 2) by ring. rewrite Z.mod_add, Z.div_add by lia.
  change (1 mod 2) with 1. change (1 / 2) with 0. rewrite Z.add_0_l.
  rewrite Nat2Z.inj_succ, Z.pow_succ_r by lia. ring.
Qed.

Lemma stage_step (fft : @FFT ExactReal) (p s : nat) (x : Z -> C) st :
  exact_tables fft -> fft_n fft = 2 ^ Z.of_nat p ->
  (s < p)%nat -> (p <= 30)%nat ->
  both_length (2 ^ p) st -> blocks_transformed p s x st ->
  both_length (2 ^ p) (FFT_stage fft (Z.of_nat (S s)) st) /\
  blocks_transformed p (S s) x (FFT_stage fft (Z.of_nat (S s)) st).
Proof.
  intros Htab Hn Hs Hp HL Inv.
  destruct (FFT_stage_exact fft p (S s) st Htab Hn ltac:(lia) Hp HL) as [HL' G].
  split; [exact HL'|].
  unfold blocks_transformed in Inv.
  intros b k Hb Hk.
  replace (S s - 1)%nat with s in G by lia.
  pose proof (pow2_pos (Z.of_nat s) ltac:(lia)) as Hm2.
  pose proof (pow2_pos (Z.of_nat (p - S s)) ltac:(lia)) as Hq.
  assert (E2 : 2 ^ Z.of_nat (S s) = 2 * 2 ^ Z.of_nat s).
  { rewrite Nat2Z.inj_succ, Z.pow_succ_r by lia. reflexivity. }
  assert (Ep : 2 ^ Z.of_nat p = 2 ^ Z.of_nat (p - S s) * (2 * 2 ^ Z.of_nat s)).
  { rewrite <- E2, <- Z.pow_add_r by lia. f_equal. lia. }
  assert (Eps : 2 ^ Z.of_nat (p - s) = 2 * 2 ^ Z.of_nat (p - S s)).
  { replace (p - s)%nat with (S (p - S s)) by lia.
    rewrite Nat2Z.inj_succ, Z.pow_succ_r by lia. reflexivity. }
  rewrite E2 in *.
  set (m2 := 2 ^ Z.of_nat s) in *.
  set (q := 2 ^ Z.of_nat (p - S s)) in *.
  assert (Hc : Z.of_nat (2 ^ s) = m2) by apply pow2_nat.
  assert (Hcpos : (0 < 2 ^ s)%nat) by lia.
  rewrite G by nia.
  destruct (index_of_block (2 * m2) k b ltac:(lia) ltac:(lia)) as [_ Mk].
  unfold stage_val. cbn zeta.
  replace (b * (2 * m2) + k) with (k + b * (2 * m2)) by ring.
  rewrite Mk.
  rewrite Nat.pow_succ_r'.
  destruct (Z.ltb_spec k m2) as [Hlt | Hge].
  - rewrite dft_even_odd by exact Hcpos. rewrite Hc.
    replace (k + b * (2 * m2)) with (2 * b * m2 + k) by ring.
    replace (2 * b * m2 + k + m2) with ((2 * b + 1) * m2 + k) by ring.
    rewrite (Inv (2 * b) k) by lia.
    rewrite (Inv (2 * b + 1) k) by lia.
    f_equal; [|f_equal]; apply dft_ext; intros t _.
    + now rewrite sub_index_even.
    + now rewrite sub_index_odd.
  - replace k with ((k - m2) + Z.of_nat (2 ^ s)) at 4 by lia.
    rewrite dft_even_odd_upper by lia. rewrite Hc.
    replace (k + b * (2 * m2) - m2) with (2 * b * m2 + (k - m2)) by ring.
    replace (k + b * (2 * m2)) with ((2 * b + 1) * m2 + (k - m2)) by ring.
    rewrite (Inv (2 * b) (k - m2)) by lia.
    rewrite (Inv (2 * b + 1) (k - m2)) by lia.
    f_equal; [|f_equal]; apply dft_ext; intros t _.
    + now rewrite sub_index_even.
    + now rewrite sub_index_odd.
Qed.

Lemma stages_exact (fft : @FFT ExactReal) (p : nat) (x : Z -> C) st0 :
  exact_tables fft -> fft_n fft = 2 ^ Z.of_nat p -> (p <= 30)%nat ->
  both_length (2 ^ p) st0 ->
  (forall b, 0 <= b < 2 ^ Z.of_nat p -> cval st0 b = x (bit_reverse p b)) ->
  forall s, (s <= p)%nat ->
    both_length (2 ^ p) (for_upto 1 (Z.of_nat s + 1) (FFT_stage fft) st0) /\
    blocks_transformed p s x (for_upto 1 (Z.of_nat s + 1) (FFT_stage fft) st0).
Proof.
  intros Htab Hn Hp HL H0 s. induction s as [|s IH]; intros Hs.
  - rewrite for_upto_nil by lia. split; [exact HL|].
    intros b k Hb Hk. change (2 ^ Z.of_nat 0) with 1 in *.
    assert (k = 0) as -> by lia.
    replace (b * 1 + 0) with b by ring.
    replace (p - 0)%nat with p in * by lia.
    rewrite H0 by exact Hb.
    unfold dft, sub_index. cbn [Nat.pow sum Z.of_nat].
    replace (p - 0)%nat with p by lia.
    rewrite Z.mul_0_l, Z.add_0_r, w_0. apply C_eq; simpl; ring.
  - destruct IH as [HLs Inv]; [lia|].
    rewrite for_upto_last by lia.
    replace (Z.of_nat (S s) + 1 - 1) with (Z.of_nat s + 1) by lia.
    replace (Z.of_nat s + 1) with (Z.of_nat (S s)) at 1 3 by lia.
    replace (Z.of_nat (S s)) with (Z.of_nat s + 1) at 2 4 by lia.
    apply stage_step; auto.
Qed.

(** The forward transform is the discrete Fourier transform. *)
Theorem FFT_forward_dft (p : nat) (re im : @Float32Array ExactReal) :
  (p <= 30)%nat -> length re = (2 ^ p)%nat -> length im = (2 ^ p)%nat ->
  exists fft st,
    FFT_new (N := ExactReal) (2 ^ Z.of_nat p) = Ok fft /\
    FFT_forward fft re im = Ok st /\
    both_length (2 ^ p) st /\
    forall k, 0 <= k < 2 ^ Z.of_nat p ->
      cval st k = dft (cval (re, im)) (2 ^ p) k.
Proof.
  intros Hp Lr Li.
  destruct (FFT_new_exact p) as (fft & Enew & Hn & Hm & Htab).
  exists fft. eexists. split; [exact Enew|].
  rewrite (FFT_forward_pow2 fft p re im Hp Hn).
  split; [reflexivity|].
  unfold FFT_stages. rewrite Hm. cbn [int_bound].
  destruct (bitrev_permute_spec (N := ExactReal) p re im) as (L1 & L2 & Hperm).
  { rewrite Lr. apply pow2_nat. }
  { congruence. }
  destruct (stages_exact fft p (cval (re, im)) (bitrev_permute p (re, im))
              Htab Hn Hp) with (s := p) as [HL Inv].
  - split; [rewrite L1 | rewrite L2]; exact Lr.
  - intros b Hb. destruct (Hperm b Hb) as [P1 P2].
    unfold cval. rewrite P1, P2. unfold permuted. cbn [fst snd].
    destruct (bit_reverse p b =? b) eqn:E; [|reflexivity].
    apply Z.eqb_eq in E. now rewrite E.
  - lia.
  - split; [exact HL|]. intros k Hk.
    specialize (Inv 0 k). replace (p - p)%nat with O in Inv by lia.
    rewrite Z.mul_0_l, Z.add_0_l in Inv. rewrite Inv by (simpl; lia).
    apply dft_ext. intros t _. unfold sub_index.
    replace (p - p)%nat with O by lia. simpl. f_equal. ring.
Qed.

(** *** The inverse transform *)

(** The inverse transform of the [cnt] values [y 0 .. y (cnt - 1)] at [k]. *)
Definition idft (y : Z -> C) (cnt : nat) (k : Z) : C :=
  Cscale (/ IZR (Z.of_nat cnt))
    (sum (fun t => Cmul (y t) (Cconj (w (t * k) (Z.of_nat cnt)))) cnt).

Lemma Cconj_add x y : Cconj (Cadd x y) = Cadd (Cconj x) (Cconj y).
Proof. cring. Qed.

Lemma Cconj_mul x y : Cconj (Cmul x y) = Cmul (Cconj x) (Cconj y).
Proof. cring. Qed.

Lemma Cconj_conj x : Cconj (Cconj x) = x.
Proof. cring. Qed.

Lemma sum_conj f cnt : Cconj (sum f cnt) = sum (fun t => Cconj (f t)) cnt.
Proof.
  induction cnt; simpl; [cring|]. now rewrite Cconj_add, IHcnt.
Qed.

Lemma sum_scale c f cnt : Cscale c (sum f cnt) = sum (fun t => Cscale c (f t)) cnt.
Proof.
  induction cnt; simpl; [cring|]. rewrite <- IHcnt. cring.
Qed.

(** The conjugate of a point of the circle is the point of the opposite
    angle. *)
Lemma w_conj a d : 0 <= a -> 0 < d -> Cconj (w a d) = w (a * (d - 1)) d.
Proof.
  intros Ha Hd.
  assert (E : Cmul (w a d) (w (a * (d - 1)) d) = C1).
  { rewrite <- w_add. replace (a + a * (d - 1)) with (a * d) by ring.
    now apply w_turns. }
  pose proof (w_conj_mul a d) as E'.
  rewrite <- (Cmul_1_r (Cconj (w a d))), <- E.
  rewrite Cmul_assoc, (Cmul_comm (Cconj (w a d))), E'. cring.
Qed.

Lemma neg_loop_exact (n : Z) (im : @Float32Array ExactReal) :
  Z.of_nat (length im) = n ->
  let im' := for_upto 0 n (fun i (a : @Float32Array ExactReal) =>
                             aset a i (neg (aget a i))) im in
  length im' = length im /\
  forall k, 0 <= k < n -> aget im' k = (- aget im k)%R.
Proof.
  intros Hl im'. subst im'.
  destruct (for_upto_pointwise (N := ExactReal) 0 n (fun _ v => neg v) im) as [L G].
  cbn zeta in *. split; [exact L|]. intros k Hk. rewrite G. unfold stored.
  destruct (Z.leb_spec 0 k), (Z.ltb_spec k n), (Z.ltb_spec k (Z.of_nat (length im)));
    simpl; try lia. reflexivity.
Qed.

Lemma scale_loop_exact (n : Z) (c : R) (a : @Float32Array ExactReal) :
  Z.of_nat (length a) = n ->
  let a' := for_upto 0 n (fun i (a : @Float32Array ExactReal) =>
                            aset a i (div (aget a i) c)) a in
  length a' = length a /\
  forall k, 0 <= k < n -> aget a' k = (aget a k / c)%R.
Proof.
  intros Hl a'. subst a'.
  destruct (for_upto_pointwise (N := ExactReal) 0 n (fun _ v => div v c) a) as [L G].
  cbn zeta in *. split; [exact L|]. intros k Hk. rewrite G. unfold stored.
  destruct (Z.leb_spec 0 k), (Z.ltb_spec k n), (Z.ltb_spec k (Z.of_nat (length a)));
    simpl; try lia. reflexivity.
Qed.

(** The inverse transform is the inverse discrete Fourier transform. *)
Lemma FFT_inverse_exact (p : nat) (fft : @FFT ExactReal) (re im : @Float32Array ExactReal) :
  (p <= 30)%nat ->
  FFT_new (N := ExactReal) (2 ^ Z.of_nat p) = Ok fft ->
  length re = (2 ^ p)%nat -> length im = (2 ^ p)%nat ->
  exists st,
    FFT_inverse fft re im = Ok st /\
    both_length (2 ^ p) st /\
    forall k, 0 <= k < 2 ^ Z.of_nat p ->
      cval st k = idft (cval (re, im)) (2 ^ p) k.
Proof.
  intros Hp Enew Lr Li.
  pose proof (pow2_pos (Z.of_nat p) ltac:(lia)) as Hpos.
  destruct (FFT_new_exact p) as (fft' & Enew' & Hn & Hm & Htab).
  rewrite Enew in Enew'. injection Enew' as <-.
  unfold FFT_inverse. rewrite Hn.
  destruct (neg_loop_exact (2 ^ Z.of_nat p) im) as [Ln Gn].
  { rewrite Li. apply pow2_nat. }
  cbn zeta in Ln, Gn.
  set (im1 := for_upto 0 (2 ^ Z.of_nat p) _ im) in *.
  destruct (FFT_forward_dft p re im1 Hp Lr ltac:(congruence))
    as (fft2 & st & Enew2 & Efw & [HL1 HL2] & Hdft).
  rewrite Enew in Enew2. injection Enew2 as <-.
  rewrite Efw. destruct st as [re2 im2]. cbn [bind fst snd] in *.
  rewrite (for_upto_pair 0 (2 ^ Z.of_nat p) _
             (fun i (a : @Float32Array ExactReal) =>
                aset a i (div (aget a i) (ofZ (2 ^ Z.of_nat p))))
             (fun i (a : @Float32Array ExactReal) =>
                aset a i (div (aget a i) (neg (ofZ (2 ^ Z.of_nat p))))))
    by reflexivity.
  destruct (scale_loop_exact (2 ^ Z.of_nat p) (@ofZ ExactReal (2 ^ Z.of_nat p)) re2) as [La Ga].
  { rewrite HL1. apply pow2_nat. }
  destruct (scale_loop_exact (2 ^ Z.of_nat p) (@neg ExactReal (@ofZ ExactReal (2 ^ Z.of_nat p))) im2) as [Lb Gb].
  { rewrite HL2. apply pow2_nat. }
  cbn zeta in *.
  eexists. split; [reflexivity|].
  split.
  { split; cbn [fst snd];
      [etransitivity; [exact La | exact HL1] | etransitivity; [exact Lb | exact HL2]]. }
  intros k Hk. unfold cval at 1. cbn [fst snd].
  rewrite (Ga k Hk), (Gb k Hk).
  specialize (Hdft k Hk). unfold cval at 1 in Hdft. cbn [fst snd] in Hdft.
  unfold idft. rewrite pow2_nat.
  assert (Hnz : (IZR (2 ^ Z.of_nat p) <> 0)%R) by (apply not_0_IZR; lia).
  assert (E : dft (cval (re, im1)) (2 ^ p) k =
              Cconj (sum (fun t => Cmul (cval (re, im) t)
                                     (Cconj (w (t * k) (2 ^ Z.of_nat p)))) (2 ^ p))).
  { unfold dft. rewrite sum_conj, pow2_nat. apply sum_ext. intros t Ht.
    rewrite pow2_nat in Ht.
    rewrite Cconj_mul, Cconj_conj. f_equal.
    unfold cval, Cconj. cbn [fst snd]. now rewrite Gn by exact Ht. }
  rewrite E in Hdft.
  set (S := sum _ _) in *. destruct S as [sr si].
  unfold Cconj in Hdft. cbn [fst snd] in Hdft.
  assert (Hr : aget re2 k = sr) by congruence.
  assert (Hi : aget im2 k = (- si)%R) by congruence.
  rewrite Hr, Hi.
  unfold Cscale. cbn [fst snd ofZ neg div ExactReal]. f_equal; field; exact Hnz.
Qed.

(** The inverse formula undoes the transform. *)
Lemma idft_dft (p : nat) (x : Z -> C) (k : Z) :
  0 <= k < 2 ^ Z.of_nat p ->
  idft (dft x (2 ^ p)) (2 ^ p) k = x k.
Proof.
  intros Hk.
  assert (Hpos : 0 < 2 ^ Z.of_nat p) by (apply pow2_pos; lia).
  assert (Hnz : (IZR (2 ^ Z.of_nat p) <> 0)%R) by (apply not_0_IZR; lia).
  unfold idft, dft. rewrite !pow2_nat.
  set (n := 2 ^ Z.of_nat p) in *.
  rewrite (sum_ext _
             (fun t => sum (fun u => Cmul (x u) (w (t * (u + k * (n - 1))) n)) (2 ^ p))).
  2:{ intros t Ht. rewrite pow2_nat in Ht. fold n in Ht.
      rewrite <- sum_mul_r. apply sum_ext. intros u Hu.
      rewrite pow2_nat in Hu. fold n in Hu.
      rewrite w_conj by nia.
      rewrite <- Cmul_assoc, <- w_add. do 2 f_equal. ring. }
  rewrite (sum_swap (fun t u => Cmul (x u) (w (t * (u + k * (n - 1))) n))).
  rewrite (sum_ext _
             (fun u => Cmul (x u) (if u =? k then (IZR n, 0%R) else C0))).
  2:{ intros u Hu. rewrite pow2_nat in Hu. fold n in Hu.
      rewrite sum_mul_l. f_equal.
      destruct (Z.eqb_spec u k) as [-> | Hne].
      - apply sum_w_full; [nia|].
        replace (k + k * (n - 1)) with (k * n) by ring. apply Z.mod_mul. lia.
      - apply sum_w_zero; [nia|].
        replace (u + k * (n - 1)) with ((u - k) + k * n) by ring.
        rewrite Z.mod_add by lia.
        intros Hz. apply Z.mod_divide in Hz; [|lia]. destruct Hz as [c Hc].
        assert (c = 0) by nia. lia. }
  rewrite (sum_single _ _ k).
  - rewrite Z.eqb_refl. destruct (x k) as [a b].
    unfold Cscale, Cmul. cbn [fst snd]. f_equal; field; exact Hnz.
  - rewrite pow2_nat. exact Hk.
  - intros t _ Hne. destruct (Z.eqb_spec t k); [contradiction|]. cring.
Qed.

(** The forward transform followed by the inverse one gives back the
    arrays. *)
Lemma FFT_round_trip (p : nat) (re im : @Float32Array ExactReal) :
  (p <= 30)%nat -> length re = (2 ^ p)%nat -> length im = (2 ^ p)%nat ->
  exists fft re1 im1,
    FFT_new (N := ExactReal) (2 ^ Z.of_nat p) = Ok fft /\
    FFT_forward fft re im = Ok (re1, im1) /\
    FFT_inverse fft re1 im1 = Ok (re, im).
Proof.
  intros Hp Lr Li.
  destruct (FFT_forward_dft p re im Hp Lr Li)
    as (fft & [re1 im1] & Enew & Efw & [HL1 HL2] & Hdft).
  cbn [fst snd] in *.
  destruct (FFT_inverse_exact p fft re1 im1 Hp Enew HL1 HL2)
    as ([re2 im2] & Einv & [HL3 HL4] & Hidft).
  cbn [fst snd] in *.
  exists fft, re1, im1. split; [exact Enew|]. split; [exact Efw|].
  rewrite Einv. f_equal.
  assert (G : forall k, 0 <= k < 2 ^ Z.of_nat p -> cval (re2, im2) k = cval (re, im) k).
  { intros k Hk. rewrite Hidft by exact Hk.
    rewrite <- (idft_dft p (cval (re, im)) k Hk).
    unfold idft. f_equal. apply sum_ext. intros t Ht. rewrite pow2_nat in Ht.
    now rewrite Hdft by exact Ht. }
  f_equal; apply (array_ext (N := ExactReal)); try congruence; intros k Hk.
  - assert (Hk' : 0 <= k < 2 ^ Z.of_nat p) by (rewrite <- pow2_nat; lia).
    specialize (G k Hk'). unfold cval in G. cbn [fst snd] in G. congruence.
  - assert (Hk' : 0 <= k < 2 ^ Z.of_nat p) by (rewrite <- pow2_nat; lia).
    specialize (G k Hk'). unfold cval in G. cbn [fst snd] in G. congruence.
Qed.

Section OverlapAdd.
Context {N : JSNumber}.

(** The overlap-add of one frame, index by index. *)
Lemma overlap_add_pointwise (window frameReal : Float32Array) n s (st : ReconState) j :
  length (rc_norm st) = length (rc_reconstructed st) ->
  aget (rc_reconstructed (overlap_add window frameReal n s st)) j =
    (if stored s (s + n) (length (rc_reconstructed st)) j
     then fround (add (aget (rc_reconstructed st) j)
                      (mul (aget frameReal (j - s)) (aget window (j - s))))
     else aget (rc_reconstructed st) j) /\
  aget (rc_norm (overlap_add window frameReal n s st)) j =
    (if stored s (s + n) (length (rc_reconstructed st)) j
     then fround (add (aget (rc_norm st) j)
                      (mul (aget window (j - s)) (aget window (j - s))))
     else aget (rc_norm st) j).
Proof.
  intros HL. unfold overlap_add.
  set (len := length (rc_reconstructed st)) in *.
  destruct (Z_le_gt_dec 0 n) as [Hn | Hn].
  2:{ rewrite for_upto_nil by lia. unfold stored.
      destruct (Z.leb_spec s j), (Z.ltb_spec j (s + n)); simpl; try lia; auto. }
  pose proof
    (for_upto_inv
       (fun i (st1 : ReconState) =>
          length (rc_reconstructed st1) = len /\ length (rc_norm st1) = len /\
          aget (rc_reconstructed st1) j =
            (if stored s (s + i) len j
             then fround (add (aget (rc_reconstructed st) j)
                              (mul (aget frameReal (j - s)) (aget window (j - s))))
             else aget (rc_reconstructed st) j) /\
          aget (rc_norm st1) j =
            (if stored s (s + i) len j
             then fround (add (aget (rc_norm st) j)
                              (mul (aget window (j - s)) (aget window (j - s))))
             else aget (rc_norm st) j))
       0 n
       (fun i st =>
          mkReconState (rc_data st)
            (aset (rc_reconstructed st) (s + i)
               (add (aget (rc_reconstructed st) (s + i))
                    (mul (aget frameReal i) (aget window i))))
            (aset (rc_norm st) (s + i)
               (add (aget (rc_norm st) (s + i))
                    (mul (aget window i) (aget window i)))))
       st Hn) as H.
  destruct H as (_ & _ & A & B).
  - split; [reflexivity|]. split; [exact HL|]. unfold stored.
    destruct (Z.leb_spec s j), (Z.ltb_spec j (s + 0)); simpl; try lia; auto.
  - intros i st1 Hi (L1 & L2 & A & B). cbn [rc_reconstructed rc_norm].
    rewrite !aset_length. split; [exact L1|]. split; [exact L2|].
    rewrite !aget_aset, L1, L2.
    unfold stored in *.
    destruct (Z.eqb_spec (s + i) j) as [E | E].
    + subst j. replace (s + i - s) with i in * by lia.
      destruct (Z.leb_spec s (s + i)); [|lia].
      destruct (Z.ltb_spec (s + i) (s + i)); [lia|].
      destruct (Z.ltb_spec (s + i) (s + (i + 1))); [|lia].
      cbn [andb] in *. rewrite A, B.
      destruct (Z.leb_spec 0 (s + i)), (Z.ltb_spec (s + i) (Z.of_nat len));
        cbn [andb]; auto.
    + cbn [andb]. rewrite A, B.
      destruct (Z.leb_spec s j), (Z.ltb_spec j (s + i)), (Z.ltb_spec j (s + (i + 1)));
        cbn [andb]; try lia; auto.
  - split; [exact A | exact B].
Qed.

End OverlapAdd.

(** ** The reconstruction in exact arithmetic *)

Lemma to_nat_pow2 p : Z.to_nat (2 ^ Z.of_nat p) = (2 ^ p)%nat.
Proof. rewrite <- pow2_nat. apply Nat2Z.id. Qed.

Lemma FFT_round_trip_given (p : nat) (fft : @FFT ExactReal)
  (re im : @Float32Array ExactReal) :
  (p <= 30)%nat -> FFT_new (N := ExactReal) (2 ^ Z.of_nat p) = Ok fft ->
  length re = (2 ^ p)%nat -> length im = (2 ^ p)%nat ->
  exists re1 im1,
    FFT_forward fft re im = Ok (re1, im1) /\
    length re1 = (2 ^ p)%nat /\ length im1 = (2 ^ p)%nat /\
    FFT_inverse fft re1 im1 = Ok (re, im).
Proof.
  intros Hp Enew Lr Li.
  destruct (FFT_round_trip p re im Hp Lr Li) as (fft' & re1 & im1 & E1 & E2 & E3).
  rewrite Enew in E1. injection E1 as <-.
  exists re1, im1. split; [exact E2|].
  destruct (FFT_new_exact p) as (fft' & Enew' & Hn & _).
  rewrite Enew in Enew'. injection Enew' as <-.
  destruct (FFT_forward_pow2_lengths fft p re im Hp Hn) as (a & b & E & La & Lb).
  rewrite E2 in E. injection E as <- <-.
  split; [congruence|]. split; [congruence | exact E3].
Qed.

Lemma aget_afill_zero (a : @Float32Array ExactReal) t :
  aget (afill a (ofZ 0)) t = 0%R.
Proof.
  unfold aget, afill. destruct (t <? 0); [reflexivity|].
  change (@nan ExactReal) with ((fun _ : R => @fround ExactReal (ofZ 0)) 0%R).
  now rewrite map_nth.
Qed.

(** The inverse transform of arrays of zeros is an array of zeros. *)
Lemma FFT_inverse_zero (p : nat) (fft : @FFT ExactReal)
  (re im : @Float32Array ExactReal) :
  (p <= 30)%nat -> FFT_new (N := ExactReal) (2 ^ Z.of_nat p) = Ok fft ->
  length re = (2 ^ p)%nat -> length im = (2 ^ p)%nat ->
  (forall t, aget re t = 0%R /\ aget im t = 0%R) ->
  exists st, FFT_inverse fft re im = Ok st /\
             forall k, 0 <= k < 2 ^ Z.of_nat p ->
                       aget (fst st) k = 0%R /\ aget (snd st) k = 0%R.
Proof.
  intros Hp Enew Lr Li Hz.
  destruct (FFT_inverse_exact p fft re im Hp Enew Lr Li) as (st & E & _ & G).
  exists st. split; [exact E|]. intros k Hk. specialize (G k Hk).
  assert (Z0 : idft (cval (re, im)) (2 ^ p) k = C0).
  { unfold idft. rewrite (sum_ext _ (fun _ => C0)).
    - rewrite sum_zero. cring.
    - intros t _. unfold cval. cbn [fst snd].
      destruct (Hz t) as [-> ->]. cring. }
  rewrite Z0 in G. unfold cval, C0 in G. split; congruence.
Qed.

(** One frame of the reconstruction: what the inverse transform hands to
    the overlap-add. *)
Lemma process_frame_exact (p : nat) (fft : @FFT ExactReal)
  (window : @Float32Array ExactReal) (anns : list (@Annotation ExactReal))
  (h nf f : Z) (data : @Float32Array ExactReal) :
  (p <= 30)%nat -> FFT_new (N := ExactReal) (2 ^ Z.of_nat p) = Ok fft ->
  exists fr fi,
    process_frame fft window anns (2 ^ Z.of_nat p) h nf f data = Ok (fr, fi) /\
    forall k, 0 <= k < 2 ^ Z.of_nat p ->
      aget fr k =
        if isTimeMasked (timePos f nf) anns then 0%R
        else (aget data (f * h + k) * aget window k)%R.
Proof.
  intros Hp Enew.
  pose proof (pow2_pos (Z.of_nat p) ltac:(lia)) as Hpos.
  unfold process_frame. rewrite new_Float32Array_ok by lia. cbn [bind].
  set (zeros := repeat (@ofZ ExactReal 0) (Z.to_nat (2 ^ Z.of_nat p))).
  assert (Lz : length zeros = (2 ^ p)%nat).
  { unfold zeros. rewrite repeat_length. apply to_nat_pow2. }
  destruct (for_upto_tabulate (N := ExactReal) 0 (2 ^ Z.of_nat p)
              (fun i => mul (aget data (f * h + i)) (aget window i)) zeros) as [Lw Gw].
  cbn zeta in Lw, Gw.
  change (for_upto 0 (2 ^ Z.of_nat p)
            (fun (j : Z) (f0 : @Float32Array ExactReal) =>
               aset f0 j (mul (aget data (f * h + j)) (aget window j))) zeros)
    with (window_frame data window (2 ^ Z.of_nat p) (f * h) zeros) in Lw, Gw.
  set (fr0 := window_frame data window (2 ^ Z.of_nat p) (f * h) zeros) in *.
  destruct (FFT_round_trip_given p fft fr0 zeros Hp Enew ltac:(congruence) Lz)
    as (re1 & im1 & Efw & L1 & L2 & Einv).
  rewrite Efw. cbn [bind].
  change (div (ofZ f) (ofZ nf)) with (timePos (N := ExactReal) f nf).
  destruct (isTimeMasked (timePos f nf) anns).
  - destruct (FFT_inverse_zero p fft (afill re1 (ofZ 0)) (afill im1 (ofZ 0)) Hp Enew)
      as ([fr fi] & E & G).
    + unfold afill. now rewrite length_map.
    + unfold afill. now rewrite length_map.
    + intros t. split; apply aget_afill_zero.
    + exists fr, fi. split; [exact E|]. intros k Hk. apply (G k Hk).
  - exists fr0, zeros. split; [exact Einv|]. intros k Hk.
    rewrite Gw. unfold stored. rewrite Lz, pow2_nat.
    destruct (Z.leb_spec 0 k), (Z.ltb_spec k (2 ^ Z.of_nat p)); cbn [andb]; try lia.
    reflexivity.
Qed.

(** What the frame loop has accumulated at sample [j] after the frames
    below [F]. *)
Definition accumulated (anns : list (@Annotation ExactReal))
  (window data : @Float32Array ExactReal) (n h nfv F : Z)
  (st : @ReconState ExactReal) (j : Z) : Prop :=
  (0 <= aget (rc_norm st) j)%R /\
  ((forall f, 0 <= f < F -> f * h <= j < f * h + n ->
              isTimeMasked (timePos f nfv) anns = false) ->
   aget (rc_reconstructed st) j = (aget data j * aget (rc_norm st) j)%R) /\
  ((forall f, 0 <= f < F -> f * h <= j < f * h + n ->
              isTimeMasked (timePos f nfv) anns = true) ->
   aget (rc_reconstructed st) j = 0%R) /\
  (forall f, 0 <= f < F -> f * h <= j < f * h + n ->
             0 <= j < Z.of_nat (length data) ->
             (aget window (j - f * h) * aget window (j - f * h) <= aget (rc_norm st) j)%R) /\
  (exists c : R, (0 <= c <= aget (rc_norm st) j)%R /\
                 aget (rc_reconstructed st) j = (aget data j * c)%R).

Lemma recon_loop_exact (p : nat) (fft : @FFT ExactReal)
  (window : @Float32Array ExactReal) (anns : list (@Annotation ExactReal))
  (h nfv F : Z) (data : @Float32Array ExactReal) :
  (p <= 30)%nat -> FFT_new (N := ExactReal) (2 ^ Z.of_nat p) = Ok fft -> 0 <= F ->
  exists st,
    for_uptoM 0 F (recon_frame fft window anns (2 ^ Z.of_nat p) h nfv)
      (mkReconState data (repeat (ofZ 0) (length data)) (repeat (ofZ 0) (length data)))
    = Ok st /\
    rc_data st = data /\
    length (rc_reconstructed st) = length data /\
    length (rc_norm st) = length data /\
    forall j, accumulated anns window data (2 ^ Z.of_nat p) h nfv F st j.
Proof.
  intros Hp Enew HF.
  apply (for_uptoM_inv
           (fun F (st : @ReconState ExactReal) =>
              rc_data st = data /\
              length (rc_reconstructed st) = length data /\
              length (rc_norm st) = length data /\
              forall j, accumulated anns window data (2 ^ Z.of_nat p) h nfv F st j));
    [exact HF | |].
  - cbn [rc_data rc_reconstructed rc_norm]. rewrite !repeat_length.
    split; [reflexivity|]. split; [reflexivity|]. split; [reflexivity|].
    intros j. unfold accumulated. cbn [rc_reconstructed rc_norm].
    assert (Hz : aget (repeat (@ofZ ExactReal 0) (length data)) j = 0%R).
    { destruct (Z_lt_ge_dec j 0) as [Hneg | Hge].
      - now rewrite aget_out by (left; lia).
      - destruct (Z_lt_ge_dec j (Z.of_nat (length data))).
        + now rewrite aget_repeat by lia.
        + rewrite aget_out; [reflexivity|]. right. rewrite repeat_length. lia. }
    rewrite Hz. split; [lra|]. split; [intros _; symmetry; apply Rmult_0_r|].
    split; [reflexivity|]. split; [intros f Hf; lia|].
    exists 0%R. split; [lra | symmetry; apply Rmult_0_r].
  - intros i st Hi (Hd & Lr & Ln & Acc).
    unfold recon_frame. rewrite Hd.
    destruct (process_frame_exact p fft window anns h nfv i data Hp Enew)
      as (fr & fi & E & Gfr).
    rewrite E. cbn [bind]. eexists. split; [reflexivity|].
    destruct (overlap_add_lengths window fr (2 ^ Z.of_nat p) (i * h) st) as (A & B & C).
    split; [congruence|]. split; [congruence|]. split; [congruence|].
    intros j.
    destruct (overlap_add_pointwise window fr (2 ^ Z.of_nat p) (i * h) st j
                ltac:(congruence)) as [Pr Pn].
    destruct (Acc j) as (I1 & I2 & I3 & I4 & (c & Hc & I5)).
    unfold accumulated. rewrite Pr, Pn, Lr. unfold stored.
    destruct (Z.leb_spec (i * h) j), (Z.ltb_spec j (i * h + 2 ^ Z.of_nat p)),
      (Z.leb_spec 0 j), (Z.ltb_spec j (Z.of_nat (length data))); cbn [andb];
      try (split; [exact I1|]; split; [intros Hall; apply I2; intros f Hf; apply Hall; lia|];
           split; [intros Hall; apply I3; intros f Hf; apply Hall; lia|];
           split; [|exists c; split; [exact Hc | exact I5]];
           intros f Hf Hcv Hr;
           destruct (Z.eq_dec f i) as [-> | Hne]; [lia | apply I4; lia]).
    cbn [fround add mul ExactReal].
    rewrite (Gfr (j - i * h)) by lia.
    replace (i * h + (j - i * h)) with j by ring.
    set (wv := aget window (j - i * h)) in *.
    assert (Hsq : (0 <= wv * wv)%R) by nra.
    split; [lra|]. split; [|split; [|split]].
    + intros Hall. rewrite (Hall i) by lia.
      rewrite I2 by (intros f Hf; apply Hall; lia).
      change (@num ExactReal) with R in *. ring.
    + intros Hall. rewrite (Hall i) by lia.
      rewrite I3 by (intros f Hf; apply Hall; lia).
      change (@num ExactReal) with R in *. ring.
    + intros f Hf Hcv Hr. destruct (Z.eq_dec f i) as [-> | Hne].
      * fold wv. lra.
      * pose proof (I4 f ltac:(lia) Hcv Hr). lra.
    + rewrite I5. destruct (isTimeMasked (timePos i nfv) anns).
      * exists c. split; [lra|]. change (@num ExactReal) with R in *. ring.
      * exists (c + wv * wv)%R. split; [lra|].
        change (@num ExactReal) with R in *. ring.
Qed.

(** *** The window *)

(** The Hann window of [n] points at [k]. *)
Definition hann (n k : Z) : R :=
  (/ 2 * (1 - cos (2 * PI * IZR k / IZR (n - 1))))%R.

Lemma hanningWindow_exact n :
  0 <= n ->
  exists w, hanningWindow (N := ExactReal) n = Ok w /\
            Z.of_nat (length w) = n /\
            forall k, 0 <= k < n -> aget w k = hann n k.
Proof.
  intros Hn. unfold hanningWindow. rewrite new_Float32Array_ok by exact Hn.
  cbn [bind].
  destruct (for_upto_tabulate (N := ExactReal) 0 n
              (fun i => mul half (sub (ofZ 1)
                 (Math_cos (div (mul (mul (ofZ 2) Math_PI) (ofZ i)) (ofZ (n - 1))))))
              (repeat (ofZ 0) (Z.to_nat n))) as [L G].
  cbn zeta in L, G.
  eexists. split; [reflexivity|]. split.
  - rewrite L, repeat_length. lia.
  - intros k Hk. rewrite G. unfold stored. rewrite repeat_length.
    destruct (Z.leb_spec 0 k), (Z.ltb_spec k n), (Z.ltb_spec k (Z.of_nat (Z.to_nat n)));
      cbn [andb]; try lia.
    reflexivity.
Qed.

Lemma hann_range n k : (0 <= hann n k <= 1)%R.
Proof.
  unfold hann. pose proof (COS_bound (2 * PI * IZR k / IZR (n - 1))) as [H1 H2]. lra.
Qed.

Lemma hann_first n : hann n 0 = 0%R.
Proof.
  unfold hann. replace (2 * PI * 0 / IZR (n - 1))%R with 0%R by (unfold Rdiv; ring).
  rewrite cos_0. lra.
Qed.

Lemma hann_last n : 2 <= n -> hann n (n - 1) = 0%R.
Proof.
  intros Hn. unfold hann.
  replace (2 * PI * IZR (n - 1) / IZR (n - 1))%R with (2 * PI)%R.
  - rewrite cos_2PI. lra.
  - field. apply not_0_IZR. lia.
Qed.

Lemma hann_symmetric n k : 2 <= n -> hann n (n - 1 - k) = hann n k.
Proof.
  intros Hn. unfold hann. f_equal. f_equal.
  assert (Hnz : (IZR (n - 1) <> 0)%R) by (apply not_0_IZR; lia).
  assert (E : IZR (n - 1 - k) = (IZR (n - 1) - IZR k)%R) by apply minus_IZR.
  rewrite E. set (d := IZR (n - 1)) in *.
  replace (2 * PI * (d - IZR k) / d)%R
    with (- (2 * PI * IZR k / d) + 2 * INR 1 * PI)%R.
  - rewrite cos_period, cos_neg. reflexivity.
  - change (INR 1) with 1%R. field. exact Hnz.
Qed.

(** *** The whole reconstruction *)

(** The state after the frame loop and the normalisation, sample by
    sample. *)
Lemma reconstruct_state_exact (buf : @AudioBuffer ExactReal)
  (anns : list (@Annotation ExactReal)) (p : nat) (h : Z) :
  (p <= 30)%nat -> 0 < h ->
  let n := 2 ^ Z.of_nat p in
  let nf := (buffer_length buf - n) / h in
  exists w st1,
    hanningWindow (N := ExactReal) n = Ok w /\
    reconstruct_state buf anns n h = Ok (normalize st1) /\
    rc_data st1 = channelData buf /\
    length (rc_reconstructed st1) = length (channelData buf) /\
    forall j, accumulated anns w (channelData buf) n h nf (Z.max 0 nf) st1 j.
Proof.
  intros Hp Hh n nf. subst n.
  pose proof (pow2_pos (Z.of_nat p) ltac:(lia)) as Hpos.
  destruct (hanningWindow_exact (2 ^ Z.of_nat p) ltac:(lia)) as (w & Ew & _).
  destruct (FFT_new_exact p) as (fft & Enew & _).
  unfold reconstruct_state. rewrite Enew, Ew. cbn [bind].
  unfold buffer_length in *.
  rewrite new_Float32Array_ok by lia. cbn [bind].
  rewrite floor_div_positive_hop by exact Hh.
  rewrite frame_loop_int. fold nf. cbn [int_bound].
  rewrite Nat2Z.id.
  destruct (recon_loop_exact p fft w anns h nf (Z.max 0 nf) (channelData buf) Hp Enew
              ltac:(lia)) as (st1 & E & A & B & _ & Acc).
  rewrite E. cbn [bind].
  exists w, st1. auto.
Qed.

(** The buffer handed back holds the reconstructed signal. *)
Lemma applyMaskAndReconstruct_exact (buf : @AudioBuffer ExactReal)
  (anns : list (@Annotation ExactReal)) (n h : Z) (st : @ReconState ExactReal) :
  reconstruct_state buf anns n h = Ok st ->
  rc_data st = channelData buf ->
  length (rc_reconstructed st) = length (channelData buf) ->
  0 < buffer_length buf ->
  exists out,
    applyMaskAndReconstruct buf anns n h = Ok (out, channelData buf) /\
    forall i, 0 <= i < buffer_length buf ->
              aget (channelData out) i = aget (rc_reconstructed st) i.
Proof.
  intros E Hd Hl HL. unfold applyMaskAndReconstruct. rewrite E. cbn [bind].
  unfold buffer_length in *. unfold createBuffer.
  destruct (Z.leb_spec (Z.of_nat (length (rc_reconstructed st))) 0); [lia|].
  cbn [bind]. eexists. split; [rewrite Hd; reflexivity|].
  intros i Hi. rewrite copyToChannel_pointwise.
  - reflexivity.
  - cbn [channelData]. rewrite repeat_length. lia.
  - lia.
Qed.

Lemma eps_below_one : (/ 10 ^ 10 < 1 / 2)%R.
Proof.
  assert (H9 : (1 < 10 ^ 9)%R) by (apply Rlt_pow_R1; [lra | lia]).
  assert (H : (/ 10 ^ 10 < / 10)%R).
  { apply Rinv_lt_contravar.
    - apply Rmult_lt_0_compat; [lra | apply pow_lt; lra].
    - change (10 ^ 10)%R with (10 * 10 ^ 9)%R. lra. }
  lra.
Qed.

Lemma normalized_sample (st : @ReconState ExactReal) i :
  0 <= i < Z.of_nat (length (rc_reconstructed st)) ->
  aget (rc_reconstructed (normalize st)) i =
    if Rgtb (aget (rc_norm st) i) (/ 10 ^ 10)
    then (aget (rc_reconstructed st) i / aget (rc_norm st) i)%R
    else aget (rc_reconstructed st) i.
Proof.
  intros Hi. destruct (normalize_pointwise st) as [_ H]. rewrite H.
  destruct (Z.leb_spec 0 i), (Z.ltb_spec i (Z.of_nat (length (rc_reconstructed st))));
    try lia.
  reflexivity.
Qed.

(** A sample that no masked frame covers, and that some frame covers with a
    squared window weight above [1e-10], comes out as it went in. *)
Lemma reconstruct_unmasked_sample (buf : @AudioBuffer ExactReal)
  (anns : list (@Annotation ExactReal)) (p : nat) (h i f0 : Z) :
  (p <= 30)%nat -> 0 < h -> 0 <= i < buffer_length buf ->
  (forall f, 0 <= f < (buffer_length buf - 2 ^ Z.of_nat p) / h ->
             f * h <= i < f * h + 2 ^ Z.of_nat p ->
             isTimeMasked (timePos f ((buffer_length buf - 2 ^ Z.of_nat p) / h)) anns
             = false) ->
  0 <= f0 < (buffer_length buf - 2 ^ Z.of_nat p) / h ->
  f0 * h <= i < f0 * h + 2 ^ Z.of_nat p ->
  (/ 10 ^ 10 < hann (2 ^ Z.of_nat p) (i - f0 * h) * hann (2 ^ Z.of_nat p) (i - f0 * h))%R ->
  exists out,
    applyMaskAndReconstruct buf anns (2 ^ Z.of_nat p) h = Ok (out, channelData buf) /\
    aget (channelData out) i = aget (channelData buf) i.
Proof.
  intros Hp Hh Hi Hall Hf0 Hc Hw.
  destruct (reconstruct_state_exact buf anns p h Hp Hh) as (w & st1 & Ew & E & Hd & Hl & Acc).
  cbn zeta in *.
  set (nf := (buffer_length buf - 2 ^ Z.of_nat p) / h) in *.
  destruct (normalize_lengths st1) as (A & B & C).
  destruct (applyMaskAndReconstruct_exact buf anns (2 ^ Z.of_nat p) h (normalize st1) E
              ltac:(congruence) ltac:(congruence) ltac:(lia)) as (out & Eo & Go).
  exists out. split; [exact Eo|]. rewrite (Go i Hi).
  unfold buffer_length in Hi.
  rewrite normalized_sample by (rewrite Hl; exact Hi).
  destruct (Acc i) as (I1 & I2 & _ & I4 & _).
  destruct (hanningWindow_exact (2 ^ Z.of_nat p)) as (w' & Ew' & _ & Gw).
  { apply Z.lt_le_incl, pow2_pos. lia. }
  rewrite Ew in Ew'. injection Ew' as <-.
  assert (Hn : (/ 10 ^ 10 < aget (rc_norm st1) i)%R).
  { pose proof (I4 f0 ltac:(lia) Hc Hi) as H4.
    rewrite (Gw (i - f0 * h)) in H4 by lia. lra. }
  pose proof eps_real_pos as Heps.
  rewrite (proj2 (Rgtb_true (aget (rc_norm st1) i) (/ 10 ^ 10)) Hn).
  rewrite I2.
  - change (@num ExactReal) with R in *. field. lra.
  - intros f Hf Hcf. apply Hall; [lia | exact Hcf].
Qed.

(** A sample that only masked frames cover, or that no frame covers, comes
    out as 0. *)
Lemma reconstruct_masked_sample (buf : @AudioBuffer ExactReal)
  (anns : list (@Annotation ExactReal)) (p : nat) (h i : Z) :
  (p <= 30)%nat -> 0 < h -> 0 <= i < buffer_length buf ->
  (forall f, 0 <= f < (buffer_length buf - 2 ^ Z.of_nat p) / h ->
             f * h <= i < f * h + 2 ^ Z.of_nat p ->
             isTimeMasked (timePos f ((buffer_length buf - 2 ^ Z.of_nat p) / h)) anns
             = true) ->
  exists out,
    applyMaskAndReconstruct buf anns (2 ^ Z.of_nat p) h = Ok (out, channelData buf) /\
    aget (channelData out) i = 0%R.
Proof.
  intros Hp Hh Hi Hall.
  destruct (reconstruct_state_exact buf anns p h Hp Hh) as (w & st1 & Ew & E & Hd & Hl & Acc).
  cbn zeta in *.
  set (nf := (buffer_length buf - 2 ^ Z.of_nat p) / h) in *.
  destruct (normalize_lengths st1) as (A & B & C).
  destruct (applyMaskAndReconstruct_exact buf anns (2 ^ Z.of_nat p) h (normalize st1) E
              ltac:(congruence) ltac:(congruence) ltac:(lia)) as (out & Eo & Go).
  exists out. split; [exact Eo|]. rewrite (Go i Hi).
  unfold buffer_length in Hi.
  rewrite normalized_sample by (rewrite Hl; exact Hi).
  destruct (Acc i) as (_ & _ & I3 & _ & _).
  rewrite I3 by (intros f Hf Hcf; apply Hall; [lia | exact Hcf]).
  destruct (Rgtb _ _); [|reflexivity].
  unfold Rdiv. apply Rmult_0_l.
Qed.

Definition ramp8 : @AudioBuffer ExactReal :=
  mkAudioBuffer (real_array [1; 2; 3; 4; 5; 6; 7; 8]%R) 8000%R.

Lemma hann_4_1 : hann 4 1 = (3 / 4)%R.
Proof.
  unfold hann. change (4 - 1) with 3.
  replace (2 * PI * 1 / 3)%R with (2 * (PI / 3))%R by field.
  rewrite cos_2PI3. lra.
Qed.


Definition whole_span : @Annotation ExactReal := @mkAnnotation ExactReal 0%R 1%R.

Lemma whole_span_masks f nf : 0 <= f < nf -> isTimeMasked (timePos f nf) [whole_span] = true.
Proof.
  intros Hf. cbn [isTimeMasked whole_span ann_x ann_width].
  unfold timePos. cbn [geb leb div add ofZ ExactReal].
  assert (Hnf : (0 < IZR nf)%R) by (apply IZR_lt; lia).
  assert (H0 : (0 <= IZR f / IZR nf)%R).
  { apply Rmult_le_pos; [apply IZR_le; lia|]. left. now apply Rinv_0_lt_compat. }
  assert (H1 : (IZR f / IZR nf <= 0 + 1)%R).
  { rewrite Rplus_0_l. apply Rmult_le_reg_r with (IZR nf); [exact Hnf|].
    unfold Rdiv. rewrite Rmult_assoc, Rinv_l by lra. rewrite Rmult_1_r, Rmult_1_l.
    apply IZR_le. lia. }
  rewrite (proj2 (Rgeb_true _ _) H0), (proj2 (Rleb_true _ _) H1). reflexivity.
Qed.

(** ** The mel scale in exact arithmetic *)

Ltac reals := change (@num ExactReal) with R in *.

Lemma ln_10_pos : (0 < ln 10)%R.
Proof. rewrite <- ln_1. apply ln_increasing; lra. Qed.

Lemma hzToMel_real (hz : R) :
  hzToMel (N := ExactReal) hz = (2595 * (ln (1 + hz / 700) / ln 10))%R.
Proof. reflexivity. Qed.

Lemma melToHz_real (mel : R) :
  melToHz (N := ExactReal) mel = (700 * (Rpower 10 (mel / 2595) - 1))%R.
Proof. reflexivity. Qed.

Lemma melToHz_hzToMel (hz : R) :
  (-700 < hz)%R -> melToHz (N := ExactReal) (hzToMel (N := ExactReal) hz) = hz.
Proof.
  intros H. rewrite melToHz_real, hzToMel_real. unfold Rpower. reals.
  pose proof ln_10_pos as Hl.
  replace (2595 * (ln (1 + hz / 700) / ln 10) / 2595 * ln 10)%R
    with (ln (1 + hz / 700)) by (field; lra).
  rewrite exp_ln by lra. field.
Qed.

Lemma hzToMel_melToHz (mel : R) :
  hzToMel (N := ExactReal) (melToHz (N := ExactReal) mel) = mel.
Proof.
  rewrite melToHz_real, hzToMel_real. reals.
  pose proof ln_10_pos as Hl.
  replace (1 + 700 * (Rpower 10 (mel / 2595) - 1) / 700)%R
    with (Rpower 10 (mel / 2595)) by field.
  rewrite ln_Rpower. field. lra.
Qed.

Lemma hzToMel_zero : hzToMel (N := ExactReal) 0%R = 0%R.
Proof.
  rewrite hzToMel_real. reals. replace (1 + 0 / 700)%R with 1%R by field.
  rewrite ln_1. unfold Rdiv. ring.
Qed.

Lemma hzToMel_increasing (a b : R) :
  (-700 < a)%R -> (a < b)%R ->
  (hzToMel (N := ExactReal) a < hzToMel (N := ExactReal) b)%R.
Proof.
  intros Ha Hab. rewrite !hzToMel_real. pose proof ln_10_pos as Hl.
  assert (H : (ln (1 + a / 700) < ln (1 + b / 700))%R) by (apply ln_increasing; lra).
  apply Rmult_lt_compat_l; [lra|].
  apply Rmult_lt_compat_r; [now apply Rinv_0_lt_compat | exact H].
Qed.

Lemma melToHz_increasing (a b : R) :
  (a < b)%R -> (melToHz (N := ExactReal) a < melToHz (N := ExactReal) b)%R.
Proof.
  intros Hab. rewrite !melToHz_real. pose proof ln_10_pos as Hl.
  assert (H : (Rpower 10 (a / 2595) < Rpower 10 (b / 2595))%R).
  { unfold Rpower. apply exp_increasing. apply Rmult_lt_compat_r; lra. }
  lra.
Qed.

(** The boundary frequency [i] of [m] mel bins under the sample rate [sr]. *)
Definition mel_point (sr : R) (m i : Z) : R :=
  melToHz (N := ExactReal)
    (IZR i * hzToMel (N := ExactReal) (sr / 2) / IZR (m + 1))%R.

Lemma melPoints_exact (sr : R) (m : Z) :
  -2 <= m ->
  exists mp, melPoints (N := ExactReal) sr m = Ok mp /\
             Z.of_nat (length mp) = m + 2 /\
             forall i, 0 <= i < m + 2 -> aget mp i = mel_point sr m i.
Proof.
  intros Hm. unfold melPoints. rewrite new_Float32Array_ok by lia. cbn [bind].
  match goal with
  | |- context [for_upto 0 (m + 2) (fun i mp => aset mp i (@?g i)) ?a] =>
      destruct (for_upto_tabulate (N := ExactReal) 0 (m + 2) g a) as [L G]
  end.
  cbn zeta in L, G. eexists. split; [reflexivity|].
  split; [rewrite L, repeat_length; lia|].
  intros i Hi. rewrite G. unfold stored. rewrite repeat_length.
  destruct (Z.leb_spec 0 i), (Z.ltb_spec i (m + 2)),
    (Z.ltb_spec i (Z.of_nat (Z.to_nat (m + 2)))); cbn [andb]; try lia.
  unfold mel_point. cbn [fround ExactReal]. f_equal.
  pose proof hzToMel_zero as Hz.
  change (@ofZ ExactReal 0) with 0%R. rewrite Hz.
  cbn [add sub mul div ofZ ExactReal]. reals. unfold Rdiv. ring.
Qed.

Lemma mel_point_first sr m : mel_point sr m 0 = 0%R.
Proof.
  unfold mel_point. replace (0 * _ / _)%R with 0%R by (unfold Rdiv; ring).
  rewrite melToHz_real. replace (0 / 2595)%R with 0%R by (unfold Rdiv; ring).
  rewrite Rpower_O by lra. reals. ring.
Qed.

Lemma mel_point_last sr m : 0 <= m -> (0 < sr)%R -> mel_point sr m (m + 1) = (sr / 2)%R.
Proof.
  intros Hm Hsr. unfold mel_point.
  assert (Hnz : (IZR (m + 1) <> 0)%R) by (apply not_0_IZR; lia).
  assert (E : (IZR (m + 1) * hzToMel (N := ExactReal) (sr / 2) / IZR (m + 1))%R
              = hzToMel (N := ExactReal) (sr / 2)%R).
  { reals. field. exact Hnz. }
  rewrite E. apply melToHz_hzToMel. lra.
Qed.

Lemma mel_point_increasing sr m i j :
  0 <= m -> (0 < sr)%R -> i < j -> (mel_point sr m i < mel_point sr m j)%R.
Proof.
  intros Hm Hsr Hij. unfold mel_point. apply melToHz_increasing.
  assert (Hpos : (0 < hzToMel (N := ExactReal) (sr / 2)%R)%R).
  { rewrite <- hzToMel_zero. apply hzToMel_increasing; lra. }
  assert (Hd : (0 < IZR (m + 1))%R) by (apply IZR_lt; lia).
  apply Rmult_lt_compat_r; [now apply Rinv_0_lt_compat|].
  apply Rmult_lt_compat_r; [exact Hpos|]. apply IZR_lt. exact Hij.
Qed.

(** The frequency axis [computeSpectrogram] returns. *)
Lemma computeSpectrogram_frequencies (buf : @AudioBuffer ExactReal) n h m r d :
  computeSpectrogram buf n h m = Ok (r, d) -> 0 <= m ->
  length (frequencies r) = Z.to_nat m /\
  forall b, 0 <= b < m ->
    nth (Z.to_nat b) (frequencies r) 0%R = mel_point (sampleRate buf) m (b + 1).
Proof.
  unfold computeSpectrogram. intros H Hm.
  destruct (FFT_new n) as [fft| |]; cbn [bind] in H; try discriminate.
  destruct (hanningWindow n) as [w| |]; cbn [bind] in H; try discriminate.
  destruct (melPoints_exact (sampleRate buf) m ltac:(lia)) as (mp & Emp & Lmp & Gmp).
  rewrite Emp in H. cbn [bind] in H.
  destruct (build_filterbank n _ m) as [fb| |]; cbn [bind] in H; try discriminate.
  destruct (frame_loop _ _ _) as [st| |]; cbn [bind] in H; try discriminate.
  assert (Hr : frequencies r = firstn (Z.to_nat m) (skipn 1 mp)).
  { injection H as <- _. reflexivity. }
  rewrite Hr. clear Hr H.
  split.
  - rewrite length_firstn, length_skipn. lia.
  - intros b Hb. rewrite nth_firstn.
    destruct (Nat.ltb_spec (Z.to_nat b) (Z.to_nat m)); [|lia].
    rewrite nth_skipn. rewrite <- (Gmp (b + 1)) by lia.
    unfold aget. destruct (Z.ltb_spec (b + 1) 0); [lia|].
    replace (1 + Z.to_nat b)%nat with (Z.to_nat (b + 1)) by lia. reflexivity.
Qed.

(** ** The spectrum of a real signal *)

Lemma w_mirror (p : nat) (t k : Z) :
  0 <= t -> 0 < k < 2 ^ Z.of_nat p ->
  w (t * (2 ^ Z.of_nat p - k)) (2 ^ Z.of_nat p) = Cconj (w (t * k) (2 ^ Z.of_nat p)).
Proof.
  intros Ht Hk. set (n := 2 ^ Z.of_nat p) in *.
  rewrite w_conj by nia.
  replace (t * k * (n - 1)) with (t * (n - k) + (t * (k - 1)) * n) by ring.
  rewrite w_add, (w_turns (t * (k - 1)) n) by nia. cring.
Qed.

Lemma dft_real_mirror (p : nat) (x : Z -> C) (k : Z) :
  (forall t, 0 <= t < 2 ^ Z.of_nat p -> snd (x t) = 0%R) ->
  0 < k < 2 ^ Z.of_nat p ->
  dft x (2 ^ p) (2 ^ Z.of_nat p - k) = Cconj (dft x (2 ^ p) k).
Proof.
  intros Hx Hk. unfold dft. rewrite sum_conj, pow2_nat. apply sum_ext.
  intros t Ht. rewrite pow2_nat in Ht.
  rewrite w_mirror by lia. rewrite Cconj_mul. f_equal.
  specialize (Hx t Ht). destruct (x t) as [a b]. cbn [snd] in Hx. subst b. cring.
Qed.

(** ** The spectrogram in exact arithmetic *)

(** The modulus of a complex number. *)
Definition Cmod (z : C) : R := sqrt (fst z * fst z + snd z * snd z).

(** Frame [start .. start + n - 1] of the data under the window. *)
Definition windowed (data window : @Float32Array ExactReal) (start : Z) (t : Z) : C :=
  ((aget data (start + t) * aget window t)%R, 0%R).

Lemma quot_half n : 0 <= n -> Z.quot (n + 2) 2 = n / 2 + 1.
Proof.
  intros Hn. rewrite Z.quot_div_nonneg by lia.
  replace (n + 2) with (n + 1 * 2) by lia. now rewrite Z.div_add by lia.
Qed.

Lemma magnitudes_of_exact n (re im : @Float32Array ExactReal) :
  0 <= n ->
  exists mg, magnitudes_of (N := ExactReal) n re im = Ok mg /\
             Z.of_nat (length mg) = n / 2 + 1 /\
             forall i, 0 <= i <= n / 2 -> aget mg i = Cmod (cval (re, im) i).
Proof.
  intros Hn. unfold magnitudes_of. rewrite quot_half by exact Hn.
  assert (0 <= n / 2) by (apply Z.div_pos; lia).
  rewrite new_Float32Array_ok by lia. cbn [bind].
  match goal with
  | |- context [for_upto 0 (n / 2 + 1) (fun i mg => aset mg i (@?g i)) ?a] =>
      destruct (for_upto_tabulate (N := ExactReal) 0 (n / 2 + 1) g a) as [L G]
  end.
  cbn zeta in L, G. eexists. split; [reflexivity|].
  split; [rewrite L, repeat_length; lia|].
  intros i Hi. rewrite G. unfold stored. rewrite repeat_length.
  destruct (Z.leb_spec 0 i), (Z.ltb_spec i (n / 2 + 1)),
    (Z.ltb_spec i (Z.of_nat (Z.to_nat (n / 2 + 1)))); cbn [andb]; try lia.
  reflexivity.
Qed.

(** One frame: the row pushed is the filterbank applied to the moduli of
    the transform of the windowed frame. *)
Lemma spectrogram_frame_exact (p : nat) (fft : @FFT ExactReal)
  (window : @Float32Array ExactReal) (fb : list (@Float32Array ExactReal))
  (h f : Z) (st : @SpecState ExactReal) :
  (p <= 30)%nat -> FFT_new (N := ExactReal) (2 ^ Z.of_nat p) = Ok fft ->
  exists mg,
    spectrogram_frame fft window fb (2 ^ Z.of_nat p) h f st =
      Ok (mkSpecState (sp_data st) (sp_rows st ++ [map (mel_value mg) fb])) /\
    Z.of_nat (length mg) = 2 ^ Z.of_nat p / 2 + 1 /\
    forall i, 0 <= i <= 2 ^ Z.of_nat p / 2 ->
      aget mg i = Cmod (dft (windowed (sp_data st) window (f * h)) (2 ^ p) i).
Proof.
  intros Hp Enew.
  pose proof (pow2_pos (Z.of_nat p) ltac:(lia)) as Hpos.
  unfold spectrogram_frame. rewrite new_Float32Array_ok by lia. cbn [bind].
  set (zeros := repeat (@ofZ ExactReal 0) (Z.to_nat (2 ^ Z.of_nat p))).
  assert (Lz : length zeros = (2 ^ p)%nat).
  { unfold zeros. rewrite repeat_length. apply to_nat_pow2. }
  destruct (for_upto_tabulate (N := ExactReal) 0 (2 ^ Z.of_nat p)
              (fun i => mul (aget (sp_data st) (f * h + i)) (aget window i)) zeros)
    as [Lw Gw].
  cbn zeta in Lw, Gw.
  change (for_upto 0 (2 ^ Z.of_nat p)
            (fun (j : Z) (f0 : @Float32Array ExactReal) =>
               aset f0 j (mul (aget (sp_data st) (f * h + j)) (aget window j))) zeros)
    with (window_frame (sp_data st) window (2 ^ Z.of_nat p) (f * h) zeros) in Lw, Gw.
  set (fr0 := window_frame (sp_data st) window (2 ^ Z.of_nat p) (f * h) zeros) in *.
  destruct (FFT_forward_dft p fr0 zeros Hp ltac:(congruence) Lz)
    as (fft' & [re1 im1] & Enew' & Efw & _ & Hdft).
  rewrite Enew in Enew'. injection Enew' as <-.
  rewrite Efw. cbn [bind].
  destruct (magnitudes_of_exact (2 ^ Z.of_nat p) re1 im1 ltac:(lia)) as (mg & Em & Lm & Gm).
  rewrite Em. cbn [bind]. exists mg. split; [reflexivity|]. split; [exact Lm|].
  intros i Hi. rewrite (Gm i Hi).
  assert (Hhalf : 2 ^ Z.of_nat p / 2 < 2 ^ Z.of_nat p).
  { apply Z.div_lt_upper_bound; lia. }
  rewrite Hdft by lia. f_equal. apply dft_ext. intros t Ht. rewrite pow2_nat in Ht.
  unfold cval, windowed. cbn [fst snd]. f_equal.
  - rewrite Gw. unfold stored. rewrite Lz, pow2_nat.
    destruct (Z.leb_spec 0 t), (Z.ltb_spec t (2 ^ Z.of_nat p)); cbn [andb]; try lia.
    reflexivity.
  - unfold zeros. apply aget_repeat. rewrite to_nat_pow2, pow2_nat. lia.
Qed.

Lemma nth_snoc {A : Type} (l : list A) (x d : A) k :
  nth k (l ++ [x]) d = if (k <? length l)%nat then nth k l d
                       else if (k =? length l)%nat then x else d.
Proof.
  destruct (Nat.ltb_spec k (length l)).
  - now apply app_nth1.
  - rewrite app_nth2 by lia. destruct (Nat.eqb_spec k (length l)) as [-> | Hne].
    + now rewrite Nat.sub_diag.
    + destruct (k - length l)%nat as [|[|q]] eqn:E; try lia; reflexivity.
Qed.

Lemma spectrogram_loop_exact (p : nat) (fft : @FFT ExactReal)
  (window : @Float32Array ExactReal) (fb : list (@Float32Array ExactReal))
  (h nf : Z) (data : @Float32Array ExactReal) :
  (p <= 30)%nat -> FFT_new (N := ExactReal) (2 ^ Z.of_nat p) = Ok fft -> 0 <= nf ->
  exists rows,
    for_uptoM 0 nf (spectrogram_frame fft window fb (2 ^ Z.of_nat p) h)
      (mkSpecState data []) = Ok (mkSpecState data rows) /\
    Z.of_nat (length rows) = nf /\
    forall f, 0 <= f < nf ->
      exists mg,
        nth (Z.to_nat f) rows [] = map (mel_value mg) fb /\
        Z.of_nat (length mg) = 2 ^ Z.of_nat p / 2 + 1 /\
        forall i, 0 <= i <= 2 ^ Z.of_nat p / 2 ->
          aget mg i = Cmod (dft (windowed data window (f * h)) (2 ^ p) i).
Proof.
  intros Hp Enew Hnf.
  destruct (for_uptoM_inv
              (fun F (st : @SpecState ExactReal) =>
                 sp_data st = data /\ Z.of_nat (length (sp_rows st)) = F /\
                 forall f, 0 <= f < F ->
                   exists mg,
                     nth (Z.to_nat f) (sp_rows st) [] = map (mel_value mg) fb /\
                     Z.of_nat (length mg) = 2 ^ Z.of_nat p / 2 + 1 /\
                     forall i, 0 <= i <= 2 ^ Z.of_nat p / 2 ->
                       aget mg i = Cmod (dft (windowed data window (f * h)) (2 ^ p) i))
              0 nf (spectrogram_frame fft window fb (2 ^ Z.of_nat p) h)
              (mkSpecState data [])) as (st & E & A & B & G).
  - exact Hnf.
  - cbn [sp_data sp_rows]. split; [reflexivity|]. split; [reflexivity|]. intros f Hf. lia.
  - intros F st HF (A & B & G).
    destruct (spectrogram_frame_exact p fft window fb h F st Hp Enew)
      as (mg & E & Lm & Gm).
    eexists. split; [exact E|]. cbn [sp_data sp_rows].
    split; [exact A|]. split; [rewrite length_app; cbn [length]; lia|].
    intros f Hf. rewrite nth_snoc.
    destruct (Nat.ltb_spec (Z.to_nat f) (length (sp_rows st))) as [Hlt | Hge].
    + apply G. lia.
    + destruct (Nat.eqb_spec (Z.to_nat f) (length (sp_rows st))) as [He | Hne]; [|lia].
      assert (f = F) by lia. subst f.
      exists mg. split; [reflexivity|]. split; [exact Lm|]. rewrite <- A. exact Gm.
  - destruct st as [d rows]. cbn [sp_data sp_rows] in *. subst d.
    exists rows. split; [exact E|]. split; [exact B | exact G].
Qed.

(** *** The floor of the decibel values *)

Lemma log10_eps : (ln (/ 10 ^ 10) / ln 10 = -10)%R.
Proof.
  pose proof ln_10_pos as Hl.
  rewrite ln_Rinv by (apply pow_lt; lra).
  rewrite ln_pow by lra. rewrite INR_IZR_INZ. change (Z.of_nat 10) with 10.
  field. lra.
Qed.

Lemma mel_value_floor (mg filter : @Float32Array ExactReal) :
  (-200 <= mel_value mg filter)%R.
Proof.
  unfold mel_value. cbn zeta.
  set (s := for_upto _ _ _ _).
  cbn [mul ofZ Math_log10 Math_max eps ExactReal].
  pose proof ln_10_pos as Hl. pose proof eps_real_pos as He.
  pose proof (Rmax_l (/ 10 ^ 10) s) as Hm.
  assert (Hln : (ln (/ 10 ^ 10) <= ln (Rmax (/ 10 ^ 10) s))%R).
  { destruct Hm as [Hlt | Heq].
    - left. apply ln_increasing; lra.
    - right. now rewrite <- Heq. }
  assert (Hq : (ln (/ 10 ^ 10) / ln 10 <= ln (Rmax (/ 10 ^ 10) s) / ln 10)%R).
  { apply Rmult_le_compat_r; [left; now apply Rinv_0_lt_compat | exact Hln]. }
  rewrite log10_eps in Hq. lra.
Qed.

Lemma spectrogram_frame_rows (fft : @FFT ExactReal) window fb n h f
  (st st' : @SpecState ExactReal) :
  spectrogram_frame fft window fb n h f st = Ok st' ->
  exists mg, sp_rows st' = sp_rows st ++ [map (mel_value mg) fb].
Proof.
  unfold spectrogram_frame. intros H.
  destruct (new_Float32Array n); cbn [bind] in H; try discriminate.
  destruct (FFT_forward fft _ _) as [[re im]| |]; cbn [bind] in H; try discriminate.
  destruct (magnitudes_of n re im) as [mg| |]; cbn [bind] in H; try discriminate.
  injection H as <-. exists mg. reflexivity.
Qed.

(** No value of the rows is below -200. *)
Definition above_floor (rows : list (list R)) : Prop :=
  forall row, In row rows -> forall v, In v row -> (-200 <= v)%R.

(** ** The weights of the filterbank in exact arithmetic *)

Lemma zsteps_nth_error cnt : forall lo k,
  (k < cnt)%nat -> nth_error (zsteps lo 1 cnt) k = Some (lo + Z.of_nat k).
Proof.
  induction cnt; intros lo k Hk; [lia|].
  destruct k as [|k]; cbn [zsteps nth_error].
  - f_equal. simpl. lia.
  - rewrite IHcnt by lia. f_equal. lia.
Qed.

Lemma ratio_unit (a b : Z) : 0 <= a <= b -> 0 < b -> (0 <= IZR a / IZR b <= 1)%R.
Proof.
  intros Ha Hb.
  assert (Pb : (0 < IZR b)%R) by (apply IZR_lt; lia).
  assert (Pa : (0 <= IZR a)%R) by (apply IZR_le; lia).
  assert (Pab : (IZR a <= IZR b)%R) by (apply IZR_le; lia).
  split.
  - apply Rmult_le_pos; [exact Pa | left; now apply Rinv_0_lt_compat].
  - apply Rmult_le_reg_r with (IZR b); [exact Pb|].
    unfold Rdiv. rewrite Rmult_assoc, Rinv_l by lra. lra.
Qed.

Lemma triangle_weight_unit (b0 b1 b2 j : Z) :
  (0 <= triangle_weight (N := ExactReal) b0 b1 b2 j <= 1)%R.
Proof.
  unfold triangle_weight. cbn [fround div ofZ ExactReal].
  destruct (Z.leb_spec b0 j), (Z.ltb_spec j b1); cbn [andb];
    try (apply ratio_unit; lia);
    destruct (Z.leb_spec b1 j), (Z.ltb_spec j b2); cbn [andb];
    try (apply ratio_unit; lia); lra.
Qed.

Lemma bget_binPoints (n : Z) (sr : @num ExactReal) (mp : @Float32Array ExactReal) (i : Z) :
  0 <= i < Z.of_nat (length mp) ->
  exists b, bget (binPoints (N := ExactReal) n sr mp) i = JInt b.
Proof.
  intros Hi. unfold bget.
  destruct (Z.ltb_spec i 0); [lia|].
  assert (Hin : In (nth (Z.to_nat i) (binPoints (N := ExactReal) n sr mp) JNaN)
                   (binPoints (N := ExactReal) n sr mp)).
  { apply nth_In. unfold binPoints. rewrite length_map. lia. }
  unfold binPoints in Hin at 2. apply in_map_iff in Hin.
  destruct Hin as (hz & <- & _). cbn [floorJ ExactReal]. eauto.
Qed.

(** ** Sizes that are not a power of two *)

(** The value of [j] the bit-reversal loop holds at index [i] when the
    successive halvings of [k] are the weights of the bits of [i]. *)
Fixpoint weighted_reverse (m : nat) (k i : Z) : Z :=
  match m with
  | O => 0
  | S m' => (i mod 2) * k + weighted_reverse m' (k / 2) (i / 2)
  end.

Lemma weighted_reverse_zero m : forall i, weighted_reverse m 0 i = 0.
Proof.
  induction m; intros i; cbn [weighted_reverse]; [reflexivity|].
  change (0 / 2) with 0. rewrite IHm. lia.
Qed.

Lemma weighted_reverse_first m : forall k, weighted_reverse m k 0 = 0.
Proof.
  induction m; intros k; cbn [weighted_reverse]; [reflexivity|].
  change (0 mod 2) with 0. change (0 / 2) with 0. rewrite IHm. lia.
Qed.

Lemma weighted_reverse_nonneg m : forall k i, 0 <= k -> 0 <= weighted_reverse m k i.
Proof.
  induction m; intros k i Hk; cbn [weighted_reverse]; [lia|].
  pose proof (Z.mod_pos_bound i 2 ltac:(lia)).
  pose proof (IHm (k / 2) (i / 2) ltac:(apply Z.div_pos; lia)). nia.
Qed.

(** The weights below [k] add up to less than [k]. *)
Lemma weighted_reverse_below m : forall k i, 1 <= k -> weighted_reverse m (k / 2) i < k.
Proof.
  induction m; intros k i Hk; cbn [weighted_reverse]; [lia|].
  pose proof (Z.mod_pos_bound i 2 ltac:(lia)) as Hb.
  pose proof (Z.div_mod k 2 ltac:(lia)) as Hd.
  pose proof (Z.mod_pos_bound k 2 ltac:(lia)) as Hm.
  destruct (Z_le_gt_dec 1 (k / 2)) as [H1 | H0].
  - pose proof (IHm (k / 2) (i / 2) H1). nia.
  - assert (E : k / 2 = 0) by (pose proof (Z.div_pos k 2); lia).
    rewrite E. change (0 / 2) with 0. rewrite weighted_reverse_zero. lia.
Qed.

Lemma half_succ_even i : i mod 2 = 0 -> (i + 1) mod 2 = 1 /\ (i + 1) / 2 = i / 2.
Proof.
  intros E. pose proof (Z.div_mod i 2 ltac:(lia)) as Hd. split.
  - replace (i + 1) with (1 + (i / 2) * 2) by lia. now rewrite Z.mod_add by lia.
  - replace (i + 1) with (1 + (i / 2) * 2) by lia. now rewrite Z.div_add by lia.
Qed.

Lemma half_succ_odd i : i mod 2 = 1 -> (i + 1) mod 2 = 0 /\ (i + 1) / 2 = i / 2 + 1.
Proof.
  intros E. pose proof (Z.div_mod i 2 ltac:(lia)) as Hd. split.
  - replace (i + 1) with (0 + (i / 2 + 1) * 2) by lia. now rewrite Z.mod_add by lia.
  - replace (i + 1) with (0 + (i / 2 + 1) * 2) by lia. now rewrite Z.div_add by lia.
Qed.

Lemma bitrev_while_S fuel k j :
  bitrev_while (S fuel) k j =
  if k <=? j then bitrev_while fuel (js_sar k 1) (j - k) else Ok (k, j).
Proof. reflexivity. Qed.

(** Below the last index of [m] bits the inner loop stops, and leaves the
    value for the next index. *)
Lemma bitrev_while_step m : forall fuel k i,
  (m < fuel)%nat -> 2 ^ (Z.of_nat m - 1) <= k < 2 ^ Z.of_nat m -> k < 2 ^ 31 ->
  0 <= i -> i + 1 < 2 ^ Z.of_nat m ->
  exists k' j',
    bitrev_while fuel k (weighted_reverse m k i) = Ok (k', j') /\
    j' + k' = weighted_reverse m k (i + 1).
Proof.
  induction m as [|m IH]; intros fuel k i Hf Hk Hm Hi Hlt.
  - simpl in Hlt. lia.
  - destruct fuel as [|fuel]; [lia|].
    replace (Z.of_nat (S m) - 1) with (Z.of_nat m) in Hk by lia.
    rewrite Nat2Z.inj_succ, Z.pow_succ_r in Hk, Hlt by lia.
    pose proof (pow2_pos (Z.of_nat m) ltac:(lia)) as Hpos.
    cbn [weighted_reverse]. rewrite bitrev_while_S.
    pose proof (Z.mod_pos_bound i 2 ltac:(lia)) as Hb.
    pose proof (weighted_reverse_below m k (i / 2) ltac:(lia)) as Hbelow.
    pose proof (weighted_reverse_nonneg m (k / 2) (i / 2) ltac:(apply Z.div_pos; lia))
      as Hnn.
    assert (Hcase : i mod 2 = 0 \/ i mod 2 = 1) by lia.
    destruct Hcase as [E | E]; rewrite E.
    + destruct (Z.leb_spec k (0 * k + weighted_reverse m (k / 2) (i / 2))); [lia|].
      do 2 eexists. split; [reflexivity|].
      destruct (half_succ_even i E) as [-> ->]. lia.
    + destruct (Z.leb_spec k (1 * k + weighted_reverse m (k / 2) (i / 2))); [|lia].
      rewrite js_sar_1_small.
      2:{ lia. }
      replace (1 * k + weighted_reverse m (k / 2) (i / 2) - k)
        with (weighted_reverse m (k / 2) (i / 2)) by lia.
      destruct (half_succ_odd i E) as [-> ->].
      pose proof (Z.div_mod i 2 ltac:(lia)) as Hd.
      assert (Hm1 : (1 <= m)%nat).
      { destruct m; [simpl in Hlt; lia | lia]. }
      destruct (IH fuel (k / 2) (i / 2)) as (k' & j' & Hw & Hjk); try lia.
      * split.
        -- apply Z.div_le_lower_bound; [lia|].
           replace (2 * 2 ^ (Z.of_nat m - 1)) with (2 ^ Z.of_nat m); [lia|].
           replace (Z.of_nat m) with (Z.of_nat m - 1 + 1) at 1 by lia.
           rewrite Z.pow_add_r by lia. lia.
        -- apply Z.div_lt_upper_bound; lia.
      * apply Z.le_lt_trans with k; [|lia]. apply Z.div_le_upper_bound; lia.
      * exists k', j'. split; [exact Hw|]. lia.
Qed.

Lemma bitrev_while_stuck fuel : bitrev_while fuel 0 0 = Diverge.
Proof.
  induction fuel; [reflexivity|]. rewrite bitrev_while_S. exact IHfuel.
Qed.

(** At the last index of [m] bits every weight is taken off, [k] reaches 0
    and the inner loop never stops. *)
Lemma bitrev_while_overflow m : forall fuel k,
  0 <= k < 2 ^ 31 -> k / 2 ^ Z.of_nat m = 0 ->
  bitrev_while fuel k (weighted_reverse m k (2 ^ Z.of_nat m - 1)) = Diverge.
Proof.
  induction m as [|m IH]; intros fuel k Hk Hz.
  - change (2 ^ Z.of_nat 0) with 1 in Hz. rewrite Z.div_1_r in Hz. subst k.
    cbn [weighted_reverse]. apply bitrev_while_stuck.
  - destruct fuel as [|fuel]; [reflexivity|].
    pose proof (pow2_pos (Z.of_nat m) ltac:(lia)) as Hpos.
    assert (E2 : 2 ^ Z.of_nat (S m) = 2 * 2 ^ Z.of_nat m).
    { rewrite Nat2Z.inj_succ, Z.pow_succ_r by lia. reflexivity. }
    rewrite E2 in *.
    assert (Em : (2 * 2 ^ Z.of_nat m - 1) mod 2 = 1).
    { replace (2 * 2 ^ Z.of_nat m - 1) with (1 + (2 ^ Z.of_nat m - 1) * 2) by ring.
      now rewrite Z.mod_add by lia. }
    assert (Ed : (2 * 2 ^ Z.of_nat m - 1) / 2 = 2 ^ Z.of_nat m - 1).
    { replace (2 * 2 ^ Z.of_nat m - 1) with (1 + (2 ^ Z.of_nat m - 1) * 2) by ring.
      now rewrite Z.div_add by lia. }
    cbn [weighted_reverse]. rewrite bitrev_while_S, Em, Ed.
    pose proof (weighted_reverse_nonneg m (k / 2) (2 ^ Z.of_nat m - 1)
                  ltac:(apply Z.div_pos; lia)) as Hnn.
    destruct (Z.leb_spec k (1 * k + weighted_reverse m (k / 2) (2 ^ Z.of_nat m - 1)));
      [|lia].
    rewrite js_sar_1_small by lia.
    replace (1 * k + weighted_reverse m (k / 2) (2 ^ Z.of_nat m - 1) - k)
      with (weighted_reverse m (k / 2) (2 ^ Z.of_nat m - 1)) by lia.
    apply IH.
    + split; [apply Z.div_pos; lia|]. apply Z.div_lt_upper_bound; lia.
    + rewrite Z.div_div by lia. exact Hz.
Qed.

Lemma for_uptoM_split {S : Type} lo mid hi (body : Z -> S -> outcome S) s :
  lo <= mid <= hi ->
  for_uptoM lo hi body s = (s' <- for_uptoM lo mid body s ;; for_uptoM mid hi body s').
Proof.
  intros H.
  remember (Z.to_nat (hi - mid)) as cnt eqn:Hc.
  revert hi H Hc. induction cnt; intros hi H Hc.
  - assert (hi = mid) by lia. subst hi.
    destruct (for_uptoM lo mid body s) eqn:E; cbn [bind]; try reflexivity.
    now rewrite for_uptoM_nil by lia.
  - rewrite (for_uptoM_last lo hi) by lia.
    rewrite (IHcnt (hi - 1)) by lia.
    destruct (for_uptoM lo mid body s) as [s1| |]; cbn [bind]; try reflexivity.
    now rewrite (for_uptoM_last mid hi) by lia.
Qed.

Section NotPowerOfTwo.
Context {N : JSNumber}.

(** From size 3 on, below [2^31], the bit-reversal loop of a size that is
    not a power of two never ends. *)
Lemma bitrev_loop_diverges (n : Z) (real imag : Float32Array) :
  3 <= n < 2 ^ 31 -> 2 ^ Z.log2 n < n ->
  for_uptoM 0 (n - 1) (bitrev_step n) (real, imag, 0) = Diverge.
Proof.
  intros Hn Hnp.
  pose proof (Z.log2_spec n ltac:(lia)) as [Hlo Hhi].
  pose proof (Z.log2_nonneg n) as Hl0.
  set (m := Z.to_nat (Z.log2 n)).
  assert (Em : Z.of_nat m = Z.log2 n) by (unfold m; lia).
  rewrite <- Em in *.
  assert (Hm1 : (1 <= m)%nat).
  { destruct m; [simpl in Hhi; lia | lia]. }
  assert (Hm30 : (m <= 30)%nat).
  { assert (Z.of_nat m < 31); [|lia].
    apply (Z.pow_lt_mono_r_iff 2); lia. }
  pose proof (pow2_pos (Z.of_nat m) ltac:(lia)) as Hpos.
  assert (Hk : 2 ^ (Z.of_nat m - 1) <= n / 2 < 2 ^ Z.of_nat m).
  { rewrite Z.pow_succ_r in Hhi by lia. split.
    - apply Z.div_le_lower_bound; [lia|].
      replace (2 * 2 ^ (Z.of_nat m - 1)) with (2 ^ Z.of_nat m); [lia|].
      replace (Z.of_nat m) with (Z.of_nat m - 1 + 1) at 1 by lia.
      rewrite Z.pow_add_r by lia. lia.
    - apply Z.div_lt_upper_bound; lia. }
  rewrite (for_uptoM_split 0 (2 ^ Z.of_nat m - 1) (n - 1)) by lia.
  destruct (for_uptoM_inv
              (fun i (st : Float32Array * Float32Array * Z) =>
                 snd st = weighted_reverse m (n / 2) i)
              0 (2 ^ Z.of_nat m - 1) (bitrev_step n) (real, imag, 0))
    as ([[re1 im1] j1] & E & Hj).
  - lia.
  - cbn [snd]. now rewrite weighted_reverse_first.
  - intros i [[re im] j] Hi Hj. cbn [snd] in Hj. subst j.
    unfold bitrev_step.
    destruct (swap_when_less i _ (re, im)) as [re' im'].
    rewrite js_sar_1_small by lia.
    destruct (bitrev_while_step m bitrev_fuel (n / 2) i) as (k' & j' & Hw & Hjk);
      try (unfold bitrev_fuel; lia).
    rewrite Hw. cbn [bind]. eexists. split; [reflexivity|]. cbn [snd]. lia.
  - rewrite E. cbn [bind snd] in *. subst j1.
    rewrite for_uptoM_first by lia.
    unfold bitrev_step at 1.
    destruct (swap_when_less _ _ (re1, im1)) as [re' im'].
    rewrite js_sar_1_small by lia.
    rewrite bitrev_while_overflow.
    + reflexivity.
    + split; [apply Z.div_pos; lia|]. apply Z.div_lt_upper_bound; lia.
    + apply Z.div_small. lia.
Qed.

Lemma FFT_forward_overflow (fft : FFT) (real imag : Float32Array) :
  3 <= fft_n fft < 2 ^ 31 -> 2 ^ Z.log2 (fft_n fft) < fft_n fft ->
  FFT_forward fft real imag = Diverge.
Proof.
  intros Hn Hnp. unfold FFT_forward.
  now rewrite bitrev_loop_diverges.
Qed.

End NotPowerOfTwo.

Section NeverReturns.
Context {N : JSNumber}.

Lemma spectrogram_frame_diverges (fft : FFT) window fb h f (st : SpecState) :
  3 <= fft_n fft < 2 ^ 31 -> 2 ^ Z.log2 (fft_n fft) < fft_n fft ->
  spectrogram_frame fft window fb (fft_n fft) h f st = Diverge.
Proof.
  intros Hn Hnp. unfold spectrogram_frame.
  rewrite new_Float32Array_ok by lia. cbn [bind].
  now rewrite FFT_forward_overflow.
Qed.

Lemma recon_frame_diverges (fft : FFT) window anns h nfv f (st : ReconState) :
  3 <= fft_n fft < 2 ^ 31 -> 2 ^ Z.log2 (fft_n fft) < fft_n fft ->
  recon_frame fft window anns (fft_n fft) h nfv f st = Diverge.
Proof.
  intros Hn Hnp. unfold recon_frame, process_frame.
  rewrite new_Float32Array_ok by lia. cbn [bind].
  now rewrite FFT_forward_overflow.
Qed.

Lemma computeSpectrogram_diverges (buf : AudioBuffer) n h m :
  3 <= n < 2 ^ 31 -> 2 ^ Z.log2 n < n -> 0 < h -> h <= buffer_length buf - n ->
  0 <= m -> bins_finite (sampleRate buf) n m ->
  computeSpectrogram buf n h m = Diverge.
Proof.
  intros Hn Hnp Hh HL Hm Hb. unfold computeSpectrogram.
  destruct (FFT_new_ok n ltac:(lia)) as (fft & -> & Hfn & _). cbn [bind].
  destruct (hanningWindow_ok n ltac:(lia)) as (w & -> & _). cbn [bind].
  destruct (melPoints_ok (sampleRate buf) m ltac:(lia)) as (mp & Emp & _).
  rewrite Emp. cbn [bind].
  destruct (build_filterbank_ok n (binPoints n (sampleRate buf) mp) m ltac:(lia)
              (Hb mp Emp)) as (fb & -> & _). cbn [bind].
  rewrite floor_div_positive_hop by exact Hh.
  unfold buffer_length in HL.
  assert (Hnf : 1 <= (Z.of_nat (length (channelData buf)) - n) / h).
  { apply Z.div_le_lower_bound; lia. }
  rewrite frame_loop_int, for_uptoM_first by lia.
  rewrite <- Hfn at 1. rewrite spectrogram_frame_diverges by (rewrite Hfn; assumption).
  reflexivity.
Qed.

Lemma applyMaskAndReconstruct_diverges (buf : AudioBuffer) anns n h :
  3 <= n < 2 ^ 31 -> 2 ^ Z.log2 n < n -> 0 < h -> h <= buffer_length buf - n ->
  applyMaskAndReconstruct buf anns n h = Diverge.
Proof.
  intros Hn Hnp Hh HL. unfold applyMaskAndReconstruct, reconstruct_state.
  destruct (FFT_new_ok n ltac:(lia)) as (fft & -> & Hfn & _). cbn [bind].
  destruct (hanningWindow_ok n ltac:(lia)) as (w & -> & _). cbn [bind].
  unfold buffer_length in *.
  rewrite new_Float32Array_ok by lia. cbn [bind].
  rewrite floor_div_positive_hop by exact Hh.
  assert (Hnf : 1 <= (Z.of_nat (length (channelData buf)) - n) / h).
  { apply Z.div_le_lower_bound; lia. }
  rewrite frame_loop_int, for_uptoM_first by lia.
  rewrite <- Hfn at 1. rewrite recon_frame_diverges by (rewrite Hfn; assumption).
  reflexivity.
Qed.


End NeverReturns.

(** ** The annotation layer *)
Section LayerInvariant.
Context {N : JSNumber}.
Variable Math_min : num -> num -> num.
Variable Math_abs : num -> num.

(** Every annotation of the list is wider than the threshold. *)
Definition all_wide (l : list AppAnnotation) : Prop :=
  Forall (fun a => gtb (app_width a) min_width = true) l.

Lemma layer_step_wide isDrawing container st ev :
  all_wide (annotations st) ->
  all_wide (annotations (layer_step Math_min Math_abs isDrawing container st ev)).
Proof.
  intros H. destruct ev as [x | x | id | id | id]; cbn [layer_step].
  - unfold handleMouseDown. destruct (negb isDrawing); exact H.
  - unfold handleMouseMove. destruct (currentDrag st); [|exact H].
    destruct (negb isDrawing); exact H.
  - unfold handleMouseUp. destruct (currentDrag st) as [d|]; [|exact H].
    destruct (negb isDrawing); [exact H|]. cbn [annotations app_width].
    destruct (gtb (Math_abs (drag_w d)) min_width) eqn:E; [|exact H].
    unfold onAdd. apply Forall_app. split; [exact H|].
    constructor; [exact E | constructor].
  - unfold handleMouseUp. destruct (currentDrag st) as [d|]; [|exact H].
    destruct (negb isDrawing); [exact H|]. cbn [annotations app_width].
    destruct (gtb (Math_abs (drag_w d)) min_width) eqn:E; [|exact H].
    unfold onAdd. apply Forall_app. split; [exact H|].
    constructor; [exact E | constructor].
  - cbn [annotations]. unfold onRemove, all_wide in *.
    rewrite Forall_forall in *. intros a Ha. apply filter_In in Ha. now apply H.
Qed.



End LayerInvariant.




(** * Further properties of the transform, of the two pipelines and of the
    annotation layer *)

(** X1: on arrays of [2^p] cells the first loop of [forward] returns and
    leaves in cell [t] what cell [bit_reverse p t] held (stored once more if
    it was moved); the reversal is its own inverse, so the loop only
    exchanges cells. *)
Theorem bit_reversal_permutes {N : JSNumber} (p : nat) (re im : Float32Array) :
  (p <= 30)%nat -> length re = (2 ^ p)%nat -> length im = (2 ^ p)%nat ->
  exists re' im' j,
    for_uptoM 0 (2 ^ Z.of_nat p - 1) (bitrev_step (2 ^ Z.of_nat p)) (re, im, 0)
      = Ok (re', im', j) /\
    length re' = length re /\ length im' = length im /\
    forall t, 0 <= t < 2 ^ Z.of_nat p ->
      0 <= bit_reverse p t < 2 ^ Z.of_nat p /\
      bit_reverse p (bit_reverse p t) = t /\
      aget re' t = permuted p re t /\ aget im' t = permuted p im t.
Proof.
  intros Hp Lr Li.
  rewrite bitrev_loop_spec by exact Hp.
  destruct (bitrev_permute_spec p re im) as (L1 & L2 & G).
  { rewrite Lr. apply pow2_nat. }
  { congruence. }
  cbn zeta in *.
  destruct (bitrev_permute p (re, im)) as [re' im']. cbn [fst snd] in *.
  exists re', im', (bit_reverse p (2 ^ Z.of_nat p - 1)).
  split; [reflexivity|]. split; [exact L1|]. split; [congruence|].
  intros t Ht. split; [apply bit_reverse_range|].
  split; [now apply bit_reverse_involutive|]. exact (G t Ht).
Qed.

Lemma bit_reversal_permutes_witness :
  exists re' im' j,
    for_uptoM 0 (2 ^ Z.of_nat 2 - 1) (bitrev_step (N := ExactReal) (2 ^ Z.of_nat 2))
      (real_array [1; 2; 3; 4]%R, real_array [0; 0; 0; 0]%R, 0)
      = Ok (re', im', j) /\
    length re' = length (real_array [1; 2; 3; 4]%R) /\
    length im' = length (real_array [0; 0; 0; 0]%R) /\
    forall t, 0 <= t < 2 ^ Z.of_nat 2 ->
      0 <= bit_reverse 2 t < 2 ^ Z.of_nat 2 /\
      bit_reverse 2 (bit_reverse 2 t) = t /\
      aget re' t = permuted 2 (real_array [1; 2; 3; 4]%R) t /\
      aget im' t = permuted 2 (real_array [0; 0; 0; 0]%R) t.
Proof.
  apply (bit_reversal_permutes (N := ExactReal) 2
           (real_array [1; 2; 3; 4]%R) (real_array [0; 0; 0; 0]%R)).
  - lia.
  - reflexivity.
  - reflexivity.
Defined.

(** X2: in exact arithmetic the constructor followed by [forward], on arrays
    of [2^p] cells, returns the discrete Fourier transform of the complex
    sequence the two arrays hold. *)
Theorem forward_is_dft (p : nat) (re im : @Float32Array ExactReal) :
  (p <= 30)%nat -> length re = (2 ^ p)%nat -> length im = (2 ^ p)%nat ->
  exists fft re' im',
    FFT_new (N := ExactReal) (2 ^ Z.of_nat p) = Ok fft /\
    FFT_forward fft re im = Ok (re', im') /\
    length re' = (2 ^ p)%nat /\ length im' = (2 ^ p)%nat /\
    forall k, 0 <= k < 2 ^ Z.of_nat p ->
      (aget re' k, aget im' k) = dft (fun t => (aget re t, aget im t)) (2 ^ p) k.
Proof.
  intros Hp Lr Li.
  destruct (FFT_forward_dft p re im Hp Lr Li) as (fft & [re' im'] & E1 & E2 & [L1 L2] & G).
  exists fft, re', im'. split; [exact E1|]. split; [exact E2|].
  split; [exact L1|]. split; [exact L2|]. exact G.
Qed.

Lemma forward_is_dft_witness :
  exists fft re' im',
    FFT_new (N := ExactReal) (2 ^ Z.of_nat 2) = Ok fft /\
    FFT_forward fft (real_array [1; 2; 3; 4]%R) (real_array [0; 0; 0; 0]%R)
      = Ok (re', im') /\
    length re' = (2 ^ 2)%nat /\ length im' = (2 ^ 2)%nat /\
    forall k, 0 <= k < 2 ^ Z.of_nat 2 ->
      (aget re' k, aget im' k) =
      dft (fun t => (aget (real_array [1; 2; 3; 4]%R) t,
                     aget (real_array [0; 0; 0; 0]%R) t)) (2 ^ 2) k.
Proof.
  apply (forward_is_dft 2 (real_array [1; 2; 3; 4]%R) (real_array [0; 0; 0; 0]%R)).
  - lia.
  - reflexivity.
  - reflexivity.
Defined.

(** X3: in exact arithmetic [inverse], on arrays of [2^p] cells, returns the
    inverse discrete Fourier transform: the conjugate kernel and the factor
    [1 / n]. *)
Theorem inverse_is_idft (p : nat) (fft : @FFT ExactReal) (re im : @Float32Array ExactReal) :
  (p <= 30)%nat -> FFT_new (N := ExactReal) (2 ^ Z.of_nat p) = Ok fft ->
  length re = (2 ^ p)%nat -> length im = (2 ^ p)%nat ->
  exists re' im',
    FFT_inverse fft re im = Ok (re', im') /\
    length re' = (2 ^ p)%nat /\ length im' = (2 ^ p)%nat /\
    forall k, 0 <= k < 2 ^ Z.of_nat p ->
      (aget re' k, aget im' k) = idft (fun t => (aget re t, aget im t)) (2 ^ p) k.
Proof.
  intros Hp Enew Lr Li.
  destruct (FFT_inverse_exact p fft re im Hp Enew Lr Li) as ([re' im'] & E & [L1 L2] & G).
  exists re', im'. split; [exact E|]. split; [exact L1|]. split; [exact L2|]. exact G.
Qed.

Lemma FFT_new_4 : exists fft, FFT_new (N := ExactReal) (2 ^ Z.of_nat 2) = Ok fft.
Proof. destruct (FFT_new_exact 2) as (fft & E & _). exists fft. exact E. Qed.

Lemma inverse_is_idft_witness :
  exists fft re' im',
    FFT_new (N := ExactReal) (2 ^ Z.of_nat 2) = Ok fft /\
    FFT_inverse fft (real_array [1; 2; 3; 4]%R) (real_array [0; 0; 0; 0]%R)
      = Ok (re', im') /\
    length re' = (2 ^ 2)%nat /\ length im' = (2 ^ 2)%nat /\
    forall k, 0 <= k < 2 ^ Z.of_nat 2 ->
      (aget re' k, aget im' k) =
      idft (fun t => (aget (real_array [1; 2; 3; 4]%R) t,
                      aget (real_array [0; 0; 0; 0]%R) t)) (2 ^ 2) k.
Proof.
  destruct FFT_new_4 as (fft & E).
  destruct (inverse_is_idft 2 fft (real_array [1; 2; 3; 4]%R)
              (real_array [0; 0; 0; 0]%R)) as (re' & im' & H).
  - lia.
  - exact E.
  - reflexivity.
  - reflexivity.
  - exists fft, re', im'. split; [exact E | exact H].
Defined.

(** X4: in exact arithmetic [forward] followed by [inverse] gives back the
    two arrays, on every power-of-two size. *)
Theorem forward_inverse_round_trip (p : nat) (re im : @Float32Array ExactReal) :
  (p <= 30)%nat -> length re = (2 ^ p)%nat -> length im = (2 ^ p)%nat ->
  exists fft re1 im1,
    FFT_new (N := ExactReal) (2 ^ Z.of_nat p) = Ok fft /\
    FFT_forward fft re im = Ok (re1, im1) /\
    FFT_inverse fft re1 im1 = Ok (re, im).
Proof.
  intros Hp Lr Li.
  destruct (FFT_new_exact p) as (fft & Enew & _).
  destruct (FFT_round_trip_given p fft re im Hp Enew Lr Li)
    as (re1 & im1 & Efw & _ & _ & Einv).
  exists fft, re1, im1. split; [exact Enew|]. split; [exact Efw | exact Einv].
Qed.

Lemma forward_inverse_round_trip_witness :
  exists fft re1 im1,
    FFT_new (N := ExactReal) (2 ^ Z.of_nat 3) = Ok fft /\
    FFT_forward fft (real_array [1; 2; 3; 4; 5; 6; 7; 8]%R)
                    (real_array [8; 7; 6; 5; 4; 3; 2; 1]%R) = Ok (re1, im1) /\
    FFT_inverse fft re1 im1 =
      Ok (real_array [1; 2; 3; 4; 5; 6; 7; 8]%R, real_array [8; 7; 6; 5; 4; 3; 2; 1]%R).
Proof.
  apply (forward_inverse_round_trip 3 (real_array [1; 2; 3; 4; 5; 6; 7; 8]%R)
           (real_array [8; 7; 6; 5; 4; 3; 2; 1]%R)).
  - lia.
  - reflexivity.
  - reflexivity.
Defined.

(** X5: in exact arithmetic the transform of a real signal (the imaginary
    array as allocated, all zeros) is mirrored: bin [n - k] is the conjugate
    of bin [k], so the bins above [n / 2] repeat the moduli of those below. *)
Theorem real_input_spectrum_mirrors (p : nat) (re : @Float32Array ExactReal) :
  (p <= 30)%nat -> length re = (2 ^ p)%nat ->
  exists fft re' im',
    FFT_new (N := ExactReal) (2 ^ Z.of_nat p) = Ok fft /\
    new_Float32Array (N := ExactReal) (2 ^ Z.of_nat p)
      = Ok (repeat 0%R (Z.to_nat (2 ^ Z.of_nat p))) /\
    FFT_forward fft re (repeat 0%R (Z.to_nat (2 ^ Z.of_nat p))) = Ok (re', im') /\
    forall k, 0 < k < 2 ^ Z.of_nat p ->
      aget re' (2 ^ Z.of_nat p - k) = aget re' k /\
      aget im' (2 ^ Z.of_nat p - k) = (- aget im' k)%R.
Proof.
  intros Hp Lr.
  pose proof (pow2_pos (Z.of_nat p) ltac:(lia)) as Hpos.
  set (zeros := repeat 0%R (Z.to_nat (2 ^ Z.of_nat p))).
  assert (Lz : length zeros = (2 ^ p)%nat).
  { unfold zeros. rewrite repeat_length. apply to_nat_pow2. }
  destruct (FFT_forward_dft p re zeros Hp Lr Lz) as (fft & [re' im'] & E1 & E2 & _ & G).
  exists fft, re', im'. split; [exact E1|].
  split; [apply (new_Float32Array_ok (N := ExactReal)); lia|].
  split; [exact E2|].
  intros k Hk.
  pose proof (G k ltac:(lia)) as Gk. pose proof (G (2 ^ Z.of_nat p - k) ltac:(lia)) as Gm.
  rewrite dft_real_mirror in Gm; [|intros t Ht|exact Hk].
  - rewrite <- Gk in Gm. unfold cval, Cconj in Gm. cbn [fst snd] in Gm.
    split; congruence.
  - unfold cval. cbn [fst snd]. unfold zeros.
    apply (aget_repeat (N := ExactReal)).
    rewrite to_nat_pow2, pow2_nat. exact Ht.
Qed.

Lemma real_input_spectrum_mirrors_witness :
  exists fft re' im',
    FFT_new (N := ExactReal) (2 ^ Z.of_nat 2) = Ok fft /\
    new_Float32Array (N := ExactReal) (2 ^ Z.of_nat 2)
      = Ok (repeat 0%R (Z.to_nat (2 ^ Z.of_nat 2))) /\
    FFT_forward fft (real_array [1; 2; 3; 4]%R) (repeat 0%R (Z.to_nat (2 ^ Z.of_nat 2)))
      = Ok (re', im') /\
    forall k, 0 < k < 2 ^ Z.of_nat 2 ->
      aget re' (2 ^ Z.of_nat 2 - k) = aget re' k /\
      aget im' (2 ^ Z.of_nat 2 - k) = (- aget im' k)%R.
Proof.
  apply (real_input_spectrum_mirrors 2 (real_array [1; 2; 3; 4]%R)).
  - lia.
  - reflexivity.
Defined.

(** X6: in exact arithmetic [hanningWindow n], for [n >= 2], returns [n]
    weights between 0 and 1 that are 0 at both ends and symmetric about the
    middle. *)
Theorem hanning_window_shape (n : Z) :
  2 <= n ->
  exists w,
    hanningWindow (N := ExactReal) n = Ok w /\ Z.of_nat (length w) = n /\
    aget w 0 = 0%R /\ aget w (n - 1) = 0%R /\
    forall k, 0 <= k < n ->
      aget w k = (/ 2 * (1 - cos (2 * PI * IZR k / IZR (n - 1))))%R /\
      (0 <= aget w k <= 1)%R /\ aget w (n - 1 - k) = aget w k.
Proof.
  intros Hn. destruct (hanningWindow_exact n ltac:(lia)) as (w & E & L & G).
  exists w. split; [exact E|]. split; [exact L|].
  split; [rewrite G by lia; apply hann_first|].
  split; [rewrite G by lia; now apply hann_last|].
  intros k Hk. rewrite (G k Hk), (G (n - 1 - k)) by lia.
  split; [reflexivity|]. split; [apply hann_range | now apply hann_symmetric].
Qed.

Lemma hanning_window_shape_witness :
  exists w,
    hanningWindow (N := ExactReal) 8 = Ok w /\ Z.of_nat (length w) = 8 /\
    aget w 0 = 0%R /\ aget w (8 - 1) = 0%R /\
    forall k, 0 <= k < 8 ->
      aget w k = (/ 2 * (1 - cos (2 * PI * IZR k / IZR (8 - 1))))%R /\
      (0 <= aget w k <= 1)%R /\ aget w (8 - 1 - k) = aget w k.
Proof. apply (hanning_window_shape 8). lia. Defined.

(** X7: in exact arithmetic [melToHz] undoes [hzToMel] on every frequency
    above -700 Hz, and [hzToMel] undoes [melToHz] everywhere. *)
Theorem mel_scale_round_trip (hz mel : R) :
  (-700 < hz)%R ->
  melToHz (N := ExactReal) (hzToMel (N := ExactReal) hz) = hz /\
  hzToMel (N := ExactReal) (melToHz (N := ExactReal) mel) = mel.
Proof.
  intros H. split; [now apply melToHz_hzToMel | apply hzToMel_melToHz].
Qed.

Lemma mel_scale_round_trip_witness :
  melToHz (N := ExactReal) (hzToMel (N := ExactReal) 440%R) = 440%R /\
  hzToMel (N := ExactReal) (melToHz (N := ExactReal) 1000%R) = 1000%R.
Proof. apply (mel_scale_round_trip 440 1000). lra. Defined.

(** X8: in exact arithmetic, under a positive sample rate, the frequency
    axis of a returned spectrogram has one entry per mel bin, strictly
    increasing and strictly between 0 and half the sample rate. *)
Theorem frequency_axis_increasing (buf : @AudioBuffer ExactReal) (n h m : Z)
  (r : @SpectrogramData ExactReal) (d : @Float32Array ExactReal) :
  computeSpectrogram buf n h m = Ok (r, d) -> 0 <= m -> (0 < sampleRate buf)%R ->
  length (frequencies r) = Z.to_nat m /\
  forall b, 0 <= b < m ->
    (0 < nth (Z.to_nat b) (frequencies r) 0 < sampleRate buf / 2)%R /\
    forall b', b < b' < m ->
      (nth (Z.to_nat b) (frequencies r) 0 < nth (Z.to_nat b') (frequencies r) 0)%R.
Proof.
  intros E Hm Hsr.
  destruct (computeSpectrogram_frequencies buf n h m r d E Hm) as [L G].
  split; [exact L|]. intros b Hb. rewrite (G b Hb). split.
  - split.
    + rewrite <- (mel_point_first (sampleRate buf) m).
      apply mel_point_increasing; [exact Hm | exact Hsr | lia].
    + rewrite <- (mel_point_last (sampleRate buf) m Hm Hsr).
      apply mel_point_increasing; [exact Hm | exact Hsr | lia].
  - intros b' Hb'. rewrite (G b') by lia.
    apply mel_point_increasing; [exact Hm | exact Hsr | lia].
Qed.

Lemma ramp8_spectrogram :
  exists r, computeSpectrogram ramp8 (2 ^ Z.of_nat 2) 1 3 = Ok (r, channelData ramp8).
Proof.
  destruct (computeSpectrogram_returns (N := ExactReal) ramp8 2 1 3) as (r & E & _);
    try lia.
  - apply ExactReal_bins_finite.
  - exists r. exact E.
Qed.

Lemma frequency_axis_increasing_witness :
  exists r,
    computeSpectrogram ramp8 (2 ^ Z.of_nat 2) 1 3 = Ok (r, channelData ramp8) /\
    length (frequencies r) = Z.to_nat 3 /\
    forall b, 0 <= b < 3 ->
      (0 < nth (Z.to_nat b) (frequencies r) 0 < sampleRate ramp8 / 2)%R /\
      forall b', b < b' < 3 ->
        (nth (Z.to_nat b) (frequencies r) 0 < nth (Z.to_nat b') (frequencies r) 0)%R.
Proof.
  destruct ramp8_spectrogram as (r & E).
  exists r. split; [exact E|].
  apply (frequency_axis_increasing ramp8 (2 ^ Z.of_nat 2) 1 3 r (channelData ramp8) E).
  - lia.
  - cbn [sampleRate ramp8]. lra.
Defined.

(** X9: in exact arithmetic, on a window of [2^p] samples with [p >= 1]
    and a positive hop, no value of a returned spectrogram is below
    -200 dB. *)
Theorem spectrogram_values_floor (buf : @AudioBuffer ExactReal) (p : nat) (h m : Z)
  (r : @SpectrogramData ExactReal) (d : @Float32Array ExactReal) :
  (1 <= p)%nat -> 0 < h ->
  computeSpectrogram buf (2 ^ Z.of_nat p) h m = Ok (r, d) ->
  forall row, In row (spectrogram r) -> forall v, In v row -> (-200 <= v)%R.
Proof.
  intros _ _. generalize (2 ^ Z.of_nat p). intros n.
  change (computeSpectrogram buf n h m = Ok (r, d) -> above_floor (spectrogram r)).
  unfold computeSpectrogram. intros H.
  destruct (FFT_new n) as [fft| |]; cbn [bind] in H; try discriminate.
  destruct (hanningWindow n) as [w| |]; cbn [bind] in H; try discriminate.
  destruct (melPoints _ m) as [mp| |]; cbn [bind] in H; try discriminate.
  destruct (build_filterbank n _ m) as [fb| |]; cbn [bind] in H; try discriminate.
  destruct (frame_loop _ _ _) as [st| |] eqn:E; cbn [bind] in H; try discriminate.
  assert (Hr : spectrogram r = sp_rows st) by (injection H as <- _; reflexivity).
  rewrite Hr. clear H Hr.
  assert (G : forall l (st0 st1 : @SpecState ExactReal),
             foldM (spectrogram_frame fft w fb n h) l st0 = Ok st1 ->
             above_floor (sp_rows st0) -> above_floor (sp_rows st1)).
  { intros l st0 st1 HF H0.
    apply (foldM_preserves (fun s : @SpecState ExactReal => above_floor (sp_rows s))
             (spectrogram_frame fft w fb n h) l st0 st1); auto.
    intros i s s' Hs Hd. apply spectrogram_frame_rows in Hs. destruct Hs as (mg & ->).
    intros row Hrow v Hv. apply in_app_or in Hrow. destruct Hrow as [Hrow | [<- | []]].
    - exact (Hd row Hrow v Hv).
    - apply in_map_iff in Hv. destruct Hv as (filter & <- & _). apply mel_value_floor. }
  assert (H0 : above_floor (sp_rows (mkSpecState (channelData buf) []))).
  { intros row []. }
  unfold frame_loop in E.
  destruct (floor_div _ h); try discriminate.
  - exact (G _ _ _ E H0).
  - injection E as <-. exact H0.
  - injection E as <-. exact H0.
Qed.

Lemma spectrogram_values_floor_witness :
  exists r,
    computeSpectrogram ramp8 (2 ^ Z.of_nat 2) 1 3 = Ok (r, channelData ramp8) /\
    forall row, In row (spectrogram r) -> forall v, In v row -> (-200 <= v)%R.
Proof.
  destruct ramp8_spectrogram as (r & E).
  exists r. split; [exact E|].
  apply (spectrogram_values_floor ramp8 2 1 3 r (channelData ramp8)).
  - lia.
  - lia.
  - exact E.
Defined.

(** X10: in exact arithmetic, on a window of [2^p] samples with
    [1 <= p <= 30] and a positive hop, row [f] of the spectrogram is the
    filterbank applied ([mel_value]) to the moduli of bins [0 .. n / 2] of
    the discrete Fourier transform of samples [f * hop .. f * hop + n - 1]
    weighted by the Hann window. *)
Theorem spectrogram_rows_are_mel_dft (buf : @AudioBuffer ExactReal) (p : nat) (h m : Z) :
  (1 <= p <= 30)%nat -> 0 < h -> 0 <= m ->
  exists r mp fb,
    computeSpectrogram buf (2 ^ Z.of_nat p) h m = Ok (r, channelData buf) /\
    melPoints (sampleRate buf) m = Ok mp /\
    build_filterbank (2 ^ Z.of_nat p)
      (binPoints (2 ^ Z.of_nat p) (sampleRate buf) mp) m = Ok fb /\
    Z.of_nat (length (spectrogram r)) =
      Z.max 0 ((buffer_length buf - 2 ^ Z.of_nat p) / h) /\
    forall f, 0 <= f < (buffer_length buf - 2 ^ Z.of_nat p) / h ->
      exists mg,
        nth (Z.to_nat f) (spectrogram r) [] = map (mel_value mg) fb /\
        Z.of_nat (length mg) = 2 ^ Z.of_nat p / 2 + 1 /\
        forall i, 0 <= i <= 2 ^ Z.of_nat p / 2 ->
          aget mg i =
          Cmod (dft (fun t => ((aget (channelData buf) (f * h + t)
                                * hann (2 ^ Z.of_nat p) t)%R, 0%R)) (2 ^ p) i).
Proof.
  intros [_ Hp] Hh Hm.
  pose proof (pow2_pos (Z.of_nat p) ltac:(lia)) as Hpos.
  unfold computeSpectrogram.
  destruct (FFT_new_exact p) as (fft & Enew & _). rewrite Enew. cbn [bind].
  destruct (hanningWindow_exact (2 ^ Z.of_nat p) ltac:(lia)) as (w & Ew & _ & Gw).
  rewrite Ew. cbn [bind].
  destruct (melPoints_ok (sampleRate buf) m ltac:(lia)) as (mp & Emp & _).
  rewrite Emp. cbn [bind].
  destruct (build_filterbank_ok (N := ExactReal) (2 ^ Z.of_nat p)
              (binPoints (2 ^ Z.of_nat p) (sampleRate buf) mp) m ltac:(lia)
              (ExactReal_bins_finite _ _ _ mp Emp)) as (fb & Efb & _).
  rewrite Efb. cbn [bind].
  rewrite floor_div_positive_hop by exact Hh.
  unfold buffer_length.
  set (nf := (Z.of_nat (length (channelData buf)) - 2 ^ Z.of_nat p) / h).
  rewrite frame_loop_int.
  destruct (spectrogram_loop_exact p fft w fb h (Z.max 0 nf) (channelData buf) Hp Enew
              ltac:(lia)) as (rows & E & Hrows & G).
  rewrite E. cbn [bind]. eexists. exists mp, fb.
  split; [reflexivity|]. split; [reflexivity|]. split; [exact Efb|].
  cbn [spectrogram sp_rows]. split; [exact Hrows|].
  intros f Hf. destruct (G f ltac:(lia)) as (mg & E1 & E2 & E3).
  exists mg. split; [exact E1|]. split; [exact E2|].
  intros i Hi. rewrite (E3 i Hi). f_equal. apply dft_ext. intros t Ht.
  rewrite pow2_nat in Ht. unfold windowed. now rewrite (Gw t Ht).
Qed.

Lemma spectrogram_rows_are_mel_dft_witness :
  exists r mp fb,
    computeSpectrogram ramp8 (2 ^ Z.of_nat 2) 1 3 = Ok (r, channelData ramp8) /\
    melPoints (sampleRate ramp8) 3 = Ok mp /\
    build_filterbank (2 ^ Z.of_nat 2)
      (binPoints (2 ^ Z.of_nat 2) (sampleRate ramp8) mp) 3 = Ok fb /\
    Z.of_nat (length (spectrogram r)) =
      Z.max 0 ((buffer_length ramp8 - 2 ^ Z.of_nat 2) / 1) /\
    forall f, 0 <= f < (buffer_length ramp8 - 2 ^ Z.of_nat 2) / 1 ->
      exists mg,
        nth (Z.to_nat f) (spectrogram r) [] = map (mel_value mg) fb /\
        Z.of_nat (length mg) = 2 ^ Z.of_nat 2 / 2 + 1 /\
        forall i, 0 <= i <= 2 ^ Z.of_nat 2 / 2 ->
          aget mg i =
          Cmod (dft (fun t => ((aget (channelData ramp8) (f * 1 + t)
                                * hann (2 ^ Z.of_nat 2) t)%R, 0%R)) (2 ^ 2) i).
Proof.
  apply (spectrogram_rows_are_mel_dft ramp8 2 1 3).
  - lia.
  - lia.
  - lia.
Defined.

(** X12: in exact arithmetic, on a window of [2^p] samples with
    [1 <= p <= 30] and a positive hop, a sample that only masked frames
    cover, or that no frame covers, comes out of the reconstruction as 0. *)
Theorem masked_sample_silenced (buf : @AudioBuffer ExactReal)
  (anns : list (@Annotation ExactReal)) (p : nat) (h i : Z) :
  (1 <= p <= 30)%nat -> 0 < h -> 0 <= i < buffer_length buf ->
  (forall f, 0 <= f < (buffer_length buf - 2 ^ Z.of_nat p) / h ->
             f * h <= i < f * h + 2 ^ Z.of_nat p ->
             isTimeMasked (timePos f ((buffer_length buf - 2 ^ Z.of_nat p) / h)) anns
             = true) ->
  exists out,
    applyMaskAndReconstruct buf anns (2 ^ Z.of_nat p) h = Ok (out, channelData buf) /\
    aget (channelData out) i = 0%R.
Proof. intros [_ Hp]. exact (reconstruct_masked_sample buf anns p h i Hp). Qed.

Lemma masked_sample_silenced_witness :
  exists out,
    applyMaskAndReconstruct ramp8 [whole_span] (2 ^ Z.of_nat 2) 1
      = Ok (out, channelData ramp8) /\
    aget (channelData out) 1 = 0%R.
Proof.
  apply (masked_sample_silenced ramp8 [whole_span] 2 1 1).
  - lia.
  - lia.
  - vm_compute. split; [discriminate | reflexivity].
  - intros f Hf _. apply whole_span_masks. exact Hf.
Defined.

(** X13: whether a frame position is masked depends on the set of intervals
    only, not on their order or on repetitions. *)
Theorem annotation_order_irrelevant {N : JSNumber} (t : num) (l1 l2 : list Annotation) :
  (forall a, In a l1 <-> In a l2) -> isTimeMasked t l1 = isTimeMasked t l2.
Proof.
  intros H.
  destruct (isTimeMasked t l1) eqn:E1, (isTimeMasked t l2) eqn:E2; try reflexivity.
  - apply isTimeMasked_exists in E1. destruct E1 as (a & Hin & H1 & H2).
    assert (E : isTimeMasked t l2 = true).
    { apply isTimeMasked_exists. exists a. split; [now apply H | auto]. }
    congruence.
  - apply isTimeMasked_exists in E2. destruct E2 as (a & Hin & H1 & H2).
    assert (E : isTimeMasked t l1 = true).
    { apply isTimeMasked_exists. exists a. split; [now apply H | auto]. }
    congruence.
Qed.

Lemma annotation_order_irrelevant_witness :
  isTimeMasked (N := ExactReal) (/ 2)%R
    [@mkAnnotation ExactReal 0%R (/ 4)%R; @mkAnnotation ExactReal (/ 4)%R 1%R] =
  isTimeMasked (N := ExactReal) (/ 2)%R
    [@mkAnnotation ExactReal (/ 4)%R 1%R; @mkAnnotation ExactReal 0%R (/ 4)%R;
     @mkAnnotation ExactReal (/ 4)%R 1%R].
Proof.
  apply (annotation_order_irrelevant (N := ExactReal)).
  intros a. simpl. tauto.
Defined.

(** X14: for every size from 3 up to [2^31 - 1] that is not a power of two,
    [forward] never returns, whatever the arrays: the inner loop of the bit
    reversal reaches [k = 0] at index [2^floor(log2 n) - 1]. *)
Theorem forward_never_returns {N : JSNumber} (fft : FFT) (re im : Float32Array) :
  3 <= fft_n fft < 2 ^ 31 -> 2 ^ Z.log2 (fft_n fft) < fft_n fft ->
  FFT_forward fft re im = Diverge.
Proof.
  intros Hn Hnp. unfold FFT_forward.
  now rewrite bitrev_loop_diverges.
Qed.

Lemma forward_never_returns_witness :
  FFT_forward (N := ExactReal) (mkFFT 12 (JInt 3) (real_array []) (real_array []))
    (real_array [1; 2; 3]%R) (real_array []) = Diverge.
Proof.
  apply (forward_never_returns (N := ExactReal)).
  - cbn [fft_n]. lia.
  - reflexivity.
Defined.

(** X15: for every window size from 3 up to [2^31 - 1] that is not a power
    of two, with a positive hop and a signal long enough for one frame,
    neither pipeline returns, and neither raises an error. *)
Theorem pipelines_never_return {N : JSNumber} (buf : AudioBuffer)
  (anns : list Annotation) (n h m : Z) :
  3 <= n < 2 ^ 31 -> 2 ^ Z.log2 n < n -> 0 < h -> h <= buffer_length buf - n ->
  0 <= m -> bins_finite (sampleRate buf) n m ->
  computeSpectrogram buf n h m = Diverge /\
  applyMaskAndReconstruct buf anns n h = Diverge.
Proof.
  intros Hn Hnp Hh HL Hm Hb. split.
  - now apply computeSpectrogram_diverges.
  - now apply applyMaskAndReconstruct_diverges.
Qed.

Lemma pipelines_never_return_witness :
  computeSpectrogram ramp8 6 2 3 = Diverge /\
  applyMaskAndReconstruct ramp8 [] 6 2 = Diverge.
Proof.
  apply (pipelines_never_return (N := ExactReal) ramp8 [] 6 2 3).
  - lia.
  - reflexivity.
  - lia.
  - vm_compute. discriminate.
  - lia.
  - apply ExactReal_bins_finite.
Defined.

(** X17: in exact arithmetic every weight of every filter of the bank that
    [computeSpectrogram] builds lies between 0 and 1 (a read outside the
    filter counts as 0); the bank has one filter per mel bin and each filter
    has [n / 2 + 1] weights. *)
Theorem filter_weights_in_unit_interval (sr : @num ExactReal) (n m : Z)
  (mp : @Float32Array ExactReal) (fb : list (@Float32Array ExactReal)) :
  0 <= n -> 0 <= m ->
  melPoints (N := ExactReal) sr m = Ok mp ->
  build_filterbank n (binPoints (N := ExactReal) n sr mp) m = Ok fb ->
  length fb = Z.to_nat m /\
  forall filter, In filter fb ->
    Z.of_nat (length filter) = n / 2 + 1 /\
    forall j, (0 <= aget filter j <= 1)%R.
Proof.
  intros Hn Hm Emp Efb.
  destruct (melPoints_ok (N := ExactReal) sr m ltac:(lia)) as (mp' & Emp' & Lmp).
  rewrite Emp in Emp'. injection Emp' as <-.
  destruct (build_filterbank_ok (N := ExactReal) n (binPoints n sr mp) m Hn
              (ExactReal_bins_finite sr n m mp Emp)) as (fb' & Efb' & Lfb).
  rewrite Efb in Efb'. injection Efb' as <-.
  split; [exact Lfb|].
  intros filter Hin. apply In_nth_error in Hin. destruct Hin as (k & Hk).
  assert (Hkl : (k < Z.to_nat m)%nat).
  { rewrite <- Lfb. apply nth_error_Some. congruence. }
  unfold build_filterbank in Efb.
  destruct (mapM_nth _ _ _ Efb k (0 + Z.of_nat k)
              (zsteps_nth_error (Z.to_nat m) 0 k Hkl)) as (y & Hy & Ey).
  rewrite Hk in Hy. injection Hy as <-.
  rewrite Z.add_0_l in Ey.
  destruct (bget_binPoints n sr mp (Z.of_nat k) ltac:(lia)) as (b0 & E0).
  destruct (bget_binPoints n sr mp (Z.of_nat k + 1) ltac:(lia)) as (b1 & E1).
  destruct (bget_binPoints n sr mp (Z.of_nat k + 2) ltac:(lia)) as (b2 & E2).
  destruct (build_filter_weights (N := ExactReal) n (binPoints n sr mp) (Z.of_nat k)
              b0 b1 b2 Hn E0 E1 E2) as (filter' & Ef & Lf & Gf).
  rewrite Ey in Ef. injection Ef as <-.
  split; [exact Lf|]. intros j.
  assert (0 <= n / 2) by (apply Z.div_pos; lia).
  destruct (Z_lt_ge_dec j 0) as [Hneg | Hge].
  - rewrite (aget_out (N := ExactReal)) by (left; lia). cbn [nan ExactReal]. lra.
  - destruct (Z_le_gt_dec j (n / 2)) as [Hle | Hgt].
    + rewrite Gf by lia. apply triangle_weight_unit.
    + rewrite (aget_out (N := ExactReal)) by (right; lia). cbn [nan ExactReal]. lra.
Qed.

Lemma filter_weights_in_unit_interval_witness :
  exists (mp : @Float32Array ExactReal) (fb : list (@Float32Array ExactReal)),
    melPoints (N := ExactReal) 8000%R 3 = Ok mp /\
    build_filterbank 16 (binPoints (N := ExactReal) 16 8000%R mp) 3 = Ok fb /\
    length fb = Z.to_nat 3 /\
    forall filter, In filter fb ->
      Z.of_nat (length filter) = 16 / 2 + 1 /\
      forall j, (0 <= aget filter j <= 1)%R.
Proof.
  destruct (melPoints_ok (N := ExactReal) 8000%R 3 ltac:(lia)) as (mp & Emp & _).
  destruct (build_filterbank_ok (N := ExactReal) 16
              (binPoints (N := ExactReal) 16 8000%R mp) 3 ltac:(lia)
              (ExactReal_bins_finite 8000%R 16 3 mp Emp)) as (fb & Efb & _).
  exists mp, fb. split; [exact Emp|]. split; [exact Efb|].
  apply (filter_weights_in_unit_interval 8000%R 16 3 mp fb).
  - lia.
  - lia.
  - exact Emp.
  - exact Efb.
Defined.



(** X18: whatever the events, the drawing mode and the container, and
    whatever [Math.min] and [Math.abs] compute, the layer only ever adds
    annotations whose width exceeds 0.001: a list that holds none narrower
    never comes to hold one. *)
Theorem layer_annotations_are_wide {N : JSNumber}
  (Math_min : num -> num -> num) (Math_abs : num -> num)
  (evs : list (bool * option DOMRect * LayerEvent)) (st : LayerState) :
  Forall (fun a => gtb (app_width a) min_width = true) (annotations st) ->
  Forall (fun a => gtb (app_width a) min_width = true)
         (annotations (layer_run Math_min Math_abs evs st)).
Proof.
  revert st. induction evs as [|e evs IH]; intros st H; [exact H|].
  unfold layer_run in *. cbn [fold_left]. apply IH.
  now apply layer_step_wide.
Qed.

Lemma layer_annotations_are_wide_witness :
  Forall (fun a => gtb (app_width a) min_width = true)
    (annotations
       (layer_run (N := ExactReal) Rmin Rabs
          [(true, Some (@mkDOMRect ExactReal 0%R 10%R), @MouseDown ExactReal 3%R);
           (true, Some (@mkDOMRect ExactReal 0%R 10%R), @MouseMove ExactReal 5%R);
           (true, Some (@mkDOMRect ExactReal 0%R 10%R), @MouseUp ExactReal String.EmptyString);
           (false, None, @RemoveClick ExactReal String.EmptyString)]
          (mkLayerState None []))).
Proof.
  apply (layer_annotations_are_wide (N := ExactReal) Rmin Rabs).
  cbn [annotations]. constructor.
Defined.



(** A signal of 4096 samples and a container ten units wide. *)
Definition tone4096 : @AudioBuffer ExactReal :=
  mkAudioBuffer (real_array (repeat 1%R (Z.to_nat 4096))) 44100%R.


Lemma tone4096_length : buffer_length tone4096 = 4096.
Proof.
  unfold buffer_length, tone4096, real_array. cbn [channelData].
  rewrite repeat_length. reflexivity.
Qed.


(** X21: the two calls of the application, with the window of 2048 samples,
    the hop of 512 and the 128 mel bins they leave to the defaults, return
    on every non-empty signal: the spectrogram has
    [max 0 (floor ((L - 2048) / 512))] rows of 128 values, the reconstruction
    the length and the sample rate of the input, and the input is handed
    back as it was. *)
Theorem app_calls_return {N : JSNumber} (buf : AudioBuffer)
  (anns : list AppAnnotation) :
  0 < buffer_length buf -> bins_finite (sampleRate buf) 2048 128 ->
  (exists r,
     App_computeSpectrogram buf = Ok (r, channelData buf) /\
     Z.of_nat (length (spectrogram r)) = Z.max 0 ((buffer_length buf - 2048) / 512) /\
     Forall (fun row => Z.of_nat (length row) = 128) (spectrogram r)) /\
  (exists out,
     App_applyMaskAndReconstruct buf anns = Ok (out, channelData buf) /\
     length (channelData out) = length (channelData buf) /\
     sampleRate out = sampleRate buf).
Proof.
  intros HL Hb. unfold App_computeSpectrogram, App_applyMaskAndReconstruct.
  change 2048 with (2 ^ Z.of_nat 11) in *. split.
  - destruct (computeSpectrogram_returns buf 11 512 128) as (r & E & R1 & R2 & _);
      try lia; try assumption.
    exists r. auto.
  - apply applyMaskAndReconstruct_returns; lia.
Qed.

Lemma app_calls_return_witness :
  (exists r,
     App_computeSpectrogram tone4096 = Ok (r, channelData tone4096) /\
     Z.of_nat (length (spectrogram r)) =
       Z.max 0 ((buffer_length tone4096 - 2048) / 512) /\
     Forall (fun row => Z.of_nat (length row) = 128) (spectrogram r)) /\
  (exists out,
     App_applyMaskAndReconstruct tone4096 [] = Ok (out, channelData tone4096) /\
     length (channelData out) = length (channelData tone4096) /\
     sampleRate out = sampleRate tone4096).
Proof.
  apply (app_calls_return (N := ExactReal) tone4096 []).
  - rewrite tone4096_length. lia.
  - apply ExactReal_bins_finite.
Defined.

(** X22: on a signal of no samples, with a window size and a hop that are
    not negative, no frame is entered: [computeSpectrogram] returns an empty
    matrix and an empty time axis, and [applyMaskAndReconstruct] ends in the
    [NotSupportedError] that [createBuffer] raises for a length of 0. *)
Theorem empty_signal_rejected {N : JSNumber} (buf : AudioBuffer)
  (anns : list Annotation) (n h m : Z) :
  buffer_length buf = 0 -> 0 <= n -> 0 <= h -> 0 <= m ->
  bins_finite (sampleRate buf) n m ->
  (exists freqs,
     computeSpectrogram buf n h m = Ok (mkSpectrogramData [] freqs [], channelData buf)) /\
  applyMaskAndReconstruct buf anns n h = Throw NotSupportedError.
Proof.
  intros HL Hn Hh Hm Hb.
  assert (Hnf : no_frames (floor_div (buffer_length buf - n) h)).
  { rewrite HL. unfold floor_div.
    destruct (Z.eqb_spec h 0) as [-> | Hne].
    - destruct (Z.ltb_spec 0 (0 - n)); [lia|].
      destruct (Z.ltb_spec (0 - n) 0); exact I.
    - cbn [no_frames]. apply Z.div_le_upper_bound; lia. }
  split; [now apply computeSpectrogram_no_frames|].
  unfold applyMaskAndReconstruct.
  rewrite reconstruct_state_no_frames by assumption. cbn [bind].
  destruct (normalize_lengths
              (mkReconState (channelData buf)
                 (repeat (ofZ 0) (length (channelData buf)))
                 (repeat (ofZ 0) (length (channelData buf))))) as (_ & B & _).
  rewrite B. cbn [rc_reconstructed]. rewrite repeat_length.
  unfold buffer_length in HL. rewrite HL. reflexivity.
Qed.

Lemma empty_signal_rejected_witness :
  (exists freqs,
     computeSpectrogram (N := ExactReal) (mkAudioBuffer (real_array []) 44100%R)
       2048 512 128 =
     Ok (mkSpectrogramData [] freqs [], real_array [])) /\
  applyMaskAndReconstruct (N := ExactReal) (mkAudioBuffer (real_array []) 44100%R)
    [] 2048 512 = Throw NotSupportedError.
Proof.
  apply (empty_signal_rejected (N := ExactReal)
           (mkAudioBuffer (real_array []) 44100%R) [] 2048 512 128).
  - reflexivity.
  - lia.
  - lia.
  - lia.
  - apply ExactReal_bins_finite.
Defined.

(** * The claims that rest on the transform, on the frames and on the store *)

(** ** Loops that rewrite an array cell by cell *)
Section MapLoops.
Context {N : JSNumber}.

Lemma aget_map_in (g : num -> num) (a : Float32Array) (k : Z) :
  0 <= k < Z.of_nat (length a) -> aget (map g a) k = g (aget a k).
Proof.
  intros Hk. unfold aget. destruct (Z.ltb_spec k 0); [lia|].
  rewrite (nth_indep (map g a) nan (g nan)) by (rewrite length_map; lia).
  apply map_nth.
Qed.

(** [for (i = 0; i < n; i++) a[i] = g(a[i])] on an array of [n] cells. *)
Lemma for_upto_map (g : num -> num) (a : Float32Array) (n : Z) :
  Z.of_nat (length a) = n ->
  for_upto 0 n (fun i a => aset a i (g (aget a i))) a = map (fun v => fround (g v)) a.
Proof.
  intros Hn.
  destruct (for_upto_pointwise 0 n (fun _ v => g v) a) as [L G]. cbn zeta in L, G.
  apply array_ext.
  - rewrite L. now rewrite length_map.
  - intros k Hk. rewrite L in Hk. rewrite G, aget_map_in by exact Hk.
    unfold stored.
    destruct (Z.leb_spec 0 k), (Z.ltb_spec k n), (Z.ltb_spec k (Z.of_nat (length a)));
      simpl; try lia. reflexivity.
Qed.

(** [inverse] written out: the imaginary array negated, [forward], then the
    real array divided by [n] and the imaginary one by [-n]. *)
Lemma FFT_inverse_steps (fft : FFT) (re im : Float32Array) :
  Z.of_nat (length re) = fft_n fft -> Z.of_nat (length im) = fft_n fft ->
  FFT_inverse fft re im =
  (' (r, i) <- FFT_forward fft re (map (fun v => fround (neg v)) im) ;;
   Ok (map (fun v => fround (div v (ofZ (fft_n fft)))) r,
       map (fun v => fround (div v (neg (ofZ (fft_n fft))))) i)).
Proof.
  intros Lr Li. unfold FFT_inverse.
  rewrite (for_upto_map neg im (fft_n fft) Li).
  destruct (FFT_forward fft re (map (fun v => fround (neg v)) im))
    as [[r i]| |] eqn:E; cbn [bind]; try reflexivity.
  apply FFT_forward_lengths in E. destruct E as [L1 L2].
  rewrite length_map in L2.
  rewrite (for_upto_pair 0 (fft_n fft) _
             (fun i a => aset a i (div (aget a i) (ofZ (fft_n fft))))
             (fun i a => aset a i (div (aget a i) (neg (ofZ (fft_n fft))))))
    by reflexivity.
  rewrite (for_upto_map (fun v => div v (ofZ (fft_n fft))) r (fft_n fft)) by congruence.
  rewrite (for_upto_map (fun v => div v (neg (ofZ (fft_n fft)))) i (fft_n fft))
    by congruence.
  reflexivity.
Qed.

End MapLoops.

(** C1: in exact arithmetic, on every size [2^p] ([p <= 30]) and every pair
    of arrays of that length, [forward] followed by [inverse] returns the
    arrays it was given; and [inverse] is the negation of the imaginary
    array, [forward], and the division of the real array by [n] and of the
    imaginary one by [-n]. *)
Theorem inverse_undoes_forward (p : nat) (re im : @Float32Array ExactReal) :
  (p <= 30)%nat -> length re = (2 ^ p)%nat -> length im = (2 ^ p)%nat ->
  exists fft re1 im1 re2 im2,
    FFT_new (N := ExactReal) (2 ^ Z.of_nat p) = Ok fft /\
    FFT_forward fft re im = Ok (re1, im1) /\
    FFT_inverse fft re1 im1 = Ok (re, im) /\
    FFT_forward fft re1 (map Ropp im1) = Ok (re2, im2) /\
    re = map (fun v => (v / IZR (2 ^ Z.of_nat p))%R) re2 /\
    im = map (fun v => (v / - IZR (2 ^ Z.of_nat p))%R) im2.
Proof.
  intros Hp Lr Li.
  destruct (FFT_new_exact p) as (fft & Enew & Hn & _).
  destruct (FFT_round_trip_given p fft re im Hp Enew Lr Li)
    as (re1 & im1 & Efw & L1 & L2 & Einv).
  exists fft, re1, im1.
  pose proof Einv as Esteps.
  rewrite (FFT_inverse_steps (N := ExactReal) fft re1 im1) in Esteps
    by (rewrite Hn, <- pow2_nat; congruence).
  change (fun v : @num ExactReal => @fround ExactReal (@neg ExactReal v)) with Ropp
    in Esteps.
  match type of Esteps with
  | bind ?c _ = _ => destruct c as [[re2 im2]| |] eqn:E2
  end; cbn [bind] in Esteps; try discriminate.
  exists re2, im2. rewrite Hn in Esteps.
  split; [exact Enew|]. split; [exact Efw|]. split; [exact Einv|].
  split; [exact E2|].
  injection Esteps as <- <-. split; reflexivity.
Qed.

Lemma inverse_undoes_forward_witness :
  exists fft re1 im1 re2 im2,
    FFT_new (N := ExactReal) (2 ^ Z.of_nat 3) = Ok fft /\
    FFT_forward fft (real_array [1; 2; 3; 4; 5; 6; 7; 8]%R)
                    (real_array [8; 7; 6; 5; 4; 3; 2; 1]%R) = Ok (re1, im1) /\
    FFT_inverse fft re1 im1 =
      Ok (real_array [1; 2; 3; 4; 5; 6; 7; 8]%R, real_array [8; 7; 6; 5; 4; 3; 2; 1]%R) /\
    FFT_forward fft re1 (map Ropp im1) = Ok (re2, im2) /\
    real_array [1; 2; 3; 4; 5; 6; 7; 8]%R =
      map (fun v => (v / IZR (2 ^ Z.of_nat 3))%R) re2 /\
    real_array [8; 7; 6; 5; 4; 3; 2; 1]%R =
      map (fun v => (v / - IZR (2 ^ Z.of_nat 3))%R) im2.
Proof.
  apply (inverse_undoes_forward 3 (real_array [1; 2; 3; 4; 5; 6; 7; 8]%R)
           (real_array [8; 7; 6; 5; 4; 3; 2; 1]%R)).
  - lia.
  - reflexivity.
  - reflexivity.
Defined.

(** The same round trip on binary64 numbers with binary32 stores: eight
    samples come back within [2^-20] (about [1e-6]) of what went in. *)
Definition within (tol : float) (a b : list float) : bool :=
  forallb (fun xy => PrimFloat.leb (PrimFloat.abs (PrimFloat.sub (fst xy) (snd xy))) tol)
          (combine a b) && Nat.eqb (length a) (length b).

Lemma round_trip_binary32_close :
  match FFT_new (N := Float64) 8 with
  | Ok fft =>
      match FFT_forward fft (float_array [1; 2; 3; 4; 5; 6; 7; 8]%float)
                            (float_array [8; 7; 6; 5; 4; 3; 2; 1]%float) with
      | Ok (re1, im1) =>
          match FFT_inverse fft re1 im1 with
          | Ok (re2, im2) =>
              within 0x1p-20 re2 [1; 2; 3; 4; 5; 6; 7; 8]%float = true /\
              within 0x1p-20 im2 [8; 7; 6; 5; 4; 3; 2; 1]%float = true
          | _ => False
          end
      | _ => False
      end
  | _ => False
  end.
Proof. vm_compute. split; reflexivity. Qed.





(** ** The boundary bins of the filterbank in exact arithmetic *)

Lemma Int_part_le (x y : R) : (x <= y)%R -> Int_part x <= Int_part y.
Proof.
  intros Hxy. destruct (base_Int_part x) as [Hx _], (base_Int_part y) as [_ Hy].
  apply Z.lt_succ_r, lt_IZR. rewrite succ_IZR. lra.
Qed.

Lemma Int_part_zero : Int_part 0 = 0.
Proof. symmetry. apply Int_part_spec. simpl. lra. Qed.

Lemma Int_part_half (a : Z) : Int_part (IZR a / 2) = a / 2.
Proof.
  symmetry. apply Int_part_spec.
  pose proof (Z.div_mod a 2 ltac:(lia)) as E.
  pose proof (Z.mod_pos_bound a 2 ltac:(lia)) as B.
  assert (E' : IZR a = (2 * IZR (a / 2) + IZR (a mod 2))%R).
  { rewrite E at 1. now rewrite plus_IZR, mult_IZR. }
  assert (B0 : (0 <= IZR (a mod 2))%R) by (apply IZR_le; lia).
  assert (B1 : (IZR (a mod 2) <= 1)%R) by (apply IZR_le; lia).
  lra.
Qed.

(** [Math.floor(((windowSize + 1) * hz) / sampleRate)] at boundary
    frequency [i]. *)
Definition mel_bin (sr : R) (n m i : Z) : Z :=
  Int_part (IZR (n + 1) * mel_point sr m i / sr).

Lemma nth_map_in {A B : Type} (g : A -> B) (l : list A) (k : nat) (d : B) (d' : A) :
  (k < length l)%nat -> nth k (map g l) d = g (nth k l d').
Proof.
  revert k. induction l as [|x l IH]; intros k Hk; simpl in *; [lia|].
  destruct k; [reflexivity | apply IH; lia].
Qed.

Lemma bget_binPoints_exact (sr : @num ExactReal) (n m : Z)
  (mp : @Float32Array ExactReal) (i : Z) :
  melPoints (N := ExactReal) sr m = Ok mp -> 0 <= m -> 0 <= i < m + 2 ->
  bget (binPoints (N := ExactReal) n sr mp) i = JInt (mel_bin sr n m i).
Proof.
  intros Emp Hm Hi.
  destruct (melPoints_exact sr m ltac:(lia)) as (mp' & Emp' & Lmp & Gmp).
  rewrite Emp in Emp'. injection Emp' as <-.
  unfold bget. destruct (Z.ltb_spec i 0); [lia|].
  unfold binPoints. rewrite (nth_map_in _ mp (Z.to_nat i) JNaN (@nan ExactReal)) by lia.
  cbn [floorJ ExactReal]. f_equal. unfold mel_bin.
  rewrite <- (Gmp i Hi). unfold aget. destruct (Z.ltb_spec i 0); [lia|]. reflexivity.
Qed.

Lemma mel_bin_le (sr : R) (n m i j : Z) :
  (0 < sr)%R -> 0 <= n -> 0 <= m -> i <= j -> mel_bin sr n m i <= mel_bin sr n m j.
Proof.
  intros Hsr Hn Hm Hij. unfold mel_bin. apply Int_part_le.
  assert (Hp : (mel_point sr m i <= mel_point sr m j)%R).
  { destruct (Z.eq_dec i j) as [-> | Hne]; [lra|].
    left. apply mel_point_increasing; [exact Hm | exact Hsr | lia]. }
  assert (Hn1 : (0 <= IZR (n + 1))%R) by (apply IZR_le; lia).
  apply Rmult_le_compat_r; [left; now apply Rinv_0_lt_compat|].
  now apply Rmult_le_compat_l.
Qed.

Lemma mel_bin_first (sr : R) (n m : Z) : mel_bin sr n m 0 = 0.
Proof.
  unfold mel_bin. rewrite mel_point_first.
  replace (IZR (n + 1) * 0 / sr)%R with 0%R by (unfold Rdiv; ring).
  apply Int_part_zero.
Qed.

Lemma mel_bin_last (sr : R) (n m : Z) :
  (0 < sr)%R -> 0 <= m -> mel_bin sr n m (m + 1) = (n + 1) / 2.
Proof.
  intros Hsr Hm. unfold mel_bin. rewrite mel_point_last by assumption.
  replace (IZR (n + 1) * (sr / 2) / sr)%R with (IZR (n + 1) / 2)%R by (field; lra).
  apply Int_part_half.
Qed.

(** C4 (as amended): in exact arithmetic, for every positive sample rate,
    every window size and every number of mel bins, filter [i] of the bank
    that [computeSpectrogram] builds has boundary bins
    [0 <= b0 <= b1 <= b2 <= (n + 1) / 2] and [n / 2 + 1] weights; the weight
    at bin [j] is [(j - b0) / (b1 - b0)] on [b0 <= j < b1],
    [(b2 - j) / (b2 - b1)] on [b1 <= j < b2] and 0 elsewhere, hence between
    0 and 1 and not 0 only within [b0, b2).  It is 0 at the left bin when
    the rising segment is not empty, and 1 at the centre bin when the
    falling segment is not empty; when the centre and the right bin
    coincide the centre weight is 0. *)
Theorem mel_filter_triangle (sr : @num ExactReal) (n m i : Z) :
  (0 < sr)%R -> 0 <= n -> 0 <= i < m ->
  exists (mp : @Float32Array ExactReal) (fb : list (@Float32Array ExactReal))
         (filter : @Float32Array ExactReal) (b0 b1 b2 : Z),
    melPoints (N := ExactReal) sr m = Ok mp /\
    build_filterbank n (binPoints (N := ExactReal) n sr mp) m = Ok fb /\
    nth_error fb (Z.to_nat i) = Some filter /\
    bget (binPoints (N := ExactReal) n sr mp) i = JInt b0 /\
    bget (binPoints (N := ExactReal) n sr mp) (i + 1) = JInt b1 /\
    bget (binPoints (N := ExactReal) n sr mp) (i + 2) = JInt b2 /\
    0 <= b0 <= b1 /\ b1 <= b2 <= (n + 1) / 2 /\
    Z.of_nat (length filter) = n / 2 + 1 /\
    (forall j, 0 <= j <= n / 2 ->
       aget filter j =
         if (b0 <=? j) && (j <? b1) then (IZR (j - b0) / IZR (b1 - b0))%R
         else if (b1 <=? j) && (j <? b2) then (IZR (b2 - j) / IZR (b2 - b1))%R
         else 0%R) /\
    (forall j, 0 <= j <= n / 2 -> (0 <= aget filter j <= 1)%R) /\
    (forall j, 0 <= j <= n / 2 -> aget filter j <> 0%R -> b0 <= j < b2) /\
    (b0 < b1 -> aget filter b0 = 0%R) /\
    (b1 < b2 -> aget filter b1 = 1%R) /\
    (b1 = b2 -> b1 <= n / 2 -> aget filter b1 = 0%R).
Proof.
  intros Hsr Hn Hi.
  assert (Hm : 0 <= m) by lia.
  destruct (melPoints_ok (N := ExactReal) sr m ltac:(lia)) as (mp & Emp & Lmp).
  destruct (build_filterbank_ok (N := ExactReal) n (binPoints n sr mp) m Hn
              (ExactReal_bins_finite sr n m mp Emp)) as (fb & Efb & Lfb).
  pose proof (bget_binPoints_exact sr n m mp i Emp Hm ltac:(lia)) as E0.
  pose proof (bget_binPoints_exact sr n m mp (i + 1) Emp Hm ltac:(lia)) as E1.
  pose proof (bget_binPoints_exact sr n m mp (i + 2) Emp Hm ltac:(lia)) as E2.
  set (b0 := mel_bin sr n m i) in *.
  set (b1 := mel_bin sr n m (i + 1)) in *.
  set (b2 := mel_bin sr n m (i + 2)) in *.
  assert (H0 : 0 <= b0).
  { rewrite <- (mel_bin_first sr n m). apply mel_bin_le; auto; lia. }
  assert (H01 : b0 <= b1) by (apply mel_bin_le; auto; lia).
  assert (H12 : b1 <= b2) by (apply mel_bin_le; auto; lia).
  assert (H2 : b2 <= (n + 1) / 2).
  { rewrite <- (mel_bin_last sr n m Hsr Hm). apply mel_bin_le; auto; lia. }
  assert (Hhalf : (n + 1) / 2 - 1 <= n / 2).
  { pose proof (Z.div_mod n 2 ltac:(lia)). pose proof (Z.mod_pos_bound n 2 ltac:(lia)).
    pose proof (Z.div_mod (n + 1) 2 ltac:(lia)).
    pose proof (Z.mod_pos_bound (n + 1) 2 ltac:(lia)). lia. }
  unfold build_filterbank in Efb.
  destruct (mapM_nth _ _ _ Efb (Z.to_nat i) (0 + Z.of_nat (Z.to_nat i))) as (filter & Hnth & Hb).
  { apply zsteps_nth_error. lia. }
  rewrite Z.add_0_l, Z2Nat.id in Hb by lia.
  destruct (build_filter_weights (N := ExactReal) n (binPoints n sr mp) i b0 b1 b2
              Hn E0 E1 E2) as (filter' & Hb' & Hlen & Hw).
  rewrite Hb in Hb'. injection Hb' as <-.
  exists mp, fb, filter, b0, b1, b2.
  split; [exact Emp|]. split; [exact Efb|]. split; [exact Hnth|].
  split; [exact E0|]. split; [exact E1|]. split; [exact E2|].
  split; [lia|]. split; [lia|]. split; [exact Hlen|].
  assert (Hw' : forall j, 0 <= j <= n / 2 ->
            aget filter j =
              if (b0 <=? j) && (j <? b1) then (IZR (j - b0) / IZR (b1 - b0))%R
              else if (b1 <=? j) && (j <? b2) then (IZR (b2 - j) / IZR (b2 - b1))%R
              else 0%R).
  { intros j Hj. rewrite (Hw j Hj). reflexivity. }
  split; [exact Hw'|].
  split; [intros j Hj; rewrite (Hw j Hj); apply triangle_weight_unit|].
  split; [|split; [|split]].
  - intros j Hj Hnz. rewrite (Hw' j Hj) in Hnz.
    destruct (Z.leb_spec b0 j), (Z.ltb_spec j b1), (Z.leb_spec b1 j), (Z.ltb_spec j b2);
      cbn [andb] in Hnz; try lia; now elim Hnz.
  - intros Hlt. rewrite Hw' by lia.
    destruct (Z.leb_spec b0 b0), (Z.ltb_spec b0 b1); cbn [andb]; try lia.
    rewrite Z.sub_diag. unfold Rdiv. apply Rmult_0_l.
  - intros Hlt. rewrite Hw' by lia.
    destruct (Z.leb_spec b0 b1), (Z.ltb_spec b1 b1), (Z.leb_spec b1 b1),
      (Z.ltb_spec b1 b2); cbn [andb]; try lia.
    apply Rinv_r. apply not_0_IZR. lia.
  - intros Heq Hin. rewrite Hw' by lia.
    destruct (Z.leb_spec b0 b1), (Z.ltb_spec b1 b1), (Z.leb_spec b1 b1),
      (Z.ltb_spec b1 b2); cbn [andb]; try lia; reflexivity.
Qed.

Lemma mel_filter_triangle_witness :
  exists (mp : @Float32Array ExactReal) (fb : list (@Float32Array ExactReal))
         (filter : @Float32Array ExactReal) (b0 b1 b2 : Z),
    melPoints (N := ExactReal) 16000%R 10 = Ok mp /\
    build_filterbank 16 (binPoints (N := ExactReal) 16 16000%R mp) 10 = Ok fb /\
    nth_error fb (Z.to_nat 3) = Some filter /\
    bget (binPoints (N := ExactReal) 16 16000%R mp) 3 = JInt b0 /\
    bget (binPoints (N := ExactReal) 16 16000%R mp) (3 + 1) = JInt b1 /\
    bget (binPoints (N := ExactReal) 16 16000%R mp) (3 + 2) = JInt b2 /\
    0 <= b0 <= b1 /\ b1 <= b2 <= (16 + 1) / 2 /\
    Z.of_nat (length filter) = 16 / 2 + 1 /\
    (forall j, 0 <= j <= 16 / 2 ->
       aget filter j =
         if (b0 <=? j) && (j <? b1) then (IZR (j - b0) / IZR (b1 - b0))%R
         else if (b1 <=? j) && (j <? b2) then (IZR (b2 - j) / IZR (b2 - b1))%R
         else 0%R) /\
    (forall j, 0 <= j <= 16 / 2 -> (0 <= aget filter j <= 1)%R) /\
    (forall j, 0 <= j <= 16 / 2 -> aget filter j <> 0%R -> b0 <= j < b2) /\
    (b0 < b1 -> aget filter b0 = 0%R) /\
    (b1 < b2 -> aget filter b1 = 1%R) /\
    (b1 = b2 -> b1 <= 16 / 2 -> aget filter b1 = 0%R).
Proof.
  apply (mel_filter_triangle 16000%R 16 10 3).
  - lra.
  - lia.
  - lia.
Defined.

(** C4 as stated fails where the centre and the right boundary bin of a
    filter coincide: on binary64 numbers, with a window of 16, a sample rate
    of 16000 and 10 mel bins, filter 3 has the bins 0, 1, 1; its rising
    segment stores 0 at bin 0, its falling segment is empty, and the filter
    is 0 everywhere, its centre bin included. *)
Lemma filter_without_peak :
  match melPoints (N := Float64) 16000%float 10 with
  | Ok mp =>
      let bp := binPoints (N := Float64) 16 16000%float mp in
      bget bp 3 = JInt 0 /\ bget bp 4 = JInt 1 /\ bget bp 5 = JInt 1 /\
      match build_filterbank (N := Float64) 16 bp 10 with
      | Ok fb =>
          nth_error fb 3 = Some (float_array (repeat 0%float 9)) /\
          aget (nth 3 fb []) 1 = 0%float
      | _ => False
      end
  | _ => False
  end.
Proof. vm_compute. repeat split; reflexivity. Qed.

(** ** The frames of the reconstruction *)
Section FrameMasking.
Context {N : JSNumber}.

Lemma isTimeMasked_existsb (t : num) (anns : list Annotation) :
  isTimeMasked t anns =
  existsb (fun ann => geb t (ann_x ann) && leb t (add (ann_x ann) (ann_width ann))) anns.
Proof.
  induction anns as [|a anns IH]; cbn [isTimeMasked existsb]; [reflexivity|].
  destruct (geb t (ann_x a) && leb t (add (ann_x a) (ann_width a))); [reflexivity | exact IH].
Qed.

Lemma afill_repeat (a : Float32Array) (v : num) : afill a v = repeat (fround v) (length a).
Proof. unfold afill. induction a; simpl; f_equal; auto. Qed.

Lemma window_frame_length (data window : Float32Array) (n start : Z) (real : Float32Array) :
  length (window_frame data window n start real) = length real.
Proof.
  unfold window_frame.
  destruct (for_upto_tabulate 0 n
              (fun i => mul (aget data (start + i)) (aget window i)) real) as [L _].
  exact L.
Qed.

(** The frame loop of the reconstruction on a power-of-two window with a
    positive hop: frames [0 .. numFrames - 1], each given the same
    [numFrames = floor((L - n) / h)], then the normalisation. *)
Lemma reconstruct_state_loop (buf : AudioBuffer) (p : nat) (h : Z) :
  (p <= 30)%nat -> 0 < h ->
  exists fft window,
    FFT_new (2 ^ Z.of_nat p) = Ok fft /\ fft_n fft = 2 ^ Z.of_nat p /\
    hanningWindow (2 ^ Z.of_nat p) = Ok window /\
    forall anns,
      reconstruct_state buf anns (2 ^ Z.of_nat p) h =
      (st <- for_uptoM 0 ((buffer_length buf - 2 ^ Z.of_nat p) / h)
               (recon_frame fft window anns (2 ^ Z.of_nat p) h
                  ((buffer_length buf - 2 ^ Z.of_nat p) / h))
               (mkReconState (channelData buf)
                  (repeat (ofZ 0) (length (channelData buf)))
                  (repeat (ofZ 0) (length (channelData buf)))) ;;
       Ok (normalize st)).
Proof.
  intros Hp Hh.
  pose proof (pow2_pos (Z.of_nat p) ltac:(lia)) as Hpos.
  destruct (FFT_new_ok (2 ^ Z.of_nat p) ltac:(lia)) as (fft & Enew & Hn & _).
  destruct (hanningWindow_ok (2 ^ Z.of_nat p) ltac:(lia)) as (w & Ew & _).
  exists fft, w. split; [exact Enew|]. split; [exact Hn|]. split; [exact Ew|].
  intros anns. unfold reconstruct_state. rewrite Enew, Ew. cbn [bind].
  unfold buffer_length.
  rewrite new_Float32Array_ok by lia. cbn [bind].
  rewrite floor_div_positive_hop by exact Hh.
  rewrite Nat2Z.id. cbn [frame_loop int_bound]. reflexivity.
Qed.

(** One frame: the transform of the windowed samples, and what is handed to
    the inverse transform. *)
Lemma process_frame_silenced (fft : FFT) (window : Float32Array)
  (anns : list Annotation) (p : nat) (h nf f : Z) (data : Float32Array) :
  (p <= 30)%nat -> fft_n fft = 2 ^ Z.of_nat p ->
  exists re im,
    FFT_forward fft
      (window_frame data window (2 ^ Z.of_nat p) (f * h)
         (repeat (ofZ 0) (Z.to_nat (2 ^ Z.of_nat p))))
      (repeat (ofZ 0) (Z.to_nat (2 ^ Z.of_nat p))) = Ok (re, im) /\
    length re = Z.to_nat (2 ^ Z.of_nat p) /\
    length im = Z.to_nat (2 ^ Z.of_nat p) /\
    process_frame fft window anns (2 ^ Z.of_nat p) h nf f data =
      if existsb (fun ann => geb (div (ofZ f) (ofZ nf)) (ann_x ann) &&
                             leb (div (ofZ f) (ofZ nf)) (add (ann_x ann) (ann_width ann)))
                 anns
      then FFT_inverse fft (repeat (fround (ofZ 0)) (Z.to_nat (2 ^ Z.of_nat p)))
                           (repeat (fround (ofZ 0)) (Z.to_nat (2 ^ Z.of_nat p)))
      else FFT_inverse fft re im.
Proof.
  intros Hp Hn.
  pose proof (pow2_pos (Z.of_nat p) ltac:(lia)) as Hpos.
  set (n := 2 ^ Z.of_nat p) in *.
  destruct (FFT_forward_pow2_lengths fft p
              (window_frame data window n (f * h) (repeat (ofZ 0) (Z.to_nat n)))
              (repeat (ofZ 0) (Z.to_nat n)) Hp Hn) as (re & im & E & L1 & L2).
  rewrite window_frame_length, repeat_length in L1. rewrite repeat_length in L2.
  exists re, im. split; [exact E|]. split; [exact L1|]. split; [exact L2|].
  unfold process_frame. rewrite new_Float32Array_ok by lia. cbn [bind].
  rewrite E. cbn [bind]. rewrite isTimeMasked_existsb.
  destruct (existsb _ anns); [|reflexivity].
  now rewrite !afill_repeat, L1, L2.
Qed.

End FrameMasking.

(** C10: on a power-of-two window with a positive hop the reconstruction
    runs the frames [0 .. numFrames - 1] with
    [numFrames = floor((L - n) / h)]; frame [f] hands to the inverse
    transform two arrays of [n] zeros exactly when some interval of the list
    satisfies [x <= f / numFrames <= x + width], both comparisons
    inclusive, and the transform of its windowed samples otherwise; the
    interval is compared as it is, wherever it lies. *)
Theorem frame_silenced_iff {N : JSNumber} (buf : AudioBuffer)
  (anns : list Annotation) (p : nat) (n h nf f : Z) :
  (p <= 30)%nat -> n = 2 ^ Z.of_nat p -> 0 < h ->
  nf = (buffer_length buf - n) / h -> 0 <= f < nf ->
  exists fft window re im,
    FFT_new n = Ok fft /\ hanningWindow n = Ok window /\
    reconstruct_state buf anns n h =
      (st <- for_uptoM 0 nf (recon_frame fft window anns n h nf)
               (mkReconState (channelData buf)
                  (repeat (ofZ 0) (length (channelData buf)))
                  (repeat (ofZ 0) (length (channelData buf)))) ;;
       Ok (normalize st)) /\
    FFT_forward fft
      (window_frame (channelData buf) window n (f * h) (repeat (ofZ 0) (Z.to_nat n)))
      (repeat (ofZ 0) (Z.to_nat n)) = Ok (re, im) /\
    length re = Z.to_nat n /\ length im = Z.to_nat n /\
    process_frame fft window anns n h nf f (channelData buf) =
      (if existsb (fun ann => geb (div (ofZ f) (ofZ nf)) (ann_x ann) &&
                              leb (div (ofZ f) (ofZ nf)) (add (ann_x ann) (ann_width ann)))
                  anns
       then FFT_inverse fft (repeat (fround (ofZ 0)) (Z.to_nat n))
                            (repeat (fround (ofZ 0)) (Z.to_nat n))
       else FFT_inverse fft re im) /\
    (existsb (fun ann => geb (div (ofZ f) (ofZ nf)) (ann_x ann) &&
                         leb (div (ofZ f) (ofZ nf)) (add (ann_x ann) (ann_width ann)))
             anns = true <->
     exists ann, In ann anns /\
                 geb (div (ofZ f) (ofZ nf)) (ann_x ann) = true /\
                 leb (div (ofZ f) (ofZ nf)) (add (ann_x ann) (ann_width ann)) = true).
Proof.
  intros Hp -> Hh -> Hf.
  destruct (reconstruct_state_loop buf p h Hp Hh) as (fft & w & Enew & Hn & Ew & Hloop).
  destruct (process_frame_silenced fft w anns p h
              ((buffer_length buf - 2 ^ Z.of_nat p) / h) f (channelData buf) Hp Hn)
    as (re & im & Efw & L1 & L2 & Epf).
  exists fft, w, re, im.
  split; [exact Enew|]. split; [exact Ew|]. split; [apply Hloop|].
  split; [exact Efw|]. split; [exact L1|]. split; [exact L2|]. split; [exact Epf|].
  rewrite existsb_exists. split.
  - intros (ann & Hin & Hc). apply andb_true_iff in Hc. exists ann. tauto.
  - intros (ann & Hin & H1 & H2). exists ann. split; [exact Hin|].
    now rewrite H1, H2.
Qed.

(** Sixteen samples, a window of 8 and a hop of 2: four frames; the interval
    from 0.25 to 0.75 holds the position 1/4 of frame 1. *)
Lemma frame_silenced_iff_witness :
  exists fft window re im,
    FFT_new (N := Float64) 8 = Ok fft /\ hanningWindow 8 = Ok window /\
    reconstruct_state (mkAudioBuffer ones16 demo_rate)
      [mkAnnotation (N := Float64) 0.25%float 0.5%float] 8 2 =
      (st <- for_uptoM 0 4
               (recon_frame fft window [mkAnnotation (N := Float64) 0.25%float 0.5%float]
                  8 2 4)
               (mkReconState ones16 (repeat (ofZ 0) (length ones16))
                  (repeat (ofZ 0) (length ones16))) ;;
       Ok (normalize st)) /\
    FFT_forward fft
      (window_frame ones16 window 8 (1 * 2) (repeat (ofZ 0) (Z.to_nat 8)))
      (repeat (ofZ 0) (Z.to_nat 8)) = Ok (re, im) /\
    length re = Z.to_nat 8 /\ length im = Z.to_nat 8 /\
    process_frame fft window [mkAnnotation (N := Float64) 0.25%float 0.5%float] 8 2 4 1
      ones16 =
      (if existsb (fun ann => geb (div (ofZ 1) (ofZ 4)) (ann_x ann) &&
                              leb (div (ofZ 1) (ofZ 4)) (add (ann_x ann) (ann_width ann)))
                  [mkAnnotation (N := Float64) 0.25%float 0.5%float]
       then FFT_inverse fft (repeat (fround (ofZ 0)) (Z.to_nat 8))
                            (repeat (fround (ofZ 0)) (Z.to_nat 8))
       else FFT_inverse fft re im) /\
    (existsb (fun ann => geb (div (ofZ 1) (ofZ 4)) (ann_x ann) &&
                         leb (div (ofZ 1) (ofZ 4)) (add (ann_x ann) (ann_width ann)))
             [mkAnnotation (N := Float64) 0.25%float 0.5%float] = true <->
     exists ann, In ann [mkAnnotation (N := Float64) 0.25%float 0.5%float] /\
                 geb (div (ofZ 1) (ofZ 4)) (ann_x ann) = true /\
                 leb (div (ofZ 1) (ofZ 4)) (add (ann_x ann) (ann_width ann)) = true).
Proof.
  apply (frame_silenced_iff (N := Float64) (mkAudioBuffer ones16 demo_rate)
           [mkAnnotation (N := Float64) 0.25%float 0.5%float] 3 8 2 4 1).
  - lia.
  - reflexivity.
  - lia.
  - reflexivity.
  - lia.
Defined.

(** ** The two frame positions *)

(** [numFrames] frames of [n] samples, [h] apart, end at least [h] before
    the end of the signal. *)
Lemma frames_fit (L n h : Z) : 0 < h -> h * ((L - n) / h) + n <= L.
Proof. intros Hh. pose proof (Z.mul_div_le (L - n) h Hh). lia. Qed.

Lemma position_gap (L n h f : Z) :
  0 < h -> 0 < n -> 0 < f < (L - n) / h ->
  (IZR (f * h) / IZR L = IZR f / IZR ((L - n) / h) * (IZR (h * ((L - n) / h)) / IZR L))%R /\
  (IZR (f * h) / IZR L < IZR f / IZR ((L - n) / h))%R.
Proof.
  intros Hh Hn Hf. pose proof (frames_fit L n h Hh) as Hfit.
  set (nf := (L - n) / h) in *.
  assert (HL : 0 < L) by nia.
  assert (RL : (0 < IZR L)%R) by (apply IZR_lt; lia).
  assert (Rnf : (0 < IZR nf)%R) by (apply IZR_lt; lia).
  assert (Rf : (0 < IZR f)%R) by (apply IZR_lt; lia).
  assert (Rlt : (IZR (h * nf) < IZR L)%R) by (apply IZR_lt; lia).
  rewrite !mult_IZR in *. split.
  - field. split; lra.
  - apply Rmult_lt_reg_r with (IZR L * IZR nf)%R; [now apply Rmult_lt_0_compat|].
    replace (IZR f * IZR h / IZR L * (IZR L * IZR nf))%R
      with (IZR f * (IZR h * IZR nf))%R by (field; lra).
    replace (IZR f / IZR nf * (IZR L * IZR nf))%R with (IZR f * IZR L)%R by (field; lra).
    now apply Rmult_lt_compat_l.
Qed.

(** C5: in exact arithmetic, on a window of [2^p] samples ([1 <= p <= 30])
    with a positive hop.  [computeSpectrogram] puts frame [f] at the time
    [f * hopSize / sampleRate], that is at the fraction [f * hopSize / L]
    of the duration [L / sampleRate]; the reconstruction runs its frames
    with the position [f / numFrames].  The first is the second times
    [hopSize * numFrames / L], and [hopSize * numFrames <= L - n]: for every
    frame [f > 0] the fraction on the time axis is below the position the
    reconstruction uses.  An interval [w] wide that starts at the time-axis
    fraction of frame [f] and ends before [f / numFrames] holds the frame on
    the time axis, and the reconstruction hands the frame on as it is; the
    interval of the same width that ends at [f / numFrames] does not hold
    the frame on the time axis, and the reconstruction silences it. *)
Theorem frame_position_mismatch (buf : @AudioBuffer ExactReal) (p : nat)
  (n h m nf f : Z) (w : @num ExactReal) :
  (1 <= p <= 30)%nat -> n = 2 ^ Z.of_nat p -> 0 < h -> 0 <= m ->
  (0 < sampleRate buf)%R ->
  nf = (buffer_length buf - n) / h -> 0 < f < nf ->
  (0 <= w < IZR f / IZR nf - IZR (f * h) / IZR (buffer_length buf))%R ->
  exists (r : @SpectrogramData ExactReal) (fft : @FFT ExactReal)
         (window : @Float32Array ExactReal),
    computeSpectrogram buf n h m = Ok (r, channelData buf) /\
    FFT_new (N := ExactReal) n = Ok fft /\
    hanningWindow (N := ExactReal) n = Ok window /\
    (forall anns,
       reconstruct_state buf anns n h =
       (st <- for_uptoM 0 nf (recon_frame fft window anns n h nf)
                (mkReconState (channelData buf)
                   (repeat (ofZ 0) (length (channelData buf)))
                   (repeat (ofZ 0) (length (channelData buf)))) ;;
        Ok (normalize st))) /\
    nth_error (times r) (Z.to_nat f) = Some (IZR (f * h) / sampleRate buf)%R /\
    (IZR (f * h) / sampleRate buf / (IZR (buffer_length buf) / sampleRate buf) =
     IZR (f * h) / IZR (buffer_length buf))%R /\
    (IZR (f * h) / IZR (buffer_length buf) =
     IZR f / IZR nf * (IZR (h * nf) / IZR (buffer_length buf)))%R /\
    h * nf + n <= buffer_length buf /\
    (IZR (f * h) / IZR (buffer_length buf) < IZR f / IZR nf)%R /\
    covers (@mkAnnotation ExactReal (IZR (f * h) / IZR (buffer_length buf))%R w)
           (IZR (f * h) / IZR (buffer_length buf))%R = true /\
    (exists fr fi,
       process_frame fft window
         [@mkAnnotation ExactReal (IZR (f * h) / IZR (buffer_length buf))%R w]
         n h nf f (channelData buf) = Ok (fr, fi) /\
       forall k, 0 <= k < n ->
         aget fr k = (aget (channelData buf) (f * h + k) * aget window k)%R) /\
    covers (@mkAnnotation ExactReal (IZR f / IZR nf - w)%R w)
           (IZR (f * h) / IZR (buffer_length buf))%R = false /\
    (exists fr fi,
       process_frame fft window [@mkAnnotation ExactReal (IZR f / IZR nf - w)%R w]
         n h nf f (channelData buf) = Ok (fr, fi) /\
       forall k, 0 <= k < n -> aget fr k = 0%R).
Proof.
  intros [_ Hp] -> Hh Hm Hsr -> Hf Hw.
  pose proof (pow2_pos (Z.of_nat p) ltac:(lia)) as Hpos.
  set (n := 2 ^ Z.of_nat p) in *.
  set (L := buffer_length buf) in *.
  set (nf := (L - n) / h) in *.
  destruct (position_gap L n h f Hh Hpos Hf) as [Hratio Hgap]. fold nf in Hratio, Hgap.
  pose proof (frames_fit L n h Hh) as Hfit. fold nf in Hfit.
  assert (HL : 0 < L) by nia.
  assert (RL : (0 < IZR L)%R) by (apply IZR_lt; lia).
  destruct (computeSpectrogram_returns (N := ExactReal) buf p h m Hp Hh Hm
              (ExactReal_bins_finite _ _ _)) as (r & Er & _).
  destruct (reconstruct_state_loop (N := ExactReal) buf p h Hp Hh)
    as (fft & window & Enew & Hn & Ew & Hloop).
  exists r, fft, window.
  split; [exact Er|]. split; [exact Enew|]. split; [exact Ew|]. split; [exact Hloop|].
  split.
  { rewrite (computeSpectrogram_times buf n h m r _ Er).
    fold (buffer_length buf). fold L.
    rewrite floor_div_positive_hop by exact Hh. fold nf. cbn [array_from_length].
    rewrite nth_error_map, zsteps_nth_error by lia.
    cbn [option_map]. rewrite Z.add_0_l, Z2Nat.id by lia. reflexivity. }
  split; [field; split; lra|].
  split; [exact Hratio|]. split; [lia|]. split; [exact Hgap|].
  set (axis := (IZR (f * h) / IZR L)%R) in *.
  set (pos := (IZR f / IZR nf)%R) in *.
  assert (Ckeep : covers (@mkAnnotation ExactReal axis w) axis = true).
  { unfold covers. cbn [ann_x ann_width geb leb add ExactReal].
    apply andb_true_iff. split; [apply Rgeb_true | apply Rleb_true]; lra. }
  assert (Cpos_keep : covers (@mkAnnotation ExactReal axis w) pos = false).
  { unfold covers. cbn [ann_x ann_width geb leb add ExactReal].
    apply andb_false_iff. right. unfold Rleb.
    destruct (Rle_dec pos (axis + w)) as [H|H]; [lra | reflexivity]. }
  assert (Csil : covers (@mkAnnotation ExactReal (pos - w)%R w) axis = false).
  { unfold covers. cbn [ann_x ann_width geb leb add ExactReal].
    apply andb_false_iff. left. unfold Rgeb.
    destruct (Rle_dec (pos - w) axis) as [H|H]; [lra | reflexivity]. }
  assert (Cpos_sil : covers (@mkAnnotation ExactReal (pos - w)%R w) pos = true).
  { unfold covers. cbn [ann_x ann_width geb leb add ExactReal].
    apply andb_true_iff. split; [apply Rgeb_true | apply Rleb_true]; lra. }
  split; [exact Ckeep|]. split; [|split; [exact Csil|]].
  - destruct (process_frame_exact p fft window [@mkAnnotation ExactReal axis w] h nf f
                (channelData buf) Hp Enew) as (fr & fi & E & G).
    exists fr, fi. split; [exact E|]. intros k Hk. rewrite (G k Hk).
    rewrite isTimeMasked_single. unfold timePos. cbn [div ofZ ExactReal].
    fold pos. now rewrite Cpos_keep.
  - destruct (process_frame_exact p fft window [@mkAnnotation ExactReal (pos - w)%R w]
                h nf f (channelData buf) Hp Enew) as (fr & fi & E & G).
    exists fr, fi. split; [exact E|]. intros k Hk. rewrite (G k Hk).
    rewrite isTimeMasked_single. unfold timePos. cbn [div ofZ ExactReal].
    fold pos. now rewrite Cpos_sil.
Qed.


(** Eight samples, a window of 4 and a hop of 1: four frames; frame 2 is at
    2/8 of the duration on the time axis and at 2/4 for the
    reconstruction. *)
Lemma frame_position_mismatch_witness :
  exists (r : @SpectrogramData ExactReal) (fft : @FFT ExactReal)
         (window : @Float32Array ExactReal),
    computeSpectrogram ramp8 4 1 3 = Ok (r, channelData ramp8) /\
    FFT_new (N := ExactReal) 4 = Ok fft /\
    hanningWindow (N := ExactReal) 4 = Ok window /\
    (forall anns,
       reconstruct_state ramp8 anns 4 1 =
       (st <- for_uptoM 0 4 (recon_frame fft window anns 4 1 4)
                (mkReconState (channelData ramp8)
                   (repeat (ofZ 0) (length (channelData ramp8)))
                   (repeat (ofZ 0) (length (channelData ramp8)))) ;;
        Ok (normalize st))) /\
    nth_error (times r) (Z.to_nat 2) = Some (IZR (2 * 1) / sampleRate ramp8)%R /\
    (IZR (2 * 1) / sampleRate ramp8 / (IZR (buffer_length ramp8) / sampleRate ramp8) =
     IZR (2 * 1) / IZR (buffer_length ramp8))%R /\
    (IZR (2 * 1) / IZR (buffer_length ramp8) =
     IZR 2 / IZR 4 * (IZR (1 * 4) / IZR (buffer_length ramp8)))%R /\
    1 * 4 + 4 <= buffer_length ramp8 /\
    (IZR (2 * 1) / IZR (buffer_length ramp8) < IZR 2 / IZR 4)%R /\
    covers (@mkAnnotation ExactReal (IZR (2 * 1) / IZR (buffer_length ramp8))%R (1 / 10)%R)
           (IZR (2 * 1) / IZR (buffer_length ramp8))%R = true /\
    (exists fr fi,
       process_frame fft window
         [@mkAnnotation ExactReal (IZR (2 * 1) / IZR (buffer_length ramp8))%R (1 / 10)%R]
         4 1 4 2 (channelData ramp8) = Ok (fr, fi) /\
       forall k, 0 <= k < 4 ->
         aget fr k = (aget (channelData ramp8) (2 * 1 + k) * aget window k)%R) /\
    covers (@mkAnnotation ExactReal (IZR 2 / IZR 4 - 1 / 10)%R (1 / 10)%R)
           (IZR (2 * 1) / IZR (buffer_length ramp8))%R = false /\
    (exists fr fi,
       process_frame fft window [@mkAnnotation ExactReal (IZR 2 / IZR 4 - 1 / 10)%R (1 / 10)%R]
         4 1 4 2 (channelData ramp8) = Ok (fr, fi) /\
       forall k, 0 <= k < 4 -> aget fr k = 0%R).
Proof.
  apply (frame_position_mismatch ramp8 2 4 1 3 4 2 (1 / 10)%R).
  - lia.
  - reflexivity.
  - lia.
  - lia.
  - cbn [sampleRate ramp8]. lra.
  - reflexivity.
  - lia.
  - change (buffer_length ramp8) with 8. change (2 * 1) with 2. lra.
Defined.

(** ** The reconstruction without a mask *)

(** In the middle half of the window the Hann weight is at least 1/2. *)
Lemma hann_middle (n k : Z) :
  2 <= n -> n - 1 <= 4 * k <= 3 * (n - 1) -> (1 / 2 <= hann n k)%R.
Proof.
  intros Hn [H1 H2]. unfold hann.
  assert (Hd : (0 < IZR (n - 1))%R) by (apply IZR_lt; lia).
  assert (K1 : (IZR (n - 1) <= 4 * IZR k)%R).
  { rewrite <- (mult_IZR 4 k). apply IZR_le. exact H1. }
  assert (K2 : (4 * IZR k <= 3 * IZR (n - 1))%R).
  { rewrite <- (mult_IZR 4 k), <- (mult_IZR 3 (n - 1)). apply IZR_le. exact H2. }
  pose proof PI_RGT_0 as Hpi.
  assert (Hc : (cos (2 * PI * IZR k / IZR (n - 1)) <= 0)%R).
  { apply cos_le_0.
    - apply Rmult_le_reg_r with (IZR (n - 1)); [exact Hd|].
      unfold Rdiv. rewrite (Rmult_assoc (2 * PI * IZR k)), Rinv_l by lra. nra.
    - apply Rmult_le_reg_r with (IZR (n - 1)); [exact Hd|].
      unfold Rdiv. rewrite (Rmult_assoc (2 * PI * IZR k)), Rinv_l by lra. nra. }
  lra.
Qed.

(** C9 (as amended): in exact arithmetic, on a window of [2^p] samples
    ([1 <= p <= 30]) with a positive hop and an empty mask list, the call
    returns a signal of the length of the input; no frame is zeroed (each
    frame reaches the overlap-add as the windowed samples it was cut from);
    every sample that lies in the middle half of the window of some frame
    ([n - 1 <= 4 * (i - f * hopSize) <= 3 * (n - 1)], where the window
    weight is at least 1/2) comes out equal to the input sample; every
    sample from index [(numFrames - 1) * hopSize + windowSize] on (every
    sample when there is no frame) comes out as 0 whatever the input holds
    there. *)
Theorem empty_mask_reconstruction (buf : @AudioBuffer ExactReal) (p : nat) (n h nf : Z) :
  (1 <= p <= 30)%nat -> n = 2 ^ Z.of_nat p -> 0 < h -> 0 < buffer_length buf ->
  nf = (buffer_length buf - n) / h ->
  exists (out : @AudioBuffer ExactReal) (fft : @FFT ExactReal)
         (window : @Float32Array ExactReal),
    applyMaskAndReconstruct buf [] n h = Ok (out, channelData buf) /\
    length (channelData out) = length (channelData buf) /\
    FFT_new (N := ExactReal) n = Ok fft /\
    hanningWindow (N := ExactReal) n = Ok window /\
    (forall f, 0 <= f < nf ->
       exists fr fi,
         process_frame fft window [] n h nf f (channelData buf) = Ok (fr, fi) /\
         forall k, 0 <= k < n ->
           aget fr k = (aget (channelData buf) (f * h + k) * aget window k)%R) /\
    (forall i f0, 0 <= f0 < nf ->
       n - 1 <= 4 * (i - f0 * h) <= 3 * (n - 1) ->
       aget (channelData out) i = aget (channelData buf) i) /\
    (forall i, covered_end nf n h <= i < buffer_length buf ->
       aget (channelData out) i = 0%R).
Proof.
  intros [Hp1 Hp] -> Hh HL ->.
  pose proof (pow2_pos (Z.of_nat p) ltac:(lia)) as Hpos.
  set (n := 2 ^ Z.of_nat p) in *.
  set (nf := (buffer_length buf - n) / h) in *.
  pose proof (frames_fit (buffer_length buf) n h Hh) as Hfit. fold nf in Hfit.
  destruct (applyMaskAndReconstruct_returns (N := ExactReal) buf [] p h Hp Hh HL)
    as (out & Eo & Lo & _).
  destruct (FFT_new_exact p) as (fft & Enew & _).
  destruct (hanningWindow_exact n ltac:(lia)) as (window & Ew & _).
  exists out, fft, window.
  split; [exact Eo|]. split; [exact Lo|]. split; [exact Enew|]. split; [exact Ew|].
  split; [|split].
  - intros f Hf.
    destruct (process_frame_exact p fft window [] h nf f (channelData buf) Hp Enew)
      as (fr & fi & E & G).
    exists fr, fi. split; [exact E|]. intros k Hk. exact (G k Hk).
  - intros i f0 Hf0 Hmid.
    assert (Hn2 : 2 <= n).
    { unfold n. change 2 with (2 ^ 1). apply Z.pow_le_mono_r; lia. }
    assert (Hc : f0 * h <= i < f0 * h + n) by lia.
    pose proof (hann_middle n (i - f0 * h) Hn2 Hmid) as Hw.
    destruct (reconstruct_unmasked_sample buf [] p h i f0 Hp Hh) as (out' & Eo' & G);
      try assumption.
    + nia.
    + intros f _ _. reflexivity.
    + fold n. pose proof eps_below_one. nra.
    + rewrite Eo in Eo'. injection Eo' as <-. exact G.
  - intros i Hi.
    assert (Hce : 0 <= covered_end nf n h).
    { unfold covered_end. destruct (Z.leb_spec nf 0); nia. }
    destruct (reconstruct_masked_sample buf [] p h i Hp Hh) as (out' & Eo' & G).
    + lia.
    + intros f Hf Hc. exfalso. fold n nf in Hf.
      unfold covered_end in Hi. destruct (Z.leb_spec nf 0); [lia | nia].
    + rewrite Eo in Eo'. injection Eo' as <-. exact G.
Qed.

(** Eight samples, a window of 4 and a hop of 1: four frames, the last one
    ending at sample 6. *)
Lemma empty_mask_reconstruction_witness :
  exists (out : @AudioBuffer ExactReal) (fft : @FFT ExactReal)
         (window : @Float32Array ExactReal),
    applyMaskAndReconstruct ramp8 [] 4 1 = Ok (out, channelData ramp8) /\
    length (channelData out) = length (channelData ramp8) /\
    FFT_new (N := ExactReal) 4 = Ok fft /\
    hanningWindow (N := ExactReal) 4 = Ok window /\
    (forall f, 0 <= f < 4 ->
       exists fr fi,
         process_frame fft window [] 4 1 4 f (channelData ramp8) = Ok (fr, fi) /\
         forall k, 0 <= k < 4 ->
           aget fr k = (aget (channelData ramp8) (f * 1 + k) * aget window k)%R) /\
    (forall i f0, 0 <= f0 < 4 ->
       4 - 1 <= 4 * (i - f0 * 1) <= 3 * (4 - 1) ->
       aget (channelData out) i = aget (channelData ramp8) i) /\
    (forall i, covered_end 4 4 1 <= i < buffer_length ramp8 ->
       aget (channelData out) i = 0%R).
Proof.
  apply (empty_mask_reconstruction ramp8 2 4 1 4).
  - lia.
  - reflexivity.
  - lia.
  - vm_compute. reflexivity.
  - reflexivity.
Defined.

(** C9 as stated fails: sixteen samples of value 1, a window of 8 and a hop
    of 2, no mask.  The first sample and the last three come back as 0, and
    the relative RMS difference is far above 1e-3. *)
Lemma empty_mask_not_close :
  match applyMaskAndReconstruct (N := Float64) (mkAudioBuffer ones16 demo_rate) [] 8 2 with
  | Ok (out, _) =>
      reconstruction_close ones16 (channelData out) = false /\
      aget (channelData out) 0 = 0%float /\
      aget (channelData out) 13 = 0%float /\
      aget (channelData out) 14 = 0%float /\
      aget (channelData out) 15 = 0%float
  | _ => False
  end.
Proof. vm_compute. repeat split; reflexivity. Qed.

(** On the same run the samples 2 to 11, those in the middle half of the
    window of some frame, come back within [2^-22] (about [2.4e-7]) of the
    input. *)
Lemma empty_mask_middle_close :
  match applyMaskAndReconstruct (N := Float64) (mkAudioBuffer ones16 demo_rate) [] 8 2 with
  | Ok (out, _) =>
      forallb (fun i => PrimFloat.leb
                          (PrimFloat.abs
                             (PrimFloat.sub (aget (channelData out) i) (aget ones16 i)))
                          0x1p-22%float)
              (zsteps 2 1 10) = true
  | _ => False
  end.
Proof. vm_compute. reflexivity. Qed.

(** * The pipelines over a store of typed arrays

    [getChannelData(0)] hands out the array the buffer itself holds, and
    [forward], [inverse], [fill] and [copyToChannel] write into the arrays
    they are given.  In this second embedding every typed array lives in a
    store; [new Float32Array] and [createBuffer] add an array to it, and
    every read [a[i]] and every write [a[i] = v] of the source names its
    array by its address. *)
Module Mem.
Section Mem.
Context {N : JSNumber}.

Definition ref : Type := nat.

(** The typed arrays alive, in the order of their allocation; the address
    of an array is its rank. *)
Definition Heap : Type := list Float32Array.

Definition cell (h : Heap) (r : ref) : Float32Array := nth r h [].

Fixpoint put (h : Heap) (r : ref) (a : Float32Array) : Heap :=
  match h, r with
  | [], _ => []
  | _ :: t, O => a :: t
  | x :: t, S r' => x :: put t r' a
  end.

(** [new Float32Array(len)] *)
Definition alloc (len : Z) (h : Heap) : outcome (ref * Heap) :=
  a <- new_Float32Array len ;;
  Ok (length h, h ++ [a]).

(** [a[i]] *)
Definition load (h : Heap) (a : ref) (i : Z) : num := aget (cell h a) i.

(** [a[i] = v] *)
Definition store (h : Heap) (a : ref) (i : Z) (v : num) : Heap :=
  put h a (aset (cell h a) i v).

(** [a.length] *)
Definition len (h : Heap) (a : ref) : Z := Z.of_nat (length (cell h a)).

(** [a.fill(v)] *)
Definition fill (h : Heap) (a : ref) (v : num) : Heap := put h a (afill (cell h a) v).

(** ** The FFT class *)
Record FFT : Type := mkFFT {
  fft_n : Z;
  fft_m : jsint;
  fft_cos : ref;
  fft_sin : ref
}.

Definition FFT_new (n : Z) (h : Heap) : outcome (FFT * Heap) :=
  ' (c, h) <- alloc (Z.quot n 2) h ;;
  ' (s, h) <- alloc (Z.quot n 2) h ;;
  Ok (mkFFT n (Math_log2_bound n) c s,
      for_upto 0 ((n + 1) / 2)
        (fun i h =>
           let h := store h c i (Math_cos (angle i n)) in
           store h s i (Math_sin (angle i n)))
        h).

Definition swap_when_less (real imag : ref) (i j : Z) (h : Heap) : Heap :=
  if i <? j then
    let tr := load h real i in
    let ti := load h imag i in
    let h := store h real i (load h real j) in
    let h := store h imag i (load h imag j) in
    let h := store h real j tr in
    store h imag j ti
  else h.

Definition bitrev_step (real imag : ref) (n : Z) (i : Z) (st : Heap * Z)
  : outcome (Heap * Z) :=
  let '(h, j) := st in
  let h := swap_when_less real imag i j h in
  ' (k, j) <- bitrev_while bitrev_fuel (js_sar n 1) j ;;
  Ok (h, j + k).

Definition table_get (h : Heap) (tbl : ref) (j n m : Z) : num :=
  if (j * n) mod m =? 0 then load h tbl (j * n / m) else nan.

Definition butterfly (real imag : ref) (m2 : Z) (wr wi : num) (k : Z) (h : Heap)
  : Heap :=
  let tr := sub (mul wr (load h real (k + m2))) (mul wi (load h imag (k + m2))) in
  let ti := add (mul wr (load h imag (k + m2))) (mul wi (load h real (k + m2))) in
  let h := store h real (k + m2) (sub (load h real k) tr) in
  let h := store h imag (k + m2) (sub (load h imag k) ti) in
  let h := store h real k (add (load h real k) tr) in
  store h imag k (add (load h imag k) ti).

Definition FFT_stage (fft : FFT) (real imag : ref) (s : Z) (h : Heap) : Heap :=
  let m := js_shl 1 s in
  let m2 := js_sar m 1 in
  for_upto 0 m2
    (fun j h =>
       let wr := table_get h (fft_cos fft) j (fft_n fft) m in
       let wi := neg (table_get h (fft_sin fft) j (fft_n fft) m) in
       for_step j (fft_n fft) m (butterfly real imag m2 wr wi) h)
    h.

(** [fft.forward(real, imag)]: the two arrays are rewritten in place. *)
Definition FFT_forward (fft : FFT) (real imag : ref) (h : Heap) : outcome Heap :=
  ' (h, _) <-
    for_uptoM 0 (fft_n fft - 1) (bitrev_step real imag (fft_n fft)) (h, 0) ;;
  Ok (for_upto 1 (int_bound (fft_m fft) + 1) (FFT_stage fft real imag) h).

(** [fft.inverse(real, imag)] *)
Definition FFT_inverse (fft : FFT) (real imag : ref) (h : Heap) : outcome Heap :=
  let h := for_upto 0 (fft_n fft) (fun i h => store h imag i (neg (load h imag i))) h in
  h <- FFT_forward fft real imag h ;;
  Ok (for_upto 0 (fft_n fft)
        (fun i h =>
           let h := store h real i (div (load h real i) (ofZ (fft_n fft))) in
           store h imag i (div (load h imag i) (neg (ofZ (fft_n fft)))))
        h).

(** ** Window and filterbank *)
Definition hanningWindow (n : Z) (h : Heap) : outcome (ref * Heap) :=
  ' (window, h) <- alloc n h ;;
  Ok (window,
      for_upto 0 n
        (fun i h =>
           store h window i
             (mul half
                (sub (ofZ 1)
                   (Math_cos
                      (div (mul (mul (ofZ 2) Math_PI) (ofZ i)) (ofZ (n - 1)))))))
        h).

Definition melPoints (sampleRate : num) (melBinsCount : Z) (h : Heap)
  : outcome (ref * Heap) :=
  let minHz := ofZ 0 in
  let maxHz := div sampleRate (ofZ 2) in
  let minMel := hzToMel minHz in
  let maxMel := hzToMel maxHz in
  ' (mp, h) <- alloc (melBinsCount + 2) h ;;
  Ok (mp,
      for_upto 0 (melBinsCount + 2)
        (fun i h =>
           store h mp i
             (melToHz
                (add minMel
                   (div (mul (ofZ i) (sub maxMel minMel)) (ofZ (melBinsCount + 1))))))
        h).

Definition filter_rise (bp : list jsint) (i : Z) (filter : ref) (h : Heap)
  : outcome Heap :=
  match num_loop (bget bp i) (bget bp (i + 1)) with
  | Iterate b0 b1 =>
      Ok (for_upto b0 b1
            (fun j h => store h filter j (div (ofZ (j - b0)) (ofZ (b1 - b0)))) h)
  | NoIteration => Ok h
  | Forever => Diverge
  end.

Definition filter_fall (bp : list jsint) (i : Z) (filter : ref) (h : Heap)
  : outcome Heap :=
  match num_loop (bget bp (i + 1)) (bget bp (i + 2)) with
  | Iterate b1 b2 =>
      Ok (for_upto b1 b2
            (fun j h => store h filter j (div (ofZ (b2 - j)) (ofZ (b2 - b1)))) h)
  | NoIteration => Ok h
  | Forever => Diverge
  end.

Definition build_filter (windowSize : Z) (bp : list jsint) (i : Z) (h : Heap)
  : outcome (ref * Heap) :=
  ' (filter, h) <- alloc (Z.quot (windowSize + 2) 2) h ;;
  h <- filter_rise bp i filter h ;;
  h <- filter_fall bp i filter h ;;
  Ok (filter, h).

Fixpoint mapM {A B : Type} (f : A -> Heap -> outcome (B * Heap)) (l : list A)
  (h : Heap) : outcome (list B * Heap) :=
  match l with
  | [] => Ok ([], h)
  | x :: l' =>
      ' (y, h) <- f x h ;;
      ' (ys, h) <- mapM f l' h ;;
      Ok (y :: ys, h)
  end.

Definition build_filterbank (windowSize : Z) (bp : list jsint) (melBinsCount : Z)
  (h : Heap) : outcome (list ref * Heap) :=
  mapM (build_filter windowSize bp) (zsteps 0 1 (Z.to_nat melBinsCount)) h.

(** ** Audio buffers: the channel array is held in the store, and
    [getChannelData(0)] is its address. *)
Record AudioBuffer : Type := mkAudioBuffer {
  channel : ref;
  sampleRate : num
}.

Definition window_frame (data window real : ref) (windowSize start : Z) (h : Heap)
  : Heap :=
  for_upto 0 windowSize
    (fun i h => store h real i (mul (load h data (start + i)) (load h window i))) h.

(** ** computeSpectrogram *)
Definition magnitudes_of (windowSize : Z) (real imag : ref) (h : Heap)
  : outcome (ref * Heap) :=
  ' (mg, h) <- alloc (Z.quot (windowSize + 2) 2) h ;;
  Ok (mg,
      for_upto 0 (windowSize / 2 + 1)
        (fun i h =>
           store h mg i
             (Math_sqrt (add (mul (load h real i) (load h real i))
                             (mul (load h imag i) (load h imag i)))))
        h).

Definition mel_value (h : Heap) (magnitudes filter : ref) : num :=
  let sum :=
    for_upto 0 (len h magnitudes)
      (fun i sum => add sum (mul (load h magnitudes i) (load h filter i))) (ofZ 0) in
  mul (ofZ 20) (Math_log10 (Math_max eps sum)).

Definition spectrogram_frame (fft : FFT) (window : ref) (filterbank : list ref)
  (data : ref) (windowSize hopSize : Z) (f : Z) (st : Heap * list (list num))
  : outcome (Heap * list (list num)) :=
  let '(h, rows) := st in
  let start := f * hopSize in
  ' (real, h) <- alloc windowSize h ;;
  ' (imag, h) <- alloc windowSize h ;;
  let h := window_frame data window real windowSize start h in
  h <- FFT_forward fft real imag h ;;
  ' (magnitudes, h) <- magnitudes_of windowSize real imag h ;;
  let melFrame := map (mel_value h magnitudes) filterbank in
  Ok (h, rows ++ [melFrame]).

(** [binPoints], the result of [melPoints.map], is read as loop bounds
    only and is kept as a list of bounds. *)
Definition computeSpectrogram (audioBuffer : AudioBuffer)
  (windowSize hopSize melBinsCount : Z) (h : Heap)
  : outcome (SpectrogramData * Heap) :=
  let data := channel audioBuffer in
  let sampleRate := sampleRate audioBuffer in
  ' (fft, h) <- FFT_new windowSize h ;;
  ' (window, h) <- hanningWindow windowSize h ;;
  let numFrames := floor_div (len h data - windowSize) hopSize in
  ' (mp, h) <- melPoints sampleRate melBinsCount h ;;
  let bp := binPoints windowSize sampleRate (cell h mp) in
  ' (filterbank, h) <- build_filterbank windowSize bp melBinsCount h ;;
  ' (h, rows) <- frame_loop numFrames
                   (spectrogram_frame fft window filterbank data windowSize hopSize)
                   (h, []) ;;
  Ok (mkSpectrogramData
        rows
        (firstn (Z.to_nat melBinsCount) (skipn 1 (cell h mp)))
        (map (fun i => div (ofZ (i * hopSize)) sampleRate)
             (zsteps 0 1 (array_from_length numFrames))),
      h).

(** ** applyMaskAndReconstruct *)
Definition process_frame (fft : FFT) (window data : ref)
  (annotations : list Annotation) (windowSize hopSize numFrames : Z) (f : Z)
  (h : Heap) : outcome (ref * ref * Heap) :=
  let start := f * hopSize in
  ' (frameReal, h) <- alloc windowSize h ;;
  ' (frameImag, h) <- alloc windowSize h ;;
  let h := window_frame data window frameReal windowSize start h in
  h <- FFT_forward fft frameReal frameImag h ;;
  let timePos := div (ofZ f) (ofZ numFrames) in
  let h :=
    if isTimeMasked timePos annotations
    then fill (fill h frameReal (ofZ 0)) frameImag (ofZ 0)
    else h in
  h <- FFT_inverse fft frameReal frameImag h ;;
  Ok (frameReal, frameImag, h).

Definition overlap_add (window frameReal reconstructed norm : ref)
  (windowSize start : Z) (h : Heap) : Heap :=
  for_upto 0 windowSize
    (fun i h =>
       let h := store h reconstructed (start + i)
                  (add (load h reconstructed (start + i))
                       (mul (load h frameReal i) (load h window i))) in
       store h norm (start + i)
         (add (load h norm (start + i)) (mul (load h window i) (load h window i))))
    h.

Definition recon_frame (fft : FFT) (window data reconstructed norm : ref)
  (annotations : list Annotation) (windowSize hopSize numFrames : Z) (f : Z)
  (h : Heap) : outcome Heap :=
  ' (frameReal, _, h) <-
    process_frame fft window data annotations windowSize hopSize numFrames f h ;;
  Ok (overlap_add window frameReal reconstructed norm windowSize (f * hopSize) h).

Definition normalize (reconstructed norm : ref) (h : Heap) : Heap :=
  for_upto 0 (len h reconstructed)
    (fun i h =>
       if gtb (load h norm i) eps
       then store h reconstructed i (div (load h reconstructed i) (load h norm i))
       else h)
    h.

(** [ctx.createBuffer(1, length, sampleRate)]: a buffer with a channel array
    of its own. *)
Definition createBuffer (length : Z) (rate : num) (h : Heap)
  : outcome (AudioBuffer * Heap) :=
  if length <=? 0 then Throw NotSupportedError
  else ' (c, h) <- alloc length h ;; Ok (mkAudioBuffer c rate, h).

(** [buffer.copyToChannel(source, 0)] *)
Definition copyToChannel (b : AudioBuffer) (source : ref) (h : Heap) : Heap :=
  for_upto 0 (len h source)
    (fun i h => store h (channel b) i (load h source i)) h.

Definition applyMaskAndReconstruct (originalBuffer : AudioBuffer)
  (annotations : list Annotation) (windowSize hopSize : Z) (h : Heap)
  : outcome (AudioBuffer * Heap) :=
  let data := channel originalBuffer in
  let sampleRate := sampleRate originalBuffer in
  ' (fft, h) <- FFT_new windowSize h ;;
  ' (window, h) <- hanningWindow windowSize h ;;
  let numFrames := floor_div (len h data - windowSize) hopSize in
  ' (reconstructed, h) <- alloc (len h data) h ;;
  ' (norm, h) <- alloc (len h data) h ;;
  h <- frame_loop numFrames
         (recon_frame fft window data reconstructed norm annotations windowSize
            hopSize (int_bound numFrames))
         h ;;
  let h := normalize reconstructed norm h in
  ' (newBuffer, h) <- createBuffer (len h reconstructed) sampleRate h ;;
  Ok (newBuffer, copyToChannel newBuffer reconstructed h).

End Mem.
End Mem.

(** ** The store: reading back what was written *)
Section HeapLaws.
Context {N : JSNumber}.

Lemma put_length (h : Mem.Heap) r a : length (Mem.put h r a) = length h.
Proof. revert r. induction h; intros [|r]; simpl; auto. Qed.

Lemma cell_put_same (h : Mem.Heap) r a :
  (r < length h)%nat -> Mem.cell (Mem.put h r a) r = a.
Proof.
  unfold Mem.cell. revert r. induction h; intros [|r] H; simpl in *; try lia; auto.
  apply IHh. lia.
Qed.

Lemma cell_put_other (h : Mem.Heap) r r' a :
  r <> r' -> Mem.cell (Mem.put h r a) r' = Mem.cell h r'.
Proof.
  unfold Mem.cell. revert r r'. induction h; intros [|r] [|r'] H; simpl; auto; try lia.
Qed.

Lemma put_put (h : Mem.Heap) r a b : Mem.put (Mem.put h r a) r b = Mem.put h r b.
Proof. revert r. induction h; intros [|r]; simpl; auto. now rewrite IHh. Qed.

Lemma put_comm (h : Mem.Heap) r r' a b :
  r <> r' -> Mem.put (Mem.put h r a) r' b = Mem.put (Mem.put h r' b) r a.
Proof.
  revert r r'. induction h; intros [|r] [|r'] H; simpl; auto; try lia.
  rewrite IHh; auto.
Qed.

Lemma put_cell (h : Mem.Heap) r : Mem.put h r (Mem.cell h r) = h.
Proof.
  unfold Mem.cell. revert r. induction h; intros [|r]; simpl; auto. now rewrite IHh.
Qed.

Lemma cell_app_old (h l : Mem.Heap) r :
  (r < length h)%nat -> Mem.cell (h ++ l) r = Mem.cell h r.
Proof. intros H. unfold Mem.cell. now rewrite app_nth1. Qed.

Lemma store_put (h : Mem.Heap) r a i v :
  (r < length h)%nat -> Mem.store (Mem.put h r a) r i v = Mem.put h r (aset a i v).
Proof. intros H. unfold Mem.store. now rewrite cell_put_same, put_put. Qed.

Lemma load_put_same (h : Mem.Heap) r a i :
  (r < length h)%nat -> Mem.load (Mem.put h r a) r i = aget a i.
Proof. intros H. unfold Mem.load. now rewrite cell_put_same. Qed.

Lemma load_put_other (h : Mem.Heap) r r' a i :
  r <> r' -> Mem.load (Mem.put h r a) r' i = Mem.load h r' i.
Proof. intros H. unfold Mem.load. now rewrite cell_put_other. Qed.

(** Two arrays of the store replaced. *)
Definition put2 (h : Mem.Heap) (re im : Mem.ref) (st : Float32Array * Float32Array)
  : Mem.Heap :=
  Mem.put (Mem.put h re (fst st)) im (snd st).

Lemma put2_length h re im st : length (put2 h re im st) = length h.
Proof. unfold put2. now rewrite !put_length. Qed.

Lemma put2_cells h re im :
  put2 h re im (Mem.cell h re, Mem.cell h im) = h.
Proof.
  unfold put2. cbn [fst snd]. rewrite put_cell. apply put_cell.
Qed.

Lemma cell_put2_re h re im a b :
  re <> im -> (re < length h)%nat -> Mem.cell (put2 h re im (a, b)) re = a.
Proof.
  intros Hne H. unfold put2. cbn [fst snd].
  rewrite cell_put_other by auto. now apply cell_put_same.
Qed.

Lemma cell_put2_im h re im a b :
  (im < length h)%nat -> Mem.cell (put2 h re im (a, b)) im = b.
Proof.
  intros H. unfold put2. cbn [fst snd]. apply cell_put_same. now rewrite put_length.
Qed.

Lemma cell_put2_other h re im st r :
  r <> re -> r <> im -> Mem.cell (put2 h re im st) r = Mem.cell h r.
Proof. intros H1 H2. unfold put2. rewrite !cell_put_other; auto. Qed.

Lemma store_put2_re h re im a b i v :
  re <> im -> (re < length h)%nat ->
  Mem.store (put2 h re im (a, b)) re i v = put2 h re im (aset a i v, b).
Proof.
  intros Hne H. unfold Mem.store. rewrite cell_put2_re by assumption.
  unfold put2. cbn [fst snd].
  rewrite (put_comm (Mem.put h re a) im re) by auto. now rewrite put_put.
Qed.

Lemma store_put2_im h re im a b i v :
  (im < length h)%nat ->
  Mem.store (put2 h re im (a, b)) im i v = put2 h re im (a, aset b i v).
Proof.
  intros H. unfold Mem.store. rewrite cell_put2_im by assumption.
  unfold put2. cbn [fst snd]. apply put_put.
Qed.

Lemma load_put2_re h re im a b i :
  re <> im -> (re < length h)%nat -> Mem.load (put2 h re im (a, b)) re i = aget a i.
Proof. intros. unfold Mem.load. now rewrite cell_put2_re. Qed.

Lemma load_put2_im h re im a b i :
  (im < length h)%nat -> Mem.load (put2 h re im (a, b)) im i = aget b i.
Proof. intros. unfold Mem.load. now rewrite cell_put2_im. Qed.

Lemma load_put2_other h re im st r i :
  r <> re -> r <> im -> Mem.load (put2 h re im st) r i = Mem.load h r i.
Proof. intros. unfold Mem.load. now rewrite cell_put2_other. Qed.

End HeapLaws.

(** Reads and writes of two arrays of the store, one after the other. *)
Ltac put2_steps :=
  repeat first
    [ rewrite load_put2_re by assumption
    | rewrite load_put2_im by assumption
    | rewrite store_put2_re by assumption
    | rewrite store_put2_im by assumption ].

(** ** Loops in step *)

(** How two outcomes correspond: values related, the same exception, or no
    return on either side. *)
Definition orel {S T : Type} (R : S -> T -> Prop) (o1 : outcome S) (o2 : outcome T)
  : Prop :=
  match o1, o2 with
  | Ok s, Ok t => R s t
  | Throw e1, Throw e2 => e1 = e2
  | Diverge, Diverge => True
  | _, _ => False
  end.

Lemma orel_bind {S T S' T' : Type} (R : S -> T -> Prop) (R' : S' -> T' -> Prop)
  (o1 : outcome S) (o2 : outcome T) (k1 : S -> outcome S') (k2 : T -> outcome T') :
  orel R o1 o2 ->
  (forall s t, R s t -> orel R' (k1 s) (k2 t)) ->
  orel R' (bind o1 k1) (bind o2 k2).
Proof.
  destruct o1, o2; cbn [orel bind]; intros H Hk; try contradiction; auto.
Qed.

Lemma orel_eq_inv {S T : Type} (F : T -> S) (o1 : outcome S) (o2 : outcome T) :
  orel (fun s t => s = F t) o1 o2 -> o1 = (x <- o2 ;; Ok (F x)).
Proof.
  destruct o1, o2; cbn [orel bind]; intros H; try contradiction; congruence.
Qed.

Lemma fold_left_rel {S T : Type} (R : S -> T -> Prop)
  (f : S -> Z -> S) (g : T -> Z -> T) (l : list Z) s t :
  R s t -> (forall i s t, R s t -> R (f s i) (g t i)) ->
  R (fold_left f l s) (fold_left g l t).
Proof. intros H0 Hs. revert s t H0. induction l; simpl; auto. Qed.

Lemma for_upto_rel {S T : Type} (R : S -> T -> Prop) lo hi
  (f : Z -> S -> S) (g : Z -> T -> T) s t :
  R s t -> (forall i s t, R s t -> R (f i s) (g i t)) ->
  R (for_upto lo hi f s) (for_upto lo hi g t).
Proof. intros H0 Hs. unfold for_upto. apply fold_left_rel; auto. Qed.

Lemma for_step_rel {S T : Type} (R : S -> T -> Prop) lo hi step
  (f : Z -> S -> S) (g : Z -> T -> T) s t :
  R s t -> (forall i s t, R s t -> R (f i s) (g i t)) ->
  R (for_step lo hi step f s) (for_step lo hi step g t).
Proof. intros H0 Hs. unfold for_step. apply fold_left_rel; auto. Qed.

Lemma foldM_rel {S T : Type} (R : S -> T -> Prop)
  (f : Z -> S -> outcome S) (g : Z -> T -> outcome T) (l : list Z) s t :
  R s t -> (forall i s t, R s t -> orel R (f i s) (g i t)) ->
  orel R (foldM f l s) (foldM g l t).
Proof.
  intros H0 Hs. revert s t H0. induction l as [|i l IH]; intros s t H0; cbn [foldM].
  - exact H0.
  - apply (orel_bind R R); auto.
Qed.

Lemma for_uptoM_rel {S T : Type} (R : S -> T -> Prop) lo hi
  (f : Z -> S -> outcome S) (g : Z -> T -> outcome T) s t :
  R s t -> (forall i s t, R s t -> orel R (f i s) (g i t)) ->
  orel R (for_uptoM lo hi f s) (for_uptoM lo hi g t).
Proof. intros H0 Hs. unfold for_uptoM. apply foldM_rel; auto. Qed.

(** ** The transform in the store and on values *)
Section TransformInStore.
Context {N : JSNumber}.

(** The tables of [fm] are those of [fv]. *)
Definition same_fft (h : Mem.Heap) (fm : Mem.FFT) (fv : FFT) : Prop :=
  Mem.fft_n fm = fft_n fv /\ Mem.fft_m fm = fft_m fv /\
  Mem.cell h (Mem.fft_cos fm) = fft_cos fv /\
  Mem.cell h (Mem.fft_sin fm) = fft_sin fv.

Variables (h : Mem.Heap) (re im : Mem.ref).
Hypothesis Hne : re <> im.
Hypothesis Hre : (re < length h)%nat.
Hypothesis Him : (im < length h)%nat.

Lemma swap_when_less_store i j st :
  Mem.swap_when_less re im i j (put2 h re im st) = put2 h re im (swap_when_less i j st).
Proof.
  destruct st as [a b]. unfold Mem.swap_when_less, swap_when_less.
  destruct (i <? j); [|reflexivity]. cbn zeta. now put2_steps.
Qed.

Lemma butterfly_store m2 wr wi k st :
  Mem.butterfly re im m2 wr wi k (put2 h re im st) =
  put2 h re im (butterfly m2 wr wi k st).
Proof.
  destruct st as [a b]. unfold Mem.butterfly, butterfly. cbn zeta. now put2_steps.
Qed.

Variables (fm : Mem.FFT) (fv : FFT).
Hypothesis Hfft : same_fft h fm fv.
Hypothesis Hcos : Mem.fft_cos fm <> re /\ Mem.fft_cos fm <> im.
Hypothesis Hsin : Mem.fft_sin fm <> re /\ Mem.fft_sin fm <> im.

Lemma table_get_store tbl st j n m :
  tbl <> re -> tbl <> im ->
  Mem.table_get (put2 h re im st) tbl j n m = table_get (Mem.cell h tbl) j n m.
Proof.
  intros H1 H2. unfold Mem.table_get, table_get.
  now rewrite load_put2_other by assumption.
Qed.

Lemma FFT_stage_store s st :
  Mem.FFT_stage fm re im s (put2 h re im st) = put2 h re im (FFT_stage fv s st).
Proof.
  destruct Hfft as (En & Em & Ec & Es). unfold Mem.FFT_stage, FFT_stage. cbn zeta.
  apply (for_upto_rel (fun hh t => hh = put2 h re im t)); [reflexivity|].
  intros j hh t ->.
  rewrite !table_get_store by tauto. rewrite En, Ec, Es.
  apply (for_step_rel (fun hh t => hh = put2 h re im t)); [reflexivity|].
  intros k hh t' ->. apply butterfly_store.
Qed.

Lemma FFT_forward_store st :
  Mem.FFT_forward fm re im (put2 h re im st) =
  (x <- FFT_forward fv (fst st) (snd st) ;; Ok (put2 h re im x)).
Proof.
  destruct st as [a b]. cbn [fst snd].
  pose proof Hfft as (En & Em & Ec & Es).
  unfold Mem.FFT_forward, FFT_forward. rewrite En, Em.
  pose proof (for_uptoM_rel
                (fun (s : Mem.Heap * Z) (t : Float32Array * Float32Array * Z) =>
                   s = (put2 h re im (fst t), snd t))
                0 (fft_n fv - 1)
                (Mem.bitrev_step re im (fft_n fv)) (bitrev_step (fft_n fv))
                (put2 h re im (a, b), 0) (a, b, 0) eq_refl) as H.
  apply orel_eq_inv in H.
  - rewrite H. destruct (for_uptoM 0 (fft_n fv - 1) (bitrev_step (fft_n fv)) (a, b, 0))
      as [[[a' b'] j']| |]; cbn [bind fst snd]; try reflexivity.
    f_equal.
    apply (for_upto_rel (fun hh t => hh = put2 h re im t)); [reflexivity|].
    intros s hh t ->. apply FFT_stage_store.
  - intros i s [[a' b'] j'] ->. cbn [fst snd].
    unfold Mem.bitrev_step, bitrev_step.
    rewrite swap_when_less_store.
    destruct (swap_when_less i j' (a', b')) as [a2 b2].
    destruct (bitrev_while bitrev_fuel (js_sar (fft_n fv) 1) j') as [[k j2]| |];
      cbn [bind orel]; auto.
Qed.

Lemma FFT_inverse_store st :
  Mem.FFT_inverse fm re im (put2 h re im st) =
  (x <- FFT_inverse fv (fst st) (snd st) ;; Ok (put2 h re im x)).
Proof.
  destruct st as [a b]. cbn [fst snd].
  pose proof Hfft as (En & Em & Ec & Es).
  unfold Mem.FFT_inverse, FFT_inverse. cbn zeta. rewrite En.
  assert (E1 : for_upto 0 (fft_n fv)
                 (fun i hh => Mem.store hh im i (neg (Mem.load hh im i)))
                 (put2 h re im (a, b)) =
               put2 h re im
                 (a, for_upto 0 (fft_n fv) (fun i y => aset y i (neg (aget y i))) b)).
  { apply (for_upto_rel (fun hh y => hh = put2 h re im (a, y))); [reflexivity|].
    intros i hh y ->. now put2_steps. }
  rewrite E1, FFT_forward_store. cbn [fst snd].
  destruct (FFT_forward fv a _) as [[a' b']| |]; cbn [bind]; try reflexivity.
  f_equal.
  apply (for_upto_rel (fun hh t => hh = put2 h re im t)); [reflexivity|].
  intros i hh [x y] ->. now put2_steps.
Qed.

End TransformInStore.

(** ** Arrays allocated during a call *)
Section FreshArrays.
Context {N : JSNumber}.

Lemma put_fresh (h : Mem.Heap) z a : Mem.put (h ++ [z]) (length h) a = h ++ [a].
Proof. induction h; simpl; auto. now rewrite IHh. Qed.

Lemma put2_fresh (h : Mem.Heap) z z' st :
  put2 (h ++ [z; z']) (length h) (S (length h)) st = h ++ [fst st; snd st].
Proof.
  unfold put2. induction h; simpl; auto. simpl in IHh. now rewrite IHh.
Qed.

Lemma cell_fresh (h : Mem.Heap) a : Mem.cell (h ++ [a]) (length h) = a.
Proof. unfold Mem.cell. rewrite app_nth2 by lia. now rewrite Nat.sub_diag. Qed.

Lemma cell_fresh0 (h l : Mem.Heap) a : Mem.cell (h ++ a :: l) (length h) = a.
Proof. unfold Mem.cell. rewrite app_nth2 by lia. now rewrite Nat.sub_diag. Qed.

Lemma cell_fresh1 (h l : Mem.Heap) a b : Mem.cell (h ++ a :: b :: l) (S (length h)) = b.
Proof.
  unfold Mem.cell. rewrite app_nth2 by lia.
  now replace (S (length h) - length h)%nat with 1%nat by lia.
Qed.

Lemma put_fresh0 (h l : Mem.Heap) a x : Mem.put (h ++ a :: l) (length h) x = h ++ x :: l.
Proof. induction h; simpl; auto. now rewrite IHh. Qed.

Lemma app_two (h : Mem.Heap) a b : (h ++ [a]) ++ [b] = h ++ [a; b].
Proof. now rewrite <- app_assoc. Qed.

Lemma length_snoc (h : Mem.Heap) a : length (h ++ [a]) = S (length h).
Proof. rewrite length_app. simpl. lia. Qed.

(** A loop that writes into one array of the store. *)
Lemma store_loop (h : Mem.Heap) (r : Mem.ref) lo hi
  (gh : Z -> Mem.Heap -> num) (gv : Z -> Float32Array -> num) (a : Float32Array) :
  (r < length h)%nat ->
  (forall i y, gh i (Mem.put h r y) = gv i y) ->
  for_upto lo hi (fun i hh => Mem.store hh r i (gh i hh)) (Mem.put h r a) =
  Mem.put h r (for_upto lo hi (fun i y => aset y i (gv i y)) a).
Proof.
  intros Hr Hg.
  apply (for_upto_rel (fun hh y => hh = Mem.put h r y)); [reflexivity|].
  intros i hh y ->. now rewrite store_put, Hg.
Qed.

Lemma FFT_new_store (n : Z) (h : Mem.Heap) :
  Mem.FFT_new n h =
  (fv <- FFT_new n ;;
   Ok (Mem.mkFFT n (Math_log2_bound n) (length h) (S (length h)),
       h ++ [fft_cos fv; fft_sin fv])).
Proof.
  unfold Mem.FFT_new, FFT_new, Mem.alloc.
  destruct (new_Float32Array (Z.quot n 2)) as [z| |]; cbn [bind]; try reflexivity.
  rewrite length_snoc, app_two.
  destruct (for_upto 0 ((n + 1) / 2) _ (z, z)) as [c s] eqn:E. cbn [bind fft_cos fft_sin].
  do 2 f_equal.
  assert (H1 : length h <> S (length h)) by lia.
  assert (H2 : (length h < length (h ++ [z; z]))%nat) by (rewrite length_app; simpl; lia).
  assert (H3 : (S (length h) < length (h ++ [z; z]))%nat)
    by (rewrite length_app; simpl; lia).
  transitivity (put2 (h ++ [z; z]) (length h) (S (length h)) (c, s));
    [|apply put2_fresh].
  rewrite <- E.
  apply (for_upto_rel
           (fun hh t => hh = put2 (h ++ [z; z]) (length h) (S (length h)) t));
    [symmetry; apply (put2_fresh h z z (z, z))|].
  intros i hh [x y] ->. cbn zeta. now put2_steps.
Qed.

Lemma hanningWindow_store (n : Z) (h : Mem.Heap) :
  Mem.hanningWindow n h = (w <- hanningWindow n ;; Ok (length h, h ++ [w])).
Proof.
  unfold Mem.hanningWindow, hanningWindow, Mem.alloc.
  destruct (new_Float32Array n) as [z| |]; cbn [bind]; try reflexivity.
  do 2 f_equal. rewrite <- (put_fresh h z z) at 1.
  rewrite (store_loop (h ++ [z]) (length h) 0 n _
             (fun i _ => mul half (sub (ofZ 1)
                (Math_cos (div (mul (mul (ofZ 2) Math_PI) (ofZ i)) (ofZ (n - 1)))))));
    [apply put_fresh | rewrite length_snoc; lia | reflexivity].
Qed.

Lemma melPoints_store (sr : num) (m : Z) (h : Mem.Heap) :
  Mem.melPoints sr m h = (mp <- melPoints sr m ;; Ok (length h, h ++ [mp])).
Proof.
  unfold Mem.melPoints, melPoints, Mem.alloc. cbn zeta.
  destruct (new_Float32Array (m + 2)) as [z| |]; cbn [bind]; try reflexivity.
  do 2 f_equal. rewrite <- (put_fresh h z z) at 1.
  rewrite (store_loop (h ++ [z]) (length h) 0 (m + 2) _
             (fun i _ => melToHz
                (add (hzToMel (ofZ 0))
                   (div (mul (ofZ i) (sub (hzToMel (div sr (ofZ 2))) (hzToMel (ofZ 0))))
                      (ofZ (m + 1))))));
    [apply put_fresh | rewrite length_snoc; lia | reflexivity].
Qed.

Lemma build_filter_store (n : Z) (bp : list jsint) (i : Z) (h : Mem.Heap) :
  Mem.build_filter n bp i h = (f <- build_filter n bp i ;; Ok (length h, h ++ [f])).
Proof.
  unfold Mem.build_filter, build_filter, Mem.alloc.
  destruct (new_Float32Array (Z.quot (n + 2) 2)) as [z| |]; cbn [bind]; try reflexivity.
  assert (Hl : (length h < length (h ++ [z]))%nat) by (rewrite length_snoc; lia).
  assert (Hrise : Mem.filter_rise bp i (length h) (h ++ [z]) =
                  (f <- filter_rise bp i z ;; Ok (h ++ [f]))).
  { unfold Mem.filter_rise, filter_rise.
    destruct (num_loop (bget bp i) (bget bp (i + 1))) as [b0 b1| |]; cbn [bind];
      try reflexivity.
    f_equal. rewrite <- (put_fresh h z z) at 1.
    rewrite (store_loop (h ++ [z]) (length h) b0 b1 _
               (fun j _ => div (ofZ (j - b0)) (ofZ (b1 - b0))));
      [apply put_fresh | exact Hl | reflexivity]. }
  rewrite Hrise.
  destruct (filter_rise bp i z) as [f1| |]; cbn [bind]; try reflexivity.
  assert (Hfall : Mem.filter_fall bp i (length h) (h ++ [f1]) =
                  (f <- filter_fall bp i f1 ;; Ok (h ++ [f]))).
  { unfold Mem.filter_fall, filter_fall.
    destruct (num_loop (bget bp (i + 1)) (bget bp (i + 2))) as [b1 b2| |]; cbn [bind];
      try reflexivity.
    f_equal. rewrite <- (put_fresh h f1 f1) at 1.
    rewrite (store_loop (h ++ [f1]) (length h) b1 b2 _
               (fun j _ => div (ofZ (b2 - j)) (ofZ (b2 - b1))));
      [apply put_fresh | rewrite length_snoc; lia | reflexivity]. }
  rewrite Hfall.
  destruct (filter_fall bp i f1) as [f2| |]; reflexivity.
Qed.

Lemma mapM_build_filter_store (n : Z) (bp : list jsint) (l : list Z) (h : Mem.Heap) :
  Mem.mapM (Mem.build_filter n bp) l h =
  (fb <- mapM (build_filter n bp) l ;; Ok (seq (length h) (length fb), h ++ fb)).
Proof.
  revert h. induction l as [|i l IH]; intros h; cbn [Mem.mapM mapM bind].
  - now rewrite app_nil_r.
  - rewrite build_filter_store.
    destruct (build_filter n bp i) as [f| |]; cbn [bind]; try reflexivity.
    rewrite IH.
    destruct (mapM (build_filter n bp) l) as [fb| |]; cbn [bind]; try reflexivity.
    rewrite length_snoc, <- app_assoc. reflexivity.
Qed.

Lemma magnitudes_of_store (n : Z) (re im : Mem.ref) (h : Mem.Heap) :
  (re < length h)%nat -> (im < length h)%nat ->
  Mem.magnitudes_of n re im h =
  (mg <- magnitudes_of n (Mem.cell h re) (Mem.cell h im) ;; Ok (length h, h ++ [mg])).
Proof.
  intros Hre Him. unfold Mem.magnitudes_of, magnitudes_of, Mem.alloc.
  destruct (new_Float32Array (Z.quot (n + 2) 2)) as [z| |]; cbn [bind]; try reflexivity.
  do 2 f_equal. rewrite <- (put_fresh h z z) at 1.
  rewrite (store_loop (h ++ [z]) (length h) 0 (n / 2 + 1) _
             (fun i _ => Math_sqrt
                (add (mul (aget (Mem.cell h re) i) (aget (Mem.cell h re) i))
                     (mul (aget (Mem.cell h im) i) (aget (Mem.cell h im) i))))).
  - apply put_fresh.
  - rewrite length_snoc. lia.
  - intros i y. unfold Mem.load.
    rewrite !cell_put_other by lia. now rewrite !cell_app_old by assumption.
Qed.

Lemma mel_value_store (h : Mem.Heap) (mg f : Mem.ref) :
  Mem.mel_value h mg f = mel_value (Mem.cell h mg) (Mem.cell h f).
Proof. reflexivity. Qed.

Lemma window_frame_store (data window real : Mem.ref) (n start : Z) (h : Mem.Heap) :
  real <> data -> real <> window -> (real < length h)%nat ->
  Mem.window_frame data window real n start h =
  Mem.put h real
    (window_frame (Mem.cell h data) (Mem.cell h window) n start (Mem.cell h real)).
Proof.
  intros H1 H2 H3. unfold Mem.window_frame, window_frame.
  rewrite <- (put_cell h real) at 1.
  apply store_loop; [exact H3|].
  intros i y. unfold Mem.load. now rewrite !cell_put_other by assumption.
Qed.

End FreshArrays.

(** ** The frames of the two pipelines in the store *)
Section FramesInStore.
Context {N : JSNumber}.

Lemma fill_put2 (h : Mem.Heap) re im a b v :
  re <> im -> (re < length h)%nat -> (im < length h)%nat ->
  Mem.fill (Mem.fill (put2 h re im (a, b)) re v) im v =
  put2 h re im (afill a v, afill b v).
Proof.
  intros Hne Hre Him. unfold Mem.fill at 2.
  rewrite cell_put2_re by assumption.
  assert (E : Mem.put (put2 h re im (a, b)) re (afill a v) = put2 h re im (afill a v, b)).
  { unfold put2. cbn [fst snd].
    rewrite (put_comm (Mem.put h re a) im re) by auto. now rewrite put_put. }
  rewrite E. unfold Mem.fill. rewrite cell_put2_im by assumption.
  unfold put2. cbn [fst snd]. apply put_put.
Qed.

Lemma same_fft_app (h l : Mem.Heap) fm fv :
  (Mem.fft_cos fm < length h)%nat -> (Mem.fft_sin fm < length h)%nat ->
  same_fft h fm fv -> same_fft (h ++ l) fm fv.
Proof.
  intros Hc Hs (A & B & C & D). unfold same_fft.
  now rewrite !cell_app_old by assumption.
Qed.

(** The two arrays of a frame are the two most recent arrays of the
    store. *)
Lemma process_frame_store (fm : Mem.FFT) (fv : FFT) (window data : Mem.ref)
  (anns : list Annotation) (n hop nf f : Z) (h : Mem.Heap) :
  same_fft h fm fv ->
  (Mem.fft_cos fm < length h)%nat -> (Mem.fft_sin fm < length h)%nat ->
  (window < length h)%nat -> (data < length h)%nat ->
  Mem.process_frame fm window data anns n hop nf f h =
  (' (fr, fi) <- process_frame fv (Mem.cell h window) anns n hop nf f (Mem.cell h data) ;;
   Ok (length h, S (length h), h ++ [fr; fi])).
Proof.
  intros Hfft Hc Hs Hw Hd.
  unfold Mem.process_frame, process_frame, Mem.alloc. cbn zeta.
  destruct (new_Float32Array n) as [z| |]; cbn [bind]; try reflexivity.
  rewrite length_snoc, app_two.
  set (h2 := h ++ [z; z]).
  assert (L2 : length h2 = S (S (length h))) by (unfold h2; rewrite length_app; simpl; lia).
  assert (Hne : length h <> S (length h)) by lia.
  assert (Hre : (length h < length h2)%nat) by lia.
  assert (Him : (S (length h) < length h2)%nat) by lia.
  assert (Hfft2 : same_fft h2 fm fv) by (apply same_fft_app; assumption).
  rewrite window_frame_store by lia.
  unfold h2 at 2 3 4. rewrite !cell_app_old by assumption.
  rewrite cell_fresh0.
  set (wf := window_frame (Mem.cell h data) (Mem.cell h window) n (f * hop) z).
  assert (E0 : Mem.put h2 (length h) wf = put2 h2 (length h) (S (length h)) (wf, z)).
  { unfold h2. rewrite put2_fresh. apply put_fresh0. }
  rewrite E0.
  rewrite (FFT_forward_store h2 (length h) (S (length h)) Hne Hre Him fm fv Hfft2)
    by lia.
  cbn [fst snd].
  destruct (FFT_forward fv wf z) as [[a b]| |]; cbn [bind]; try reflexivity.
  assert (Einv : forall st,
            (hh <- Mem.FFT_inverse fm (length h) (S (length h))
                     (put2 h2 (length h) (S (length h)) st) ;;
             Ok (length h, S (length h), hh)) =
            (' (fr, fi) <- FFT_inverse fv (fst st) (snd st) ;;
             Ok (length h, S (length h), h ++ [fr; fi]))).
  { intros st.
    rewrite (FFT_inverse_store h2 (length h) (S (length h)) Hne Hre Him fm fv Hfft2)
      by lia.
    destruct (FFT_inverse fv (fst st) (snd st)) as [[fr fi]| |]; cbn [bind];
      try reflexivity.
    unfold h2. now rewrite put2_fresh. }
  destruct (isTimeMasked (div (ofZ f) (ofZ nf)) anns).
  - rewrite fill_put2 by assumption. apply (Einv (afill a (ofZ 0), afill b (ofZ 0))).
  - apply (Einv (a, b)).
Qed.

(** What the frame loop of the reconstruction maintains: the two
    accumulation arrays hold the state of the value-level loop, and every
    other array that existed when the loop began is as it was. *)
Definition recon_sees (hb : Mem.Heap) (reconstructed norm : Mem.ref)
  (hh : Mem.Heap) (st : ReconState) : Prop :=
  (length hb <= length hh)%nat /\
  Mem.cell hh reconstructed = rc_reconstructed st /\
  Mem.cell hh norm = rc_norm st /\
  forall r, (r < length hb)%nat -> r <> reconstructed -> r <> norm ->
            Mem.cell hh r = Mem.cell hb r.

Lemma overlap_add_store (window frameReal reconstructed norm : Mem.ref)
  (n start : Z) (h : Mem.Heap) (st : ReconState) :
  reconstructed <> norm ->
  (reconstructed < length h)%nat -> (norm < length h)%nat ->
  window <> reconstructed -> window <> norm ->
  frameReal <> reconstructed -> frameReal <> norm ->
  Mem.cell h reconstructed = rc_reconstructed st ->
  Mem.cell h norm = rc_norm st ->
  Mem.overlap_add window frameReal reconstructed norm n start h =
  put2 h reconstructed norm
    (rc_reconstructed (overlap_add (Mem.cell h window) (Mem.cell h frameReal) n start st),
     rc_norm (overlap_add (Mem.cell h window) (Mem.cell h frameReal) n start st)).
Proof.
  intros Hne Hr Hn Hw1 Hw2 Hf1 Hf2 Er En.
  unfold Mem.overlap_add, overlap_add.
  apply (for_upto_rel
           (fun hh t => hh = put2 h reconstructed norm (rc_reconstructed t, rc_norm t))).
  - rewrite <- Er, <- En. symmetry. apply put2_cells.
  - intros i hh t ->. cbn zeta. cbn [rc_reconstructed rc_norm].
    rewrite !(load_put2_other h reconstructed norm _ window) by assumption.
    rewrite !(load_put2_other h reconstructed norm _ frameReal) by assumption.
    put2_steps.
    rewrite !(load_put2_other h reconstructed norm _ window) by assumption.
    reflexivity.
Qed.

Lemma recon_frame_store (fm : Mem.FFT) (fv : FFT)
  (window data reconstructed norm : Mem.ref) (anns : list Annotation)
  (n hop nf f : Z) (hb hh : Mem.Heap) (st : ReconState) :
  same_fft hb fm fv ->
  (Mem.fft_cos fm < length hb)%nat -> (Mem.fft_sin fm < length hb)%nat ->
  (window < length hb)%nat -> (data < length hb)%nat ->
  (reconstructed < length hb)%nat -> (norm < length hb)%nat ->
  reconstructed <> norm ->
  Mem.fft_cos fm <> reconstructed -> Mem.fft_cos fm <> norm ->
  Mem.fft_sin fm <> reconstructed -> Mem.fft_sin fm <> norm ->
  window <> reconstructed -> window <> norm ->
  data <> reconstructed -> data <> norm ->
  recon_sees hb reconstructed norm hh st /\ rc_data st = Mem.cell hb data ->
  orel (fun hh' st' => recon_sees hb reconstructed norm hh' st' /\
                       rc_data st' = Mem.cell hb data)
       (Mem.recon_frame fm window data reconstructed norm anns n hop nf f hh)
       (recon_frame fv (Mem.cell hb window) anns n hop nf f st).
Proof.
  intros Hfft Hc Hs Hw Hd Hr Hn Hne Hc1 Hc2 Hs1 Hs2 Hw1 Hw2 Hd1 Hd2
    [(Hlen & Er & En & Hold) Edata].
  unfold Mem.recon_frame, recon_frame.
  assert (Hfft' : same_fft hh fm fv).
  { destruct Hfft as (A & B & C & D). unfold same_fft. now rewrite !Hold by assumption. }
  rewrite (process_frame_store fm fv window data anns n hop nf f hh Hfft') by lia.
  rewrite (Hold window), (Hold data), Edata by assumption.
  destruct (process_frame fv (Mem.cell hb window) anns n hop nf f (Mem.cell hb data))
    as [[fr fi]| |]; cbn [bind orel]; auto.
  set (h' := hh ++ [fr; fi]).
  assert (L' : length h' = S (S (length hh))) by (unfold h'; rewrite length_app; simpl; lia).
  assert (Ew : Mem.cell h' window = Mem.cell hb window).
  { unfold h'. rewrite cell_app_old by lia. now apply Hold. }
  assert (Ef : Mem.cell h' (length hh) = fr).
  { unfold h'. apply cell_fresh0. }
  rewrite (overlap_add_store window (length hh) reconstructed norm n (f * hop) h' st);
    try lia; try assumption.
  2:{ unfold h'. now rewrite cell_app_old by lia. }
  2:{ unfold h'. now rewrite cell_app_old by lia. }
  rewrite Ew, Ef.
  set (st' := overlap_add (Mem.cell hb window) fr n (f * hop) st).
  split.
  - split; [rewrite put2_length; lia|].
    split; [now rewrite cell_put2_re by lia|].
    split; [now rewrite cell_put2_im by lia|].
    intros r Hr' H1 H2. rewrite cell_put2_other by assumption.
    unfold h'. rewrite cell_app_old by lia. now apply Hold.
  - unfold st'. destruct (overlap_add_lengths (Mem.cell hb window) fr n (f * hop) st)
      as (A & _). now rewrite A.
Qed.

Lemma normalize_store (reconstructed norm : Mem.ref) (h : Mem.Heap) (st : ReconState) :
  reconstructed <> norm -> (reconstructed < length h)%nat ->
  Mem.cell h reconstructed = rc_reconstructed st ->
  Mem.cell h norm = rc_norm st ->
  Mem.normalize reconstructed norm h =
  Mem.put h reconstructed (rc_reconstructed (normalize st)).
Proof.
  intros Hne Hr Er En. unfold Mem.normalize, normalize, Mem.len. rewrite Er.
  match goal with
  | |- for_upto ?lo ?hi ?fH h =
       Mem.put h reconstructed (rc_reconstructed (for_upto _ _ ?fV st)) =>
      pose proof (for_upto_rel
                    (fun hh (t : ReconState) =>
                       hh = Mem.put h reconstructed (rc_reconstructed t) /\
                       rc_norm t = rc_norm st)
                    lo hi fH fV h st) as H
  end.
  cbv beta in H. refine (proj1 (H _ _)); clear H.
  - split; [|reflexivity]. rewrite <- Er. symmetry. apply put_cell.
  - intros i hh t [-> Et].
    rewrite !load_put_other by assumption. rewrite load_put_same by assumption.
    unfold Mem.load. rewrite En, Et.
    destruct (gtb (aget (rc_norm st) i) eps); cbn [rc_reconstructed rc_norm].
    + split; [now rewrite store_put | congruence].
    + split; [reflexivity | congruence].
Qed.

(** [createBuffer] and [copyToChannel]: the new buffer holds an array of its
    own, the most recent of the store. *)
Lemma finish_store (rate : num) (src : Mem.ref) (h : Mem.Heap) :
  (src < length h)%nat ->
  (' (nb, h') <- Mem.createBuffer (Mem.len h src) rate h ;;
   Ok (nb, Mem.copyToChannel nb src h')) =
  (vb <- createBuffer (Z.of_nat (length (Mem.cell h src))) rate ;;
   Ok (Mem.mkAudioBuffer (length h) rate,
       h ++ [channelData (copyToChannel vb (Mem.cell h src))])).
Proof.
  intros Hs. unfold Mem.createBuffer, createBuffer, Mem.len, Mem.alloc.
  destruct (Z.leb_spec (Z.of_nat (length (Mem.cell h src))) 0); [reflexivity|].
  rewrite new_Float32Array_ok by lia. cbn [bind].
  do 2 f_equal. unfold Mem.copyToChannel, copyToChannel, Mem.len.
  cbn [Mem.channel channelData].
  rewrite cell_app_old by assumption.
  set (z := repeat (ofZ 0) (Z.to_nat (Z.of_nat (length (Mem.cell h src))))).
  rewrite <- (put_fresh h z z) at 1.
  rewrite (store_loop (h ++ [z]) (length h) 0 _ _
             (fun i _ => aget (Mem.cell h src) i)).
  - apply put_fresh.
  - rewrite length_app. simpl. lia.
  - intros i y. unfold Mem.load. rewrite cell_put_other by lia.
    now rewrite cell_app_old by assumption.
Qed.

End FramesInStore.

(** ** The two pipelines in the store and on values *)
Section PipelinesInStore.
Context {N : JSNumber}.

Lemma frame_loop_rel {S T : Type} (R : S -> T -> Prop) (numFrames : jsint)
  (f : Z -> S -> outcome S) (g : Z -> T -> outcome T) s t :
  R s t -> (forall i s t, R s t -> orel R (f i s) (g i t)) ->
  orel R (frame_loop numFrames f s) (frame_loop numFrames g t).
Proof.
  intros H0 Hs. destruct numFrames; cbn [frame_loop orel]; auto.
  apply for_uptoM_rel; auto.
Qed.

(** What a call leaves behind, next to what the value-level function
    returns: the buffer handed back holds an array that did not exist
    before the call, of the contents the value-level function computes, and
    every array that existed before the call is as it was. *)
Definition reconstruction_in_store (h0 : Mem.Heap) (b : Mem.AudioBuffer)
  (x : Mem.AudioBuffer * Mem.Heap) (y : AudioBuffer * Float32Array) : Prop :=
  (length h0 <= Mem.channel (fst x) < length (snd x))%nat /\
  (forall r, (r < length h0)%nat -> Mem.cell (snd x) r = Mem.cell h0 r) /\
  Mem.cell (snd x) (Mem.channel (fst x)) = channelData (fst y) /\
  Mem.sampleRate (fst x) = sampleRate (fst y) /\
  snd y = Mem.cell h0 (Mem.channel b).

Lemma bind_assoc {A B C : Type} (o : outcome A) (f : A -> outcome B)
  (g : B -> outcome C) :
  bind (bind o f) g = bind o (fun x => bind (f x) g).
Proof. destruct o; reflexivity. Qed.

Lemma FFT_new_fields (n : Z) (fv : FFT) :
  FFT_new n = Ok fv -> fft_n fv = n /\ fft_m fv = Math_log2_bound n.
Proof.
  unfold FFT_new. intros H.
  destruct (new_Float32Array (Z.quot n 2)) as [z| |]; cbn [bind] in H; try discriminate.
  destruct (for_upto 0 ((n + 1) / 2) _ (z, z)) as [c s].
  injection H as <-. split; reflexivity.
Qed.

Lemma applyMaskAndReconstruct_store (b : Mem.AudioBuffer) (anns : list Annotation)
  (n hop : Z) (h0 : Mem.Heap) :
  (Mem.channel b < length h0)%nat ->
  orel (reconstruction_in_store h0 b)
    (Mem.applyMaskAndReconstruct b anns n hop h0)
    (applyMaskAndReconstruct
       (mkAudioBuffer (Mem.cell h0 (Mem.channel b)) (Mem.sampleRate b)) anns n hop).
Proof.
  intros Hd.
  unfold Mem.applyMaskAndReconstruct, applyMaskAndReconstruct, reconstruct_state,
    buffer_length.
  cbn [channelData sampleRate]. cbn zeta.
  set (data := Mem.channel b) in *. set (dv := Mem.cell h0 data).
  rewrite FFT_new_store.
  destruct (FFT_new n) as [fv| |] eqn:Efv; cbn [bind orel]; auto.
  destruct (FFT_new_fields n fv Efv) as [Hn Hm].
  set (fm := Mem.mkFFT n (Math_log2_bound n) (length h0) (S (length h0))).
  set (h1 := h0 ++ [fft_cos fv; fft_sin fv]).
  assert (L1 : length h1 = S (S (length h0))) by (unfold h1; rewrite length_app; simpl; lia).
  rewrite hanningWindow_store.
  destruct (hanningWindow n) as [w| |]; cbn [bind orel]; auto.
  set (h2 := h1 ++ [w]).
  assert (L2 : length h2 = S (length h1)) by apply length_snoc.
  assert (O1 : forall r, (r < length h0)%nat -> Mem.cell h1 r = Mem.cell h0 r).
  { intros r Hr. unfold h1. now rewrite cell_app_old by lia. }
  assert (O2 : forall r, (r < length h1)%nat -> Mem.cell h2 r = Mem.cell h1 r).
  { intros r Hr. unfold h2. now rewrite cell_app_old by lia. }
  assert (D2 : Mem.cell h2 data = dv) by (rewrite O2, O1 by lia; reflexivity).
  replace (Mem.len h2 data) with (Z.of_nat (length dv))
    by (unfold Mem.len; now rewrite D2).
  unfold Mem.alloc at 1.
  rewrite new_Float32Array_ok by lia. cbn [bind].
  set (z := repeat (ofZ 0) (Z.to_nat (Z.of_nat (length dv)))).
  match goal with |- context [Mem.len ?hh data] => set (h3 := hh) end.
  assert (L3 : length h3 = S (length h2)) by apply length_snoc.
  assert (O3 : forall r, (r < length h2)%nat -> Mem.cell h3 r = Mem.cell h2 r).
  { intros r Hr. unfold h3. now rewrite cell_app_old by lia. }
  assert (D3 : Mem.cell h3 data = dv) by (rewrite O3 by lia; exact D2).
  replace (Mem.len h3 data) with (Z.of_nat (length dv))
    by (unfold Mem.len; now rewrite D3).
  unfold Mem.alloc at 1.
  rewrite new_Float32Array_ok by lia. cbn [bind]. fold z.
  match goal with
  | |- context [frame_loop _ (Mem.recon_frame _ _ _ _ _ _ _ _ _) ?hh] => set (h4 := hh)
  end.
  assert (L4 : length h4 = S (length h3)) by apply length_snoc.
  assert (O4 : forall r, (r < length h3)%nat -> Mem.cell h4 r = Mem.cell h3 r).
  { intros r Hr. unfold h4. now rewrite cell_app_old by lia. }
  set (rec := length h2). set (norm := length h3). set (window := length h1).
  assert (Hfft : same_fft h4 fm fv).
  { unfold same_fft, fm. cbn [Mem.fft_n Mem.fft_m Mem.fft_cos Mem.fft_sin].
    rewrite !O4, !O3, !O2 by lia. unfold h1.
    rewrite cell_fresh0, cell_fresh1. auto. }
  assert (Hw : Mem.cell h4 window = w).
  { rewrite O4, O3 by (unfold window; lia). unfold h2, window. apply cell_fresh. }
  assert (Hrec : Mem.cell h4 rec = z).
  { rewrite O4 by (unfold rec; lia). unfold h3, rec. apply cell_fresh. }
  assert (Hnorm : Mem.cell h4 norm = z) by (unfold h4, norm; apply cell_fresh).
  assert (Hdata : Mem.cell h4 data = dv) by (rewrite O4 by lia; exact D3).
  rewrite bind_assoc.
  apply (orel_bind
           (fun hh st => recon_sees h4 rec norm hh st /\ rc_data st = Mem.cell h4 data)).
  - apply frame_loop_rel.
    + split; [|now rewrite Hdata]. split; [lia|]. split; [exact Hrec|].
      split; [exact Hnorm | reflexivity].
    + intros i hh st HR. rewrite <- Hw.
      apply recon_frame_store; try exact HR; try exact Hfft;
        unfold fm, rec, norm, window; cbn [Mem.fft_cos Mem.fft_sin]; lia.
  - intros hh st [(Hlen & Er & En & Hold) Ed]. cbn [bind].
    rewrite (normalize_store rec norm hh st) by (unfold rec, norm in *; lia || assumption).
    set (X := rc_reconstructed (normalize st)).
    set (h5 := Mem.put hh rec X).
    assert (L5 : length h5 = length hh) by apply put_length.
    assert (E5 : Mem.cell h5 rec = X).
    { unfold h5. apply cell_put_same. unfold rec. lia. }
    pose proof (finish_store (Mem.sampleRate b) rec h5 ltac:(unfold rec; lia)) as F.
    rewrite E5 in F. rewrite F. clear F.
    destruct (createBuffer (Z.of_nat (length X)) (Mem.sampleRate b)) as [vb| |] eqn:Evb;
      cbn [bind orel]; auto.
    unfold reconstruction_in_store. cbn [fst snd Mem.channel Mem.sampleRate].
    split; [rewrite length_app; simpl; lia|].
    split; [|split; [apply cell_fresh | split]].
    + intros r Hr. rewrite cell_app_old by lia. unfold h5.
      rewrite cell_put_other by (unfold rec; lia).
      rewrite Hold by (unfold rec, norm; lia).
      now rewrite O4, O3, O2, O1 by lia.
    + unfold createBuffer in Evb.
      destruct (Z.of_nat (length X) <=? 0); [discriminate|].
      injection Evb as <-. reflexivity.
    + destruct (normalize_lengths st) as (A & _). rewrite A, Ed, Hdata. reflexivity.
Qed.


Lemma cells_seq (h l : Mem.Heap) :
  map (Mem.cell (h ++ l)) (seq (length h) (length l)) = l.
Proof.
  revert h. induction l as [|a l IH]; intros h; [reflexivity|].
  cbn [length seq map]. rewrite cell_fresh0. f_equal.
  replace (h ++ a :: l) with ((h ++ [a]) ++ l) by (now rewrite <- app_assoc).
  rewrite <- (length_snoc h a). apply IH.
Qed.

(** What the frame loop of [computeSpectrogram] maintains. *)
Definition spec_sees (hb : Mem.Heap) (dv : Float32Array)
  (x : Mem.Heap * list (list num)) (st : SpecState) : Prop :=
  (length hb <= length (fst x))%nat /\
  (forall r, (r < length hb)%nat -> Mem.cell (fst x) r = Mem.cell hb r) /\
  snd x = sp_rows st /\ sp_data st = dv.

Lemma spectrogram_frame_store (fm : Mem.FFT) (fv : FFT) (window data : Mem.ref)
  (fbr : list Mem.ref) (n hop f : Z) (hb : Mem.Heap) (x : Mem.Heap * list (list num))
  (st : SpecState) :
  same_fft hb fm fv ->
  (Mem.fft_cos fm < length hb)%nat -> (Mem.fft_sin fm < length hb)%nat ->
  (window < length hb)%nat -> (data < length hb)%nat ->
  Forall (fun r => (r < length hb)%nat) fbr ->
  spec_sees hb (Mem.cell hb data) x st ->
  orel (spec_sees hb (Mem.cell hb data))
       (Mem.spectrogram_frame fm window fbr data n hop f x)
       (spectrogram_frame fv (Mem.cell hb window) (map (Mem.cell hb) fbr) n hop f st).
Proof.
  intros Hfft Hc Hs Hw Hd Hfb (Hlen & Hold & Erows & Edata).
  destruct x as [hh rows]. cbn [fst snd] in *.
  unfold Mem.spectrogram_frame, spectrogram_frame, Mem.alloc. cbn zeta.
  destruct (new_Float32Array n) as [z| |]; cbn [bind orel]; auto.
  rewrite length_snoc, app_two.
  set (h2 := hh ++ [z; z]).
  assert (L2 : length h2 = S (S (length hh))) by (unfold h2; rewrite length_app; simpl; lia).
  assert (Hne : length hh <> S (length hh)) by lia.
  assert (Hre : (length hh < length h2)%nat) by lia.
  assert (Him : (S (length hh) < length h2)%nat) by lia.
  assert (Hfft' : same_fft hh fm fv).
  { destruct Hfft as (A & B & C & D). unfold same_fft. now rewrite !Hold by assumption. }
  assert (Hfft2 : same_fft h2 fm fv) by (apply same_fft_app; assumption || lia).
  rewrite window_frame_store by lia.
  unfold h2 at 2 3 4. rewrite !cell_app_old by lia. rewrite cell_fresh0.
  rewrite (Hold window), (Hold data), Edata by assumption.
  set (wf := window_frame (Mem.cell hb data) (Mem.cell hb window) n (f * hop) z).
  assert (E0 : Mem.put h2 (length hh) wf = put2 h2 (length hh) (S (length hh)) (wf, z)).
  { unfold h2. rewrite put2_fresh. apply put_fresh0. }
  rewrite E0.
  rewrite (FFT_forward_store h2 (length hh) (S (length hh)) Hne Hre Him fm fv Hfft2)
    by lia.
  cbn [fst snd]. rewrite bind_assoc.
  destruct (FFT_forward fv wf z) as [[a b]| |]; cbn [bind orel]; auto.
  unfold h2. rewrite put2_fresh. cbn [fst snd].
  set (h3 := hh ++ [a; b]).
  assert (L3 : length h3 = S (S (length hh))) by (unfold h3; rewrite length_app; simpl; lia).
  rewrite (magnitudes_of_store n (length hh) (S (length hh)) h3) by lia.
  unfold h3 at 1 2. rewrite cell_fresh0, cell_fresh1. rewrite bind_assoc.
  destruct (magnitudes_of n a b) as [mg| |]; cbn [bind orel]; auto.
  unfold spec_sees. cbn [fst snd sp_rows sp_data].
  split; [rewrite length_snoc; lia|]. split; [|split; [|reflexivity]].
  - intros r Hr. rewrite cell_app_old by lia. unfold h3.
    rewrite cell_app_old by lia. now apply Hold.
  - rewrite Erows. do 2 f_equal. rewrite map_map. apply map_ext_in.
    intros r Hin. rewrite mel_value_store, cell_fresh. f_equal.
    rewrite Forall_forall in Hfb. specialize (Hfb r Hin).
    rewrite cell_app_old by lia. unfold h3. rewrite cell_app_old by lia.
    now apply Hold.
Qed.

Definition spectrogram_in_store (h0 : Mem.Heap) (b : Mem.AudioBuffer)
  (x : SpectrogramData * Mem.Heap) (y : SpectrogramData * Float32Array) : Prop :=
  fst x = fst y /\
  (length h0 <= length (snd x))%nat /\
  (forall r, (r < length h0)%nat -> Mem.cell (snd x) r = Mem.cell h0 r) /\
  snd y = Mem.cell h0 (Mem.channel b).

Lemma computeSpectrogram_store (b : Mem.AudioBuffer) (n hop m : Z) (h0 : Mem.Heap) :
  (Mem.channel b < length h0)%nat ->
  orel (spectrogram_in_store h0 b)
    (Mem.computeSpectrogram b n hop m h0)
    (computeSpectrogram
       (mkAudioBuffer (Mem.cell h0 (Mem.channel b)) (Mem.sampleRate b)) n hop m).
Proof.
  intros Hd.
  unfold Mem.computeSpectrogram, computeSpectrogram.
  cbn [channelData sampleRate]. cbn zeta.
  set (data := Mem.channel b) in *. set (dv := Mem.cell h0 data).
  set (sr := Mem.sampleRate b).
  rewrite FFT_new_store.
  destruct (FFT_new n) as [fv| |] eqn:Efv; cbn [bind orel]; auto.
  destruct (FFT_new_fields n fv Efv) as [Hn Hm].
  set (fm := Mem.mkFFT n (Math_log2_bound n) (length h0) (S (length h0))).
  set (h1 := h0 ++ [fft_cos fv; fft_sin fv]).
  assert (L1 : length h1 = S (S (length h0))) by (unfold h1; rewrite length_app; simpl; lia).
  rewrite hanningWindow_store.
  destruct (hanningWindow n) as [w| |]; cbn [bind orel]; auto.
  set (h2 := h1 ++ [w]).
  assert (L2 : length h2 = S (length h1)) by apply length_snoc.
  assert (O1 : forall r, (r < length h0)%nat -> Mem.cell h1 r = Mem.cell h0 r).
  { intros r Hr. unfold h1. now rewrite cell_app_old by lia. }
  assert (O2 : forall r, (r < length h1)%nat -> Mem.cell h2 r = Mem.cell h1 r).
  { intros r Hr. unfold h2. now rewrite cell_app_old by lia. }
  assert (D2 : Mem.cell h2 data = dv) by (rewrite O2, O1 by lia; reflexivity).
  replace (Mem.len h2 data) with (Z.of_nat (length dv))
    by (unfold Mem.len; now rewrite D2).
  rewrite melPoints_store.
  destruct (melPoints sr m) as [mp| |]; cbn [bind orel]; auto.
  set (h3 := h2 ++ [mp]).
  assert (L3 : length h3 = S (length h2)) by apply length_snoc.
  assert (O3 : forall r, (r < length h2)%nat -> Mem.cell h3 r = Mem.cell h2 r).
  { intros r Hr. unfold h3. now rewrite cell_app_old by lia. }
  assert (Emp : Mem.cell h3 (length h2) = mp) by apply cell_fresh.
  rewrite Emp. unfold Mem.build_filterbank, build_filterbank.
  rewrite mapM_build_filter_store.
  destruct (mapM (build_filter n (binPoints n sr mp)) (zsteps 0 1 (Z.to_nat m)))
    as [fb| |]; cbn [bind orel]; auto.
  set (h4 := h3 ++ fb).
  assert (L4 : (length h3 <= length h4)%nat) by (unfold h4; rewrite length_app; lia).
  assert (O4 : forall r, (r < length h3)%nat -> Mem.cell h4 r = Mem.cell h3 r).
  { intros r Hr. unfold h4. now rewrite cell_app_old by lia. }
  set (fbr := seq (length h3) (length fb)).
  assert (Efb : map (Mem.cell h4) fbr = fb) by apply cells_seq.
  assert (Hfft : same_fft h4 fm fv).
  { unfold same_fft, fm. cbn [Mem.fft_n Mem.fft_m Mem.fft_cos Mem.fft_sin].
    rewrite !O4, !O3, !O2 by lia. unfold h1.
    rewrite cell_fresh0, cell_fresh1. auto. }
  assert (Hw : Mem.cell h4 (length h1) = w).
  { rewrite O4, O3 by lia. apply cell_fresh. }
  assert (Hdata : Mem.cell h4 data = dv) by (rewrite O4, O3 by lia; exact D2).
  apply (orel_bind (spec_sees h4 (Mem.cell h4 data))).
  - apply frame_loop_rel.
    + unfold spec_sees. cbn [fst snd sp_rows sp_data]. rewrite Hdata. auto.
    + intros i x st HR. rewrite <- Hw, <- Efb.
      apply spectrogram_frame_store; try exact HR; try exact Hfft;
        unfold fm; cbn [Mem.fft_cos Mem.fft_sin]; try lia.
      apply Forall_forall. intros r Hin. apply in_seq in Hin.
      unfold h4. rewrite length_app. lia.
  - intros [hh rows] st (Hlen & Hold & Erows & Edata). cbn [fst snd] in *.
    cbn [bind orel]. unfold spectrogram_in_store. cbn [fst snd].
    split; [|split; [lia | split]].
    + rewrite Erows. rewrite Hold, O4 by lia. now rewrite Emp.
    + intros r Hr. now rewrite Hold, O4, O3, O2, O1 by lia.
    + now rewrite Edata, Hdata.
Qed.

End PipelinesInStore.

(** C8: with every typed array in a store and the input buffer holding one
    of them.  Whenever [applyMaskAndReconstruct] returns, whatever the
    configuration, the buffer it returns holds an array that did not exist
    before the call, of the length of the input's, with the sample rate of
    the input, and every array that existed before the call, the input's
    among them, is as it was; whenever [computeSpectrogram] returns, every
    array that existed before the call is as it was; both compute what the
    value-level functions compute.  On a power-of-two window with a positive
    hop, a non-empty input and finite mel bins, both calls return. *)
Theorem pipelines_keep_input {N : JSNumber} (h0 : Mem.Heap) (buf : Mem.AudioBuffer)
  (anns : list Annotation) (n hop m : Z) :
  (Mem.channel buf < length h0)%nat ->
  (forall out h1,
     Mem.applyMaskAndReconstruct buf anns n hop h0 = Ok (out, h1) ->
     (length h0 <= Mem.channel out < length h1)%nat /\
     (forall r, (r < length h0)%nat -> Mem.cell h1 r = Mem.cell h0 r) /\
     length (Mem.cell h1 (Mem.channel out)) =
       length (Mem.cell h0 (Mem.channel buf)) /\
     Mem.sampleRate out = Mem.sampleRate buf /\
     applyMaskAndReconstruct
       (mkAudioBuffer (Mem.cell h0 (Mem.channel buf)) (Mem.sampleRate buf)) anns n hop =
     Ok (mkAudioBuffer (Mem.cell h1 (Mem.channel out)) (Mem.sampleRate out),
         Mem.cell h0 (Mem.channel buf))) /\
  (forall r h1,
     Mem.computeSpectrogram buf n hop m h0 = Ok (r, h1) ->
     (forall a, (a < length h0)%nat -> Mem.cell h1 a = Mem.cell h0 a) /\
     computeSpectrogram
       (mkAudioBuffer (Mem.cell h0 (Mem.channel buf)) (Mem.sampleRate buf)) n hop m =
     Ok (r, Mem.cell h0 (Mem.channel buf))) /\
  (forall p : nat,
     (p <= 30)%nat -> n = 2 ^ Z.of_nat p -> 0 < hop -> 0 <= m ->
     (0 < length (Mem.cell h0 (Mem.channel buf)))%nat ->
     bins_finite (Mem.sampleRate buf) n m ->
     (exists out h1, Mem.applyMaskAndReconstruct buf anns n hop h0 = Ok (out, h1)) /\
     (exists r h1, Mem.computeSpectrogram buf n hop m h0 = Ok (r, h1))).
Proof.
  intros Hd.
  pose proof (applyMaskAndReconstruct_store buf anns n hop h0 Hd) as HA.
  pose proof (computeSpectrogram_store buf n hop m h0 Hd) as HS.
  set (vbuf := mkAudioBuffer (Mem.cell h0 (Mem.channel buf)) (Mem.sampleRate buf)) in *.
  split; [|split].
  - intros out h1 E. rewrite E in HA.
    destruct (applyMaskAndReconstruct vbuf anns n hop) as [[vout d]| |] eqn:Ev;
      cbn [orel] in HA; try contradiction.
    destruct HA as (Hfresh & Hold & Ec & Er & Ed). cbn [fst snd] in *.
    destruct (applyMaskAndReconstruct_data vbuf anns n hop vout d Ev) as (_ & Hl & Hr).
    split; [exact Hfresh|]. split; [exact Hold|].
    split; [rewrite Ec; exact Hl|]. split; [rewrite Er; exact Hr|].
    rewrite Ec, Er, Ed. destruct vout. reflexivity.
  - intros r h1 E. rewrite E in HS.
    destruct (computeSpectrogram vbuf n hop m) as [[rv d]| |] eqn:Ev;
      cbn [orel] in HS; try contradiction.
    destruct HS as (Er & _ & Hold & Ed). cbn [fst snd] in *.
    split; [exact Hold|]. now rewrite Er, Ed.
  - intros p Hp -> Hh Hm HL Hb. split.
    + destruct (applyMaskAndReconstruct_returns vbuf anns p hop Hp Hh) as (vout & Ev & _).
      { unfold buffer_length, vbuf. cbn [channelData]. lia. }
      rewrite Ev in HA.
      destruct (Mem.applyMaskAndReconstruct buf anns (2 ^ Z.of_nat p) hop h0)
        as [[out h1]| |]; cbn [orel] in HA; try contradiction.
      now exists out, h1.
    + destruct (computeSpectrogram_returns vbuf p hop m Hp Hh Hm Hb) as (rv & Ev & _).
      rewrite Ev in HS.
      destruct (Mem.computeSpectrogram buf (2 ^ Z.of_nat p) hop m h0)
        as [[r h1]| |]; cbn [orel] in HS; try contradiction.
      now exists r, h1.
Qed.

(** A store that holds one array of eight samples, the channel of the
    input: the reconstruction with a window of 4 and a hop of 1 returns a
    buffer on an array of its own, and the eight samples are as they
    were. *)
Lemma pipelines_keep_input_witness :
  exists (out : @Mem.AudioBuffer ExactReal) (h1 : @Mem.Heap ExactReal),
    Mem.applyMaskAndReconstruct (@Mem.mkAudioBuffer ExactReal 0%nat 8000%R) [whole_span] 4 1
      [real_array [1; 2; 3; 4; 5; 6; 7; 8]%R] = Ok (out, h1) /\
    (1 <= Mem.channel out < length h1)%nat /\
    (forall r, (r < 1)%nat ->
               Mem.cell h1 r = Mem.cell [real_array [1; 2; 3; 4; 5; 6; 7; 8]%R] r) /\
    length (Mem.cell h1 (Mem.channel out)) = 8%nat /\
    Mem.sampleRate out = 8000%R.
Proof.
  destruct (pipelines_keep_input (N := ExactReal)
              [real_array [1; 2; 3; 4; 5; 6; 7; 8]%R]
              (@Mem.mkAudioBuffer ExactReal 0%nat 8000%R) [whole_span] 4 1 3) as (A & _ & C).
  - simpl. lia.
  - destruct (C 2%nat) as [(out & h1 & E) _].
    + lia.
    + reflexivity.
    + lia.
    + lia.
    + simpl. lia.
    + apply ExactReal_bins_finite.
    + exists out, h1. split; [exact E|].
      destruct (A out h1 E) as (H1 & H2 & H3 & H4 & _).
      split; [exact H1|]. split; [exact H2|]. split; [exact H3 | exact H4].
Defined.

(** [computeSpectrogram] run on binary64 numbers, sixteen samples, a window
    of 8, a hop of 2 and 3 mel bins: the result is the one of the
    value-level function, and the input array is as it was. *)
Lemma spectrogram_store_run :
  match Mem.computeSpectrogram (N := Float64) (Mem.mkAudioBuffer 0%nat demo_rate)
          8 2 3 [ones16] with
  | Ok (r, h1) =>
      match computeSpectrogram (N := Float64) (mkAudioBuffer ones16 demo_rate) 8 2 3 with
      | Ok (rv, _) =>
          spectrogram r = spectrogram rv /\ frequencies r = frequencies rv /\
          times r = times rv /\ Mem.cell h1 0%nat = ones16
      | _ => False
      end
  | _ => False
  end.
Proof. vm_compute. repeat split; reflexivity. Qed.

(** The same call run on binary64 numbers: sixteen samples, a window of 8
    and a hop of 2.  The store grows from 1 array to 15, the new buffer
    holds the last one, and the input array is as it was. *)
Lemma reconstruction_store_run :
  match Mem.applyMaskAndReconstruct (N := Float64) (Mem.mkAudioBuffer 0%nat demo_rate)
          [mkAnnotation (N := Float64) 0.25%float 0.5%float] 8 2 [ones16] with
  | Ok (out, h1) =>
      Mem.channel out = 14%nat /\ length h1 = 15%nat /\ Mem.cell h1 0%nat = ones16 /\
      match applyMaskAndReconstruct (N := Float64) (mkAudioBuffer ones16 demo_rate)
              [mkAnnotation (N := Float64) 0.25%float 0.5%float] 8 2 with
      | Ok (vout, _) => Mem.cell h1 14%nat = channelData vout
      | _ => False
      end
  | _ => False
  end.
Proof. vm_compute. repeat split; reflexivity. Qed.
